(** * Verification of the sample-network unmixer

    A shallow embedding of [sample_network_unmix.py]: the reciprocal
    parameter pair, the convex log-ratio surrogate, the flux accumulation
    along the drainage network (forward in [mix_downstream], symbolic in
    [SampleNetworkUnmixer._build_primary_terms]), the inversion grid and the
    solve driver with its parameter binding and result extraction.

    Conventions of the model.
    - Python floats and numpy float64 values are modelled by exact
      rationals ([Q]); equalities between computed numbers are therefore
      stated with [==] where the code performs arithmetic.  Where a float
      is truncated to a pixel index (the cell centres and block edges of
      the inversion grid) its rounding decides which pixel is meant; these
      computations are modelled with the rounding of IEEE 754 doubles.
    - Python exceptions are values of [exn]; code that may raise returns a
      [result].  An [assert] raises [AssertionError].
    - cvxpy, networkx and numpy are libraries outside the repository.  What
      the code needs from them that cannot be read off the repository
      (the geometric mean's transcendental functions, the attribute check of
      a cvxpy parameter, the numerical solver) is collected in the class
      [Backend]. *)

From Stdlib Require Import QArith Qminmax Qround Qpower Lqa ZArith Lia.
From stdpp Require Import base option list gmap strings.

Local Open Scope Q_scope.

(** ** Exceptions and results *)

Inductive exn : Type :=
| AssertionError
| KeyError
| ValueError
| TypeError
| ZeroDivisionError
| IndexError
| AttributeError
| NetworkXUnfeasible
| SolverError
| Exception (msg : string).

Inductive result (A : Type) : Type :=
| Ok (a : A)
| Raise (e : exn).
Arguments Ok {A} a.
Arguments Raise {A} e.

Definition rbind {A B} (m : result A) (f : A → result B) : result B :=
  match m with
  | Ok a => f a
  | Raise e => Raise e
  end.

Notation "'let!' x ':=' m 'in' k" := (rbind m (fun x => k))
  (at level 10, x name, m at level 100, k at level 200).

Definition is_ok {A} (r : result A) : bool :=
  match r with Ok _ => true | Raise _ => false end.

(** [assert c] *)
Definition py_assert (c : bool) : result unit :=
  if c then Ok tt else Raise AssertionError.

(** [d[k]] on a dict *)
Definition getitem {V} (d : gmap string V) (k : string) : result V :=
  match d !! k with
  | Some v => Ok v
  | None => Raise KeyError
  end.

(** A monadic left fold: a [for] loop whose body may raise. *)
Fixpoint for_each {S X} (body : S → X → result S) (xs : list X) (s : S)
  : result S :=
  match xs with
  | [] => Ok s
  | x :: xs' => let! s' := body s x in for_each body xs' s'
  end.

(** Truthiness of a Python [str]: the empty string is false. *)
Definition str_truthy (s : string) : bool :=
  match s with
  | EmptyString => false
  | String _ _ => true
  end.

(** Entries of a float array: a number or [nan]. *)
Inductive npfloat : Type :=
| Num (q : Q)
| NaN.

(** Assigning [None] into a float array stores [nan]. *)
Definition np_of_option (v : option Q) : npfloat :=
  match v with
  | Some q => Num q
  | None => NaN
  end.

(** [x * c] for an array entry [x] and a float [c] *)
Definition np_scale (c : Q) (x : npfloat) : npfloat :=
  match x with
  | Num q => Num (q * c)
  | NaN => NaN
  end.

(** ** The cvxpy layer *)

(** Sign attributes given to [cp.Parameter] / [cp.Variable]. *)
Inductive attribute : Type :=
| Unconstrained
| Pos
| Nonneg.

(** Optimisation variables created by the problem.  Every
    [cp.Variable(pos=True)] call creates a fresh object; the model names it
    by the place that created it. *)
Inductive var : Type :=
| TracerValue (site : string)
| TotalTracerFluxDummy (site : string)
| NormalisedConcentrationDummy (site : string)
| Concentration (j i : nat).

(** Parameters created by the problem. *)
Inductive param : Type :=
| ExportRate (site : string)
| TotalFluxP (site : string)
| TotalFluxRP (site : string)
| ObservedP (site : string)
| ObservedRP (site : string)
| RegularizerStrength.

(** cvxpy expression trees, as far as the program builds them. *)
Inductive expr : Type :=
| Const (q : Q)
| Par (p : param)
| Var (v : var)
| Add (a b : expr)
| Sub (a b : expr)
| Mul (a b : expr)
| DivConst (a : expr) (n : nat)
| Maximum (a b : expr)
| InvPos (a : expr).

Inductive constraint : Type :=
| EqC (lhs rhs : expr).

(** Python arithmetic on attribute values that are floats until the first
    cvxpy object is mixed in: float with float stays a float. *)
Definition py_add (a b : expr) : expr :=
  match a, b with
  | Const x, Const y => Const (x + y)
  | _, _ => Add a b
  end.

Definition py_mul (a b : expr) : expr :=
  match a, b with
  | Const x, Const y => Const (x * y)
  | _, _ => Mul a b
  end.

(** [cp.sum(concs)] for a Python list of expressions: left fold from 0. *)
Definition cp_sum (es : list expr) : expr :=
  fold_left Add es (Const 0).

(** Numeric value of an expression under total valuations of parameters and
    variables. *)
Fixpoint eval (ρ : param → Q) (σ : var → Q) (e : expr) : Q :=
  match e with
  | Const q => q
  | Par p => ρ p
  | Var v => σ v
  | Add a b => eval ρ σ a + eval ρ σ b
  | Sub a b => eval ρ σ a - eval ρ σ b
  | Mul a b => eval ρ σ a * eval ρ σ b
  | DivConst a n => eval ρ σ a / inject_Z (Z.of_nat n)
  | Maximum a b => Qmax (eval ρ σ a) (eval ρ σ b)
  | InvPos a => / eval ρ σ a
  end.

(** The [.value] property: [None] as soon as a leaf has no value. *)
Fixpoint value (ρ : param → option Q) (σ : var → option Q) (e : expr)
  : option Q :=
  match e with
  | Const q => Some q
  | Par p => ρ p
  | Var v => σ v
  | Add a b => x ← value ρ σ a; y ← value ρ σ b; Some (x + y)
  | Sub a b => x ← value ρ σ a; y ← value ρ σ b; Some (x - y)
  | Mul a b => x ← value ρ σ a; y ← value ρ σ b; Some (x * y)
  | DivConst a n => x ← value ρ σ a; Some (x / inject_Z (Z.of_nat n))
  | Maximum a b => x ← value ρ σ a; y ← value ρ σ b; Some (Qmax x y)
  | InvPos a => x ← value ρ σ a; Some (/ x)
  end.

(** ** The sample network *)

(** [pyfastunmix.SampleNode] with the attributes the Python code attaches
    to it.  The [my_*] attributes hold floats in [mix_downstream] and cvxpy
    expressions in the unmixer; a float is a [Const].  They are written
    before they are read on every path, so the record carries no "unset"
    state for them. *)
Record SampleNode : Type := mkSampleNode {
  name : string;
  area : Q;
  label : Z;
  downstream_node : string;
  rltv_area : Q;
  my_export_rate : expr;
  my_tracer_value : expr;
  my_flux : expr;
  my_total_flux : expr;
  my_tracer_flux : expr;
  my_total_tracer_flux : expr;
}.

(** The [nx.DiGraph] of sample sites: nodes in insertion order, the
    ["data"] attribute of each node, and the successor lists.  Node data are
    shared mutable objects in Python; the model keeps them in one store
    keyed by node, which every read and write goes through. *)
Record DiGraph : Type := mkDiGraph {
  node_list : list string;
  node_data : gmap string SampleNode;
  adj : gmap string (list string);
}.

(** [list(G.successors(x))] *)
Definition successors (G : DiGraph) (x : string) : list string :=
  default [] (adj G !! x).

Definition set_node_data (G : DiGraph) (x : string) (d : SampleNode) : DiGraph :=
  {| node_list := node_list G;
     node_data := <[x := d]> (node_data G);
     adj := adj G |}.

(** The optimisation problem handed to cvxpy: the objective is
    [norm(vstack(primary))], plus [strength * norm(vstack(regularizer))]
    when there are regularizer terms. *)
Record Problem : Type := mkProblem {
  objective_primary : list expr;
  objective_regularizer : list expr;
  problem_constraints : list constraint;
}.

(** What the program takes from outside the repository. *)
Class Backend : Type := {
  (** [np.exp(np.log(x).mean())] *)
  geo_mean : list Q → Q;
  (** cvxpy's check of a value against a leaf's sign attribute; a value
      that fails it makes the [value] setter raise [ValueError]. *)
  accepts : attribute → Q → bool;
  (** [nx.topological_sort(G)], a generator over the nodes and edges of
      [G]: the nodes it yields, and whether it then ends normally ([true])
      or raises [NetworkXUnfeasible] ([false]). *)
  topological_sort : list string → gmap string (list string) → list string * bool;
  (** [problem.is_dcp(dpp=True)] *)
  is_dcp : Problem → bool;
  (** [problem.solve] with the named option bundle, under the
      current parameter values: the variable values it leaves behind, or
      the exception it raises. *)
  cp_solve : string → Problem → (param → option Q) → result (var → option Q);
}.

(** [nx_get_downstream] *)
Definition nx_get_downstream (G : DiGraph) (x : string) : result (option string) :=
  match successors G x with
  | [] => Ok None
  | [s] => Ok (Some s)
  | _ => Raise (Exception "More than one downstream neighbour!")
  end.

(** Both totals of a node set to the float [0.0]. *)
Definition zero_totals (d : SampleNode) : SampleNode :=
  {| name := name d; area := area d; label := label d;
     downstream_node := downstream_node d; rltv_area := rltv_area d;
     my_export_rate := my_export_rate d; my_tracer_value := my_tracer_value d;
     my_flux := my_flux d; my_total_flux := Const 0;
     my_tracer_flux := my_tracer_flux d; my_total_tracer_flux := Const 0 |}.

(** [for _, data in G.nodes(data=True): data["data"].my_total_... = 0.0] *)
Definition reset_totals (G : DiGraph) : result DiGraph :=
  for_each
    (fun G x =>
       let! d := getitem (node_data G) x in
       Ok (set_node_data G x (zero_totals d)))
    (node_list G) G.

(** The statements of the loop body from [my_export_rate = ...] to
    [my_total_tracer_flux += my_tracer_flux], for the area factor [a]. *)
Definition own_contribution (a : Q) (rate tracer : expr) (d : SampleNode)
  : SampleNode :=
  let flux := py_mul (Const a) rate in
  let tracer_flux := py_mul flux tracer in
  {| name := name d; area := area d; label := label d;
     downstream_node := downstream_node d; rltv_area := rltv_area d;
     my_export_rate := rate; my_tracer_value := tracer;
     my_flux := flux; my_total_flux := py_add (my_total_flux d) flux;
     my_tracer_flux := tracer_flux;
     my_total_tracer_flux := py_add (my_total_tracer_flux d) tracer_flux |}.

(** [downstream_data.my_total_flux += f;
     downstream_data.my_total_tracer_flux += t] *)
Definition add_totals (f t : expr) (d : SampleNode) : SampleNode :=
  {| name := name d; area := area d; label := label d;
     downstream_node := downstream_node d; rltv_area := rltv_area d;
     my_export_rate := my_export_rate d; my_tracer_value := my_tracer_value d;
     my_flux := my_flux d; my_total_flux := py_add (my_total_flux d) f;
     my_tracer_flux := my_tracer_flux d;
     my_total_tracer_flux := py_add (my_total_tracer_flux d) t |}.

(** The closing block of both traversals,
    [if ds := nx_get_downstream(G, sample_name): ...].  The condition is the
    truth value of [ds]: [None] and the empty string both skip the block.
    [G] already holds the updated data of [sample_name], so a downstream
    node that is the node itself reads the updated object, as in Python. *)
Definition propagate_downstream (G : DiGraph) (sample_name : string)
  : result DiGraph :=
  let! ds := nx_get_downstream G sample_name in
  match ds with
  | None => Ok G
  | Some ds =>
      if str_truthy ds then
        let! my_data := getitem (node_data G) sample_name in
        let! downstream_data := getitem (node_data G) ds in
        Ok (set_node_data G ds
              (add_totals (my_total_flux my_data) (my_total_tracer_flux my_data)
                 downstream_data))
      else Ok G
  end.

(** [a / b] for two floats, at least one of them a numpy float: a zero
    denominator gives [inf] or [nan] with a warning, which the model does
    not tell apart. *)
Definition np_divide (a b : expr) : npfloat :=
  match a, b with
  | Const x, Const y => if Qeq_bool y 0 then NaN else Num (x / y)
  | _, _ => NaN
  end.

(** ** mix_downstream *)

Record Mixed : Type := mkMixed {
  mixed_network : DiGraph;
  mixed_downstream_pred : gmap string npfloat;
  mixed_upstream_pred : gmap string Q;
}.

(** [export_rates[sample_name] if export_rates else 1]: a dict is false
    when it is [None] or empty. *)
Definition export_rate_or_default (export_rates : option (gmap string Q))
    (sample_name : string) : result Q :=
  match export_rates with
  | None => Ok 1
  | Some m => if decide (m = ∅) then Ok 1 else getitem m sample_name
  end.

(** One iteration of the loop of [mix_downstream].  [tracer_mean s] stands
    for [np.mean(concentration_map[areas[s]])], with [areas] covering every
    site. *)
Definition mix_downstream_body (tracer_mean : string → Q)
    (export_rates : option (gmap string Q)) (st : Mixed) (sample_name : string)
  : result Mixed :=
  let G := mixed_network st in
  let! my_data := getitem (node_data G) sample_name in
  let! rate := export_rate_or_default export_rates sample_name in
  let my_data :=
    own_contribution (area my_data) (Const rate)
      (Const (tracer_mean sample_name)) my_data in
  let G := set_node_data G sample_name my_data in
  let normalised :=
    np_divide (my_total_tracer_flux my_data) (my_total_flux my_data) in
  let! G := propagate_downstream G sample_name in
  Ok {| mixed_network := G;
        mixed_downstream_pred :=
          <[sample_name := normalised]> (mixed_downstream_pred st);
        mixed_upstream_pred :=
          <[sample_name := tracer_mean sample_name]> (mixed_upstream_pred st) |}.

Definition mix_downstream `{Backend} (sample_network : DiGraph)
    (tracer_mean : string → Q) (export_rates : option (gmap string Q))
  : result Mixed :=
  let! G := reset_totals sample_network in
  let '(order, finished) := topological_sort (node_list G) (adj G) in
  let! st :=
    for_each (mix_downstream_body tracer_mean export_rates) order
      {| mixed_network := G; mixed_downstream_pred := ∅;
         mixed_upstream_pred := ∅ |} in
  if finished then Ok st else Raise NetworkXUnfeasible.

(** ** ReciprocalParameter *)

Record CpParameter : Type := mkCpParameter {
  attributes : attribute;
  pvalue : option Q;
}.

(** [cp.Parameter(...)]: no value yet. *)
Definition new_CpParameter (a : attribute) : CpParameter :=
  {| attributes := a; pvalue := None |}.

(** [par.value = val] *)
Definition CpParameter_set_value `{Backend} (par : CpParameter) (val : option Q)
  : result CpParameter :=
  match val with
  | None => Ok {| attributes := attributes par; pvalue := None |}
  | Some v =>
      if accepts (attributes par) v
      then Ok {| attributes := attributes par; pvalue := Some v |}
      else Raise ValueError
  end.

Record ReciprocalParameter : Type := mkReciprocalParameter {
  p : CpParameter;
  rp : CpParameter;
}.

(** [ReciprocalParameter.__init__] *)
Definition new_ReciprocalParameter (a : attribute) : ReciprocalParameter :=
  {| p := new_CpParameter a; rp := new_CpParameter a |}.

(** [1 / val if val is not None else None] *)
Definition reciprocal (val : option Q) : result (option Q) :=
  match val with
  | None => Ok None
  | Some v => if Qeq_bool v 0 then Raise ZeroDivisionError else Ok (Some (1 / v))
  end.

(** The [value] setter of [ReciprocalParameter].  On an exception the
    object keeps what had been stored before the failing statement; the
    second component of the pair is the object as it is left. *)
Definition ReciprocalParameter_set_value `{Backend}
    (x : ReciprocalParameter) (val : option Q)
  : result unit * ReciprocalParameter :=
  match CpParameter_set_value (p x) val with
  | Raise e => (Raise e, x)
  | Ok p' =>
      let x1 := {| p := p'; rp := rp x |} in
      match reciprocal val with
      | Raise e => (Raise e, x1)
      | Ok r =>
          match CpParameter_set_value (rp x) r with
          | Raise e => (Raise e, x1)
          | Ok rp' => (Ok tt, {| p := p'; rp := rp' |})
          end
      end
  end.

(** The [value] getter. *)
Definition ReciprocalParameter_value (x : ReciprocalParameter) : option Q :=
  pvalue (p x).

(** ** Double-precision arithmetic *)

(** A double is a rational [z·2^e] with [|z| < 2^53]; an arithmetic
    operation on doubles returns the double nearest to its exact result, a
    tie going to the even mantissa.  The exponent range of a double is not
    modelled: the numbers computed here are array extents and fractions of
    them, far from overflow and underflow. *)

(** The nearest integer, a tie going to the even one. *)
Definition round_half_even (t : Q) : Z :=
  let f := Qfloor t in
  match Qcompare (t - inject_Z f) (1 # 2) with
  | Lt => f
  | Eq => if Z.even f then f else (f + 1)%Z
  | Gt => (f + 1)%Z
  end.

(** The binade of a positive number: the [e] with [2^e ≤ x < 2^(e+1)]. *)
Definition binade (x : Q) : Z :=
  let e := (Z.log2 (Qnum x) - Z.log2 (Zpos (Qden x)))%Z in
  if Qle_bool (2 ^ e) x then e else (e - 1)%Z.

(** The double nearest to a positive number: its 53-bit mantissa is the
    number in units of [2^(e-52)], rounded. *)
Definition fl_pos (x : Q) : Q :=
  let u := 2 ^ (binade x - 52) in
  inject_Z (round_half_even (x / u)) * u.

(** The double nearest to a number. *)
Definition fl (x : Q) : Q :=
  match Qnum x with
  | Z0 => 0
  | Zpos _ => fl_pos x
  | Zneg _ => - fl_pos (- x)
  end.

(** [a / b], [a * b], [a + b] and [a - b] on two floats. *)
Definition fdiv (a b : Q) : Q := fl (a / b).
Definition fmul (a b : Q) : Q := fl (a * b).
Definition fadd (a b : Q) : Q := fl (a + b).
Definition fsub (a b : Q) : Q := fl (a - b).

(** [float(k)], the conversion Python and numpy apply to an int operand
    of a float operation. *)
Definition float_of_nat (k : nat) : Q := fl (inject_Z (Z.of_nat k)).

(** [m / n] on two ints, [n] not zero: Python rounds the exact quotient
    once. *)
Definition int_truediv (m n : nat) : Q :=
  fl (inject_Z (Z.of_nat m) / inject_Z (Z.of_nat n)).

(** [int(x)] on a float: truncation towards zero. *)
Definition py_int (x : Q) : Z := if Qle_bool 0 x then Qfloor x else Qceiling x.

(** [np.linspace(start, stop, num)[k]] for [k < num], as numpy computes
    it: with [delta = stop - start] and [step = delta / (num - 1)] the
    entries are [arange(0, num) * step + start], and the last one is then
    overwritten with [stop].  Where [step] is zero numpy takes
    [arange(0, num) / (num - 1) * delta] for the product, and for
    [num = 1], where there is no step, [arange(0, num) * delta]. *)
Definition np_linspace (start stop : Q) (num k : nat) : Q :=
  let div := (num - 1)%nat in
  let delta := fsub stop start in
  let y := float_of_nat k in
  let y :=
    if bool_decide (0 < div)%nat then
      let step := fdiv delta (float_of_nat div) in
      if Qeq_bool step 0 then fmul (fdiv y (float_of_nat div)) delta
      else fmul y step
    else fmul y delta in
  let y := fadd y start in
  if bool_decide (1 < num ∧ k = div)%nat then stop else y.

(** ** The inversion grid *)

(** A node of the inversion grid.  The neighbour fields are references to
    other nodes of the same grid; the model stores the grid index [(j, i)]
    (row, column) of the node referred to. *)
Record InverseNode : Type := mkInverseNode {
  left_neighbour : option (nat * nat);
  top_neighbour : option (nat * nat);
  sample_name : string;
  concentration : option var;
}.

Record InverseGrid : Type := mkInverseGrid {
  nx : nat;
  ny : nat;
  area_labels : list (list Z);
  (** [node_arr[j, i]] *)
  node_arr : gmap (nat * nat) InverseNode;
  sites_to_nodes : gmap string (list InverseNode);
}.

(** [area_labels.shape]: rows, then columns. *)
Definition shape0 (a : list (list Z)) : nat := length a.
Definition shape1 (a : list (list Z)) : nat :=
  match a with
  | [] => 0%nat
  | row :: _ => length row
  end.

(** [area_labels[y, x]] *)
Definition raster_get (a : list (list Z)) (y x : nat) : result Z :=
  match a !! y with
  | Some row =>
      match row !! x with
      | Some v => Ok v
      | None => Raise IndexError
      end
  | None => Raise IndexError
  end.

(** [int(c)] for the [k]-th of [n] cell centres [c] over an extent of [m]
    pixels: with [step = m / n], the centres are
    [np.linspace(start=step / 2, stop=m - step / 2, num=n)].  [__init__]
    computes them after it has checked that [n] is positive. *)
Definition centre_pixel (m n k : nat) : nat :=
  let step := int_truediv m n in
  let start := fdiv step 2 in
  let stop := fsub (float_of_nat m) start in
  Z.to_nat (py_int (np_linspace start stop n k)).

(** [{data["data"].label: node for node, data in G.nodes(data=True)}] *)
Definition area_label_to_sample_name (G : DiGraph) : result (gmap Z string) :=
  for_each
    (fun m node =>
       let! d := getitem (node_data G) node in
       Ok (<[label d := node]> m))
    (node_list G) ∅.

(** The index pairs of [for i in range(nx): for j in range(ny)]. *)
Definition grid_indices (nx ny : nat) : list (nat * nat) :=
  i ← seq 0 nx; j ← seq 0 ny; [(i, j)].

(** One iteration of the double loop of [InverseGrid.__init__]. *)
Definition InverseGrid_body (labels : gmap Z string) (g : InverseGrid)
    (ij : nat * nat) : result InverseGrid :=
  let '(i, j) := ij in
  let left := if decide (0 < i)%nat then Some (j, pred i) else None in
  let top := if decide (0 < j)%nat then Some (pred j, i) else None in
  let! label :=
    raster_get (area_labels g)
      (centre_pixel (shape0 (area_labels g)) (ny g) j)
      (centre_pixel (shape1 (area_labels g)) (nx g) i) in
  let! sample_name :=
    if decide (label ≠ 0%Z)
    then match labels !! label with
         | Some s => Ok s
         | None => Raise KeyError
         end
    else Ok "NaN"%string in
  let node :=
    {| left_neighbour := left; top_neighbour := top;
       sample_name := sample_name;
       concentration := Some (Concentration j i) |} in
  Ok {| nx := nx g; ny := ny g; area_labels := area_labels g;
        node_arr := <[(j, i) := node]> (node_arr g);
        sites_to_nodes :=
          <[sample_name := default [] (sites_to_nodes g !! sample_name) ++ [node]]>
            (sites_to_nodes g) |}.

(** [len(np.unique(area_labels))] *)
Definition count_unique (a : list (list Z)) : nat :=
  size (list_to_set (concat a) : gset Z).

(** [InverseGrid.__init__] *)
Definition InverseGrid_init (nx ny : Z) (area_labels : list (list Z))
    (sample_network : DiGraph) : result InverseGrid :=
  if decide (nx ≤ 0 ∨ ny ≤ 0)%Z then
    Raise (Exception "Warning: nx or ny must be strictly positive")
  else
    let xmax := shape1 area_labels in
    let ymax := shape0 area_labels in
    if decide (ny > Z.of_nat ymax ∨ nx > Z.of_nat xmax)%Z then
      Raise (Exception "Warning: desired resolution greater than that of DEM. Decrease resolution to resolve")
    else
      let! labels := area_label_to_sample_name sample_network in
      let! g :=
        for_each (InverseGrid_body labels)
          (grid_indices (Z.to_nat nx) (Z.to_nat ny))
          {| nx := Z.to_nat nx; ny := Z.to_nat ny; area_labels := area_labels;
             node_arr := ∅; sites_to_nodes := ∅ |} in
      let num_keys := size (sites_to_nodes g) in
      if decide (Z.of_nat num_keys < Z.of_nat (count_unique area_labels) - 1)%Z
      then Raise (Exception "Warning: Not all catchments contain a node. Increase resolution to resolve")
      else Ok g.

(** ** cp_log_ratio *)

(** [cp.maximum(a * b.rp, b.p * cp.inv_pos(a))], where [b_p] and [b_rp]
    are the two parameters of the [ReciprocalParameter] [b]. *)
Definition cp_log_ratio (a : expr) (b_p b_rp : param) : expr :=
  Maximum (Mul a (Par b_rp)) (Mul (Par b_p) (InvPos a)).

(** ** SampleNetworkUnmixer *)

Record SampleNetworkUnmixer : Type := mkUnmixer {
  sample_network : DiGraph;
  continuous : bool;
  grid : option InverseGrid;
  _site_to_observation : gmap string ReciprocalParameter;
  _site_to_export_rate : gmap string CpParameter;
  _site_to_total_flux : gmap string ReciprocalParameter;
  _primary_terms : list expr;
  _regularizer_terms : list expr;
  _constraints : list constraint;
  _regularizer_strength : CpParameter;
  _problem : option Problem;
  (** the values the solver left in the variables *)
  variable_values : var → option Q;
  (** how many times the external solver has been invoked on this object *)
  solver_calls : nat;
}.

Definition with_network (G : DiGraph) (u : SampleNetworkUnmixer) :=
  mkUnmixer G (continuous u) (grid u) (_site_to_observation u)
    (_site_to_export_rate u) (_site_to_total_flux u) (_primary_terms u)
    (_regularizer_terms u) (_constraints u) (_regularizer_strength u)
    (_problem u) (variable_values u) (solver_calls u).

Definition with_observation (m : gmap string ReciprocalParameter)
    (u : SampleNetworkUnmixer) :=
  mkUnmixer (sample_network u) (continuous u) (grid u) m
    (_site_to_export_rate u) (_site_to_total_flux u) (_primary_terms u)
    (_regularizer_terms u) (_constraints u) (_regularizer_strength u)
    (_problem u) (variable_values u) (solver_calls u).

Definition with_export_rate (m : gmap string CpParameter)
    (u : SampleNetworkUnmixer) :=
  mkUnmixer (sample_network u) (continuous u) (grid u) (_site_to_observation u)
    m (_site_to_total_flux u) (_primary_terms u)
    (_regularizer_terms u) (_constraints u) (_regularizer_strength u)
    (_problem u) (variable_values u) (solver_calls u).

Definition with_total_flux (m : gmap string ReciprocalParameter)
    (u : SampleNetworkUnmixer) :=
  mkUnmixer (sample_network u) (continuous u) (grid u) (_site_to_observation u)
    (_site_to_export_rate u) m (_primary_terms u)
    (_regularizer_terms u) (_constraints u) (_regularizer_strength u)
    (_problem u) (variable_values u) (solver_calls u).

Definition with_terms (primary regularizer : list expr) (cs : list constraint)
    (u : SampleNetworkUnmixer) :=
  mkUnmixer (sample_network u) (continuous u) (grid u) (_site_to_observation u)
    (_site_to_export_rate u) (_site_to_total_flux u) primary
    regularizer cs (_regularizer_strength u)
    (_problem u) (variable_values u) (solver_calls u).

Definition with_strength (s : CpParameter) (u : SampleNetworkUnmixer) :=
  mkUnmixer (sample_network u) (continuous u) (grid u) (_site_to_observation u)
    (_site_to_export_rate u) (_site_to_total_flux u) (_primary_terms u)
    (_regularizer_terms u) (_constraints u) s
    (_problem u) (variable_values u) (solver_calls u).

Definition with_problem (pb : option Problem) (u : SampleNetworkUnmixer) :=
  mkUnmixer (sample_network u) (continuous u) (grid u) (_site_to_observation u)
    (_site_to_export_rate u) (_site_to_total_flux u) (_primary_terms u)
    (_regularizer_terms u) (_constraints u) (_regularizer_strength u)
    pb (variable_values u) (solver_calls u).

Definition with_solution (σ : var → option Q) (u : SampleNetworkUnmixer) :=
  mkUnmixer (sample_network u) (continuous u) (grid u) (_site_to_observation u)
    (_site_to_export_rate u) (_site_to_total_flux u) (_primary_terms u)
    (_regularizer_terms u) (_constraints u) (_regularizer_strength u)
    (_problem u) σ (solver_calls u).

Definition count_solver_call (u : SampleNetworkUnmixer) :=
  mkUnmixer (sample_network u) (continuous u) (grid u) (_site_to_observation u)
    (_site_to_export_rate u) (_site_to_total_flux u) (_primary_terms u)
    (_regularizer_terms u) (_constraints u) (_regularizer_strength u)
    (_problem u) (variable_values u) (S (solver_calls u)).

(** The current value of each parameter object of the problem.  A
    parameter is named by the key under which the unmixer registered it. *)
Definition parameter_value (u : SampleNetworkUnmixer) (q : param) : option Q :=
  match q with
  | ExportRate s => x ← _site_to_export_rate u !! s; pvalue x
  | TotalFluxP s => x ← _site_to_total_flux u !! s; pvalue (p x)
  | TotalFluxRP s => x ← _site_to_total_flux u !! s; pvalue (rp x)
  | ObservedP s => x ← _site_to_observation u !! s; pvalue (p x)
  | ObservedRP s => x ← _site_to_observation u !! s; pvalue (rp x)
  | RegularizerStrength => pvalue (_regularizer_strength u)
  end.

(** [calculate_normalised_areas]: [np.mean] over the areas, then
    [rltv_area = area / mean_area] on every node.  The quotient is that of
    the code when the mean area is not zero; for a mean area of zero numpy
    returns [inf] or [nan] with a warning, which a rational cannot hold, so
    what is proved about relative areas assumes a non-zero mean. *)
Definition Qsum (l : list Q) : Q := fold_right Qplus 0 l.

Definition mean_area (G : DiGraph) : result Q :=
  let! areas :=
    for_each
      (fun acc x => let! d := getitem (node_data G) x in Ok (acc ++ [area d]))
      (node_list G) [] in
  Ok (Qsum areas / inject_Z (Z.of_nat (length areas))).

Definition set_rltv_area (r : Q) (d : SampleNode) : SampleNode :=
  {| name := name d; area := area d; label := label d;
     downstream_node := downstream_node d; rltv_area := r;
     my_export_rate := my_export_rate d; my_tracer_value := my_tracer_value d;
     my_flux := my_flux d; my_total_flux := my_total_flux d;
     my_tracer_flux := my_tracer_flux d;
     my_total_tracer_flux := my_total_tracer_flux d |}.

Definition calculate_normalised_areas (G : DiGraph) : result DiGraph :=
  let! m := mean_area G in
  for_each
    (fun G x =>
       let! d := getitem (node_data G) x in
       Ok (set_node_data G x (set_rltv_area (area d / m) d)))
    (node_list G) G.

(** [cp.sum(concs) / len(concs)] over the concentrations of the grid nodes
    of a site; [sites_to_nodes] is a [defaultdict(list)], so a site without
    grid node has the empty list: [cp.sum] of a list is Python's [sum], the
    int 0 for the empty list, and [0 / 0] raises [ZeroDivisionError]. *)
Definition mean_concentration (g : InverseGrid) (site : string) : result expr :=
  let nodes := default [] (sites_to_nodes g !! site) in
  let! concs :=
    for_each
      (fun acc node =>
         match concentration node with
         | Some v => Ok (acc ++ [Var v])
         | None => Raise TypeError
         end)
      nodes [] in
  if bool_decide (concs = []) then Raise ZeroDivisionError
  else Ok (DivConst (cp_sum concs) (length concs)).

(** The expression assigned to [my_data.my_tracer_value]: the mean over
    the grid nodes of the site when solving continuously, a fresh positive
    variable otherwise. *)
Definition tracer_expression (u : SampleNetworkUnmixer) (site : string)
  : result expr :=
  if continuous u then
    match grid u with
    | Some g => mean_concentration g site
    | None => Raise AttributeError
    end
  else Ok (Var (TracerValue site)).

(** One iteration of the main loop of [_build_primary_terms]. *)
Definition _build_primary_terms_body (u : SampleNetworkUnmixer)
    (site : string) : result SampleNetworkUnmixer :=
  let G := sample_network u in
  let! my_data := getitem (node_data G) site in
  let! tracer := tracer_expression u site in
  let key := name my_data in
  let my_data :=
    own_contribution (rltv_area my_data) (Par (ExportRate key)) tracer my_data in
  let G := set_node_data G site my_data in
  let total_tracer_flux_dummy := Var (TotalTracerFluxDummy site) in
  let c1 := EqC total_tracer_flux_dummy (my_total_tracer_flux my_data) in
  let normalised_concentration :=
    Mul total_tracer_flux_dummy (Par (TotalFluxRP key)) in
  let normalised_concentration_dummy := Var (NormalisedConcentrationDummy site) in
  let c2 := EqC normalised_concentration_dummy normalised_concentration in
  let misfit :=
    cp_log_ratio normalised_concentration_dummy (ObservedP key) (ObservedRP key) in
  let! G := propagate_downstream G site in
  Ok (with_network G
        (with_terms (_primary_terms u ++ [misfit]) (_regularizer_terms u)
           (_constraints u ++ [c1; c2])
           (with_observation
              (<[key := new_ReciprocalParameter Pos]> (_site_to_observation u))
              (with_total_flux
                 (<[key := new_ReciprocalParameter Pos]> (_site_to_total_flux u))
                 (with_export_rate
                    (<[key := new_CpParameter Pos]> (_site_to_export_rate u))
                    u))))).

(** [_build_primary_terms] *)
Definition _build_primary_terms `{Backend} (u : SampleNetworkUnmixer)
  : result SampleNetworkUnmixer :=
  let! G := reset_totals (sample_network u) in
  let! G := calculate_normalised_areas G in
  let '(order, finished) := topological_sort (node_list G) (adj G) in
  let! u := for_each _build_primary_terms_body order (with_network G u) in
  if finished then Ok u else Raise NetworkXUnfeasible.

(** The nodes of [grid.node_arr.flatten()]: row by row. *)
Definition flatten_indices (ny nx : nat) : list (nat * nat) :=
  j ← seq 0 ny; i ← seq 0 nx; [(j, i)].

(** [a.concentration - b.concentration] *)
Definition concentration_difference (a b : InverseNode) : result expr :=
  match concentration a, concentration b with
  | Some x, Some y => Ok (Sub (Var x) (Var y))
  | _, _ => Raise TypeError
  end.

(** The test [node.X_neighbour and node.X_neighbour.sample_name != "NaN"],
    giving the neighbour when it holds. *)
Definition inside_neighbour (g : InverseGrid) (ref : option (nat * nat))
  : option InverseNode :=
  r ← ref;
  n ← node_arr g !! r;
  if decide (sample_name n ≠ "NaN"%string) then Some n else None.

(** [_build_regularizer_terms_continuous] *)
Definition _build_regularizer_terms_continuous (u : SampleNetworkUnmixer)
  : result SampleNetworkUnmixer :=
  match grid u with
  | None => Raise AttributeError
  | Some g =>
      let! terms :=
        for_each
          (fun terms ji =>
             match node_arr g !! ji with
             | None => Raise AttributeError
             | Some node =>
                 if decide (sample_name node = "NaN"%string) then Ok terms
                 else
                   let! terms :=
                     match inside_neighbour g (left_neighbour node) with
                     | Some l =>
                         let! t := concentration_difference node l in
                         Ok (terms ++ [t])
                     | None => Ok terms
                     end in
                   match inside_neighbour g (top_neighbour node) with
                   | Some t' =>
                       let! t := concentration_difference node t' in
                       Ok (terms ++ [t])
                   | None => Ok terms
                   end
             end)
          (flatten_indices (ny g) (nx g)) (_regularizer_terms u) in
      Ok (with_terms (_primary_terms u) terms (_constraints u) u)
  end.

(** [_build_regularizer_terms_discrete] *)
Definition _build_regularizer_terms_discrete (u : SampleNetworkUnmixer)
  : result SampleNetworkUnmixer :=
  let! terms :=
    for_each
      (fun terms x =>
         let! d := getitem (node_data (sample_network u)) x in
         let concen := my_tracer_value d in
         Ok (terms ++ [Maximum concen (InvPos concen)]))
      (node_list (sample_network u)) (_regularizer_terms u) in
  Ok (with_terms (_primary_terms u) terms (_constraints u) u).

(** [_build_problem] *)
Definition _build_problem `{Backend} (u : SampleNetworkUnmixer)
  : result SampleNetworkUnmixer :=
  let! _ := py_assert (negb (bool_decide (_primary_terms u = []))) in
  let problem :=
    {| objective_primary := _primary_terms u;
       objective_regularizer := _regularizer_terms u;
       problem_constraints := _constraints u |} in
  let! _ := py_assert (is_dcp problem) in
  Ok (with_problem (Some problem) u).

(** The attributes [__init__] sets before it builds any term. *)
Definition blank_unmixer (sample_network : DiGraph) (continuous : bool)
    (g : option InverseGrid) : SampleNetworkUnmixer :=
  {| sample_network := sample_network;
     continuous := continuous;
     grid := g;
     _site_to_observation := ∅;
     _site_to_export_rate := ∅;
     _site_to_total_flux := ∅;
     _primary_terms := [];
     _regularizer_terms := [];
     _constraints := [];
     _regularizer_strength := new_CpParameter Nonneg;
     _problem := None;
     variable_values := fun _ => None;
     solver_calls := 0 |}.

(** [SampleNetworkUnmixer.__init__].  [continuous_args] is [Some] of
    [(nx, ny, area_labels)] for [continuous=True], and [None] for
    [continuous=False]. *)
Definition SampleNetworkUnmixer_init `{Backend} (sample_network : DiGraph)
    (use_regularization : bool)
    (continuous_args : option (Z * Z * list (list Z)))
  : result SampleNetworkUnmixer :=
  let! g :=
    match continuous_args with
    | Some (nx, ny, area_labels) =>
        let! g := InverseGrid_init nx ny area_labels sample_network in
        Ok (Some g)
    | None => Ok None
    end in
  let u :=
    blank_unmixer sample_network (bool_decide (is_Some continuous_args)) g in
  let! u := _build_primary_terms u in
  let! u :=
    if use_regularization then
      if continuous u then _build_regularizer_terms_continuous u
      else _build_regularizer_terms_discrete u
    else Ok u in
  _build_problem u.

(** ** The solve driver *)

(** Methods that rebind parameters mutate the unmixer and may raise half
    way; what they have written by then stays written.  [M] threads the
    object and keeps it on an exception. *)
Definition M (A : Type) : Type :=
  SampleNetworkUnmixer → result A * SampleNetworkUnmixer.

Definition mret {A} (a : A) : M A := fun u => (Ok a, u).
Definition mraise {A} (e : exn) : M A := fun u => (Raise e, u).
Definition mget : M SampleNetworkUnmixer := fun u => (Ok u, u).
Definition lift {A} (r : result A) : M A := fun u => (r, u).
Definition mseq {A B} (m : M A) (f : A → M B) : M B :=
  fun u =>
    match m u with
    | (Ok a, u') => f a u'
    | (Raise e, u') => (Raise e, u')
    end.

Notation "'let*' x ':=' m 'in' k" := (mseq m (fun x => k))
  (at level 10, x name, m at level 100, k at level 200).

Fixpoint for_eachM {X} (body : X → M unit) (xs : list X) : M unit :=
  match xs with
  | [] => mret tt
  | x :: xs' => let* _ := body x in for_eachM body xs'
  end.

(** The keys of a dict, in the order the model iterates over it. *)
Definition keys {V} (m : gmap string V) : list string := (map_to_list m).*1.

(** [self._site_to_observation[site].value = val] *)
Definition set_observation `{Backend} (site : string) (val : option Q) : M unit :=
  fun u =>
    match _site_to_observation u !! site with
    | None => (Raise KeyError, u)
    | Some x =>
        let '(r, x') := ReciprocalParameter_set_value x val in
        (r, with_observation (<[site := x']> (_site_to_observation u)) u)
    end.

(** [self._site_to_export_rate[site].value = val] *)
Definition set_export_rate `{Backend} (site : string) (val : option Q) : M unit :=
  fun u =>
    match _site_to_export_rate u !! site with
    | None => (Raise KeyError, u)
    | Some x =>
        match CpParameter_set_value x val with
        | Ok x' => (Ok tt, with_export_rate (<[site := x']> (_site_to_export_rate u)) u)
        | Raise e => (Raise e, u)
        end
    end.

(** [self._site_to_total_flux[site].value = val] *)
Definition set_total_flux `{Backend} (site : string) (val : option Q) : M unit :=
  fun u =>
    match _site_to_total_flux u !! site with
    | None => (Raise KeyError, u)
    | Some x =>
        let '(r, x') := ReciprocalParameter_set_value x val in
        (r, with_total_flux (<[site := x']> (_site_to_total_flux u)) u)
    end.

(** The body of the loop over [observation_data.items()]:
    [assert site in self._site_to_observation], then the assignment of the
    normalised value. *)
Definition bind_observation `{Backend} (obs_mean : Q) (sv : string * Q) : M unit :=
  let* u := mget in
  let* _ := lift (py_assert
              (bool_decide (is_Some (_site_to_observation u !! sv.1)))) in
  set_observation sv.1 (Some (sv.2 / obs_mean)).

(** [_set_observation_parameters]; [observation_data] is the dict's
    [items()] in iteration order. *)
Definition _set_observation_parameters `{Backend}
    (observation_data : list (string * Q)) : M unit :=
  let obs_mean := geo_mean (observation_data.*2) in
  let* u := mget in
  let* _ := for_eachM (fun k => set_observation k None)
              (keys (_site_to_observation u)) in
  let* _ := for_eachM (bind_observation obs_mean) observation_data in
  let* u := mget in
  lift (py_assert
          (bool_decide
             (map_Forall (fun _ x => is_Some (ReciprocalParameter_value x))
                (_site_to_observation u)))).

(** The truth value of an [Optional] dict argument. *)
Definition dict_truthy {V} (d : option (list (string * V))) : bool :=
  match d with
  | None | Some [] => false
  | Some (_ :: _) => true
  end.

(** The body of the loop over [export_rates.items()]. *)
Definition bind_export_rate `{Backend} (sv : string * Q) : M unit :=
  let* u := mget in
  let* _ := lift (py_assert
              (bool_decide (is_Some (_site_to_export_rate u !! sv.1)))) in
  set_export_rate sv.1 (Some sv.2).

(** [_set_export_rate_parameters] *)
Definition _set_export_rate_parameters `{Backend}
    (export_rates : option (list (string * Q))) : M unit :=
  let* u := mget in
  let* _ := for_eachM (fun k => set_export_rate k None)
              (keys (_site_to_export_rate u)) in
  let* _ :=
    if dict_truthy export_rates then
      for_eachM bind_export_rate (default [] export_rates)
    else
      let* u := mget in
      for_eachM (fun k => set_export_rate k (Some 1))
        (keys (_site_to_export_rate u)) in
  let* u := mget in
  lift (py_assert
          (bool_decide
             (map_Forall (fun _ x => is_Some (pvalue x))
                (_site_to_export_rate u)))).

(** [_set_total_flux_parameters] *)
Definition _set_total_flux_parameters `{Backend} : M unit :=
  let* u := mget in
  let* _ := for_eachM (fun k => set_total_flux k None)
              (keys (_site_to_total_flux u)) in
  let* _ :=
    for_eachM
      (fun site =>
         let* u := mget in
         let* _ := lift (py_assert
                     (bool_decide (is_Some (_site_to_total_flux u !! site)))) in
         let* data := lift (getitem (node_data (sample_network u)) site) in
         set_total_flux site
           (value (parameter_value u) (variable_values u) (my_total_flux data)))
      (node_list (sample_network u)) in
  let* u := mget in
  lift (py_assert
          (bool_decide
             (map_Forall (fun _ x => is_Some (ReciprocalParameter_value x))
                (_site_to_total_flux u)))).

(** [not regularization_strength]: true for [None] and for zero. *)
Definition not_strength (s : option Q) : bool :=
  match s with
  | None => true
  | Some q => Qeq_bool q 0
  end.

(** [solvers[solver]]: the option bundles are keyed by four names. *)
Definition solver_options (solver : string) : result string :=
  if bool_decide (solver ∈ ["scip"; "ecos"; "scs"; "gurobi"]%string)
  then Ok solver else Raise KeyError.

(** [self._problem.solve(...)]: the one place the external solver runs. *)
Definition invoke_solver `{Backend} (options : string) : M unit :=
  fun u =>
    match _problem u with
    | None => (Raise AttributeError, u)
    | Some pb =>
        let u := count_solver_call u in
        match cp_solve options pb (parameter_value u) with
        | Ok σ => (Ok tt, with_solution σ u)
        | Raise e => (Raise e, u)
        end
    end.

(** [x / y] for two [.value]s: [None] operands raise [TypeError]. *)
Definition value_divide (x y : option Q) : result npfloat :=
  match x, y with
  | Some a, Some b => Ok (if Qeq_bool b 0 then NaN else Num (a / b))
  | _, _ => Raise TypeError
  end.

(** [get_downstream_prediction_dictionary] *)
Definition get_downstream_prediction_dictionary (u : SampleNetworkUnmixer)
  : result (gmap string npfloat) :=
  for_each
    (fun predictions x =>
       let! data := getitem (node_data (sample_network u)) x in
       let! v :=
         value_divide
           (value (parameter_value u) (variable_values u) (my_total_tracer_flux data))
           (value (parameter_value u) (variable_values u) (my_total_flux data)) in
       Ok (<[x := v]> predictions))
    (node_list (sample_network u)) ∅.

(** [get_upstream_prediction_dictionary]; a variable without a value
    contributes [None]. *)
Definition get_upstream_prediction_dictionary (u : SampleNetworkUnmixer)
  : result (gmap string (option Q)) :=
  if continuous u then
    Raise (Exception "Warning: `get_upstream_prediction_dictionary` only valid for discrete networks")
  else
    for_each
      (fun predictions x =>
         let! data := getitem (node_data (sample_network u)) x in
         Ok (<[x := value (parameter_value u) (variable_values u)
                       (my_tracer_value data)]> predictions))
      (node_list (sample_network u)) ∅.

(** [np.zeros(shape)] *)
Definition np_zeros (rows cols : nat) : list (list npfloat) :=
  replicate rows (replicate cols (Num 0)).

(** [out[y0:y1, x0:x1] = v] *)
Definition slice_assign (out : list (list npfloat)) (y0 y1 x0 x1 : nat)
    (v : npfloat) : list (list npfloat) :=
  imap
    (fun y row =>
       if bool_decide (y0 ≤ y < y1)%nat
       then imap (fun x c => if bool_decide (x0 ≤ x < x1)%nat then v else c) row
       else row)
    out.

(** [int(k * step)] with [step = m / n]: the first pixel of block [k]. *)
Definition block_start (m n k : nat) : nat :=
  Z.to_nat (py_int (fmul (float_of_nat k) (int_truediv m n))).

(** One iteration of the double loop of [get_upstream_prediction_map],
    for column [i] and row [j] of the grid.  The test [if node.concentration]
    is the truth value of the attribute: a variable object is true, [None]
    is false. *)
Definition prediction_map_body (u : SampleNetworkUnmixer) (g : InverseGrid)
    (out : list (list npfloat)) (ij : nat * nat) : result (list (list npfloat)) :=
  let rows := shape0 (area_labels g) in
  let cols := shape1 (area_labels g) in
  let x_start := block_start cols (nx g) ij.1 in
  let x_end := block_start cols (nx g) (S ij.1) in
  let y_start := block_start rows (ny g) ij.2 in
  let y_end := block_start rows (ny g) (S ij.2) in
  match node_arr g !! (ij.2, ij.1) with
  | None => Raise AttributeError
  | Some node =>
      let val :=
        match concentration node with
        | Some v => np_of_option (variable_values u v)
        | None => NaN
        end in
      Ok (slice_assign out y_start y_end x_start x_end val)
  end.

(** [get_upstream_prediction_map] *)
Definition get_upstream_prediction_map (u : SampleNetworkUnmixer)
  : result (list (list npfloat)) :=
  if negb (continuous u) then
    Raise (Exception "Warning: `get_upstream_prediction_map` only valid for continuous networks")
  else
    match grid u with
    | None => Raise AttributeError
    | Some g =>
        let out := np_zeros (shape0 (area_labels g)) (shape1 (area_labels g)) in
        (* xstep = out.shape[1] / self.grid.nx; ystep = out.shape[0] / self.grid.ny *)
        if decide (nx g = 0%nat ∨ ny g = 0%nat) then Raise ZeroDivisionError
        else for_each (prediction_map_body u g) (grid_indices (nx g) (ny g)) out
    end.

(** The second component of what [solve] returns. *)
Inductive Upstream : Type :=
| UpstreamDict (d : gmap string Q)
| UpstreamMap (a : list (list npfloat)).

(** [{sample: value * obs_mean for ...}] over the upstream dictionary:
    [None * obs_mean] raises [TypeError]. *)
Definition scale_upstream (obs_mean : Q) (d : gmap string (option Q))
  : result (gmap string Q) :=
  for_each
    (fun acc (kv : string * option Q) =>
       match kv.2 with
       | Some v => Ok (<[kv.1 := v * obs_mean]> acc)
       | None => Raise TypeError
       end)
    (map_to_list d) ∅.

(** [solve] *)
Definition solve `{Backend} (observation_data : list (string * Q))
    (export_rates : option (list (string * Q)))
    (regularization_strength : option Q) (solver : string)
  : M (gmap string npfloat * Upstream) :=
  let* _ := _set_observation_parameters observation_data in
  let* _ := _set_export_rate_parameters export_rates in
  let* _ := _set_total_flux_parameters in
  let* u := mget in
  let* _ :=
    if negb (bool_decide (_regularizer_terms u = []))
       && not_strength regularization_strength
    then mraise (Exception "WARNING: Regularizer terms present but no strength assigned.")
    else mret tt in
  let* _ :=
    fun u =>
      match CpParameter_set_value (_regularizer_strength u) regularization_strength with
      | Ok s => (Ok tt, with_strength s u)
      | Raise e => (Raise e, u)
      end in
  let* options := lift (solver_options solver) in
  let* _ := invoke_solver options in
  let obs_mean := geo_mean (observation_data.*2) in
  let* u := mget in
  let* downstream_preds := lift (get_downstream_prediction_dictionary u) in
  let downstream_preds := np_scale obs_mean <$> downstream_preds in
  let* upstream_preds :=
    if continuous u then
      let* m := lift (get_upstream_prediction_map u) in
      mret (UpstreamMap (map (map (np_scale obs_mean)) m))
    else
      let* d := lift (get_upstream_prediction_dictionary u) in
      let* d := lift (scale_upstream obs_mean d) in
      mret (UpstreamDict d) in
  mret (downstream_preds, upstream_preds).

(** ** Reference notions the properties are stated with *)

(** [reaches G fuel u n]: there is a path of at most [fuel] edges from [u]
    to [n]. *)
Fixpoint reaches (G : DiGraph) (fuel : nat) (u n : string) : bool :=
  bool_decide (u = n) ||
  match fuel with
  | O => false
  | S f => existsb (fun v => reaches G f v n) (successors G u)
  end.

(** The upstream closure of [n]: [n] and every node with a path to [n]. *)
Definition upstream_closure (G : DiGraph) (n : string) : list string :=
  List.filter (fun u => reaches G (length (node_list G)) u n) (node_list G).

(** An edge [x → y] of the graph. *)
Definition edge (G : DiGraph) (x y : string) : Prop := y ∈ successors G x.

(** A topological linearisation: no node twice, and every successor of a
    node later in the list than the node. *)
Fixpoint topological (G : DiGraph) (order : list string) : Prop :=
  match order with
  | [] => True
  | x :: rest =>
      (x ∉ rest) ∧ Forall (fun y => y ∈ rest) (successors G x) ∧ topological G rest
  end.

(** The nodes are distinct and each carries its ["data"], named as the
    node. *)
Definition well_formed (G : DiGraph) : Prop :=
  NoDup (node_list G) ∧
  Forall (fun x => ∃ d, node_data G !! x = Some d ∧ name d = x) (node_list G).

(** Every node has at most one downstream edge. *)
Definition out_degree_le_1 (G : DiGraph) : Prop :=
  Forall (fun x => (length (successors G x) ≤ 1)%nat) (node_list G).

Definition area_of (G : DiGraph) (x : string) : Q :=
  from_option area 0 (node_data G !! x).

Definition rltv_area_of (G : DiGraph) (x : string) : Q :=
  from_option rltv_area 0 (node_data G !! x).

(** The mean of the areas of all nodes. *)
Definition mean_area_of (G : DiGraph) : Q :=
  Qsum (map (area_of G) (node_list G)) / inject_Z (Z.of_nat (length (node_list G))).

(** Total flux and total tracer flux held by node [n], read under
    valuations of the parameters and variables. *)
Definition total_flux (ρ : param → Q) (σ : var → Q) (G : DiGraph) (n : string) : Q :=
  from_option (fun d => eval ρ σ (my_total_flux d)) 0 (node_data G !! n).

Definition total_tracer_flux (ρ : param → Q) (σ : var → Q) (G : DiGraph)
    (n : string) : Q :=
  from_option (fun d => eval ρ σ (my_total_tracer_flux d)) 0 (node_data G !! n).

(** The export rate [mix_downstream] uses for a site. *)
Definition rate_of (export_rates : option (gmap string Q)) (x : string) : Q :=
  match export_rate_or_default export_rates x with
  | Ok r => r
  | Raise _ => 0
  end.

(** Valuations that read nothing: the floats of [mix_downstream] do not
    depend on them. *)
Definition no_params : param → Q := fun _ => 0.
Definition no_vars : var → Q := fun _ => 0.

(** The misfit surrogate [max(a/b, b/a)] as [cp_log_ratio] evaluates it
    when the variable has value [a] and the reciprocal pair holds [b] and
    [1/b]. *)
Definition misfit (a b : Q) : Q :=
  eval (fun q => match q with
                 | ObservedP _ => b
                 | ObservedRP _ => 1 / b
                 | _ => 0
                 end)
       (fun _ => a)
       (cp_log_ratio (Var (NormalisedConcentrationDummy "")) (ObservedP "") (ObservedRP "")).

(** ** Small inputs the model is run on *)

#[global] Instance var_eq_dec : EqDecision var.
Proof. solve_decision. Defined.

(** Does the variable occur in the expression? *)
Fixpoint occurs (v : var) (e : expr) : bool :=
  match e with
  | Const _ | Par _ => false
  | Var w => bool_decide (w = v)
  | Add a b | Sub a b | Mul a b | Maximum a b => occurs v a || occurs v b
  | DivConst a _ | InvPos a => occurs v a
  end.

Definition occurs_in_problem (v : var) (pb : Problem) : bool :=
  existsb (occurs v) (objective_primary pb) ||
  existsb (occurs v) (objective_regularizer pb) ||
  existsb (fun c => match c with EqC l r => occurs v l || occurs v r end)
    (problem_constraints pb).

(** A backend for running the model on small inputs.  Its geometric mean
    is the first element, exact when all observations are equal; its
    attribute check admits the non-negative values for [Pos] and [Nonneg];
    its topological sort yields the nodes in insertion order, right for
    graphs inserted upstream first; its solver gives the value 1 to every
    variable of the problem and none to any other. *)
Definition test_backend : Backend :=
  {| geo_mean := fun l => hd 1 l;
     accepts := fun a q =>
       match a with
       | Unconstrained => true
       | Pos | Nonneg => Qle_bool 0 q
       end;
     topological_sort := fun nodes _ => (nodes, true);
     is_dcp := fun _ => true;
     cp_solve := fun _ pb _ =>
       Ok (fun v => if occurs_in_problem v pb then Some 1 else None) |}.

(** A node as the routing engine delivers it, before any attribute is
    attached. *)
Definition sample_node (n : string) (a : Q) (l : Z) (d : string) : SampleNode :=
  {| name := n; area := a; label := l; downstream_node := d; rltv_area := 0;
     my_export_rate := Const 0; my_tracer_value := Const 0; my_flux := Const 0;
     my_total_flux := Const 0; my_tracer_flux := Const 0;
     my_total_tracer_flux := Const 0 |}.

(** Two headwater sites [a] and [b] draining into the outlet [c]. *)
Definition confluence : DiGraph :=
  {| node_list := ["a"; "b"; "c"]%string;
     node_data :=
       list_to_map [("a"%string, sample_node "a" 1 1 "c");
                    ("b"%string, sample_node "b" 2 2 "c");
                    ("c"%string, sample_node "c" 3 3 "root")];
     adj := list_to_map [("a"%string, ["c"%string]); ("b"%string, ["c"%string]);
                         ("c"%string, [])] |}.

(** The discrete, regularized problem over [confluence]. *)
Definition regularized_unmixer : result SampleNetworkUnmixer :=
  @SampleNetworkUnmixer_init test_backend confluence true None.

(** The same observation at every site of [confluence]. *)
Definition uniform_observations : list (string * Q) :=
  [("a"%string, 5); ("b"%string, 5); ("c"%string, 5)].

(** A one-row raster: two unclaimed pixels, then one pixel of catchment 1
    and one of catchment 2. *)
Definition strip : list (list Z) := [[0; 0; 1; 2]%Z].

(** The cells of a grid that belong to the site of catchment label [l]. *)
Definition cells_of_label (G : DiGraph) (g : InverseGrid) (l : Z)
  : list InverseNode :=
  List.filter
    (fun node =>
       match node_data G !! sample_name node with
       | Some d => bool_decide (label d = l)
       | None => false
       end)
    (map snd (map_to_list (node_arr g))).

(** ** Notions used in the proofs about the solve driver *)

(** [stable u u']: between [u] and [u'] the solver has not run, the terms
    and the network are the same, and the three parameter dicts have the
    same keys. *)
Record stable (u u' : SampleNetworkUnmixer) : Prop := mkStable {
  st_calls : solver_calls u' = solver_calls u;
  st_reg : _regularizer_terms u' = _regularizer_terms u;
  st_net : sample_network u' = sample_network u;
  st_vars : variable_values u' = variable_values u;
  st_cont : continuous u' = continuous u;
  st_grid : grid u' = grid u;
  st_obs : ∀ k, is_Some (_site_to_observation u' !! k) ↔
                is_Some (_site_to_observation u !! k);
  st_exp : ∀ k, is_Some (_site_to_export_rate u' !! k) ↔
                is_Some (_site_to_export_rate u !! k);
  st_flux : ∀ k, is_Some (_site_to_total_flux u' !! k) ↔
                 is_Some (_site_to_total_flux u !! k);
}.

(** A computation that never runs the solver and keeps the above. *)
Definition quiet {A} (m : M A) : Prop := ∀ u, stable u (m u).2.

(** [aborts m u]: run on [u], the computation raises, the solver has not
    been invoked by then, and the variables hold what they held before. *)
Definition aborts {A} (m : M A) (u : SampleNetworkUnmixer) : Prop :=
  ∃ e u', m u = (Raise e, u') ∧ solver_calls u' = solver_calls u ∧
          variable_values u' = variable_values u.

(** Site [s] is known and its observation is not set. *)
Definition obs_unset (s : string) (u : SampleNetworkUnmixer) : Prop :=
  ∃ x, _site_to_observation u !! s = Some x ∧
       ReciprocalParameter_value x = None.

(** Site [s] is known and its export rate is not set. *)
Definition rate_unset (s : string) (u : SampleNetworkUnmixer) : Prop :=
  ∃ x, _site_to_export_rate u !! s = Some x ∧ pvalue x = None.

(** A value a parameter takes without complaint. *)
Definition admits `{Backend} (x : CpParameter) (val : option Q) : Prop :=
  val = None ∨ ∃ v, val = Some v ∧ accepts (attributes x) v = true.

(** What a site holds while a non-empty mapping [r] is being bound:
    nothing, or a value [r] lists for it. *)
Definition from_mapping (r : list (string * Q)) (u : SampleNetworkUnmixer) : Prop :=
  ∀ k x, _site_to_export_rate u !! k = Some x →
         pvalue x = None ∨ ∃ v, (k, v) ∈ r ∧ pvalue x = Some v.

(** ** Notions used in the proofs about the flux accumulation *)

(** The sum of [w u] over the nodes [u] of [R] that reach [n]. *)
Definition closure_sum (G : DiGraph) (fuel : nat) (w : string → Q)
    (R : list string) (n : string) : Q :=
  Qsum (map (fun u => if reaches G fuel u n then w u else 0) R).

(** The fields of a node that no traversal writes. *)
Definition same_static (d d' : SampleNode) : Prop :=
  name d' = name d ∧ area d' = area d ∧ label d' = label d ∧
  rltv_area d' = rltv_area d.

(** [G'] has the nodes and edges of [G], and the same static fields at
    every node. *)
Definition same_structure (G G' : DiGraph) : Prop :=
  node_list G' = node_list G ∧ adj G' = adj G ∧
  ∀ x, match node_data G !! x, node_data G' !! x with
       | Some d, Some d' => same_static d d'
       | None, None => True
       | _, _ => False
       end.

(** What the loop of [mix_downstream] keeps of the network it started
    from, and what it needs of a node to run its body there. *)
Definition mix_keeps (G1 : DiGraph) (st : Mixed) : Prop :=
  same_structure G1 (mixed_network st).

Definition mix_usable (G1 : DiGraph) (export_rates : option (gmap string Q))
    (x : string) : Prop :=
  is_Some (node_data G1 !! x) ∧ str_truthy x = true ∧
  is_ok (export_rate_or_default export_rates x) = true.

(** The same for the main loop of [_build_primary_terms], started on the
    unmixer [u0] with network [G2]; [tracer x] is the expression the loop
    gives to site [x]. *)
Definition build_keeps (u0 : SampleNetworkUnmixer) (G2 : DiGraph)
    (u : SampleNetworkUnmixer) : Prop :=
  same_structure G2 (sample_network u) ∧
  continuous u = continuous u0 ∧ grid u = grid u0.

Definition build_usable (u0 : SampleNetworkUnmixer) (G2 : DiGraph)
    (tracer : string → expr) (x : string) : Prop :=
  (∃ d, node_data G2 !! x = Some d ∧ name d = x) ∧ str_truthy x = true ∧
  tracer_expression u0 x = Ok (tracer x).

(** A network of one site, of area 2. *)
Definition lone_site : DiGraph :=
  {| node_list := ["a"]%string;
     node_data := list_to_map [("a"%string, sample_node "a" 2 1 "root")];
     adj := list_to_map [("a"%string, [])] |}.

(** A node with two downstream edges. *)
Definition braided : DiGraph :=
  {| node_list := ["a"; "b"; "c"]%string;
     node_data :=
       list_to_map [("a"%string, sample_node "a" 1 1 "b");
                    ("b"%string, sample_node "b" 2 2 "root");
                    ("c"%string, sample_node "c" 3 3 "root")];
     adj := list_to_map [("a"%string, ["b"; "c"]%string); ("b"%string, []);
                         ("c"%string, [])] |}.

(** ** Notions used in the proofs about the prediction map *)

(** The rational of a natural number. *)
Definition Qnat (k : nat) : Q := inject_Z (Z.of_nat k).

(** [out[y, x]] *)
Definition pixel (out : list (list npfloat)) (y x : nat) : option npfloat :=
  row ← out !! y; row !! x.

(** What [get_upstream_prediction_map] writes for the grid node in column
    [i] and row [j]: the value of its variable, [nan] when the variable has
    no value or the node has no variable. *)
Definition cell_value (u : SampleNetworkUnmixer) (g : InverseGrid)
    (ij : nat * nat) : npfloat :=
  match node_arr g !! (ij.2, ij.1) with
  | Some node =>
      match concentration node with
      | Some v => np_of_option (variable_values u v)
      | None => NaN
      end
  | None => NaN
  end.

(** Pixel [(y, x)] lies in the block of the grid node in column [i] and
    row [j]. *)
Definition in_block (g : InverseGrid) (ij : nat * nat) (y x : nat) : Prop :=
  (block_start (shape0 (area_labels g)) (ny g) ij.2 ≤ y <
   block_start (shape0 (area_labels g)) (ny g) (S ij.2))%nat ∧
  (block_start (shape1 (area_labels g)) (nx g) ij.1 ≤ x <
   block_start (shape1 (area_labels g)) (nx g) (S ij.1))%nat.

(** The nodes, the edges and the set of nodes carrying data. *)
Definition same_shape (G G' : DiGraph) : Prop :=
  node_list G' = node_list G ∧ adj G' = adj G ∧
  ∀ z, is_Some (node_data G' !! z) ↔ is_Some (node_data G !! z).

(** A 2-by-2 raster: one pixel for each catchment of [confluence] and one
    unclaimed pixel. *)
Definition quadrants : list (list Z) := [[1; 2]; [3; 0]]%Z.

(** A raster of one row and 15 columns, all of catchment 1. *)
Definition fifteen_columns : list (list Z) := [replicate 15 1%Z].

(** The continuous, regularized problem over [confluence] on a 2-by-2
    grid over [quadrants]. *)
Definition continuous_unmixer : result SampleNetworkUnmixer :=
  @SampleNetworkUnmixer_init test_backend confluence true (Some (2, 2, quadrants)%Z).

(** Every node's data is named as the node, as [get_sample_graphs] builds
    the graph ([add_node(x.name, data=x)]). *)
Definition names_ok (G : DiGraph) : Prop :=
  ∀ z d, node_data G !! z = Some d → name d = z.

(** A site [a] draining into an outlet whose name is the empty string. *)
Definition unnamed_outlet : DiGraph :=
  {| node_list := ["a"; ""]%string;
     node_data :=
       list_to_map [("a"%string, sample_node "a" 1 1 "");
                    (""%string, sample_node "" 3 2 "root")];
     adj := list_to_map [("a"%string, [""%string]); (""%string, [])] |}.

(** ** Building the sample network *)

(** [nx.DiGraph()] *)
Definition empty_graph : DiGraph :=
  {| node_list := []; node_data := ∅; adj := ∅ |}.

(** What [add_node] and [add_edge] do with a node the graph does not hold
    yet: it joins the nodes, with no attribute and no successor. *)
Definition ensure_node (G : DiGraph) (n : string) : DiGraph :=
  if bool_decide (n ∈ node_list G) then G
  else {| node_list := node_list G ++ [n];
          node_data := node_data G;
          adj := <[n := []]> (adj G) |}.

(** [G.add_node(n, data=d)] *)
Definition add_node (G : DiGraph) (n : string) (d : SampleNode) : DiGraph :=
  set_node_data (ensure_node G n) n d.

(** [G.add_edge(u, v)]: an edge the graph already holds is not added a
    second time. *)
Definition add_edge (G : DiGraph) (u v : string) : DiGraph :=
  let G := ensure_node (ensure_node G u) v in
  {| node_list := node_list G;
     node_data := node_data G;
     adj := <[u := if bool_decide (v ∈ successors G u) then successors G u
                   else successors G u ++ [v]]> (adj G) |}.

(** One iteration of the loop of [get_sample_graphs]. *)
Definition get_sample_graphs_body (root_node_name : string) (G : DiGraph)
    (x : SampleNode) : DiGraph :=
  if bool_decide (name x = root_node_name) then G
  else
    let G := add_node G (name x) x in
    if bool_decide (downstream_node x ≠ root_node_name)
    then add_edge G (name x) (downstream_node x)
    else G.

(** [get_sample_graphs], from what [pyfastunmix.fastunmix] has returned:
    [sample_network_raw] lists [sample_network_raw.values()] in iteration
    order and [root_node_name] is [pyfastunmix.root_node_name].  The
    adjacency object, handed through unchanged, is left out. *)
Definition get_sample_graphs (root_node_name : string)
    (sample_network_raw : list SampleNode) : DiGraph :=
  fold_left (get_sample_graphs_body root_node_name) sample_network_raw
    empty_graph.

(** What holds of the graph while [get_sample_graphs] builds it: [Pd]
    lists the raw nodes whose [add_node] step is over and [Pe] those whose
    [add_edge] step is over. *)
Record built_from (root : string) (Pd Pe : list SampleNode) (G : DiGraph)
  : Prop := mkBuiltFrom {
    bf_nodup : NoDup (node_list G);
    bf_root : root ∉ node_list G;
    bf_names : names_ok G;
    bf_data : ∀ n, is_Some (node_data G !! n) ↔
                   ∃ x, x ∈ Pd ∧ name x = n ∧ n ≠ root;
    bf_last : ∀ n d, node_data G !! n = Some d → d ∈ Pd;
    bf_succ : ∀ n v, v ∈ successors G n ↔
                     ∃ x, x ∈ Pe ∧ name x = n ∧ n ≠ root ∧
                          downstream_node x = v ∧ v ≠ root;
    bf_succ_nodup : ∀ n, NoDup (successors G n);
    bf_nodes : ∀ n, n ∈ node_list G ↔
                    is_Some (node_data G !! n) ∨ ∃ u, n ∈ successors G u;
    bf_adj : ∀ n, is_Some (adj G !! n) → n ∈ node_list G;
  }.

(** Three raw nodes as the routing engine delivers them for [confluence],
    and its root entry. *)
Definition confluence_raw : list SampleNode :=
  [sample_node "root" 0 0 "root"; sample_node "a" 1 1 "c";
   sample_node "b" 2 2 "c"; sample_node "c" 3 3 "root"].

(** A raw network whose site [a] drains into a site that is not listed. *)
Definition dangling_raw : list SampleNode :=
  [sample_node "a" 1 1 "z"].

(** ** The observation table *)

(** An entry of a DataFrame column as [tolist()] returns it. *)
Inductive cell : Type :=
| FloatCell (v : npfloat)
| IntCell (n : Z)
| StrCell (s : string).

(** The table of observations: the sample codes of its rows (the column
    [SAMPLE_CODE_COL_NAME], when the table has it) and the element columns
    by name. *)
Record DataFrame : Type := mkDataFrame {
  sample_codes : option (list string);
  columns : gmap string (list cell);
}.

(** One step of the dict comprehension of [get_element_obs]: the row is
    kept when [isinstance(c, float)], a later row replacing an earlier one
    of the same sample code. *)
Definition keep_float (d : gmap string npfloat) (ec : string * cell)
  : gmap string npfloat :=
  match ec.2 with
  | FloatCell v => <[ec.1 := v]> d
  | IntCell _ | StrCell _ => d
  end.

(** [get_element_obs], for an [element] that names an element column. *)
Definition get_element_obs (element : string) (obs_data : DataFrame)
  : result (gmap string npfloat) :=
  let! codes :=
    match sample_codes obs_data with
    | Some codes => Ok codes
    | None => Raise KeyError
    end in
  let! cells := getitem (columns obs_data) element in
  Ok (fold_left keep_float (zip codes cells) ∅).

(** A table with a number, a missing value and an integer in column
    [Mg]. *)
Definition small_table : DataFrame :=
  {| sample_codes := Some ["a"; "b"; "c"]%string;
     columns :=
       {["Mg"%string := [FloatCell (Num 2); FloatCell NaN; IntCell 3]]} |}.

(** ** Sub-basin masks and concentration maps *)

(** [a.shape] of a two-dimensional array: rows, then columns. *)
Definition shape {A} (a : list (list A)) : nat * nat :=
  (length a, match a with [] => 0%nat | row :: _ => length row end).

(** [a[y, x]] *)
Definition at2 {A} (a : list (list A)) (y x : nat) : option A :=
  row ← a !! y; row !! x.

(** [get_unique_upstream_areas], from the label image [I] that
    [plt.imread("labels.tif")[:, :, 0]] has read: for every node the mask
    [I == label]. *)
Definition get_unique_upstream_areas (I : list (list Z))
    (sample_network : DiGraph) : result (gmap string (list (list bool))) :=
  for_each
    (fun areas node =>
       let! d := getitem (node_data sample_network) node in
       Ok (<[node := map (map (fun v => bool_decide (v = label d))) I]> areas))
    (node_list sample_network) ∅.

(** [out[mask] += value]: indexing with a boolean mask of another shape
    raises [IndexError]. *)
Definition masked_add (out : list (list Q)) (mask : list (list bool))
    (value : Q) : result (list (list Q)) :=
  if bool_decide (shape mask = shape out)
  then Ok (zip_with (zip_with (fun c (b : bool) => if b then c + value else c))
             out mask)
  else Raise IndexError.

(** [get_upstream_concentration_map]; [upstream_preds] is the dict's
    [items()] in iteration order.  The array starts with the shape of the
    first mask of [areas], in the order the model iterates over the dict;
    the masks of one label image all have its shape. *)
Definition get_upstream_concentration_map
    (areas : gmap string (list (list bool)))
    (upstream_preds : list (string * Q)) : result (list (list Q)) :=
  match (map_to_list areas).*2 with
  | [] => Raise IndexError
  | first :: _ =>
      for_each
        (fun out sv =>
           let! mask := getitem areas sv.1 in
           masked_add out mask sv.2)
        upstream_preds
        (replicate (shape first).1 (replicate (shape first).2 0))
  end.

(** [a[mask]]: the entries of [a] at which the mask is true, row by row. *)
Definition select (a : list (list Q)) (mask : list (list bool)) : list Q :=
  zip a mask ≫= (fun rm : list Q * list bool =>
    zip rm.1 rm.2 ≫= (fun cb : Q * bool => if cb.2 then [cb.1] else [])).

(** [np.mean] of a non-empty list of floats. *)
Definition np_mean (l : list Q) : Q :=
  Qsum l / inject_Z (Z.of_nat (length l)).

(** [np.mean(concentration_map[areas[sample_name]])], the tracer value
    [mix_downstream] gives to a site whose mask has the shape of the map and
    holds a pixel. *)
Definition tracer_mean_of (areas : gmap string (list (list bool)))
    (concentration_map : list (list Q)) (sample_name : string) : Q :=
  np_mean (select concentration_map (default [] (areas !! sample_name))).

(** A two-dimensional array of [rows] rows and [cols] columns. *)
Definition rect {A} (rows cols : nat) (a : list (list A)) : Prop :=
  length a = rows ∧ Forall (fun r => length r = cols) a.

(** Is pixel [(y, x)] in the mask of site [s]? *)
Definition in_mask (areas : gmap string (list (list bool))) (s : string)
    (y x : nat) : bool :=
  default false (m ← areas !! s; at2 m y x).

(** The label of a node, [None] for a node without data. *)
Definition label_of (G : DiGraph) (x : string) : option Z :=
  label <$> node_data G !! x.

(** The mask [I == l]. *)
Definition label_mask (I : list (list Z)) (l : Z) : list (list bool) :=
  map (map (fun v => bool_decide (v = l))) I.

(** A label image of two rows: pixels of the catchments of [confluence]
    and one unclaimed pixel. *)
Definition confluence_labels : list (list Z) := [[1; 1; 2]; [3; 0; 2]]%Z.

(** One concentration for each site of [confluence]. *)
Definition confluence_concentrations : list (string * Q) :=
  [("a"%string, 10); ("b"%string, 20); ("c"%string, 30)].

(** The masks of the sites of [confluence] over [confluence_labels]. *)
Definition confluence_areas : gmap string (list (list bool)) :=
  match get_unique_upstream_areas confluence_labels confluence with
  | Ok areas => areas
  | Raise _ => ∅
  end.

(** ** Notions used in the proofs about the predictions of mix_downstream *)

(** Every node of [L] holds floats in its two totals. *)
Definition const_totals (L : list string) (G : DiGraph) : Prop :=
  ∀ z d, z ∈ L → node_data G !! z = Some d →
         ∃ f t, my_total_flux d = Const f ∧ my_total_tracer_flux d = Const t.

(** ** Notions used in the proofs about the inversion grid *)

(** The node [InverseGrid.__init__] creates for column [i] and row [j] of
    a grid of [nx] by [ny] cells over the raster [a], given the dictionary
    [labels] from catchment labels to sample names. *)
Definition cell_of (labels : gmap Z string) (a : list (list Z)) (nx ny : nat)
    (ij : nat * nat) : result InverseNode :=
  let! label :=
    raster_get a (centre_pixel (shape0 a) ny ij.2)
      (centre_pixel (shape1 a) nx ij.1) in
  let! sample_name :=
    if decide (label ≠ 0%Z)
    then match labels !! label with
         | Some s => Ok s
         | None => Raise KeyError
         end
    else Ok "NaN"%string in
  Ok {| left_neighbour :=
          if decide (0 < ij.1)%nat then Some (ij.2, pred ij.1) else None;
        top_neighbour :=
          if decide (0 < ij.2)%nat then Some (pred ij.2, ij.1) else None;
        sample_name := sample_name;
        concentration := Some (Concentration ij.2 ij.1) |}.

(** What the double loop of [InverseGrid.__init__] keeps while it fills a
    grid of [nx0] by [ny0] cells over the raster [a]. *)
Record grid_filled (labels : gmap Z string) (a : list (list Z))
    (nx0 ny0 : nat) (g : InverseGrid) : Prop := mkGridFilled {
  gf_nx : nx g = nx0;
  gf_ny : ny g = ny0;
  gf_labels : area_labels g = a;
  gf_cells : ∀ j i node, node_arr g !! (j, i) = Some node →
                         cell_of labels a nx0 ny0 (i, j) = Ok node;
  gf_sites : ∀ s l, sites_to_nodes g !! s = Some l →
                    l ≠ [] ∧
                    ∀ node, node ∈ l →
                            sample_name node = s ∧
                            ∃ ji, node_arr g !! ji = Some node;
}.

(** A raster all of whose rows have the length of the first. *)
Definition rectangular (a : list (list Z)) : Prop :=
  Forall (fun row => length row = shape1 a) a.

(** ** Notions used in the proofs about the terms of the problem *)

(** The misfit term of site [x]. *)
Definition misfit_term (x : string) : expr :=
  cp_log_ratio (Var (NormalisedConcentrationDummy x)) (ObservedP x) (ObservedRP x).

(** The regularizer term of site [x] in a discrete problem. *)
Definition discrete_regularizer_term (x : string) : expr :=
  Maximum (Var (TracerValue x)) (InvPos (Var (TracerValue x))).

(** The body of the loop of [_build_regularizer_terms_continuous]. *)
Definition continuous_regularizer_body (g : InverseGrid) (terms : list expr)
    (ji : nat * nat) : result (list expr) :=
  match node_arr g !! ji with
  | None => Raise AttributeError
  | Some node =>
      if decide (sample_name node = "NaN"%string) then Ok terms
      else
        let! terms :=
          match inside_neighbour g (left_neighbour node) with
          | Some l =>
              let! t := concentration_difference node l in
              Ok (terms ++ [t])
          | None => Ok terms
          end in
        match inside_neighbour g (top_neighbour node) with
        | Some t' =>
            let! t := concentration_difference node t' in
            Ok (terms ++ [t])
        | None => Ok terms
        end
  end.

(** The term the loop adds for the neighbour [ref] of [node]. *)
Definition difference_to (g : InverseGrid) (node : InverseNode)
    (ref : option (nat * nat)) : list expr :=
  match inside_neighbour g ref with
  | Some n =>
      match concentration_difference node n with
      | Ok t => [t]
      | Raise _ => []
      end
  | None => []
  end.

(** The terms the loop adds for [node]. *)
Definition cell_terms (g : InverseGrid) (node : InverseNode) : list expr :=
  if decide (sample_name node = "NaN"%string) then []
  else difference_to g node (left_neighbour node) ++
       difference_to g node (top_neighbour node).

(** A network without nodes. *)
Definition no_sites : DiGraph := empty_graph.

(** ** Notions used in the proofs about the solver calls of solve *)

(** A computation that invokes the solver at most [k] times. *)
Definition calls_within (k : nat) {A} (m : M A) : Prop :=
  ∀ u, (solver_calls u ≤ solver_calls (m u).2 ≤ solver_calls u + k)%nat.

(** A computation that leaves the observation parameters as they are. *)
Definition keeps_observations {A} (m : M A) : Prop :=
  ∀ u, _site_to_observation (m u).2 = _site_to_observation u.

(** Site [s] holds the observation [v] and its reciprocal. *)
Definition observation_bound (s : string) (v : Q) (u : SampleNetworkUnmixer)
  : Prop :=
  ∃ x, _site_to_observation u !! s = Some x ∧
       pvalue (p x) = Some v ∧ pvalue (rp x) = Some (1 / v).

(** The statement [self._regularizer_strength.value = regularization_strength]
    of [solve]. *)
Definition solve_strength_setter `{Backend} (regularization_strength : option Q)
  : M unit :=
  fun u =>
    match CpParameter_set_value (_regularizer_strength u) regularization_strength with
    | Ok s => (Ok tt, with_strength s u)
    | Raise e => (Raise e, u)
    end.

(** ** solve_montecarlo *)

(** A left fold in [M]: a [for] loop that updates local variables and the
    unmixer. *)
Fixpoint foldM {X A} (body : A → X → M A) (xs : list X) (a : A) : M A :=
  match xs with
  | [] => mret a
  | x :: xs' => let* a' := body a x in foldM body xs' a'
  end.

(** [predictions_up_mc]: a list of the upstream results of the repeats when
    solving continuously, a [defaultdict(list)] of per-site lists
    otherwise. *)
Inductive UpstreamMC : Type :=
| UpstreamSeries (l : list Upstream)
| UpstreamPerSite (d : gmap string (list Q)).

(** [d[k] += [v]] on a [defaultdict(list)] *)
Definition append_to {V} (d : gmap string (list V)) (k : string) (v : V)
  : gmap string (list V) :=
  <[k := default [] (d !! k) ++ [v]]> d.

(** The resampled observations of one repeat; [noise k] is the draw of
    [np.random.normal(loc=1, scale=relative_error / 100)] for the [k]-th
    item. *)
Definition resample (noise : nat → Q) (observation_data : list (string * Q))
  : list (string * Q) :=
  imap (fun k sv => (sv.1, sv.2 * noise k)) observation_data.

(** [for sample_name in keys: acc[sample_name] += [src[sample_name]]] *)
Definition append_all {V} (src : gmap string V) (ks : list string)
    (acc : gmap string (list V)) : result (gmap string (list V)) :=
  for_each
    (fun d k => let! v := getitem src k in Ok (append_to d k v))
    ks acc.

(** The statements of the loop of [solve_montecarlo] after the call of
    [solve].  A list does not take a string as index ([TypeError]), a
    dictionary does not take [+= [...]] ([TypeError]), and an array does
    not take a string as index ([IndexError]). *)
Definition montecarlo_record (continuous : bool)
    (acc : gmap string (list npfloat) * UpstreamMC)
    (element_pred_down : gmap string npfloat) (element_pred_upstream : Upstream)
  : result (gmap string (list npfloat) * UpstreamMC) :=
  let! downs := append_all element_pred_down (keys element_pred_down) acc.1 in
  let! ups :=
    if continuous then
      match acc.2 with
      | UpstreamSeries l => Ok (UpstreamSeries (l ++ [element_pred_upstream]))
      | UpstreamPerSite _ => Raise TypeError
      end
    else
      match keys element_pred_down with
      | [] => Ok acc.2
      | _ :: _ =>
          match acc.2, element_pred_upstream with
          | UpstreamSeries _, _ => Raise TypeError
          | UpstreamPerSite _, UpstreamMap _ => Raise IndexError
          | UpstreamPerSite d, UpstreamDict e =>
              let! d := append_all e (keys element_pred_down) d in
              Ok (UpstreamPerSite d)
          end
      end in
  Ok (downs, ups).

(** [solve_montecarlo], with the random draws given: [noise r k] is the
    draw for the [k]-th observation in repeat [r].  The call of [solve]
    passes no export rates. *)
Definition solve_montecarlo `{Backend} (noise : nat → nat → Q)
    (observation_data : list (string * Q)) (num_repeats : Z)
    (regularization_strength : option Q) (solver : string)
  : M (gmap string (list npfloat) * UpstreamMC) :=
  let* u := mget in
  let predictions_up_mc :=
    if continuous u then UpstreamSeries [] else UpstreamPerSite ∅ in
  foldM
    (fun acc r =>
       let* res :=
         solve (resample (noise r) observation_data) None
           regularization_strength solver in
       let* u := mget in
       lift (montecarlo_record (continuous u) acc res.1 res.2))
    (seq 0 (Z.to_nat num_repeats)) (∅, predictions_up_mc).

(** What [solve_montecarlo] holds after [k] repeats on the unmixer [u0]. *)
Definition montecarlo_after (u0 : SampleNetworkUnmixer) (k : nat)
    (acc : gmap string (list npfloat) * UpstreamMC)
    (u : SampleNetworkUnmixer) : Prop :=
  solver_calls u = (solver_calls u0 + k)%nat ∧
  sample_network u = sample_network u0 ∧
  continuous u = continuous u0 ∧
  (∀ s, length (default [] (acc.1 !! s)) =
        if bool_decide (s ∈ node_list (sample_network u0)) then k else 0%nat) ∧
  if continuous u0
  then ∃ l, acc.2 = UpstreamSeries l ∧ length l = k
  else ∃ d, acc.2 = UpstreamPerSite d ∧
            ∀ s, length (default [] (d !! s)) =
                 if bool_decide (s ∈ node_list (sample_network u0)) then k
                 else 0%nat.

(** * Properties *)

(** Closed decidable facts about small inputs, by evaluation. *)
Ltac by_evaluation := apply (bool_decide_unpack _); vm_compute; exact I.

(** ** Double-precision arithmetic *)

Lemma two_pow_pos (e : Z) : 0 < 2 ^ e.
Proof. apply Qpower_0_lt. reflexivity. Qed.

Lemma two_pow_inject (n : Z) : (0 ≤ n)%Z → inject_Z (2 ^ n) == 2 ^ n.
Proof. intros Hn. by rewrite Zpower_Qpower. Qed.

Lemma two_pow_succ (e : Z) : 2 ^ (e + 1) == 2 * 2 ^ e.
Proof. rewrite Qpower_plus by discriminate. rewrite Qmult_comm. reflexivity. Qed.

Lemma two_pow_le (n m : Z) : (n ≤ m)%Z → 2 ^ n <= 2 ^ m.
Proof. intros H. apply Qpower_le_compat_l; [done|discriminate]. Qed.

Lemma two_pow_lt_inv (n m : Z) : 2 ^ n < 2 ^ m → (n < m)%Z.
Proof. intros H. by apply (Qpower_lt_compat_l_inv 2). Qed.

Lemma binade_spec (x : Q) :
  0 < x → 2 ^ binade x <= x ∧ x < 2 ^ (binade x + 1).
Proof.
  intros Hx. destruct x as [p q]. unfold binade. cbn [Qnum Qden].
  assert (0 < p)%Z as Hp by (unfold Qlt in Hx; cbn in Hx; lia).
  pose proof (Z.log2_spec p Hp) as [Ha1 Ha2].
  pose proof (Z.log2_spec (Z.pos q) ltac:(lia)) as [Hb1 Hb2].
  pose proof (Z.log2_nonneg p) as Ha0.
  pose proof (Z.log2_nonneg (Z.pos q)) as Hb0.
  set (a := Z.log2 p) in *. set (b := Z.log2 (Z.pos q)) in *.
  assert (2 ^ a <= inject_Z p) as Ha1'.
  { rewrite <- two_pow_inject by done. by rewrite <- Zle_Qle. }
  assert (inject_Z p < 2 ^ (a + 1)) as Ha2'.
  { rewrite <- two_pow_inject by lia. rewrite <- Zlt_Qlt. lia. }
  assert (2 ^ b <= inject_Z (Z.pos q)) as Hb1'.
  { rewrite <- two_pow_inject by done. by rewrite <- Zle_Qle. }
  assert (inject_Z (Z.pos q) < 2 ^ (b + 1)) as Hb2'.
  { rewrite <- two_pow_inject by lia. rewrite <- Zlt_Qlt. lia. }
  assert ((p # q) * inject_Z (Z.pos q) == inject_Z p) as Hpq.
  { rewrite (Qmake_Qdiv p q). field. discriminate. }
  assert (0 < inject_Z (Z.pos q)) as Hq0 by reflexivity.
  destruct (Qle_bool (2 ^ (a - b)) (p # q)) eqn:E.
  - apply Qle_bool_iff in E. split; [exact E|].
    replace (a - b + 1)%Z with ((a + 1) - b)%Z by lia.
    rewrite Qpower_minus by discriminate.
    apply Qlt_shift_div_l; [apply two_pow_pos|].
    apply Qle_lt_trans with ((p # q) * inject_Z (Z.pos q)); [|by rewrite Hpq].
    apply Qmult_le_l; [exact Hx|exact Hb1'].
  - assert (p # q < 2 ^ (a - b)) as E'.
    { apply Qnot_le_lt. intros Hle. apply Qle_bool_iff in Hle. congruence. }
    split; [|by replace (a - b - 1 + 1)%Z with (a - b)%Z by lia].
    replace (a - b - 1)%Z with (a - (b + 1))%Z by lia.
    rewrite Qpower_minus by discriminate.
    apply Qle_shift_div_r; [apply two_pow_pos|].
    apply Qle_trans with ((p # q) * inject_Z (Z.pos q)); [by rewrite Hpq|].
    apply Qmult_le_l; [exact Hx|]. by apply Qlt_le_weak.
Qed.

Lemma round_half_even_bounds (t : Q) :
  (Qfloor t ≤ round_half_even t ≤ Qfloor t + 1)%Z.
Proof.
  unfold round_half_even.
  destruct (Qcompare _ _); [destruct (Z.even _)|..]; lia.
Qed.

Lemma round_half_even_comp (t t' : Q) :
  t == t' → round_half_even t = round_half_even t'.
Proof.
  intros E. unfold round_half_even.
  rewrite (Qfloor_comp _ _ E).
  assert (t - inject_Z (Qfloor t') == t' - inject_Z (Qfloor t')) as E'
    by (by rewrite E).
  by rewrite (Qcompare_comp _ _ E' (1 # 2) (1 # 2) (Qeq_refl _)).
Qed.

Lemma round_half_even_Z (z : Z) : round_half_even (inject_Z z) = z.
Proof.
  unfold round_half_even. rewrite Qfloor_Z.
  destruct (Qcompare_spec (inject_Z z - inject_Z z) (1 # 2)) as [E|E|E]; [| done |].
  - exfalso. assert (inject_Z z - inject_Z z == 0) as E0 by ring.
    rewrite E0 in E. discriminate E.
  - exfalso. assert (inject_Z z - inject_Z z == 0) as E0 by ring.
    rewrite E0 in E. discriminate E.
Qed.

Lemma round_half_even_mono (t t' : Q) :
  t <= t' → (round_half_even t ≤ round_half_even t')%Z.
Proof.
  intros Hle. pose proof (Qfloor_resp_le t t' Hle) as Hf.
  pose proof (round_half_even_bounds t) as Hb.
  pose proof (round_half_even_bounds t') as Hb'.
  destruct (decide (Qfloor t < Qfloor t')%Z) as [Hlt|Hge]; [lia|].
  assert (Qfloor t = Qfloor t') as Ef by lia.
  unfold round_half_even. rewrite <- Ef.
  destruct (Qcompare_spec (t - inject_Z (Qfloor t)) (1 # 2)) as [E|E|E];
    destruct (Qcompare_spec (t' - inject_Z (Qfloor t)) (1 # 2)) as [E'|E'|E'];
    try (destruct (Z.even _)); try lia; exfalso; lra.
Qed.

(** The distance to the rounded value is at most one half. *)
Lemma round_half_even_error (t : Q) :
  t - (1 # 2) <= inject_Z (round_half_even t) ∧
  inject_Z (round_half_even t) <= t + (1 # 2).
Proof.
  pose proof (Qfloor_le t) as H1. pose proof (Qlt_floor t) as H2.
  rewrite inject_Z_plus in H2. change (inject_Z 1) with 1 in H2.
  unfold round_half_even.
  destruct (Qcompare_spec (t - inject_Z (Qfloor t)) (1 # 2)) as [E|E|E].
  - destruct (Z.even _); rewrite ?inject_Z_plus; change (inject_Z 1) with 1;
      split; lra.
  - split; lra.
  - rewrite inject_Z_plus. change (inject_Z 1) with 1. split; lra.
Qed.

Lemma binade_unique (x : Q) (e : Z) :
  2 ^ e <= x → x < 2 ^ (e + 1) → binade x = e.
Proof.
  intros H1 H2.
  assert (0 < x) as Hx by (eapply Qlt_le_trans; [apply (two_pow_pos e)|done]).
  destruct (binade_spec x Hx) as [H3 H4].
  assert (e < binade x + 1)%Z
    by (apply two_pow_lt_inv; by eapply Qle_lt_trans).
  assert (binade x < e + 1)%Z
    by (apply two_pow_lt_inv; by eapply Qle_lt_trans).
  lia.
Qed.

Lemma binade_comp (x y : Q) : 0 < x → x == y → binade x = binade y.
Proof.
  intros Hx E. destruct (binade_spec x Hx) as [H1 H2].
  symmetry. apply binade_unique; by rewrite <- E.
Qed.

Lemma binade_mono (x y : Q) : 0 < x → x <= y → (binade x ≤ binade y)%Z.
Proof.
  intros Hx Hle.
  assert (0 < y) as Hy by (by eapply Qlt_le_trans).
  destruct (binade_spec x Hx) as [H1 _]. destruct (binade_spec y Hy) as [_ H2].
  assert (binade x < binade y + 1)%Z; [|lia].
  apply two_pow_lt_inv. eapply Qle_lt_trans; [exact H1|].
  by eapply Qle_lt_trans.
Qed.

(** The scaled number lies between [2^52] and [2^53]. *)
Lemma scaled_bounds (x : Q) :
  0 < x → 2 ^ 52 <= x / 2 ^ (binade x - 52) ∧ x / 2 ^ (binade x - 52) < 2 ^ 53.
Proof.
  intros Hx. destruct (binade_spec x Hx) as [H1 H2].
  pose proof (two_pow_pos (binade x - 52)) as Hu.
  split.
  - apply Qle_shift_div_l; [done|].
    rewrite <- Qpower_plus by discriminate.
    by replace (52 + (binade x - 52))%Z with (binade x) by lia.
  - apply Qlt_shift_div_r; [done|].
    rewrite <- Qpower_plus by discriminate.
    by replace (53 + (binade x - 52))%Z with (binade x + 1)%Z by lia.
Qed.

Lemma fl_pos_bounds (x : Q) :
  0 < x → 2 ^ binade x <= fl_pos x ∧ fl_pos x <= 2 ^ (binade x + 1).
Proof.
  intros Hx. destruct (scaled_bounds x Hx) as [H1 H2].
  pose proof (two_pow_pos (binade x - 52)) as Hu.
  unfold fl_pos. set (u := 2 ^ (binade x - 52)) in *.
  set (t := x / u) in *.
  assert (2 ^ 52 ≤ round_half_even t)%Z as Hlo.
  { rewrite <- (round_half_even_Z (2 ^ 52)). apply round_half_even_mono.
    by rewrite two_pow_inject. }
  assert (round_half_even t ≤ 2 ^ 53)%Z as Hhi.
  { rewrite <- (round_half_even_Z (2 ^ 53)). apply round_half_even_mono.
    rewrite two_pow_inject by done. by apply Qlt_le_weak. }
  split.
  - replace (binade x) with (52 + (binade x - 52))%Z at 1 by lia.
    rewrite Qpower_plus by discriminate. fold u.
    apply Qmult_le_compat_r; [|by apply Qlt_le_weak].
    rewrite Zle_Qle in Hlo. by rewrite <- two_pow_inject.
  - replace (binade x + 1)%Z with (53 + (binade x - 52))%Z by lia.
    rewrite Qpower_plus by discriminate. fold u.
    apply Qmult_le_compat_r; [|by apply Qlt_le_weak].
    rewrite Zle_Qle in Hhi. by rewrite <- two_pow_inject.
Qed.

Lemma fl_pos_comp (x y : Q) : 0 < x → x == y → fl_pos x == fl_pos y.
Proof.
  intros Hx E. unfold fl_pos. rewrite <- (binade_comp x y Hx E).
  set (u := 2 ^ (binade x - 52)).
  assert (x / u == y / u) as Et by (by rewrite E).
  by rewrite (round_half_even_comp _ _ Et).
Qed.

Lemma fl_pos_mono (x y : Q) : 0 < x → x <= y → fl_pos x <= fl_pos y.
Proof.
  intros Hx Hle.
  assert (0 < y) as Hy by (by eapply Qlt_le_trans).
  pose proof (binade_mono x y Hx Hle) as He.
  destruct (decide (binade x = binade y)) as [E|Hne].
  - unfold fl_pos. rewrite <- E.
    pose proof (two_pow_pos (binade x - 52)) as Hu.
    apply Qmult_le_compat_r; [|by apply Qlt_le_weak].
    rewrite <- Zle_Qle. apply round_half_even_mono.
    apply Qmult_le_compat_r; [done|]. apply Qlt_le_weak. by apply Qinv_lt_0_compat.
  - destruct (fl_pos_bounds x Hx) as [_ H1]. destruct (fl_pos_bounds y Hy) as [H2 _].
    eapply Qle_trans; [exact H1|]. eapply Qle_trans; [|exact H2].
    apply two_pow_le. lia.
Qed.

(** The rounding error is at most half a unit in the last place. *)
Lemma fl_pos_error (x : Q) :
  0 < x →
  x - 2 ^ (binade x - 53) <= fl_pos x ∧ fl_pos x <= x + 2 ^ (binade x - 53).
Proof.
  intros Hx. pose proof (two_pow_pos (binade x - 52)) as Hu.
  unfold fl_pos.
  destruct (round_half_even_error (x / 2 ^ (binade x - 52))) as [H1 H2].
  assert (2 ^ (binade x - 53) == (1 # 2) * 2 ^ (binade x - 52)) as ->.
  { replace (binade x - 52)%Z with ((binade x - 53) + 1)%Z by lia.
    rewrite two_pow_succ. field. }
  set (u := 2 ^ (binade x - 52)) in *.
  set (r := inject_Z (round_half_even (x / u))) in *.
  assert (x == x / u * u) as Ex by (field; lra).
  split.
  - apply Qle_trans with ((x / u - (1 # 2)) * u); [rewrite Ex at 1; lra|].
    apply Qmult_le_compat_r; [done|lra].
  - apply Qle_trans with ((x / u + (1 # 2)) * u); [|rewrite Ex at 2; lra].
    apply Qmult_le_compat_r; [done|lra].
Qed.

(** A number with a mantissa of at most 53 bits is its own rounding. *)
Lemma fl_pos_exact (x : Q) (z j : Z) :
  (0 < z < 2 ^ 53)%Z → x == inject_Z z * 2 ^ j → fl_pos x == x.
Proof.
  intros [Hz0 Hz] E.
  assert (0 < x) as Hx.
  { rewrite E. apply Qmult_lt_0_compat; [|apply two_pow_pos].
    replace 0 with (inject_Z 0) by done. by rewrite <- Zlt_Qlt. }
  destruct (binade_spec x Hx) as [H1 _].
  assert (binade x < 53 + j)%Z as He.
  { apply two_pow_lt_inv. apply Qle_lt_trans with x; [exact H1|]. rewrite E.
    rewrite Qpower_plus by discriminate.
    apply Qmult_lt_compat_r; [apply two_pow_pos|].
    rewrite <- two_pow_inject by done. by rewrite <- Zlt_Qlt. }
  unfold fl_pos. set (d := (j - (binade x - 52))%Z).
  assert (0 ≤ d)%Z as Hd by lia.
  assert (x / 2 ^ (binade x - 52) == inject_Z (z * 2 ^ d)) as Et.
  { rewrite inject_Z_mult, two_pow_inject by done. unfold d.
    rewrite (Qpower_minus 2 j (binade x - 52)) by discriminate. rewrite E at 1.
    pose proof (two_pow_pos (binade x - 52)).
    set (a := 2 ^ j) in *. set (u := 2 ^ (binade x - 52)) in *.
    field. lra. }
  rewrite (round_half_even_comp _ _ Et), round_half_even_Z.
  rewrite <- Et. pose proof (two_pow_pos (binade x - 52)).
  set (u := 2 ^ (binade x - 52)) in *. field. lra.
Qed.

Lemma fl_zero (x : Q) : x == 0 → fl x = 0.
Proof.
  intros E. unfold fl. destruct x as [[|p|p] q]; [done|discriminate E|discriminate E].
Qed.

Lemma fl_of_pos (x : Q) : 0 < x → fl x = fl_pos x.
Proof.
  intros Hx. unfold fl. destruct x as [[|p|p] q]; [discriminate Hx|done|discriminate Hx].
Qed.

Lemma fl_of_neg (x : Q) : x < 0 → fl x = - fl_pos (- x).
Proof.
  intros Hx. unfold fl. destruct x as [[|p|p] q]; [discriminate Hx|discriminate Hx|done].
Qed.

#[global] Instance fl_comp : Proper (Qeq ==> Qeq) fl.
Proof.
  intros x y E.
  destruct (Qlt_le_dec 0 x) as [Hx|Hx].
  - rewrite (fl_of_pos x Hx), (fl_of_pos y) by (by rewrite <- E).
    by apply fl_pos_comp.
  - destruct (Qle_lt_or_eq _ _ Hx) as [Hlt|E0].
    + rewrite (fl_of_neg x Hlt), (fl_of_neg y) by (by rewrite <- E).
      apply Qopp_comp. apply fl_pos_comp; [lra|by rewrite E].
    + rewrite (fl_zero x E0), (fl_zero y) by (by rewrite <- E). reflexivity.
Qed.

Lemma fl_nonneg (x : Q) : 0 <= x → 0 <= fl x.
Proof.
  intros Hx. destruct (Qle_lt_or_eq _ _ Hx) as [Hlt|E0].
  - rewrite (fl_of_pos x Hlt). destruct (fl_pos_bounds x Hlt) as [H _].
    pose proof (two_pow_pos (binade x)). lra.
  - rewrite (fl_zero x) by done. discriminate.
Qed.

(** Rounding is monotone. *)
Lemma fl_mono (x y : Q) : 0 <= x → x <= y → fl x <= fl y.
Proof.
  intros Hx Hle. destruct (Qle_lt_or_eq _ _ Hx) as [Hlt|E0].
  - rewrite (fl_of_pos x Hlt), (fl_of_pos y) by lra. by apply fl_pos_mono.
  - rewrite (fl_zero x) by done. apply fl_nonneg. lra.
Qed.

(** A number [z·2^j] with [z < 2^53] is a double. *)
Lemma fl_exact (x : Q) (z j : Z) :
  (0 ≤ z < 2 ^ 53)%Z → x == inject_Z z * 2 ^ j → fl x == x.
Proof.
  intros [Hz0 Hz] E. destruct (decide (z = 0%Z)) as [->|Hne].
  - rewrite (fl_zero x); [|rewrite E; ring]. rewrite E. ring.
  - assert (0 < x) as Hx.
    { rewrite E. apply Qmult_lt_0_compat; [|apply two_pow_pos].
      replace 0 with (inject_Z 0) by done. rewrite <- Zlt_Qlt. lia. }
    rewrite (fl_of_pos x Hx). apply (fl_pos_exact x z j); [lia|done].
Qed.

Lemma fl_int (z : Z) : (0 ≤ z < 2 ^ 53)%Z → fl (inject_Z z) == inject_Z z.
Proof. intros Hz. apply (fl_exact _ z 0 Hz). cbn. ring. Qed.

Lemma fl_half (z : Z) :
  (0 ≤ z < 2 ^ 53)%Z → fl (inject_Z z / 2) == inject_Z z / 2.
Proof. intros Hz. apply (fl_exact _ z (-1) Hz). cbn. field. Qed.

(** The relative rounding error is at most [2^-53]. *)
Lemma fl_error (x : Q) :
  0 <= x → x * (1 - 2 ^ (-53)) <= fl x ∧ fl x <= x * (1 + 2 ^ (-53)).
Proof.
  intros Hx. destruct (Qle_lt_or_eq _ _ Hx) as [Hlt|E0].
  - rewrite (fl_of_pos x Hlt). destruct (fl_pos_error x Hlt) as [H1 H2].
    destruct (binade_spec x Hlt) as [Hb _].
    assert (2 ^ (binade x - 53) <= x * 2 ^ (-53)) as Hu.
    { replace (binade x - 53)%Z with (binade x + -53)%Z by lia.
      rewrite Qpower_plus by discriminate.
      apply Qmult_le_compat_r; [done|]. apply Qlt_le_weak, two_pow_pos. }
    set (e := 2 ^ (-53)) in *. set (u := 2 ^ (binade x - 53)) in *.
    split; lra.
  - rewrite (fl_zero x) by done. rewrite <- E0. split; lra.
Qed.

Lemma Qnat_nonneg k : 0 <= Qnat k.
Proof. unfold Qnat. replace 0 with (inject_Z 0) by done. rewrite <- Zle_Qle. lia. Qed.

Lemma Qnat_le k k' : (k ≤ k')%nat → Qnat k <= Qnat k'.
Proof. intros H. unfold Qnat. rewrite <- Zle_Qle. lia. Qed.

Lemma float_of_nat_exact k :
  (Z.of_nat k < 2 ^ 53)%Z → float_of_nat k == Qnat k.
Proof. intros H. apply fl_int. lia. Qed.

Lemma float_of_nat_nonneg k : 0 <= float_of_nat k.
Proof. apply fl_nonneg, Qnat_nonneg. Qed.

Lemma float_of_nat_mono k k' :
  (k ≤ k')%nat → float_of_nat k <= float_of_nat k'.
Proof. intros H. apply fl_mono; [apply Qnat_nonneg|by apply Qnat_le]. Qed.

Lemma int_truediv_nonneg m n : 0 <= int_truediv m n.
Proof.
  apply fl_nonneg. unfold Qdiv. apply Qmult_le_0_compat; [apply Qnat_nonneg|].
  apply Qinv_le_0_compat, Qnat_nonneg.
Qed.

Lemma py_int_nonneg x : 0 <= x → py_int x = Qfloor x.
Proof. intros H. unfold py_int. apply Qle_bool_iff in H. by rewrite H. Qed.

Lemma py_int_mono x y : 0 <= x → x <= y → (py_int x ≤ py_int y)%Z.
Proof.
  intros Hx Hle. rewrite !py_int_nonneg by lra. by apply Qfloor_resp_le.
Qed.

Lemma py_int_Qnat k : py_int (Qnat k) = Z.of_nat k.
Proof. rewrite py_int_nonneg by apply Qnat_nonneg. apply Qfloor_Z. Qed.

#[global] Instance py_int_comp : Proper (Qeq ==> eq) py_int.
Proof.
  intros x y E. unfold py_int.
  rewrite (Qfloor_comp _ _ E), (Qceiling_comp _ _ E).
  destruct (Qle_bool 0 x) eqn:Ex, (Qle_bool 0 y) eqn:Ey; try done.
  - apply Qle_bool_iff in Ex. rewrite E in Ex. apply Qle_bool_iff in Ex. congruence.
  - apply Qle_bool_iff in Ey. rewrite <- E in Ey. apply Qle_bool_iff in Ey. congruence.
Qed.

(** The block edges are ordered. *)
Lemma block_start_mono m n k k' :
  (k ≤ k')%nat → (block_start m n k ≤ block_start m n k')%nat.
Proof.
  intros Hk. unfold block_start, fmul. apply Z2Nat.inj_le.
  - rewrite py_int_nonneg; [apply Qfloor_resp_le with (x := 0)|]; apply fl_nonneg;
      apply Qmult_le_0_compat; auto using float_of_nat_nonneg, int_truediv_nonneg.
  - rewrite py_int_nonneg; [apply Qfloor_resp_le with (x := 0)|]; apply fl_nonneg;
      apply Qmult_le_0_compat; auto using float_of_nat_nonneg, int_truediv_nonneg.
  - pose proof (float_of_nat_nonneg k). pose proof (int_truediv_nonneg m n).
    apply py_int_mono.
    + apply fl_nonneg. by apply Qmult_le_0_compat.
    + apply fl_mono; [by apply Qmult_le_0_compat|].
      apply Qmult_le_compat_r; [by apply float_of_nat_mono|done].
Qed.

Lemma Qnat_mult a b : Qnat (a * b) == Qnat a * Qnat b.
Proof. unfold Qnat. by rewrite Nat2Z.inj_mul, inject_Z_mult. Qed.

Lemma Qnat_plus a b : Qnat (a + b) == Qnat a + Qnat b.
Proof. unfold Qnat. by rewrite Nat2Z.inj_add, inject_Z_plus. Qed.

Lemma Qnat_pos a : (0 < a)%nat → 0 < Qnat a.
Proof.
  intros H. unfold Qnat. replace 0 with (inject_Z 0) by done.
  rewrite <- Zlt_Qlt. lia.
Qed.

Lemma fl_Qnat k : (Z.of_nat k < 2 ^ 53)%Z → fl (Qnat k) == Qnat k.
Proof. intros H. apply fl_int. lia. Qed.

(** When the number of cells divides the extent, the step is the integer
    quotient and every product is exact. *)
Lemma int_truediv_exact m n :
  (0 < n)%nat → (n | m)%nat → (Z.of_nat m < 2 ^ 53)%Z →
  int_truediv m n == Qnat (m / n).
Proof.
  intros Hn [s ->] Hm. unfold int_truediv. rewrite Nat.div_mul by lia.
  fold (Qnat (s * n)) (Qnat n). 
  assert (Qnat (s * n) / Qnat n == Qnat s) as ->.
  { rewrite Qnat_mult. field. pose proof (Qnat_pos n Hn). lra. }
  apply fl_Qnat. nia.
Qed.

Lemma block_start_exact m n k :
  (0 < m)%nat → (n | m)%nat → (Z.of_nat m < 2 ^ 53)%Z → (k ≤ n)%nat →
  block_start m n k = (k * (m / n))%nat.
Proof.
  intros Hm0 Hd Hm Hk. unfold block_start, fmul.
  assert (0 < n)%nat as Hn by (destruct Hd as [s ->]; nia).
  rewrite (int_truediv_exact m n Hn Hd Hm).
  destruct Hd as [s ->]. rewrite Nat.div_mul by lia.
  assert (0 < s)%nat as Hs by nia.
  rewrite (float_of_nat_exact k) by nia.
  rewrite <- Qnat_mult, fl_Qnat by nia.
  rewrite py_int_Qnat. apply Nat2Z.id.
Qed.

Lemma Qnat_half_exact (z : nat) :
  (Z.of_nat z < 2 ^ 53)%Z → fl (Qnat z / 2) == Qnat z / 2.
Proof. intros H. apply fl_half. lia. Qed.

Lemma np_linspace_exact (start stop : Q) (s n k : nat) :
  (0 < s)%nat → (k < n)%nat → (Z.of_nat (s * n) < 2 ^ 52)%Z →
  start == Qnat s / 2 → stop == Qnat (s * n) - Qnat s / 2 →
  np_linspace start stop n k == Qnat (k * s) + Qnat s / 2.
Proof.
  intros Hs Hk Hm Hstart Hstop.
  assert (fsub stop start == Qnat ((n - 1) * s)) as Hdelta.
  { unfold fsub. rewrite Hstart, Hstop.
    assert (Qnat (s * n) - Qnat s / 2 - Qnat s / 2 == Qnat ((n - 1) * s)) as ->.
    { replace (s * n)%nat with ((n - 1) * s + s)%nat by nia.
      rewrite Qnat_plus. field. }
    apply fl_Qnat. nia. }
  assert (fl (Qnat (k * s) + Qnat s / 2) == Qnat (k * s) + Qnat s / 2) as Hsum.
  { assert (Qnat (k * s) + Qnat s / 2 == Qnat (2 * (k * s) + s) / 2) as ->.
    { rewrite Qnat_plus, (Qnat_mult 2). change (Qnat 2) with 2. field. }
    apply Qnat_half_exact. nia. }
  unfold np_linspace. cbv zeta.
  case_bool_decide as Hlast.
  { destruct Hlast as [Hn ->]. rewrite Hstop.
    replace (s * n)%nat with ((n - 1) * s + s)%nat by nia.
    rewrite Qnat_plus. field. }
  case_bool_decide as Hdiv.
  - assert (fdiv (fsub stop start) (float_of_nat (n - 1)) == Qnat s) as Hstep.
    { unfold fdiv. rewrite Hdelta, float_of_nat_exact by nia.
      assert (Qnat ((n - 1) * s) / Qnat (n - 1) == Qnat s) as ->.
      { rewrite Qnat_mult. field. pose proof (Qnat_pos (n - 1) Hdiv). lra. }
      apply fl_Qnat. nia. }
    destruct (Qeq_bool _ 0) eqn:Ez.
    { apply Qeq_bool_iff in Ez. rewrite Hstep in Ez.
      pose proof (Qnat_pos s Hs). lra. }
    cbv iota. unfold fadd, fmul. rewrite Hstep. rewrite Hstart.
    rewrite (float_of_nat_exact k) by nia.
    rewrite <- Qnat_mult, fl_Qnat by nia. exact Hsum.
  - assert (k = 0)%nat as -> by lia.
    unfold fadd, fmul. change (float_of_nat 0) with 0.
    rewrite Qmult_0_l. change (fl 0) with 0. rewrite Qplus_0_l, Hstart.
    rewrite Qnat_half_exact by nia. change (Qnat (0 * s)) with 0. ring.
Qed.

(** When the number of cells divides the extent, the centre of cell [k] is
    read at pixel [k·s + s/2] for the step [s]. *)
Lemma centre_pixel_exact m n k :
  (0 < m)%nat → (n | m)%nat → (Z.of_nat m < 2 ^ 52)%Z → (k < n)%nat →
  centre_pixel m n k = (k * (m / n) + m / n / 2)%nat.
Proof.
  intros Hm0 Hd Hm Hk. unfold centre_pixel.
  assert (0 < n)%nat as Hn by lia.
  pose proof (int_truediv_exact m n Hn Hd ltac:(lia)) as Hstep.
  destruct Hd as [s ->]. rewrite Nat.div_mul in * by lia.
  assert (0 < s)%nat as Hs by nia.
  assert (fdiv (int_truediv (s * n) n) 2 == Qnat s / 2) as Hstart.
  { unfold fdiv. rewrite Hstep. apply Qnat_half_exact. nia. }
  assert (fsub (float_of_nat (s * n)) (fdiv (int_truediv (s * n) n) 2) ==
          Qnat (s * n) - Qnat s / 2) as Hstop.
  { unfold fsub. rewrite Hstart, float_of_nat_exact by lia.
    assert (Qnat (s * n) - Qnat s / 2 == Qnat (2 * (s * n) - s) / 2) as ->.
    { assert (Qnat (2 * (s * n) - s) + Qnat s == 2 * Qnat (s * n)) as Hz.
      { rewrite <- Qnat_plus.
        replace (2 * (s * n) - s + s)%nat with (2 * (s * n))%nat by nia.
        by rewrite Qnat_mult. }
      assert (Qnat (s * n) == (Qnat (2 * (s * n) - s) + Qnat s) / 2) as ->
        by (rewrite Hz; field).
      field. }
    apply Qnat_half_exact. nia. }
  rewrite (np_linspace_exact _ _ s n k Hs Hk Hm Hstart Hstop).
  assert (Qnat (k * s) + Qnat s / 2 ==
          inject_Z (Z.of_nat (2 * (k * s) + s)) / inject_Z 2) as ->.
  { fold (Qnat (2 * (k * s) + s)). rewrite Qnat_plus, (Qnat_mult 2).
    change (Qnat 2) with 2. change (inject_Z 2) with 2. field. }
  rewrite py_int_nonneg.
  - rewrite <- Zdiv_Qdiv. apply Nat2Z.inj. rewrite Z2Nat.id.
    + rewrite !Nat2Z.inj_add, !Nat2Z.inj_mul, (Nat2Z.inj_div s 2).
      change (Z.of_nat 2) with 2%Z.
      rewrite (Z.mul_comm 2), Z.div_add_l by lia. reflexivity.
    + apply Z.div_pos; lia.
  - apply Qle_shift_div_l; [reflexivity|]. rewrite Qmult_0_l.
    fold (Qnat (2 * (k * s) + s)). apply Qnat_nonneg.
Qed.

(** With divisibility, the label of a cell is read inside its block. *)
Lemma centre_pixel_in_own_block m n k :
  (0 < m)%nat → (n | m)%nat → (Z.of_nat m < 2 ^ 52)%Z → (k < n)%nat →
  (block_start m n k ≤ centre_pixel m n k < block_start m n (S k))%nat.
Proof.
  intros Hm0 Hd Hm Hk.
  rewrite (centre_pixel_exact m n k Hm0 Hd Hm Hk).
  rewrite !(block_start_exact m n) by (done || lia).
  destruct Hd as [s ->]. rewrite Nat.div_mul by lia.
  assert (0 < s)%nat as Hs by nia.
  pose proof (Nat.div_lt s 2 Hs ltac:(lia)). lia.
Qed.

(** The relative error bound with the numeral for [2^-53]. *)
Lemma fl_error_num (x : Q) :
  0 <= x →
  x * (1 - (1 # 9007199254740992)) <= fl x ∧
  fl x <= x * (1 + (1 # 9007199254740992)).
Proof. apply fl_error. Qed.

Lemma fl_pos_pos (x : Q) : 0 < x → 0 < fl x.
Proof.
  intros Hx. rewrite (fl_of_pos x Hx). destruct (fl_pos_bounds x Hx) as [H _].
  eapply Qlt_le_trans; [apply (two_pow_pos (binade x))|exact H].
Qed.

Lemma py_int_lt (y : Q) (m : nat) :
  0 <= y → y < Qnat m → (Z.to_nat (py_int y) < m)%nat.
Proof.
  intros Hy Hlt. rewrite py_int_nonneg by done.
  pose proof (Qfloor_resp_le 0 y Hy) as H0. change (Qfloor 0) with 0%Z in H0.
  assert (Qfloor y < Z.of_nat m)%Z; [|lia].
  rewrite Zlt_Qlt. eapply Qle_lt_trans; [apply Qfloor_le|exact Hlt].
Qed.

Lemma Qnat_lt_aux a b : (a < b)%nat → Qnat a < Qnat b.
Proof. intros H. unfold Qnat. rewrite <- Zlt_Qlt. lia. Qed.

Ltac qlra := unfold Qdiv in *; change (/ 2) with (1 # 2) in *; lra.

(** The truncated doubles are not the truncated exact quotients: the
    twelfth block edge of 15 pixels under 11 cells is [int(11 * (15 / 11))],
    which is 14, and the centre of the fourth of 7 cells over 12 pixels is
    read at pixel 5, where the exact values are 15 and 6. *)
Example indices_follow_the_doubles :
  block_start 15 11 11 = 14%nat ∧ block_start 30 22 11 = 14%nat ∧
  centre_pixel 12 7 3 = 5%nat.
Proof. by vm_compute. Qed.

(** Every cell centre is read inside the extent: the rounding errors of
    [np.linspace] stay far below the half pixel that separates the last
    centre from the edge, for extents below [2^40]. *)
Lemma centre_pixel_lt m n k :
  (k < n)%nat → (n ≤ m)%nat → (Z.of_nat m < 2 ^ 40)%Z →
  (centre_pixel m n k < m)%nat.
Proof.
  intros Hk Hnm Hm. unfold centre_pixel.
  assert (1 <= Qnat n) as HN1 by (apply (Qnat_le 1 n); lia).
  assert (Qnat n <= Qnat m) as HNM by (by apply Qnat_le).
  assert (Qnat m <= 1099511627776) as HM.
  { change 1099511627776 with (inject_Z (2 ^ 40)). unfold Qnat.
    rewrite <- Zle_Qle. lia. }
  set (M := Qnat m) in *. set (N := Qnat n) in *.
  set (q := M / N).
  assert (q * N == M) as HqN by (unfold q; field; qlra).
  assert (1 <= q) as Hq1 by (apply Qle_shift_div_l; qlra).
  assert (q <= M) as HqM.
  { apply Qle_shift_div_r; [qlra|]. rewrite <- (Qmult_1_r M) at 1.
    apply Qmult_le_l; qlra. }
  set (s := int_truediv m n). 
  assert (s = fl q) as Es by reflexivity.
  assert (1 <= s) as Hs1.
  { rewrite Es. rewrite <- (fl_int 1) by lia. apply fl_mono; [discriminate|done]. }
  assert (s <= M) as Hs2.
  { rewrite Es. unfold M. rewrite <- (fl_Qnat m) by lia. apply fl_mono; [qlra|done]. }
  destruct (fl_error_num q ltac:(qlra)) as [_ Hs3]. rewrite <- Es in Hs3.
  set (start := fdiv s 2).
  assert (start = fl (s / 2)) as Estart by reflexivity.
  assert (start <= M / 2) as Ha1.
  { rewrite Estart. unfold M. rewrite <- (Qnat_half_exact m) by lia.
    apply fl_mono; [qlra|]. fold M. qlra. }
  assert ((1 # 2) <= start) as Ha2.
  { rewrite Estart. rewrite <- (fl_half 1) by lia. apply fl_mono; [discriminate|].
    change (inject_Z 1) with 1. qlra. }
  destruct (fl_error_num (s / 2) ltac:(qlra)) as [_ Ha3]. rewrite <- Estart in Ha3.
  set (stop := fsub (float_of_nat m) start).
  assert (stop == fl (M - start)) as Estop.
  { unfold stop, fsub. by rewrite float_of_nat_exact by lia. }
  assert (stop <= M - (1 # 2)) as Hb1.
  { rewrite Estop.
    assert (M - (1 # 2) == Qnat (2 * m - 1) / 2) as ->.
    { assert (Qnat (2 * m - 1) + 1 == 2 * M) as Hz.
      { change 1 with (Qnat 1) at 1. rewrite <- Qnat_plus.
        replace (2 * m - 1 + 1)%nat with (2 * m)%nat by lia.
        by rewrite Qnat_mult. }
      assert (M == (Qnat (2 * m - 1) + 1) / 2) as -> by (rewrite Hz; field).
      field. }
    rewrite <- (Qnat_half_exact (2 * m - 1)) by lia. apply fl_mono; [qlra|].
    assert (Qnat (2 * m - 1) + 1 == 2 * M) as Hz.
    { change 1 with (Qnat 1) at 1. rewrite <- Qnat_plus.
      replace (2 * m - 1 + 1)%nat with (2 * m)%nat by lia.
      by rewrite Qnat_mult. }
    apply Qle_shift_div_l; [reflexivity|]. qlra. }
  assert (0 <= stop) as Hb0 by (rewrite Estop; apply fl_nonneg; qlra).
  destruct (fl_error_num (M - start) ltac:(qlra)) as [Hb3 _].
  rewrite <- Estop in Hb3.
  unfold np_linspace. cbv zeta.
  case_bool_decide as Hlast.
  { apply py_int_lt; [done|]. fold M. qlra. }
  case_bool_decide as Hdiv; cycle 1.
  { assert (k = 0)%nat as -> by lia.
    unfold fadd, fmul. change (float_of_nat 0) with 0.
    rewrite Qmult_0_l. change (fl 0) with 0. rewrite Qplus_0_l.
    apply py_int_lt; [apply fl_nonneg; qlra|].
    eapply Qle_lt_trans; [apply (fl_mono start (M / 2)); qlra|].
    unfold M at 1. rewrite Qnat_half_exact by lia. fold M. qlra. }
  assert (k ≤ n - 2)%nat as Hk2 by lia.
  set (D := Qnat (n - 1)).
  assert (N == D + 1) as HND.
  { unfold N, D. change 1 with (Qnat 1). rewrite <- Qnat_plus. f_equiv. lia. }
  assert (1 <= D) as HD1 by (apply (Qnat_le 1 (n - 1)); lia).
  set (Z := q * D).
  assert (M == Z + q) as HMZ by (unfold Z; rewrite <- HqN, HND; ring).
  assert (D <= Z) as HDZ.
  { unfold Z. rewrite <- (Qmult_1_l D) at 1. apply Qmult_le_compat_r; qlra. }
  set (delta := fsub stop start).
  assert (delta = fl (stop - start)) as Edelta by reflexivity.
  assert (0 < stop - start) as Hpos by qlra.
  destruct (fl_error_num (stop - start) ltac:(qlra)) as [Hd2 Hd1].
  rewrite <- Edelta in Hd1, Hd2.
  assert (Z - (1 # 1024) <= delta) as HdZ by qlra.
  set (t := delta / D).
  assert (t * D == delta) as HtD by (unfold t; field; qlra).
  assert (1 - (1 # 1024) <= t) as Ht1.
  { apply Qle_shift_div_l; qlra. }
  set (step := fdiv delta (float_of_nat (n - 1))).
  assert (step == fl t) as Estep.
  { unfold step, fdiv, t, D. by rewrite float_of_nat_exact by lia. }
  assert (0 < step) as Hstep0.
  { rewrite Estep. apply fl_pos_pos. qlra. }
  assert (step <= t * (1 + (1 # 9007199254740992))) as He1.
  { rewrite Estep. apply fl_error_num. qlra. }
  destruct (Qeq_bool step 0) eqn:Ez.
  { apply Qeq_bool_iff in Ez. qlra. }
  unfold fadd, fmul. rewrite (float_of_nat_exact k) by lia.
  set (W := Qnat k * step).
  assert (0 <= W) as HW0.
  { unfold W. apply Qmult_le_0_compat; [apply Qnat_nonneg|qlra]. }
  assert (W <= (delta - t) * (1 + (1 # 9007199254740992))) as HW.
  { apply Qle_trans with ((D - 1) * step).
    - unfold W. apply Qmult_le_compat_r; [|qlra].
      assert (D - 1 == Qnat (n - 2)) as ->.
      { assert (Qnat (n - 2) + 1 == D) as <-; [|ring].
        unfold D. change 1 with (Qnat 1). rewrite <- Qnat_plus. f_equiv. lia. }
      by apply Qnat_le.
    - assert (delta - t == (D - 1) * t) as -> by (rewrite <- HtD; ring).
      rewrite <- Qmult_assoc. rewrite !(Qmult_comm (D - 1)).
      apply Qmult_le_compat_r; qlra. }
  destruct (fl_error_num W HW0) as [_ HP].
  set (P := fl W) in *.
  assert (0 <= P) as HP0 by (apply fl_nonneg; done).
  apply py_int_lt; [apply fl_nonneg; qlra|].
  apply Qle_lt_trans with (Qnat (m - 1)).
  - rewrite <- (fl_Qnat (m - 1)) by lia. apply fl_mono; [qlra|].
    assert (Qnat (m - 1) + 1 == M) as Hm1.
    { unfold M. change 1 with (Qnat 1). rewrite <- Qnat_plus. f_equiv. lia. }
    qlra.
  - apply Qnat_lt_aux. lia.
Qed.

(** ** ReciprocalParameter *)

Section reciprocal_parameter.
Context `{Backend}.

Lemma reciprocal_nonzero (v : Q) :
  ¬ v == 0 → reciprocal (Some v) = Ok (Some (1 / v)).
Proof.
  intros Hv. unfold reciprocal.
  destruct (Qeq_bool v 0) eqn:E; [|done].
  apply Qeq_bool_iff in E. contradiction.
Qed.

Lemma ReciprocalParameter_set_None (x : ReciprocalParameter) :
  ∃ x', ReciprocalParameter_set_value x None = (Ok tt, x') ∧
        pvalue (p x') = None ∧ pvalue (rp x') = None ∧
        attributes (p x') = attributes (p x) ∧
        attributes (rp x') = attributes (rp x).
Proof. eexists. by cbn. Qed.
End reciprocal_parameter.

(** C4. A fresh [ReciprocalParameter] has both slots undefined; assigning
    [None] leaves both undefined; and for every [v ≠ 0] that the two
    underlying parameters admit ([v] for [p], [1/v] for [rp]) the assignment
    completes and leaves [p = v] and [rp = 1/v] exactly. *)
Theorem reciprocal_pair_consistency `{Backend} (a : attribute)
    (x : ReciprocalParameter) (v : Q) :
  ¬ v == 0 →
  accepts (attributes (p x)) v = true →
  accepts (attributes (rp x)) (1 / v) = true →
  (∃ x', ReciprocalParameter_set_value x (Some v) = (Ok tt, x') ∧
         pvalue (p x') = Some v ∧ pvalue (rp x') = Some (1 / v)) ∧
  (∃ x', ReciprocalParameter_set_value x None = (Ok tt, x') ∧
         pvalue (p x') = None ∧ pvalue (rp x') = None) ∧
  pvalue (p (new_ReciprocalParameter a)) = None ∧
  pvalue (rp (new_ReciprocalParameter a)) = None.
Proof.
  intros Hv Hp Hrp. split; [|split; [|done]].
  - unfold ReciprocalParameter_set_value, CpParameter_set_value.
    rewrite Hp, (reciprocal_nonzero v Hv), Hrp. eauto.
  - destruct (ReciprocalParameter_set_None x) as (x' & ? & ? & ? & _). eauto.
Qed.

Lemma reciprocal_pair_consistency_witness :
  ¬ 2 == 0 ∧
  @accepts test_backend (attributes (p (new_ReciprocalParameter Pos))) 2 = true ∧
  @accepts test_backend (attributes (rp (new_ReciprocalParameter Pos))) (1 / 2) = true ∧
  (∃ x', @ReciprocalParameter_set_value test_backend
           (new_ReciprocalParameter Pos) (Some 2) = (Ok tt, x') ∧
         pvalue (p x') = Some 2 ∧ pvalue (rp x') = Some (1 / 2)).
Proof.
  assert (H2 : ¬ 2 == 0) by (intros E; discriminate E).
  split; [exact H2|]. split; [reflexivity|]. split; [reflexivity|].
  exact (proj1 (@reciprocal_pair_consistency test_backend Pos
                  (new_ReciprocalParameter Pos) 2 H2 eq_refl eq_refl)).
Defined.

(** ** The misfit surrogate *)

Lemma misfit_unfold (a b : Q) :
  misfit a b = Qmax (a * (1 / b)) (b * / a).
Proof. reflexivity. Qed.

Lemma misfit_facts (a b : Q) :
  0 < a → 0 < b →
  1 <= misfit a b ∧ (misfit a b == 1 ↔ a == b) ∧
  misfit a b == misfit b a ∧ 0 <= misfit a b.
Proof.
  intros Ha Hb. rewrite !misfit_unfold.
  assert (Hia : 0 < / a) by (apply Qinv_lt_0_compat; exact Ha).
  assert (Hib : 0 < / b) by (apply Qinv_lt_0_compat; exact Hb).
  assert (Ea : a * / a == 1) by (apply Qmult_inv_r; lra).
  assert (Eb : b * / b == 1) by (apply Qmult_inv_r; lra).
  assert (E1 : a * (1 / b) == a * / b) by (unfold Qdiv; ring).
  assert (E2 : b * (1 / a) == b * / a) by (unfold Qdiv; ring).
  rewrite E1, E2.
  set (ia := / a) in *. set (ib := / b) in *. clearbody ia ib.
  assert (P : (a * ib) * (b * ia) == 1) by nra.
  destruct (Q.max_spec (a * ib) (b * ia)) as [[Hlt E]|[Hle E]];
  destruct (Q.max_spec (b * ia) (a * ib)) as [[Hlt' E']|[Hle' E']];
  rewrite E, E';
  (split; [nra|]; split; [split; intros ?; nra|]; split; nra).
Qed.

(** C5. For positive [a] and [b] the surrogate [max(a/b, b/a)] computed by
    [cp_log_ratio] is at least 1, equals 1 exactly when [a = b], is
    symmetric in its arguments, is non-negative, and attains its least
    value over all positive pairs exactly when [a = b]. *)
Theorem misfit_surrogate_correct (a b : Q) :
  0 < a → 0 < b →
  1 <= misfit a b ∧
  (misfit a b == 1 ↔ a == b) ∧
  misfit a b == misfit b a ∧
  0 <= misfit a b ∧
  ((∀ a' b', 0 < a' → 0 < b' → misfit a b <= misfit a' b') ↔ a == b).
Proof.
  intros Ha Hb.
  destruct (misfit_facts a b Ha Hb) as (H1 & Hiff & Hsym & H0).
  repeat (split; [assumption|]). split.
  - intros Hmin. apply Hiff.
    assert (H11 : misfit 1 1 == 1) by (apply misfit_facts; lra).
    specialize (Hmin 1 1 ltac:(lra) ltac:(lra)). lra.
  - intros Hab a' b' Ha' Hb'.
    apply Hiff in Hab. rewrite Hab. by apply misfit_facts.
Qed.

Lemma misfit_surrogate_correct_witness :
  0 < 3 ∧ 0 < 2 ∧ 1 <= misfit 3 2 ∧ (misfit 3 2 == 1 ↔ 3 == 2).
Proof.
  assert (H3 : 0 < 3) by reflexivity.
  assert (H2 : 0 < 2) by reflexivity.
  split; [exact H3|]. split; [exact H2|].
  destruct (misfit_surrogate_correct 3 2 H3 H2) as (? & ? & _).
  split; assumption.
Defined.

(** ** The solve driver: what parameter binding preserves *)

Lemma stable_refl u : stable u u.
Proof. by split. Qed.

Lemma stable_trans u1 u2 u3 : stable u1 u2 → stable u2 u3 → stable u1 u3.
Proof.
  intros [] []. split; try congruence; intros k; etrans; eauto.
Qed.

Lemma mseq_raise {A B} (m : M A) (f : A → M B) u e u' :
  m u = (Raise e, u') → mseq m f u = (Raise e, u').
Proof. unfold mseq. by intros ->. Qed.

Lemma mseq_ok {A B} (m : M A) (f : A → M B) u a u' :
  m u = (Ok a, u') → mseq m f u = f a u'.
Proof. unfold mseq. by intros ->. Qed.

Lemma mseq_assoc {A B C} (m : M A) (f : A → M B) (g : B → M C) u :
  mseq (mseq m f) g u = mseq m (fun a => mseq (f a) g) u.
Proof. unfold mseq. by destruct (m u) as [[a|e] u']. Qed.

Lemma quiet_mret {A} (a : A) : quiet (mret a).
Proof. intros u. apply stable_refl. Qed.

Lemma quiet_mraise {A} e : quiet (@mraise A e).
Proof. intros u. apply stable_refl. Qed.

Lemma quiet_lift {A} (r : result A) : quiet (lift r).
Proof. intros u. apply stable_refl. Qed.

Lemma quiet_mget : quiet mget.
Proof. intros u. apply stable_refl. Qed.

Lemma quiet_mseq {A B} (m : M A) (f : A → M B) :
  quiet m → (∀ a, quiet (f a)) → quiet (mseq m f).
Proof.
  intros Hm Hf u. unfold mseq. specialize (Hm u).
  destruct (m u) as [[a|e] u1]; [|done].
  eapply stable_trans; [exact Hm|apply Hf].
Qed.

Lemma quiet_for_eachM {X} (body : X → M unit) (xs : list X) :
  (∀ x, quiet (body x)) → quiet (for_eachM body xs).
Proof.
  intros Hb. induction xs as [|x xs IH]; [apply quiet_mret|].
  cbn. apply quiet_mseq; [apply Hb|]. intros _. exact IH.
Qed.

Lemma is_Some_insert_same {V} (m : gmap string V) (k k' : string) (v : V) :
  is_Some (m !! k) → is_Some (<[k := v]> m !! k') ↔ is_Some (m !! k').
Proof.
  intros Hk. destruct (decide (k = k')) as [->|Hne].
  - rewrite lookup_insert_eq. split; [done|by eauto].
  - by rewrite lookup_insert_ne.
Qed.

Section binding.
Context `{Backend}.

Lemma quiet_set_observation site val : quiet (set_observation site val).
Proof.
  intros u. unfold set_observation.
  destruct (_site_to_observation u !! site) as [x|] eqn:E; [|apply stable_refl].
  destruct (ReciprocalParameter_set_value x val) as [r x']. cbn.
  split; try done. intros k. cbn. by apply is_Some_insert_same.
Qed.

Lemma quiet_set_export_rate site val : quiet (set_export_rate site val).
Proof.
  intros u. unfold set_export_rate.
  destruct (_site_to_export_rate u !! site) as [x|] eqn:E; [|apply stable_refl].
  destruct (CpParameter_set_value x val) as [x'|e]; [|apply stable_refl]. cbn.
  split; try done. intros k. cbn. by apply is_Some_insert_same.
Qed.

Lemma quiet_set_total_flux site val : quiet (set_total_flux site val).
Proof.
  intros u. unfold set_total_flux.
  destruct (_site_to_total_flux u !! site) as [x|] eqn:E; [|apply stable_refl].
  destruct (ReciprocalParameter_set_value x val) as [r x']. cbn.
  split; try done. intros k. cbn. by apply is_Some_insert_same.
Qed.

Lemma quiet_set_observation_parameters obs :
  quiet (_set_observation_parameters obs).
Proof.
  unfold _set_observation_parameters.
  repeat first
    [ apply quiet_mseq; [|intros ?]
    | apply quiet_for_eachM; intros ?
    | apply quiet_mget | apply quiet_lift | apply quiet_set_observation
    | unfold bind_observation ].
Qed.

Lemma quiet_set_export_rate_parameters rates :
  quiet (_set_export_rate_parameters rates).
Proof.
  unfold _set_export_rate_parameters.
  repeat first
    [ apply quiet_mseq; [|intros ?]
    | apply quiet_for_eachM; intros ?
    | apply quiet_mget | apply quiet_lift | apply quiet_set_export_rate
    | destruct (dict_truthy rates) | unfold bind_export_rate ].
Qed.

Lemma quiet_set_total_flux_parameters : quiet _set_total_flux_parameters.
Proof.
  unfold _set_total_flux_parameters.
  repeat first
    [ apply quiet_mseq; [|intros ?]
    | apply quiet_for_eachM; intros ?
    | apply quiet_mget | apply quiet_lift | apply quiet_set_total_flux ].
Qed.
End binding.

Lemma aborts_mseq_l {A B} (m : M A) (f : A → M B) u :
  aborts m u → aborts (mseq m f) u.
Proof.
  intros (e & u' & E & Hc). exists e, u'. split; [|done].
  by apply mseq_raise.
Qed.

Lemma aborts_mseq_r {A B} (m : M A) (f : A → M B) u :
  quiet m →
  (∀ a u1, m u = (Ok a, u1) → stable u u1 → aborts (f a) u1) →
  aborts (mseq m f) u.
Proof.
  intros Hq Hf. pose proof (Hq u) as Hs.
  destruct (m u) as [[a|e] u1] eqn:E; cbn in Hs.
  - destruct (Hf a u1 eq_refl Hs) as (e & u' & E' & Hc & Hv).
    exists e, u'. split; [by rewrite (mseq_ok _ _ _ _ _ E)|].
    rewrite Hc, Hv. split; apply Hs.
  - exists e, u1. split; [by apply mseq_raise|split; apply Hs].
Qed.

Lemma raise_quiet_aborts {A} (m : M A) u e u' :
  quiet m → m u = (Raise e, u') → aborts m u.
Proof.
  intros Hq E. exists e, u'. split; [done|].
  pose proof (Hq u) as Hs. rewrite E in Hs. split; apply Hs.
Qed.

Lemma for_eachM_inv {X} (P : SampleNetworkUnmixer → Prop) (body : X → M unit)
    (xs : list X) u r u' :
  (∀ x v, x ∈ xs → P v → P (body x v).2) →
  P u → for_eachM body xs u = (r, u') → P u'.
Proof.
  revert u. induction xs as [|x xs IH]; intros u Hb HP E.
  - cbn in E. unfold mret in E. by simplify_eq.
  - cbn in E. unfold mseq in E.
    pose proof (Hb x u ltac:(left) HP) as HP1.
    destruct (body x u) as [[[]|e] u1]; cbn in HP1.
    + eapply (IH u1); [|done|done]. intros y v Hy. apply Hb. by right.
    + by simplify_eq.
Qed.

Lemma elem_of_keys {V} (m : gmap string V) (k : string) :
  k ∈ keys m ↔ is_Some (m !! k).
Proof.
  unfold keys. rewrite list_elem_of_fmap. split.
  - intros ([k' v] & -> & Hin). apply elem_of_map_to_list in Hin. by eexists.
  - intros [v Hv]. exists (k, v). split; [done|]. by apply elem_of_map_to_list.
Qed.

Section binding_values.
Context `{Backend}.

(** *** Observations *)

Lemma set_observation_frame k val u s :
  s ≠ k →
  _site_to_observation (set_observation k val u).2 !! s =
  _site_to_observation u !! s.
Proof.
  intros Hne. unfold set_observation.
  destruct (_site_to_observation u !! k) as [x|]; [|done].
  destruct (ReciprocalParameter_set_value x val) as [r x']. cbn.
  by rewrite lookup_insert_ne.
Qed.

Lemma set_observation_None_unset k u s :
  (s = k ∧ is_Some (_site_to_observation u !! s)) ∨ obs_unset s u →
  obs_unset s (set_observation k None u).2.
Proof.
  intros Hs. destruct (decide (s = k)) as [->|Hne].
  - assert (is_Some (_site_to_observation u !! k)) as [x Hx].
    { destruct Hs as [[_ ?]|(x & ? & _)]; eauto. }
    unfold set_observation. rewrite Hx.
    destruct (ReciprocalParameter_set_None x) as (x' & -> & Hp & _).
    exists x'. cbn. by rewrite lookup_insert_eq.
  - destruct Hs as [[? _]|(x & Hx & Hv)]; [done|].
    exists x. by rewrite set_observation_frame.
Qed.

Lemma reset_observations_unset (l : list string) u u' s :
  s ∈ l → is_Some (_site_to_observation u !! s) →
  for_eachM (fun k => set_observation k None) l u = (Ok tt, u') →
  obs_unset s u'.
Proof.
  revert u. induction l as [|k l IH]; intros u Hin Hs E; [by inv Hin|].
  cbn in E. unfold mseq in E.
  destruct (decide (s = k)) as [->|Hne].
  - pose proof (set_observation_None_unset k u k (or_introl (conj eq_refl Hs))) as HP.
    destruct (set_observation k None u) as [[[]|e] u1]; cbn in HP; [|done].
    eapply (for_eachM_inv (obs_unset k)); [|exact HP|exact E].
    intros x v _ Hv. apply set_observation_None_unset. by right.
  - assert (s ∈ l) as Hin' by (by inv Hin).
    pose proof (quiet_set_observation k None u) as Hq.
    destruct (set_observation k None u) as [[[]|e] u1] eqn:E1; cbn in Hq; [|done].
    eapply (IH u1); [done| |done]. by apply Hq.
Qed.

Lemma quiet_bind_observation m sv : quiet (bind_observation m sv).
Proof.
  unfold bind_observation.
  repeat first
    [ apply quiet_mseq; [|intros ?]
    | apply quiet_mget | apply quiet_lift | apply quiet_set_observation ].
Qed.

Lemma bind_observation_frame m sv u s :
  s ≠ sv.1 →
  _site_to_observation (bind_observation m sv u).2 !! s =
  _site_to_observation u !! s.
Proof.
  intros Hne. unfold bind_observation, mseq, mget, lift. cbn.
  destruct (py_assert _) as [[]|e]; [|done].
  by apply set_observation_frame.
Qed.

Lemma bind_observation_unknown m sv u :
  ¬ is_Some (_site_to_observation u !! sv.1) →
  bind_observation m sv u = (Raise AssertionError, u).
Proof.
  intros Hs. unfold bind_observation, mseq, mget, lift. cbn.
  by rewrite bool_decide_false.
Qed.

Lemma observation_loop_unknown m (obs : list (string * Q)) u s :
  s ∈ obs.*1 → ¬ is_Some (_site_to_observation u !! s) →
  ∃ e u', for_eachM (bind_observation m) obs u = (Raise e, u').
Proof.
  revert u. induction obs as [|sv obs IH]; intros u Hin Hs; [by inv Hin|].
  cbn. unfold mseq.
  pose proof (quiet_bind_observation m sv u) as Hq.
  destruct (bind_observation m sv u) as [[[]|e] u1] eqn:E; [|by eauto].
  cbn in Hq. destruct (decide (s = sv.1)) as [->|Hne].
  - rewrite bind_observation_unknown in E; done.
  - apply IH.
    + cbn in Hin. by inv Hin.
    + intros Hs'. apply Hs. by apply Hq.
Qed.

Lemma assert_all_observed_fails u s :
  obs_unset s u →
  bool_decide
    (map_Forall (fun _ x => is_Some (ReciprocalParameter_value x))
       (_site_to_observation u)) = false.
Proof.
  intros (x & Hx & Hv). apply bool_decide_false. intros Hall.
  specialize (Hall s x Hx). cbn in Hall. rewrite Hv in Hall.
  by destruct Hall.
Qed.

(** An observation for a site the problem does not know aborts the
    binding of the observations. *)
Lemma set_observation_parameters_unknown obs u s :
  s ∈ obs.*1 → ¬ is_Some (_site_to_observation u !! s) →
  aborts (_set_observation_parameters obs) u.
Proof.
  intros Hin Hs. unfold _set_observation_parameters.
  apply aborts_mseq_r; [apply quiet_mget|]. intros ? u1 [= -> ->] _.
  apply aborts_mseq_r; [apply quiet_for_eachM; intros; apply quiet_set_observation|].
  intros [] u2 E2 Hs2.
  apply aborts_mseq_l.
  destruct (observation_loop_unknown (geo_mean obs.*2) obs u2 s Hin) as (e & u' & E).
  { intros Hs'. apply Hs. by apply Hs2. }
  eapply raise_quiet_aborts; [|exact E].
  apply quiet_for_eachM. intros. apply quiet_bind_observation.
Qed.

(** A known site without an observation aborts the binding of the
    observations. *)
Lemma set_observation_parameters_missing obs u s :
  is_Some (_site_to_observation u !! s) → s ∉ obs.*1 →
  aborts (_set_observation_parameters obs) u.
Proof.
  intros Hs Hnin. unfold _set_observation_parameters.
  apply aborts_mseq_r; [apply quiet_mget|]. intros ? u1 [= -> ->] _.
  apply aborts_mseq_r; [apply quiet_for_eachM; intros; apply quiet_set_observation|].
  intros [] u2 E2 Hs2.
  assert (obs_unset s u2) as HP.
  { eapply reset_observations_unset; [|exact Hs|exact E2]. by apply elem_of_keys. }
  apply aborts_mseq_r; [apply quiet_for_eachM; intros; apply quiet_bind_observation|].
  intros [] u3 E3 Hs3.
  assert (obs_unset s u3) as HP3.
  { eapply (for_eachM_inv (obs_unset s)); [|exact HP|exact E3].
    intros sv v Hsv (x & Hx & Hv). exists x. split; [|done].
    rewrite bind_observation_frame; [done|].
    intros ->. apply Hnin. apply list_elem_of_fmap. by exists sv. }
  apply aborts_mseq_r; [apply quiet_mget|]. intros ? u4 [= -> ->] _.
  exists AssertionError, u4. split; [|done].
  unfold lift. by rewrite (assert_all_observed_fails u4 s HP3).
Qed.
End binding_values.

Section binding_rates.
Context `{Backend}.

(** *** Export rates *)

Lemma set_export_rate_cases k val u :
  (∃ e, set_export_rate k val u = (Raise e, u)) ∨
  (∃ x, _site_to_export_rate u !! k = Some x ∧
        (val = None ∨ ∃ v, val = Some v ∧ accepts (attributes x) v = true) ∧
        set_export_rate k val u =
          (Ok tt, with_export_rate
                    (<[k := mkCpParameter (attributes x) val]>
                       (_site_to_export_rate u)) u)).
Proof.
  unfold set_export_rate, CpParameter_set_value.
  destruct (_site_to_export_rate u !! k) as [x|]; [|by eauto].
  destruct val as [v|].
  - destruct (accepts (attributes x) v) eqn:E; [|by eauto].
    right. exists x. eauto 10.
  - right. exists x. eauto.
Qed.

Lemma set_export_rate_frame k val u s :
  s ≠ k →
  _site_to_export_rate (set_export_rate k val u).2 !! s =
  _site_to_export_rate u !! s.
Proof.
  intros Hne.
  destruct (set_export_rate_cases k val u) as [[e ->]|(x & _ & _ & ->)]; [done|].
  cbn. by rewrite lookup_insert_ne.
Qed.

Lemma set_export_rate_None_unset k u s :
  (s = k ∧ is_Some (_site_to_export_rate u !! s)) ∨ rate_unset s u →
  rate_unset s (set_export_rate k None u).2.
Proof.
  intros Hs. destruct (decide (s = k)) as [->|Hne].
  - assert (is_Some (_site_to_export_rate u !! k)) as [x Hx].
    { destruct Hs as [[_ ?]|(x & ? & _)]; eauto. }
    unfold set_export_rate. rewrite Hx. cbn.
    eexists. cbn. by rewrite lookup_insert_eq.
  - destruct Hs as [[? _]|(x & Hx & Hv)]; [done|].
    exists x. by rewrite set_export_rate_frame.
Qed.

Lemma reset_rates_unset (l : list string) u u' s :
  s ∈ l → is_Some (_site_to_export_rate u !! s) →
  for_eachM (fun k => set_export_rate k None) l u = (Ok tt, u') →
  rate_unset s u'.
Proof.
  revert u. induction l as [|k l IH]; intros u Hin Hs E; [by inv Hin|].
  cbn in E. unfold mseq in E.
  destruct (decide (s = k)) as [->|Hne].
  - pose proof (set_export_rate_None_unset k u k (or_introl (conj eq_refl Hs))) as HP.
    destruct (set_export_rate k None u) as [[[]|e] u1]; cbn in HP; [|done].
    eapply (for_eachM_inv (rate_unset k)); [|exact HP|exact E].
    intros x v _ Hv. apply set_export_rate_None_unset. by right.
  - assert (s ∈ l) as Hin' by (by inv Hin).
    pose proof (quiet_set_export_rate k None u) as Hq.
    destruct (set_export_rate k None u) as [[[]|e] u1] eqn:E1; cbn in Hq; [|done].
    eapply (IH u1); [done| |done]. by apply Hq.
Qed.

Lemma quiet_bind_export_rate sv : quiet (bind_export_rate sv).
Proof.
  unfold bind_export_rate.
  repeat first
    [ apply quiet_mseq; [|intros ?]
    | apply quiet_mget | apply quiet_lift | apply quiet_set_export_rate ].
Qed.

Lemma bind_export_rate_frame sv u s :
  s ≠ sv.1 →
  _site_to_export_rate (bind_export_rate sv u).2 !! s =
  _site_to_export_rate u !! s.
Proof.
  intros Hne. unfold bind_export_rate, mseq, mget, lift. cbn.
  destruct (py_assert _) as [[]|e]; [|done].
  by apply set_export_rate_frame.
Qed.

Lemma bind_export_rate_unknown sv u :
  ¬ is_Some (_site_to_export_rate u !! sv.1) →
  bind_export_rate sv u = (Raise AssertionError, u).
Proof.
  intros Hs. unfold bind_export_rate, mseq, mget, lift. cbn.
  by rewrite bool_decide_false.
Qed.

Lemma rate_loop_unknown (r : list (string * Q)) u s :
  s ∈ r.*1 → ¬ is_Some (_site_to_export_rate u !! s) →
  ∃ e u', for_eachM bind_export_rate r u = (Raise e, u').
Proof.
  revert u. induction r as [|sv r IH]; intros u Hin Hs; [by inv Hin|].
  cbn. unfold mseq.
  pose proof (quiet_bind_export_rate sv u) as Hq.
  destruct (bind_export_rate sv u) as [[[]|e] u1] eqn:E; [|by eauto].
  cbn in Hq. destruct (decide (s = sv.1)) as [->|Hne].
  - rewrite bind_export_rate_unknown in E; done.
  - apply IH.
    + cbn in Hin. by inv Hin.
    + intros Hs'. apply Hs. by apply Hq.
Qed.

Lemma assert_all_rates_fails u s :
  rate_unset s u →
  bool_decide
    (map_Forall (fun _ x => is_Some (pvalue x)) (_site_to_export_rate u)) = false.
Proof.
  intros (x & Hx & Hv). apply bool_decide_false. intros Hall.
  specialize (Hall s x Hx). cbn in Hall. rewrite Hv in Hall.
  by destruct Hall.
Qed.

Lemma dict_truthy_nonempty {V} (r : list (string * V)) :
  r ≠ [] → dict_truthy (Some r) = true.
Proof. by destruct r. Qed.

(** An export rate for a site the problem does not know aborts the
    binding of the export rates. *)
Lemma set_export_rate_parameters_unknown r u s :
  s ∈ r.*1 → ¬ is_Some (_site_to_export_rate u !! s) →
  aborts (_set_export_rate_parameters (Some r)) u.
Proof.
  intros Hin Hs. unfold _set_export_rate_parameters.
  apply aborts_mseq_r; [apply quiet_mget|]. intros ? u1 [= -> ->] _.
  apply aborts_mseq_r; [apply quiet_for_eachM; intros; apply quiet_set_export_rate|].
  intros [] u2 E2 Hs2.
  apply aborts_mseq_l.
  rewrite dict_truthy_nonempty by (intros ->; inv Hin).
  destruct (rate_loop_unknown r u2 s Hin) as (e & u' & E).
  { intros Hs'. apply Hs. by apply Hs2. }
  eapply raise_quiet_aborts; [|exact E].
  apply quiet_for_eachM. intros. apply quiet_bind_export_rate.
Qed.

(** A non-empty export-rate mapping that leaves out a known site aborts
    the binding of the export rates. *)
Lemma set_export_rate_parameters_partial r u s :
  r ≠ [] → is_Some (_site_to_export_rate u !! s) → s ∉ r.*1 →
  aborts (_set_export_rate_parameters (Some r)) u.
Proof.
  intros Hr Hs Hnin. unfold _set_export_rate_parameters.
  apply aborts_mseq_r; [apply quiet_mget|]. intros ? u1 [= -> ->] _.
  apply aborts_mseq_r; [apply quiet_for_eachM; intros; apply quiet_set_export_rate|].
  intros [] u2 E2 Hs2.
  assert (rate_unset s u2) as HP.
  { eapply reset_rates_unset; [|exact Hs|exact E2]. by apply elem_of_keys. }
  rewrite (dict_truthy_nonempty r Hr). cbn [default].
  apply aborts_mseq_r; [apply quiet_for_eachM; intros; apply quiet_bind_export_rate|].
  intros [] u3 E3 Hs3.
  assert (rate_unset s u3) as HP3.
  { eapply (for_eachM_inv (rate_unset s)); [|exact HP|exact E3].
    intros sv v Hsv (x & Hx & Hv). exists x. split; [|done].
    rewrite bind_export_rate_frame; [done|].
    intros ->. apply Hnin. apply list_elem_of_fmap. by exists sv. }
  apply aborts_mseq_r; [apply quiet_mget|]. intros ? u4 [= -> ->] _.
  exists AssertionError, u4. split; [|done].
  unfold lift. by rewrite (assert_all_rates_fails u4 s HP3).
Qed.
End binding_rates.

Section binding_defaults.
Context `{Backend}.

Lemma set_export_rate_ok k val u x :
  _site_to_export_rate u !! k = Some x → admits x val →
  set_export_rate k val u =
    (Ok tt, with_export_rate
              (<[k := mkCpParameter (attributes x) val]> (_site_to_export_rate u)) u).
Proof.
  intros Hx Hok. unfold set_export_rate, CpParameter_set_value. rewrite Hx.
  destruct Hok as [->|(v & -> & ->)]; done.
Qed.

Lemma set_all_rates (l : list string) val u :
  (∀ k, k ∈ l → ∃ x, _site_to_export_rate u !! k = Some x ∧ admits x val) →
  ∃ u', for_eachM (fun k => set_export_rate k val) l u = (Ok tt, u') ∧
        ∀ κ, _site_to_export_rate u' !! κ =
             (fun x => if decide (κ ∈ l)
                       then mkCpParameter (attributes x) val else x)
             <$> (_site_to_export_rate u !! κ).
Proof.
  revert u. induction l as [|k l IH]; intros u Hl.
  - exists u. split; [done|]. intros κ.
    destruct (_site_to_export_rate u !! κ); cbn; [|done].
    by rewrite decide_False by (by intros ?%elem_of_nil).
  - destruct (Hl k ltac:(left)) as (x & Hx & Hok).
    cbn. unfold mseq. rewrite (set_export_rate_ok k val u x Hx Hok).
    set (u1 := with_export_rate _ u).
    destruct (IH u1) as (u' & E & Hu').
    { intros k' Hk'. subst u1. cbn.
      destruct (decide (k' = k)) as [->|Hne].
      - rewrite lookup_insert_eq. eexists. split; [done|].
        destruct Hok as [->|(v & -> & Hv)]; [by left|right; eauto].
      - rewrite lookup_insert_ne by done. apply Hl. by right. }
    exists u'. split; [done|]. intros κ. rewrite Hu'. subst u1. cbn.
    destruct (decide (κ = k)) as [->|Hne].
    + rewrite lookup_insert_eq, Hx. cbn.
      rewrite (decide_True (P := k ∈ k :: l)) by left.
      by destruct (decide (k ∈ l)).
    + rewrite lookup_insert_ne by done.
      destruct (_site_to_export_rate u !! κ); cbn; [|done].
      destruct (decide (κ ∈ l)).
      * by rewrite decide_True by (by right).
      * rewrite decide_False; [done|]. by intros [?|?]%elem_of_cons.
Qed.

(** With no export rates given, or an empty mapping, the binding gives
    every site the rate 1. *)
Lemma set_export_rate_parameters_default rates u :
  rates = None ∨ rates = Some [] →
  (∀ k x, _site_to_export_rate u !! k = Some x → accepts (attributes x) 1 = true) →
  ∃ u', _set_export_rate_parameters rates u = (Ok tt, u') ∧
        ∀ k, is_Some (_site_to_export_rate u !! k) →
             ∃ x, _site_to_export_rate u' !! k = Some x ∧ pvalue x = Some 1.
Proof.
  intros Hr Hacc.
  assert (dict_truthy rates = false) as Hf by (by destruct Hr as [->| ->]).
  unfold _set_export_rate_parameters.
  rewrite (mseq_ok mget _ u u u eq_refl).
  destruct (set_all_rates (keys (_site_to_export_rate u)) None u) as (u1 & E1 & H1).
  { intros k [x Hx]%elem_of_keys. exists x. split; [done|by left]. }
  rewrite (mseq_ok _ _ _ _ _ E1), Hf. cbv beta iota.
  rewrite mseq_assoc, (mseq_ok mget _ u1 u1 u1 eq_refl).
  destruct (set_all_rates (keys (_site_to_export_rate u1)) (Some 1) u1)
    as (u2 & E2 & H2).
  { intros k [x Hx]%elem_of_keys. exists x. split; [done|].
    right. exists 1. split; [done|].
    rewrite H1 in Hx. destruct (_site_to_export_rate u !! k) as [x0|] eqn:E0; [|done].
    cbn in Hx. apply (Hacc k x0) in E0 as Ha.
    destruct (decide _); simplify_eq; done. }
  rewrite (mseq_ok _ _ _ _ _ E2).
  rewrite (mseq_ok mget _ u2 u2 u2 eq_refl).
  assert (∀ k, is_Some (_site_to_export_rate u !! k) →
               ∃ x, _site_to_export_rate u2 !! k = Some x ∧ pvalue x = Some 1) as Hall.
  { intros k [x0 Hx0].
    assert (is_Some (_site_to_export_rate u1 !! k)) as [x1 Hx1].
    { rewrite H1, Hx0. by eexists. }
    rewrite H2, Hx1. cbn.
    rewrite decide_True by (apply elem_of_keys; by eexists).
    by eexists. }
  exists u2. split; [|exact Hall].
  unfold lift. rewrite bool_decide_true; [done|].
  intros k x Hx. cbn.
  destruct (Hall k) as (x' & Hx' & Hv).
  { rewrite H2, H1 in Hx.
    destruct (_site_to_export_rate u !! k); [by eexists|done]. }
  rewrite Hx in Hx'. simplify_eq. rewrite Hv. by eexists.
Qed.

Lemma bind_export_rate_from_mapping r sv u :
  sv ∈ r → from_mapping r u → from_mapping r (bind_export_rate sv u).2.
Proof.
  intros Hin Hu. unfold bind_export_rate, mseq, mget, lift. cbn.
  destruct (py_assert _) as [[]|e]; [|done].
  destruct (set_export_rate_cases sv.1 (Some sv.2) u) as [[e ->]|(x & Hx & _ & ->)];
    [done|].
  cbn. intros k x' Hx'. cbn in Hx'.
  destruct (decide (k = sv.1)) as [->|Hne].
  - rewrite lookup_insert_eq in Hx'. simplify_eq. right. exists sv.2.
    split; [by destruct sv|done].
  - rewrite lookup_insert_ne in Hx' by done. by apply Hu.
Qed.

(** When a non-empty mapping has been bound, every site holds a value
    the mapping lists for it: nothing is defaulted. *)
Lemma set_export_rate_parameters_listed r u u' :
  r ≠ [] →
  _set_export_rate_parameters (Some r) u = (Ok tt, u') →
  ∀ k x, _site_to_export_rate u' !! k = Some x →
         ∃ v, (k, v) ∈ r ∧ pvalue x = Some v.
Proof.
  intros Hr E. unfold _set_export_rate_parameters in E.
  rewrite (mseq_ok mget _ u u u eq_refl) in E.
  destruct (set_all_rates (keys (_site_to_export_rate u)) None u) as (u1 & E1 & H1).
  { intros k [x Hx]%elem_of_keys. exists x. split; [done|by left]. }
  rewrite (mseq_ok _ _ _ _ _ E1), (dict_truthy_nonempty r Hr) in E.
  cbn [default] in E.
  assert (from_mapping r u1) as Hm1.
  { intros k x Hx. left. rewrite H1 in Hx.
    destruct (_site_to_export_rate u !! k) as [x0|] eqn:E0; [|done].
    cbn in Hx. rewrite decide_True in Hx by (apply elem_of_keys; by eexists).
    by simplify_eq. }
  destruct (for_eachM bind_export_rate r u1) as [[[]|e] u2] eqn:E2.
  - rewrite (mseq_ok _ _ _ _ _ E2) in E.
    rewrite (mseq_ok mget _ u2 u2 u2 eq_refl) in E.
    assert (from_mapping r u2) as Hm2.
    { eapply (for_eachM_inv (from_mapping r)); [|exact Hm1|exact E2].
      intros sv v Hsv Hv. by apply bind_export_rate_from_mapping. }
    unfold lift in E. destruct (bool_decide _) eqn:Hb in E; [|done].
    apply bool_decide_eq_true in Hb. simplify_eq.
    intros k x Hx. destruct (Hm2 k x Hx) as [Hn|?]; [|done].
    specialize (Hb k x Hx). cbn in Hb. rewrite Hn in Hb. by destruct Hb.
  - by rewrite (mseq_raise _ _ _ _ _ E2) in E.
Qed.
End binding_defaults.

(** ** The solve driver: aborting before the solver *)

Section solve_aborts.
Context `{Backend}.

(** Regularizer terms and a strength that Python reads as false (absent,
    or zero) make [solve] raise before the solver runs. *)
Lemma solve_needs_truthy_strength u obs rates strength solver :
  _regularizer_terms u ≠ [] → not_strength strength = true →
  aborts (solve obs rates strength solver) u.
Proof.
  intros Hreg Hs. unfold solve.
  apply aborts_mseq_r; [apply quiet_set_observation_parameters|].
  intros [] u1 _ Hs1.
  apply aborts_mseq_r; [apply quiet_set_export_rate_parameters|].
  intros [] u2 _ Hs2.
  apply aborts_mseq_r; [apply quiet_set_total_flux_parameters|].
  intros [] u3 _ Hs3.
  apply aborts_mseq_r; [apply quiet_mget|]. intros ? u4 [= -> ->] _.
  apply aborts_mseq_l.
  assert (_regularizer_terms u4 = _regularizer_terms u) as Hr.
  { destruct Hs1, Hs2, Hs3. congruence. }
  rewrite Hr, (bool_decide_false _ Hreg), Hs. cbn.
  by exists (Exception "WARNING: Regularizer terms present but no strength assigned."), u4.
Qed.
End solve_aborts.

(** C7. A [solve] call whose observation data names a site the problem
    does not know, or lacks a site the problem knows, or whose export-rate
    data names a site the problem does not know, raises; by then the solver
    has not been invoked and no variable has received a value. *)
Theorem solve_rejects_inconsistent_data `{Backend} (u : SampleNetworkUnmixer)
    (obs : list (string * Q)) (rates : option (list (string * Q)))
    (strength : option Q) (solver : string) :
  (∃ s, s ∈ obs.*1 ∧ ¬ is_Some (_site_to_observation u !! s)) ∨
  (∃ s, is_Some (_site_to_observation u !! s) ∧ s ∉ obs.*1) ∨
  (∃ r s, rates = Some r ∧ s ∈ r.*1 ∧ ¬ is_Some (_site_to_export_rate u !! s)) →
  aborts (solve obs rates strength solver) u.
Proof.
  intros [(s & Hin & Hs)|[(s & Hs & Hnin)|(r & s & -> & Hin & Hs)]]; unfold solve.
  - apply aborts_mseq_l. by eapply set_observation_parameters_unknown.
  - apply aborts_mseq_l. by eapply set_observation_parameters_missing.
  - apply aborts_mseq_r; [apply quiet_set_observation_parameters|].
    intros [] u1 _ Hs1. apply aborts_mseq_l.
    eapply set_export_rate_parameters_unknown; [exact Hin|].
    intros Hs'. apply Hs. by apply Hs1.
Qed.

(** C10. (a) A non-empty export-rate mapping that leaves out a site the
    problem knows makes [solve] raise before the solver runs.  (b) With the
    mapping absent or empty, binding the export rates gives every site the
    rate 1 (the parameters admitting 1).  (c) When a non-empty mapping has
    been bound, every site holds a value the mapping lists for it: no site
    is defaulted. *)
Theorem export_rates_default_only_when_absent `{Backend}
    (u : SampleNetworkUnmixer) (obs : list (string * Q))
    (strength : option Q) (solver : string) :
  (∀ r s, r ≠ [] → is_Some (_site_to_export_rate u !! s) → s ∉ r.*1 →
          aborts (solve obs (Some r) strength solver) u) ∧
  (∀ rates, rates = None ∨ rates = Some [] →
            (∀ k x, _site_to_export_rate u !! k = Some x →
                    accepts (attributes x) 1 = true) →
            ∃ u', _set_export_rate_parameters rates u = (Ok tt, u') ∧
                  ∀ k, is_Some (_site_to_export_rate u !! k) →
                       ∃ x, _site_to_export_rate u' !! k = Some x ∧
                            pvalue x = Some 1) ∧
  (∀ r u', r ≠ [] →
           _set_export_rate_parameters (Some r) u = (Ok tt, u') →
           ∀ k x, _site_to_export_rate u' !! k = Some x →
                  ∃ v, (k, v) ∈ r ∧ pvalue x = Some v).
Proof.
  split; [|split].
  - intros r s Hr Hs Hnin. unfold solve.
    apply aborts_mseq_r; [apply quiet_set_observation_parameters|].
    intros [] u1 _ Hs1. apply aborts_mseq_l.
    eapply set_export_rate_parameters_partial; [exact Hr| |exact Hnin].
    by apply Hs1.
  - intros rates Hr Hacc. by apply set_export_rate_parameters_default.
  - intros r u' Hr E. by eapply set_export_rate_parameters_listed.
Qed.

Lemma export_rates_default_only_when_absent_witness :
  ∃ u, regularized_unmixer = Ok u ∧
       ∃ u', @_set_export_rate_parameters test_backend None u = (Ok tt, u') ∧
             ∀ k, is_Some (_site_to_export_rate u !! k) →
                  ∃ x, _site_to_export_rate u' !! k = Some x ∧ pvalue x = Some 1.
Proof.
  eexists. split; [vm_compute; reflexivity|].
  apply (proj1 (proj2 (@export_rates_default_only_when_absent test_backend _
                         [] None ""%string))); [by left|].
  by_evaluation.
Defined.

(** C3. Calling [solve] with regularization strength 0 on a problem that
    has regularizer terms raises before the solver runs: the guard
    [not regularization_strength] is true for 0 as it is for [None]. *)
Theorem solve_zero_strength_aborts `{Backend} (u : SampleNetworkUnmixer)
    (obs : list (string * Q)) (rates : option (list (string * Q)))
    (solver : string) :
  _regularizer_terms u ≠ [] →
  aborts (solve obs rates (Some 0) solver) u.
Proof. intros Hreg. by apply solve_needs_truthy_strength. Qed.

Lemma solve_zero_strength_aborts_witness :
  ∃ u, regularized_unmixer = Ok u ∧ _regularizer_terms u ≠ [] ∧
       aborts (@solve test_backend uniform_observations None (Some 0) "ecos") u.
Proof.
  eexists. split; [vm_compute; reflexivity|].
  assert (Hreg : ∀ (a : expr) l, a :: l ≠ []) by done.
  split; [apply Hreg|].
  apply (@solve_zero_strength_aborts test_backend). apply Hreg.
Defined.

(** On the regularized problem over [confluence], with an observation at
    every site, strength 0 gives the exception of the missing strength. *)
Example solve_zero_strength_on_confluence :
  ∃ u, regularized_unmixer = Ok u ∧
       (@solve test_backend uniform_observations None (Some 0) "ecos" u).1 =
       Raise (Exception "WARNING: Regularizer terms present but no strength assigned.").
Proof.
  eexists. split; [vm_compute; reflexivity|].
  vm_compute. reflexivity.
Qed.

(** ** The inversion grid *)

Lemma InverseGrid_init_not_positive nx ny labels G :
  (nx ≤ 0 ∨ ny ≤ 0)%Z →
  InverseGrid_init nx ny labels G =
  Raise (Exception "Warning: nx or ny must be strictly positive").
Proof. intros Hn. unfold InverseGrid_init. by rewrite decide_True. Qed.

Lemma InverseGrid_init_too_fine nx ny labels G :
  (0 < nx ∧ 0 < ny)%Z →
  (ny > Z.of_nat (shape0 labels) ∨ nx > Z.of_nat (shape1 labels))%Z →
  InverseGrid_init nx ny labels G =
  Raise (Exception "Warning: desired resolution greater than that of DEM. Decrease resolution to resolve").
Proof.
  intros Hp Hn. unfold InverseGrid_init.
  rewrite decide_False by lia. by rewrite decide_True.
Qed.

(** C8. On the raster [strip] with a 2-by-1 grid the construction returns
    a grid, although catchment 1 (site [a]) is present in the raster and
    owns no cell: the cell centres fall on an unclaimed pixel and on
    catchment 2, and the key ["NaN"] of the unclaimed cell is counted as if
    it were a catchment. *)
Theorem under_resolved_grid_is_accepted :
  ∃ g, InverseGrid_init 2 1 strip confluence = Ok g ∧
       1%Z ∈ concat strip ∧
       cells_of_label confluence g 1 = [] ∧
       sites_to_nodes g !! "a"%string = None ∧
       keys (sites_to_nodes g) = ["NaN"; "b"]%string.
Proof.
  eexists. split; [vm_compute; reflexivity|].
  split; [by_evaluation|]. split; [|split]; vm_compute; reflexivity.
Qed.

Lemma solve_rejects_inconsistent_data_witness :
  ∃ u, regularized_unmixer = Ok u ∧
       (∃ s, s ∈ (("z"%string, 5) :: uniform_observations).*1 ∧
             ¬ is_Some (_site_to_observation u !! s)) ∧
       aborts (@solve test_backend (("z"%string, 5) :: uniform_observations)
                 None (Some 1) "ecos") u.
Proof.
  eexists. split; [vm_compute; reflexivity|].
  match goal with
  | |- ?P ∧ _ => assert (Hz : P)
  end.
  { exists "z"%string. split; [by left|].
    intros [x Hx]. vm_compute in Hx. discriminate Hx. }
  split; [exact Hz|].
  apply (@solve_rejects_inconsistent_data test_backend). left. exact Hz.
Defined.

(** ** Sums of rationals *)

Lemma Qsum_nil : Qsum [] = 0.
Proof. reflexivity. Qed.

Lemma Qsum_cons (a : Q) (l : list Q) : Qsum (a :: l) = a + Qsum l.
Proof. reflexivity. Qed.

Ltac qsum := cbn [map app List.filter]; rewrite ?Qsum_cons, ?Qsum_nil.

Lemma Qsum_map_ext {A} (f g : A → Q) (l : list A) :
  (∀ a, a ∈ l → f a == g a) → Qsum (map f l) == Qsum (map g l).
Proof.
  induction l as [|a l IH]; intros Hfg; qsum; [reflexivity|].
  rewrite (Hfg a) by left. rewrite IH; [reflexivity|].
  intros b Hb. apply Hfg. by right.
Qed.

Lemma Qsum_map_plus {A} (f g : A → Q) (l : list A) :
  Qsum (map (fun a => f a + g a) l) == Qsum (map f l) + Qsum (map g l).
Proof.
  induction l as [|a l IH]; qsum; [ring|]. rewrite IH. ring.
Qed.

Lemma Qsum_map_zero {A} (f : A → Q) (l : list A) :
  (∀ a, a ∈ l → f a == 0) → Qsum (map f l) == 0.
Proof.
  induction l as [|a l IH]; intros Hf; qsum; [reflexivity|].
  rewrite (Hf a) by left. rewrite IH; [ring|].
  intros b Hb. apply Hf. by right.
Qed.

Lemma Qsum_map_filter {A} (b : A → bool) (w : A → Q) (l : list A) :
  Qsum (map (fun a => if b a then w a else 0) l) == Qsum (map w (List.filter b l)).
Proof.
  induction l as [|a l IH]; qsum; [reflexivity|].
  destruct (b a); qsum; rewrite IH; ring.
Qed.

Lemma Qsum_Permutation (l1 l2 : list Q) : l1 ≡ₚ l2 → Qsum l1 == Qsum l2.
Proof.
  induction 1 as [|a l1 l2 _ IH|a b l|l1 l2 l3 _ IH1 _ IH2]; qsum.
  - reflexivity.
  - by rewrite IH.
  - ring.
  - by rewrite IH1.
Qed.

(** The sum of a constant over the one place of a duplicate-free list
    where a test holds. *)
Lemma Qsum_point (b : string → bool) (k : Q) (d : string) (R : list string) :
  NoDup R → d ∈ R →
  Qsum (map (fun u => if b u && bool_decide (u = d) then k else 0) R) ==
  if b d then k else 0.
Proof.
  induction 1 as [|a R Ha HR IH]; intros Hd; [by inv Hd|].
  qsum. destruct (decide (a = d)) as [->|Hne].
  - rewrite bool_decide_true by done. rewrite andb_true_r.
    rewrite Qsum_map_zero; [destruct (b d); ring|].
    intros u Hu. rewrite bool_decide_false; [by rewrite andb_false_r|].
    intros ->. contradiction.
  - rewrite bool_decide_false by done. rewrite andb_false_r.
    rewrite IH; [ring|]. by inv Hd.
Qed.

(** ** Reachability in a topologically ordered graph *)

Lemma topological_NoDup G R : topological G R → NoDup R.
Proof.
  induction R as [|x R IH]; [constructor|].
  intros (Hx & _ & HR). constructor; auto.
Qed.

Lemma topological_successor G R u v :
  topological G R → u ∈ R → v ∈ successors G u → v ∈ R.
Proof.
  induction R as [|x R IH]; intros HT Hu Hv; [by inv Hu|].
  destruct HT as (Hx & Hs & HR). right.
  apply elem_of_cons in Hu as [->|Hu].
  - rewrite Forall_forall in Hs. by apply Hs.
  - by apply IH.
Qed.

Lemma reaches_closed G R f u n :
  topological G R → u ∈ R → reaches G f u n = true → n ∈ R.
Proof.
  intros HT. revert u. induction f as [|f IH]; intros u Hu Hr; cbn in Hr.
  - rewrite orb_false_r in Hr. by apply bool_decide_eq_true in Hr as <-.
  - apply orb_true_iff in Hr as [Hr|Hr].
    + by apply bool_decide_eq_true in Hr as <-.
    + apply existsb_exists in Hr as (v & Hv & Hr).
      apply (IH v); [|done]. eapply topological_successor; [done..|].
      by apply list_elem_of_In.
Qed.

Lemma existsb_ext_in {A} (f g : A → bool) (l : list A) :
  (∀ a, a ∈ l → f a = g a) → existsb f l = existsb g l.
Proof.
  induction l as [|a l IH]; intros Hfg; cbn; [done|].
  rewrite (Hfg a) by left. rewrite IH; [done|].
  intros b Hb. apply Hfg. by right.
Qed.

Lemma reaches_S G f u n :
  reaches G (S f) u n =
  bool_decide (u = n) || existsb (fun v => reaches G f v n) (successors G u).
Proof. reflexivity. Qed.

(** Fuel beyond the length of the order changes nothing. *)
Lemma reaches_stable G R u n f f' :
  topological G R → u ∈ R → (length R ≤ f)%nat → (length R ≤ f')%nat →
  reaches G f u n = reaches G f' u n.
Proof.
  revert u f f'. induction R as [|x R IH]; intros u f f' HT Hu Hf Hf'; [by inv Hu|].
  destruct HT as (Hx & Hs & HR). cbn in Hf, Hf'.
  apply elem_of_cons in Hu as [->|Hu].
  - destruct f as [|f]; [lia|]. destruct f' as [|f']; [lia|].
    cbn. f_equal. apply existsb_ext_in. intros v Hv.
    apply IH; [done| |lia|lia].
    rewrite Forall_forall in Hs. by apply Hs.
  - apply IH; [done|done|lia|lia].
Qed.

(** ** The accumulation loop, abstractly

    A traversal whose step at [x] adds [c x] to the total of [x] and then
    the total of [x] to the totals of the successors of [x] computes, over a
    topological order, the sums over upstream closures. *)

Section accumulate.
Context {S : Type}.
Variable G : DiGraph.
Variable step : S → string → result S.
Variable val : S → string → Q.
Variable c : string → Q.
Variable I : S → Prop.
Variable D : string → Prop.

Hypothesis step_spec :
  ∀ s x, I s → D x → (length (successors G x) ≤ 1)%nat →
         Forall D (successors G x) → x ∉ successors G x →
         ∃ s', step s x = Ok s' ∧ I s' ∧
               ∀ n, val s' n ==
                    val s n + (if bool_decide (n = x) then c x else 0) +
                    (if bool_decide (n ∈ successors G x) then val s x + c x else 0).

Lemma successor_sum (R : list string) (x : string) (b : string → bool) (k : Q) :
  NoDup R → (length (successors G x) ≤ 1)%nat →
  Forall (fun y => y ∈ R) (successors G x) →
  Qsum (map (fun u => if b u && bool_decide (u ∈ successors G x) then k else 0) R)
  == if existsb b (successors G x) then k else 0.
Proof.
  intros HR Hlen Hin. destruct (successors G x) as [|d [|d' l]]; cbn in Hlen; [| |lia].
  - cbn. apply Qsum_map_zero. intros u _.
    rewrite bool_decide_false; [by rewrite andb_false_r|]. by intros ?%elem_of_nil.
  - cbn. rewrite orb_false_r. rewrite <- (Qsum_point b k d R HR).
    + apply Qsum_map_ext. intros u _.
      by rewrite (bool_decide_ext (u ∈ [d]) (u = d)) by apply list_elem_of_singleton.
    + by inv Hin.
Qed.

Lemma accumulate_spec (R : list string) (N : nat) (s : S) :
  topological G R → Forall D R →
  Forall (fun x => (length (successors G x) ≤ 1)%nat) R →
  (length R ≤ N)%nat → I s →
  ∃ s', for_each step R s = Ok s' ∧ I s' ∧
        (∀ n, n ∈ R →
              val s' n == closure_sum G N (fun u => val s u + c u) R n) ∧
        (∀ n, n ∉ R → (∀ u, u ∈ R → n ∉ successors G u) → val s' n == val s n).
Proof.
  revert s. induction R as [|x R IH]; intros s HT HD Hdeg HN HI.
  { exists s. split; [done|]. split; [done|].
    split; [by intros n ?%elem_of_nil|intros; reflexivity]. }
  destruct HT as (Hx & Hsucc & HT).
  apply Forall_cons in HD as [HDx HD]. apply Forall_cons in Hdeg as [Hdx Hdeg].
  cbn in HN.
  assert (x ∉ successors G x) as Hself.
  { intros Hin. apply Hx. rewrite Forall_forall in Hsucc. by apply Hsucc. }
  destruct (step_spec s x HI HDx Hdx) as (s1 & E1 & HI1 & Hv1); [|done|].
  { rewrite Forall_forall in Hsucc, HD |- *. intros y Hy. apply HD, Hsucc, Hy. }
  destruct (IH s1 HT HD Hdeg ltac:(lia) HI1) as (s' & E' & HI' & HA & HB).
  exists s'. split; [cbn; by rewrite E1|]. split; [done|]. split.
  - intros n Hn. apply elem_of_cons in Hn as [->|Hn].
    + (* the node just processed *)
      rewrite HB; [|done|].
      2:{ intros u Hu Hin. apply Hx. eapply topological_successor; eauto. }
      rewrite Hv1, bool_decide_true, bool_decide_false by done.
      unfold closure_sum. qsum.
      assert (reaches G N x x = true) as ->.
      { destruct N; cbn; by rewrite bool_decide_true. }
      rewrite Qsum_map_zero; [ring|].
      intros u Hu. destruct (reaches G N u x) eqn:Er; [|reflexivity].
      exfalso. apply Hx. eapply reaches_closed; eauto.
    + (* a later node *)
      assert (n ≠ x) as Hne by (intros ->; contradiction).
      rewrite (HA n Hn). unfold closure_sum. qsum.
      set (k := val s x + c x).
      transitivity
        (Qsum (map (fun u => (if reaches G N u n then val s u + c u else 0) +
                             (if reaches G N u n && bool_decide (u ∈ successors G x)
                              then k else 0)) R)).
      * apply Qsum_map_ext. intros u Hu.
        assert (u ≠ x) as Hux by (intros ->; contradiction).
        destruct (reaches G N u n); cbn; [|ring].
        rewrite (Hv1 u), (bool_decide_false (u = x)) by done.
        subst k. destruct (bool_decide (u ∈ successors G x)); ring.
      * rewrite Qsum_map_plus.
        rewrite (successor_sum R x (fun u => reaches G N u n) k);
          [|by eapply topological_NoDup|done|done].
        assert (reaches G N x n = existsb (fun u => reaches G N u n) (successors G x))
          as ->; [|ring].
        destruct N as [|N]; [lia|]. rewrite (reaches_S G N x n).
        rewrite bool_decide_false by done. cbn [orb].
        apply existsb_ext_in. intros v Hv.
        apply (reaches_stable G R); [done| |lia|lia].
        rewrite Forall_forall in Hsucc. by apply Hsucc.
  - intros n Hn Hnot.
    rewrite HB.
    + rewrite Hv1. rewrite !bool_decide_false; [ring| |].
      * apply Hnot. by left.
      * intros ->. apply Hn. by left.
    + intros Hin. apply Hn. by right.
    + intros u Hu. apply Hnot. by right.
Qed.
End accumulate.

(** ** One step of a traversal on the network *)

Lemma eval_py_add ρ σ a b : eval ρ σ (py_add a b) = eval ρ σ a + eval ρ σ b.
Proof. by destruct a, b. Qed.

Lemma eval_py_mul ρ σ a b : eval ρ σ (py_mul a b) = eval ρ σ a * eval ρ σ b.
Proof. by destruct a, b. Qed.

Lemma same_static_refl d : same_static d d.
Proof. by repeat split. Qed.

Lemma same_static_trans d1 d2 d3 :
  same_static d1 d2 → same_static d2 d3 → same_static d1 d3.
Proof. intros (?&?&?&?) (?&?&?&?). repeat split; congruence. Qed.

Lemma same_structure_refl G : same_structure G G.
Proof.
  repeat split. intros x. destruct (node_data G !! x); [apply same_static_refl|done].
Qed.

Lemma same_structure_trans G1 G2 G3 :
  same_structure G1 G2 → same_structure G2 G3 → same_structure G1 G3.
Proof.
  intros (Hn & Ha & Hd) (Hn' & Ha' & Hd'). split; [congruence|]. split; [congruence|].
  intros x. specialize (Hd x). specialize (Hd' x).
  destruct (node_data G1 !! x), (node_data G2 !! x), (node_data G3 !! x);
    try done. by eapply same_static_trans.
Qed.

Lemma same_structure_set G x d d' :
  node_data G !! x = Some d → same_static d d' →
  same_structure G (set_node_data G x d').
Proof.
  intros Hx Hs. repeat split. intros y. cbn.
  destruct (decide (y = x)) as [->|Hne].
  - by rewrite lookup_insert_eq, Hx.
  - rewrite lookup_insert_ne by done.
    destruct (node_data G !! y); [apply same_static_refl|done].
Qed.

Lemma same_structure_successors G G' x :
  same_structure G G' → successors G' x = successors G x.
Proof. intros (_ & Ha & _). unfold successors. by rewrite Ha. Qed.

Lemma same_structure_lookup G G' x d :
  same_structure G G' → node_data G !! x = Some d →
  ∃ d', node_data G' !! x = Some d' ∧ same_static d d'.
Proof.
  intros (_ & _ & Hd) Hx. specialize (Hd x). rewrite Hx in Hd.
  destruct (node_data G' !! x) as [d'|]; [by eexists|done].
Qed.

Lemma total_flux_set ρ σ G x d n :
  total_flux ρ σ (set_node_data G x d) n =
  if bool_decide (n = x) then eval ρ σ (my_total_flux d) else total_flux ρ σ G n.
Proof.
  unfold total_flux. cbn. case_bool_decide as Hn.
  - subst. by rewrite lookup_insert_eq.
  - by rewrite lookup_insert_ne.
Qed.

Lemma total_tracer_flux_set ρ σ G x d n :
  total_tracer_flux ρ σ (set_node_data G x d) n =
  if bool_decide (n = x) then eval ρ σ (my_total_tracer_flux d)
  else total_tracer_flux ρ σ G n.
Proof.
  unfold total_tracer_flux. cbn. case_bool_decide as Hn.
  - subst. by rewrite lookup_insert_eq.
  - by rewrite lookup_insert_ne.
Qed.

(** The step shared by both traversals: the node's own contribution, then
    the hand-over to its downstream node. *)
Lemma contribute_and_propagate G x d a rate tracer :
  node_data G !! x = Some d →
  (length (successors G x) ≤ 1)%nat →
  Forall (fun y => is_Some (node_data G !! y) ∧ str_truthy y = true)
    (successors G x) →
  x ∉ successors G x →
  ∃ G', propagate_downstream
          (set_node_data G x (own_contribution a rate tracer d)) x = Ok G' ∧
        same_structure G G' ∧
        ∀ ρ σ n,
          total_flux ρ σ G' n ==
            total_flux ρ σ G n +
            (if bool_decide (n = x) then a * eval ρ σ rate else 0) +
            (if bool_decide (n ∈ successors G x)
             then total_flux ρ σ G x + a * eval ρ σ rate else 0) ∧
          total_tracer_flux ρ σ G' n ==
            total_tracer_flux ρ σ G n +
            (if bool_decide (n = x) then a * eval ρ σ rate * eval ρ σ tracer else 0) +
            (if bool_decide (n ∈ successors G x)
             then total_tracer_flux ρ σ G x + a * eval ρ σ rate * eval ρ σ tracer
             else 0).
Proof.
  intros Hx Hlen Hsucc Hself.
  set (d' := own_contribution a rate tracer d).
  assert (same_structure G (set_node_data G x d')) as Hst.
  { apply (same_structure_set G x d d' Hx). by repeat split. }
  assert (HF : ∀ ρ σ, eval ρ σ (my_total_flux d') =
                      total_flux ρ σ G x + a * eval ρ σ rate).
  { intros. unfold total_flux. rewrite Hx. unfold d', own_contribution.
    cbn [my_total_flux from_option]. by rewrite eval_py_add, eval_py_mul. }
  assert (HT : ∀ ρ σ, eval ρ σ (my_total_tracer_flux d') =
                      total_tracer_flux ρ σ G x + a * eval ρ σ rate * eval ρ σ tracer).
  { intros. unfold total_tracer_flux. rewrite Hx. unfold d', own_contribution.
    cbn [my_total_tracer_flux from_option]. by rewrite eval_py_add, !eval_py_mul. }
  clearbody d'.
  unfold propagate_downstream, nx_get_downstream.
  rewrite (same_structure_successors _ _ x Hst).
  destruct (successors G x) as [|ds [|ds' l]] eqn:Es; cbn in Hlen; [| |lia].
  - exists (set_node_data G x d'). split; [done|]. split; [done|].
    intros ρ σ n. rewrite total_flux_set, total_tracer_flux_set, HF, HT.
    rewrite (bool_decide_false (n ∈ [])) by (by intros ?%elem_of_nil).
    case_bool_decide; subst; split; ring.
  - apply Forall_cons in Hsucc as [[[dd Hdd] Htruthy] _].
    assert (ds ≠ x) as Hne by (intros ->; apply Hself; left).
    cbn [rbind]. rewrite Htruthy. unfold getitem. cbn [node_data set_node_data].
    rewrite lookup_insert_eq, lookup_insert_ne, Hdd by done. cbn [rbind].
    eexists. split; [reflexivity|]. split.
    { eapply same_structure_trans; [exact Hst|].
      eapply (same_structure_set _ ds dd).
      - cbn. by rewrite lookup_insert_ne.
      - by repeat split. }
    intros ρ σ n.
    rewrite !total_flux_set, !total_tracer_flux_set.
    cbn [add_totals my_total_flux my_total_tracer_flux].
    rewrite !eval_py_add, HF, HT.
    rewrite (bool_decide_ext (n ∈ [ds]) (n = ds)) by apply list_elem_of_singleton.
    assert (total_flux ρ σ G ds = eval ρ σ (my_total_flux dd)) as <-.
    { unfold total_flux. by rewrite Hdd. }
    assert (total_tracer_flux ρ σ G ds = eval ρ σ (my_total_tracer_flux dd)) as <-.
    { unfold total_tracer_flux. by rewrite Hdd. }
    case_bool_decide as H1; [subst n; rewrite (bool_decide_false (ds = x)) by done;
                             split; ring|].
    case_bool_decide; subst; split; ring.
Qed.

(** ** Loops that rewrite every node *)

Lemma update_nodes_spec (f : SampleNode → SampleNode) (l : list string) G :
  NoDup l → (∀ x, x ∈ l → is_Some (node_data G !! x)) →
  ∃ G', for_each
          (fun G x =>
             let! d := getitem (node_data G) x in Ok (set_node_data G x (f d)))
          l G = Ok G' ∧
        node_list G' = node_list G ∧ adj G' = adj G ∧
        ∀ x, node_data G' !! x =
             if bool_decide (x ∈ l) then f <$> node_data G !! x
             else node_data G !! x.
Proof.
  revert G. induction l as [|y l IH]; intros G Hnd Hl.
  - exists G. split; [done|]. split; [done|]. split; [done|]. intros x.
    by rewrite bool_decide_false by (by intros ?%elem_of_nil).
  - apply NoDup_cons in Hnd as [Hy Hnd].
    destruct (Hl y ltac:(left)) as [d Hd].
    cbn [for_each]. unfold getitem at 1. rewrite Hd. cbn [rbind].
    destruct (IH (set_node_data G y (f d)) Hnd) as (G' & E & Hn & Ha & Hdat).
    { intros x Hx. cbn. destruct (decide (x = y)) as [->|Hne].
      - rewrite lookup_insert_eq. by eexists.
      - rewrite lookup_insert_ne by done. apply Hl. by right. }
    exists G'. split; [exact E|]. split; [done|]. split; [done|].
    intros x. rewrite Hdat. cbn [node_data set_node_data].
    destruct (decide (x = y)) as [->|Hne].
    + rewrite bool_decide_false by done. rewrite lookup_insert_eq, Hd.
      by rewrite bool_decide_true by left.
    + rewrite lookup_insert_ne by done.
      rewrite (bool_decide_ext (x ∈ y :: l) (x ∈ l)); [done|].
      rewrite elem_of_cons. split; [by intros [?|?]|by right].
Qed.

Lemma well_formed_lookup G x :
  well_formed G → x ∈ node_list G →
  ∃ d, node_data G !! x = Some d ∧ name d = x.
Proof.
  intros [_ Hd] Hx. rewrite Forall_forall in Hd. by apply Hd.
Qed.

Lemma reset_totals_spec G :
  well_formed G →
  ∃ G1, reset_totals G = Ok G1 ∧ same_structure G G1 ∧
        (∀ x, x ∈ node_list G →
              node_data G1 !! x = zero_totals <$> node_data G !! x) ∧
        ∀ ρ σ n, n ∈ node_list G →
                 total_flux ρ σ G1 n = 0 ∧ total_tracer_flux ρ σ G1 n = 0.
Proof.
  intros Hwf. unfold reset_totals.
  destruct (update_nodes_spec zero_totals (node_list G) G) as (G1 & E & Hn & Ha & Hd).
  { apply Hwf. }
  { intros x Hx. destruct (well_formed_lookup G x Hwf Hx) as (d & -> & _). by eexists. }
  exists G1. split; [exact E|]. split; [|split].
  - split; [done|]. split; [done|]. intros x. rewrite Hd.
    case_bool_decide; destruct (node_data G !! x); cbn; done.
  - intros x Hx. by rewrite Hd, bool_decide_true.
  - intros ρ σ n Hin. unfold total_flux, total_tracer_flux. rewrite Hd.
    rewrite bool_decide_true by done.
    destruct (well_formed_lookup G n Hwf Hin) as (d & -> & _). done.
Qed.

Lemma mean_area_spec G :
  well_formed G → mean_area G = Ok (mean_area_of G).
Proof.
  intros Hwf. unfold mean_area, mean_area_of.
  assert (∀ l acc, (∀ x, x ∈ l → x ∈ node_list G) →
            for_each
              (fun acc x => let! d := getitem (node_data G) x in Ok (acc ++ [area d]))
              l acc = Ok (acc ++ map (area_of G) l)) as Hloop.
  { induction l as [|x l IH]; intros acc Hl; cbn [for_each map].
    - by rewrite app_nil_r.
    - destruct (well_formed_lookup G x Hwf (Hl x ltac:(left))) as (d & Hd & _).
      unfold getitem at 1. rewrite Hd. cbn [rbind].
      rewrite IH by (intros y Hy; apply Hl; by right).
      unfold area_of at 2. rewrite Hd. cbn. by rewrite <- app_assoc. }
  rewrite (Hloop (node_list G) []) by done. cbn [rbind app].
  by rewrite length_map.
Qed.

Lemma successors_same_adj G G' x :
  adj G' = adj G → successors G' x = successors G x.
Proof. intros Ha. unfold successors. by rewrite Ha. Qed.

Lemma reaches_same_adj G G' f u n :
  adj G' = adj G → reaches G' f u n = reaches G f u n.
Proof.
  intros Hs. revert u. induction f as [|f IH]; intros u; cbn; [done|].
  f_equal. rewrite (successors_same_adj G G' u Hs).
  apply existsb_ext_in. intros v _. apply IH.
Qed.

Lemma topological_same_adj G G' R :
  adj G' = adj G → topological G R → topological G' R.
Proof.
  intros Hs. induction R as [|x R IH]; [done|].
  intros (Hx & Hsucc & HT). split; [done|]. split; [|by apply IH].
  by rewrite (successors_same_adj G G' x Hs).
Qed.

Lemma area_of_same_structure G G' x :
  same_structure G G' → area_of G' x = area_of G x.
Proof.
  intros (_ & _ & Hd). specialize (Hd x). unfold area_of.
  destruct (node_data G !! x), (node_data G' !! x); try done. apply Hd.
Qed.

(** ** mix_downstream computes the sums over upstream closures *)

Section mix_downstream_correct.
Context `{Backend}.
Variable G1 : DiGraph.
Variable tracer_mean : string → Q.
Variable export_rates : option (gmap string Q).

(** What the loop keeps, and what it needs of a node. *)
Local Abbreviation kept := (mix_keeps G1).
Local Abbreviation usable := (mix_usable G1 export_rates).

Lemma mix_downstream_body_spec st x :
  kept st → usable x → (length (successors G1 x) ≤ 1)%nat →
  Forall usable (successors G1 x) → x ∉ successors G1 x →
  ∃ st', mix_downstream_body tracer_mean export_rates st x = Ok st' ∧ kept st' ∧
         ∀ n,
           total_flux no_params no_vars (mixed_network st') n ==
             total_flux no_params no_vars (mixed_network st) n +
             (if bool_decide (n = x)
              then area_of G1 x * rate_of export_rates x else 0) +
             (if bool_decide (n ∈ successors G1 x)
              then total_flux no_params no_vars (mixed_network st) x +
                   area_of G1 x * rate_of export_rates x
              else 0) ∧
           total_tracer_flux no_params no_vars (mixed_network st') n ==
             total_tracer_flux no_params no_vars (mixed_network st) n +
             (if bool_decide (n = x)
              then area_of G1 x * rate_of export_rates x * tracer_mean x else 0) +
             (if bool_decide (n ∈ successors G1 x)
              then total_tracer_flux no_params no_vars (mixed_network st) x +
                   area_of G1 x * rate_of export_rates x * tracer_mean x
              else 0).
Proof.
  intros Hk ([d1 Hd1] & _ & Hrate) Hlen Hsucc Hself.
  destruct (same_structure_lookup _ _ x d1 Hk Hd1) as (d & Hd & Hst).
  unfold mix_downstream_body, getitem. rewrite Hd. cbn [rbind].
  assert (∃ r, export_rate_or_default export_rates x = Ok r) as [r Hr].
  { destruct (export_rate_or_default export_rates x); [by eexists|done]. }
  rewrite Hr. cbn [rbind].
  destruct (contribute_and_propagate (mixed_network st) x d (area d) (Const r)
              (Const (tracer_mean x)) Hd) as (G' & E & HG' & Hv).
  { by rewrite (same_structure_successors _ _ x Hk). }
  { rewrite (same_structure_successors _ _ x Hk).
    rewrite Forall_forall in Hsucc |- *. intros y Hy.
    destruct (Hsucc y Hy) as ([dy Hdy] & Ht & _). split; [|done].
    destruct (same_structure_lookup _ _ y dy Hk Hdy) as (? & -> & _). by eexists. }
  { by rewrite (same_structure_successors _ _ x Hk). }
  rewrite E. cbn [rbind]. eexists. split; [reflexivity|]. split.
  { unfold mix_keeps. cbn. by eapply same_structure_trans. }
  intros n. cbn [mixed_network].
  destruct (Hv no_params no_vars n) as [HF HT].
  rewrite (same_structure_successors _ _ x Hk) in HF, HT.
  assert (area_of G1 x = area d) as ->.
  { unfold area_of. rewrite Hd1. cbn. symmetry. apply Hst. }
  assert (rate_of export_rates x = r) as -> by (unfold rate_of; by rewrite Hr).
  split; [exact HF|exact HT].
Qed.

Lemma mix_downstream_loop (order : list string) st :
  kept st → topological G1 order → Forall usable order →
  Forall (fun x => (length (successors G1 x) ≤ 1)%nat) order →
  ∃ st', for_each (mix_downstream_body tracer_mean export_rates) order st = Ok st' ∧
         kept st' ∧
         ∀ n, n ∈ order →
           total_flux no_params no_vars (mixed_network st') n ==
             closure_sum G1 (length order)
               (fun u => total_flux no_params no_vars (mixed_network st) u +
                         area_of G1 u * rate_of export_rates u) order n ∧
           total_tracer_flux no_params no_vars (mixed_network st') n ==
             closure_sum G1 (length order)
               (fun u => total_tracer_flux no_params no_vars (mixed_network st) u +
                         area_of G1 u * rate_of export_rates u * tracer_mean u)
               order n.
Proof.
  intros Hk HT HD Hdeg.
  destruct (accumulate_spec G1 (mix_downstream_body tracer_mean export_rates)
              (fun st n => total_flux no_params no_vars (mixed_network st) n)
              (fun u => area_of G1 u * rate_of export_rates u)
              kept usable) with (R := order) (N := length order) (s := st)
    as (st1 & E1 & Hk1 & HA1 & _); try done.
  { intros s x Hs Hx Hl Hsu Hse.
    destruct (mix_downstream_body_spec s x Hs Hx Hl Hsu Hse) as (s' & ? & ? & Hv).
    exists s'. split; [done|]. split; [done|]. intros n. apply Hv. }
  destruct (accumulate_spec G1 (mix_downstream_body tracer_mean export_rates)
              (fun st n => total_tracer_flux no_params no_vars (mixed_network st) n)
              (fun u => area_of G1 u * rate_of export_rates u * tracer_mean u)
              kept usable) with (R := order) (N := length order) (s := st)
    as (st2 & E2 & _ & HA2 & _); try done.
  { intros s x Hs Hx Hl Hsu Hse.
    destruct (mix_downstream_body_spec s x Hs Hx Hl Hsu Hse) as (s' & ? & ? & Hv).
    exists s'. split; [done|]. split; [done|]. intros n. apply Hv. }
  rewrite E1 in E2. simplify_eq.
  exists st2. split; [done|]. split; [done|]. intros n Hn. split; auto.
Qed.
End mix_downstream_correct.

(** ** _build_primary_terms computes the sums over upstream closures *)

Lemma calculate_normalised_areas_spec G :
  well_formed G →
  ∃ G2, calculate_normalised_areas G = Ok G2 ∧
        node_list G2 = node_list G ∧ adj G2 = adj G ∧
        ∀ x, node_data G2 !! x =
             if bool_decide (x ∈ node_list G)
             then (fun d => set_rltv_area (area d / mean_area_of G) d)
                  <$> node_data G !! x
             else node_data G !! x.
Proof.
  intros Hwf. unfold calculate_normalised_areas.
  rewrite (mean_area_spec G Hwf). cbn [rbind].
  apply (update_nodes_spec
           (fun d => set_rltv_area (area d / mean_area_of G) d) (node_list G) G).
  - apply Hwf.
  - intros x Hx. destruct (well_formed_lookup G x Hwf Hx) as (d & -> & _). by eexists.
Qed.

Section build_primary_terms_correct.
Context `{Backend}.
Variable u0 : SampleNetworkUnmixer.
Variable G2 : DiGraph.
Variable tracer : string → expr.
Variable ρ : param → Q.
Variable σ : var → Q.

Local Abbreviation kept := (build_keeps u0 G2).
Local Abbreviation usable := (build_usable u0 G2 tracer).

Lemma tracer_expression_kept u x :
  kept u → tracer_expression u x = tracer_expression u0 x.
Proof. intros (_ & Hc & Hg). unfold tracer_expression. by rewrite Hc, Hg. Qed.

Lemma build_primary_terms_body_spec u x :
  kept u → usable x → (length (successors G2 x) ≤ 1)%nat →
  Forall usable (successors G2 x) → x ∉ successors G2 x →
  ∃ u', _build_primary_terms_body u x = Ok u' ∧ kept u' ∧
        ∀ n,
          total_flux ρ σ (sample_network u') n ==
            total_flux ρ σ (sample_network u) n +
            (if bool_decide (n = x)
             then rltv_area_of G2 x * ρ (ExportRate x) else 0) +
            (if bool_decide (n ∈ successors G2 x)
             then total_flux ρ σ (sample_network u) x +
                  rltv_area_of G2 x * ρ (ExportRate x)
             else 0) ∧
          total_tracer_flux ρ σ (sample_network u') n ==
            total_tracer_flux ρ σ (sample_network u) n +
            (if bool_decide (n = x)
             then rltv_area_of G2 x * ρ (ExportRate x) * eval ρ σ (tracer x)
             else 0) +
            (if bool_decide (n ∈ successors G2 x)
             then total_tracer_flux ρ σ (sample_network u) x +
                  rltv_area_of G2 x * ρ (ExportRate x) * eval ρ σ (tracer x)
             else 0).
Proof.
  intros Hk ((d2 & Hd2 & Hname) & _ & Htr) Hlen Hsucc Hself.
  pose proof Hk as (Hst & Hc & Hg).
  destruct (same_structure_lookup _ _ x d2 Hst Hd2) as (d & Hd & Hsd).
  unfold _build_primary_terms_body, getitem. rewrite Hd. cbn [rbind].
  rewrite (tracer_expression_kept u x Hk), Htr. cbn [rbind].
  destruct (contribute_and_propagate (sample_network u) x d (rltv_area d)
              (Par (ExportRate (name d))) (tracer x) Hd) as (G' & E & HG' & Hv).
  { by rewrite (same_structure_successors _ _ x Hst). }
  { rewrite (same_structure_successors _ _ x Hst).
    rewrite Forall_forall in Hsucc |- *. intros y Hy.
    destruct (Hsucc y Hy) as ((dy & Hdy & _) & Ht & _). split; [|done].
    destruct (same_structure_lookup _ _ y dy Hst Hdy) as (? & -> & _). by eexists. }
  { by rewrite (same_structure_successors _ _ x Hst). }
  rewrite E. cbn [rbind]. eexists. split; [reflexivity|]. split.
  { split; [|done]. cbn. by eapply same_structure_trans. }
  intros n. cbn [sample_network with_network].
  destruct (Hv ρ σ n) as [HF HT].
  rewrite (same_structure_successors _ _ x Hst) in HF, HT.
  assert (rltv_area_of G2 x = rltv_area d) as ->.
  { unfold rltv_area_of. rewrite Hd2. cbn. symmetry. apply Hsd. }
  assert (name d = x) as Hn by (destruct Hsd as (-> & _); done).
  rewrite Hn in HF, HT. cbn [eval] in HF, HT.
  split; [exact HF|exact HT].
Qed.

Lemma build_primary_terms_loop (order : list string) u :
  kept u → topological G2 order → Forall usable order →
  Forall (fun x => (length (successors G2 x) ≤ 1)%nat) order →
  ∃ u', for_each _build_primary_terms_body order u = Ok u' ∧ kept u' ∧
        ∀ n, n ∈ order →
          total_flux ρ σ (sample_network u') n ==
            closure_sum G2 (length order)
              (fun v => total_flux ρ σ (sample_network u) v +
                        rltv_area_of G2 v * ρ (ExportRate v)) order n ∧
          total_tracer_flux ρ σ (sample_network u') n ==
            closure_sum G2 (length order)
              (fun v => total_tracer_flux ρ σ (sample_network u) v +
                        rltv_area_of G2 v * ρ (ExportRate v) * eval ρ σ (tracer v))
              order n.
Proof.
  intros Hk HT HD Hdeg.
  destruct (accumulate_spec G2 _build_primary_terms_body
              (fun u n => total_flux ρ σ (sample_network u) n)
              (fun v => rltv_area_of G2 v * ρ (ExportRate v))
              kept usable) with (R := order) (N := length order) (s := u)
    as (u1 & E1 & Hk1 & HA1 & _); try done.
  { intros s x Hs Hx Hl Hsu Hse.
    destruct (build_primary_terms_body_spec s x Hs Hx Hl Hsu Hse) as (s' & ? & ? & Hv).
    exists s'. split; [done|]. split; [done|]. intros n. apply Hv. }
  destruct (accumulate_spec G2 _build_primary_terms_body
              (fun u n => total_tracer_flux ρ σ (sample_network u) n)
              (fun v => rltv_area_of G2 v * ρ (ExportRate v) * eval ρ σ (tracer v))
              kept usable) with (R := order) (N := length order) (s := u)
    as (u2 & E2 & _ & HA2 & _); try done.
  { intros s x Hs Hx Hl Hsu Hse.
    destruct (build_primary_terms_body_spec s x Hs Hx Hl Hsu Hse) as (s' & ? & ? & Hv).
    exists s'. split; [done|]. split; [done|]. intros n. apply Hv. }
  rewrite E1 in E2. simplify_eq.
  exists u2. split; [done|]. split; [done|]. intros n Hn. split; auto.
Qed.
End build_primary_terms_correct.

(** From the sum over the order to the sum over the upstream closure. *)
Lemma closure_sum_upstream G G1 (order : list string) (w c : string → Q) n :
  order ≡ₚ node_list G → adj G1 = adj G →
  (∀ u, u ∈ node_list G → w u == c u) →
  closure_sum G1 (length order) w order n ==
  Qsum (map c (upstream_closure G n)).
Proof.
  intros Hp Hs Hw. unfold closure_sum, upstream_closure.
  rewrite (Permutation_length Hp).
  rewrite <- Qsum_map_filter.
  rewrite (Qsum_Permutation _
             (map (fun u => if reaches G1 (length (node_list G)) u n then w u else 0)
                (node_list G))) by (by apply Permutation_map).
  apply Qsum_map_ext. intros u Hu.
  rewrite (reaches_same_adj G G1) by done.
  destruct (reaches G _ u n); [by apply Hw|reflexivity].
Qed.

Lemma str_truthy_nonempty (x : string) : x ≠ ""%string → str_truthy x = true.
Proof. by destruct x. Qed.

Lemma well_formed_same_structure G G' :
  same_structure G G' → well_formed G → well_formed G'.
Proof.
  intros Hs [Hnd Hd]. pose proof Hs as (Hn & _ & _).
  split; [by rewrite Hn|]. rewrite Hn.
  rewrite Forall_forall in Hd |- *. intros x Hx.
  destruct (Hd x Hx) as (d & Hdx & Hname).
  destruct (same_structure_lookup G G' x d Hs Hdx) as (d' & Hd' & Hst).
  exists d'. split; [done|]. destruct Hst as (-> & _). done.
Qed.

Lemma mean_area_of_same_structure G G' :
  same_structure G G' → mean_area_of G' = mean_area_of G.
Proof.
  intros Hs. pose proof Hs as (Hn & _ & _). unfold mean_area_of. rewrite Hn.
  f_equal. f_equal. apply map_ext. intros x. by apply area_of_same_structure.
Qed.

Lemma mix_downstream_sums `{Backend} (G : DiGraph) (order : list string)
    (tracer_mean : string → Q) (export_rates : option (gmap string Q)) :
  well_formed G → out_degree_le_1 G →
  Forall (fun x => x ≠ ""%string) (node_list G) →
  topological_sort (node_list G) (adj G) = (order, true) →
  order ≡ₚ node_list G → topological G order →
  Forall (fun x => is_ok (export_rate_or_default export_rates x) = true)
    (node_list G) →
  ∃ st, mix_downstream G tracer_mean export_rates = Ok st ∧
        ∀ n, n ∈ node_list G →
          total_flux no_params no_vars (mixed_network st) n ==
            Qsum (map (fun u => area_of G u * rate_of export_rates u)
                    (upstream_closure G n)) ∧
          total_tracer_flux no_params no_vars (mixed_network st) n ==
            Qsum (map (fun u => area_of G u * rate_of export_rates u * tracer_mean u)
                    (upstream_closure G n)).
Proof.
  intros Hwf Hdeg Hne Hsort Hperm Htopo Hrates.
  unfold out_degree_le_1 in Hdeg.
  destruct (reset_totals_spec G Hwf) as (G1 & E1 & Hs1 & _ & Hzero).
  pose proof Hs1 as (Hn1 & Ha1 & _).
  unfold mix_downstream. rewrite E1. cbn [rbind]. rewrite Hn1, Ha1, Hsort.
  set (st0 := {| mixed_network := G1; mixed_downstream_pred := ∅;
                 mixed_upstream_pred := ∅ |}).
  destruct (mix_downstream_loop G1 tracer_mean export_rates order st0)
    as (st & E & _ & Hsum).
  - apply same_structure_refl.
  - by apply (topological_same_adj G).
  - rewrite Forall_forall in Hne, Hrates |- *. intros x Hx.
    assert (x ∈ node_list G) as Hx' by (by rewrite <- Hperm).
    destruct (well_formed_lookup G x Hwf Hx') as (d & Hd & _).
    destruct (same_structure_lookup G G1 x d Hs1 Hd) as (d1 & Hd1 & _).
    split; [by eexists|]. split; [apply str_truthy_nonempty; auto|auto].
  - rewrite Forall_forall in Hdeg |- *. intros x Hx.
    rewrite (successors_same_adj G G1 x Ha1). apply Hdeg. by rewrite <- Hperm.
  - rewrite E. cbn [rbind]. exists st. split; [done|].
    intros n Hn. destruct (Hsum n) as [HF HT]; [by rewrite Hperm|].
    rewrite HF, HT. split.
    + apply closure_sum_upstream; [done|done|]. intros u Hu. subst st0. cbn.
      rewrite (proj1 (Hzero no_params no_vars u Hu)).
      rewrite (area_of_same_structure G G1 u Hs1). ring.
    + apply closure_sum_upstream; [done|done|]. intros u Hu. subst st0. cbn.
      rewrite (proj2 (Hzero no_params no_vars u Hu)).
      rewrite (area_of_same_structure G G1 u Hs1). ring.
Qed.

Lemma build_primary_terms_sums `{Backend} (G : DiGraph) (order : list string)
    (u0 : SampleNetworkUnmixer) (tracer : string → expr) :
  well_formed G → out_degree_le_1 G →
  Forall (fun x => x ≠ ""%string) (node_list G) →
  topological_sort (node_list G) (adj G) = (order, true) →
  order ≡ₚ node_list G → topological G order →
  sample_network u0 = G →
  Forall (fun x => tracer_expression u0 x = Ok (tracer x)) (node_list G) →
  ∃ u, _build_primary_terms u0 = Ok u ∧
       ∀ ρ σ n, n ∈ node_list G →
         total_flux ρ σ (sample_network u) n ==
           Qsum (map (fun x => area_of G x / mean_area_of G * ρ (ExportRate x))
                   (upstream_closure G n)) ∧
         total_tracer_flux ρ σ (sample_network u) n ==
           Qsum (map (fun x => area_of G x / mean_area_of G * ρ (ExportRate x) *
                               eval ρ σ (tracer x))
                   (upstream_closure G n)).
Proof.
  intros Hwf Hdeg Hne Hsort Hperm Htopo HG Htr.
  unfold out_degree_le_1 in Hdeg.
  destruct (reset_totals_spec G Hwf) as (G1 & E1 & Hs1 & Hz1 & _).
  pose proof Hs1 as (Hn1 & Ha1 & _).
  pose proof (well_formed_same_structure G G1 Hs1 Hwf) as Hwf1.
  destruct (calculate_normalised_areas_spec G1 Hwf1) as (G2 & E2 & Hn2 & Ha2 & Hd2).
  unfold _build_primary_terms. rewrite HG, E1. cbn [rbind]. rewrite E2. cbn [rbind].
  rewrite Hn2, Ha2, Hn1, Ha1, Hsort.
  assert (Hlook : ∀ x, x ∈ node_list G →
            ∃ d d2, node_data G !! x = Some d ∧ node_data G2 !! x = Some d2 ∧
                    name d2 = x ∧
                    rltv_area d2 = area d / mean_area_of G ∧
                    my_total_flux d2 = Const 0 ∧
                    my_total_tracer_flux d2 = Const 0).
  { intros x Hx. destruct (well_formed_lookup G x Hwf Hx) as (d & Hd & Hname).
    destruct (same_structure_lookup G G1 x d Hs1 Hd) as (d1 & Hd1 & Hst1).
    exists d. eexists. split; [done|].
    rewrite Hd2, bool_decide_true, Hd1 by (by rewrite Hn1). cbn.
    split; [reflexivity|]. destruct Hst1 as (Hnm & Har & _). cbn.
    rewrite Hnm, Har, (mean_area_of_same_structure G G1 Hs1).
    split; [done|]. split; [done|].
    pose proof (Hz1 x Hx) as Hz. rewrite Hd, Hd1 in Hz. cbn in Hz. by simplify_eq. }
  destruct (build_primary_terms_loop (with_network G2 u0) G2 tracer)
    with (order := order) (u := with_network G2 u0)
         (ρ := fun _ : param => 0) (σ := fun _ : var => 0)
    as (u & E & _ & _).
  - split; [apply same_structure_refl|done].
  - apply (topological_same_adj G); [congruence|done].
  - rewrite Forall_forall in Hne, Htr |- *. intros x Hx.
    assert (x ∈ node_list G) as Hx' by (by rewrite <- Hperm).
    destruct (Hlook x Hx') as (d & d2 & _ & Hd2' & Hname & _).
    split; [by eauto|]. split; [apply str_truthy_nonempty; auto|].
    unfold tracer_expression. cbn. apply Htr in Hx'.
    unfold tracer_expression in Hx'. exact Hx'.
  - rewrite Forall_forall in Hdeg |- *. intros x Hx.
    rewrite (successors_same_adj G G2 x) by congruence. apply Hdeg. by rewrite <- Hperm.
  - rewrite E. cbn [rbind]. exists u. split; [done|].
    intros ρ σ n Hn.
    destruct (build_primary_terms_loop (with_network G2 u0) G2 tracer ρ σ)
      with (order := order) (u := with_network G2 u0) as (u' & E' & _ & Hsum).
    + split; [apply same_structure_refl|done].
    + apply (topological_same_adj G); [congruence|done].
    + rewrite Forall_forall in Hne, Htr |- *. intros x Hx.
      assert (x ∈ node_list G) as Hx' by (by rewrite <- Hperm).
      destruct (Hlook x Hx') as (d & d2 & _ & Hd2' & Hname & _).
      split; [by eauto|]. split; [apply str_truthy_nonempty; auto|].
      unfold tracer_expression. cbn. apply Htr in Hx'.
      unfold tracer_expression in Hx'. exact Hx'.
    + rewrite Forall_forall in Hdeg |- *. intros x Hx.
      rewrite (successors_same_adj G G2 x) by congruence. apply Hdeg.
      by rewrite <- Hperm.
    + rewrite E in E'. simplify_eq.
      destruct (Hsum n) as [HF HT]; [by rewrite Hperm|].
      rewrite HF, HT. split.
      * apply closure_sum_upstream; [done|congruence|]. intros v Hv. cbn.
        destruct (Hlook v Hv) as (d & d2 & Hd & Hd2' & _ & Hr & HF0 & _).
        unfold total_flux, rltv_area_of, area_of. rewrite Hd2', Hd. cbn.
        rewrite HF0, Hr. cbn. ring.
      * apply closure_sum_upstream; [done|congruence|]. intros v Hv. cbn.
        destruct (Hlook v Hv) as (d & d2 & Hd & Hd2' & _ & Hr & _ & HT0).
        unfold total_tracer_flux, rltv_area_of, area_of. rewrite Hd2', Hd. cbn.
        rewrite HT0, Hr. cbn. ring.
Qed.

Lemma Qsum_positive (l : list Q) :
  l ≠ [] → Forall (fun x => 0 < x) l → 0 < Qsum l.
Proof.
  intros Hne Hall. destruct l as [|x l]; [done|]. clear Hne.
  apply Forall_cons in Hall as [Hx Hall]. rewrite Qsum_cons.
  assert (0 <= Qsum l) as Hl; [|lra].
  induction Hall as [|y l Hy Hall IH]; [by rewrite Qsum_nil|].
  rewrite Qsum_cons. lra.
Qed.

(** Positive areas have a positive mean. *)
Lemma mean_area_positive (G : DiGraph) :
  node_list G ≠ [] → Forall (fun x => 0 < area_of G x) (node_list G) →
  0 < mean_area_of G.
Proof.
  intros Hne Hpos. unfold mean_area_of.
  apply Qlt_shift_div_l.
  - replace 0 with (inject_Z 0) by done. rewrite <- Zlt_Qlt.
    destruct (node_list G); [done|cbn [length]; lia].
  - rewrite Qmult_0_l. apply Qsum_positive.
    + by destruct (node_list G).
    + by apply Forall_fmap.
Qed.

(** C1, as amended.  On a network whose nodes are distinct, carry their
    data, have non-empty names and positive areas, with at most one
    downstream edge per node, traversed in a topological order of all its
    nodes: [mix_downstream] leaves at every node [n] the total flux
    [Σ area(u)·exportRate(u)] and the total tracer flux
    [Σ area(u)·exportRate(u)·tracerValue(u)] over the upstream closure of
    [n]; [_build_primary_terms] leaves expressions whose values are the same
    sums with the relative area [area(u) / mean area] in place of
    [area(u)], the mean area being positive.  In continuous mode the
    tracer value of a site is the mean over its grid nodes, which exists
    when the site owns a grid node. *)
Theorem flux_accumulation `{Backend} (G : DiGraph) (order : list string) :
  well_formed G → out_degree_le_1 G →
  Forall (fun x => x ≠ ""%string) (node_list G) →
  Forall (fun x => 0 < area_of G x) (node_list G) →
  topological_sort (node_list G) (adj G) = (order, true) →
  order ≡ₚ node_list G → topological G order →
  (∀ tracer_mean export_rates,
     Forall (fun x => is_ok (export_rate_or_default export_rates x) = true)
       (node_list G) →
     ∃ st, mix_downstream G tracer_mean export_rates = Ok st ∧
           ∀ n, n ∈ node_list G →
             total_flux no_params no_vars (mixed_network st) n ==
               Qsum (map (fun u => area_of G u * rate_of export_rates u)
                       (upstream_closure G n)) ∧
             total_tracer_flux no_params no_vars (mixed_network st) n ==
               Qsum (map (fun u => area_of G u * rate_of export_rates u *
                                   tracer_mean u)
                       (upstream_closure G n))) ∧
  (∀ u0 tracer,
     sample_network u0 = G →
     Forall (fun x => tracer_expression u0 x = Ok (tracer x)) (node_list G) →
     ∃ u, _build_primary_terms u0 = Ok u ∧
          ∀ ρ σ n, n ∈ node_list G →
            0 < mean_area_of G ∧
            total_flux ρ σ (sample_network u) n ==
              Qsum (map (fun x => area_of G x / mean_area_of G * ρ (ExportRate x))
                      (upstream_closure G n)) ∧
            total_tracer_flux ρ σ (sample_network u) n ==
              Qsum (map (fun x => area_of G x / mean_area_of G * ρ (ExportRate x) *
                                  eval ρ σ (tracer x))
                      (upstream_closure G n))).
Proof.
  intros Hwf Hdeg Hne Hpos Hsort Hperm Htopo. split.
  - intros tracer_mean export_rates Hrates. by apply (mix_downstream_sums G order).
  - intros u0 tracer HG Htr.
    destruct (build_primary_terms_sums G order u0 tracer Hwf Hdeg Hne Hsort Hperm
                Htopo HG Htr) as (u & E & Hsum).
    exists u. split; [exact E|]. intros ρ σ n Hn. split; [|by apply Hsum].
    apply mean_area_positive; [|done]. intros Hnil. rewrite Hnil in Hn.
    by apply elem_of_nil in Hn.
Qed.

Lemma confluence_well_formed : well_formed confluence.
Proof.
  split.
  - by_evaluation.
  - repeat (apply Forall_cons; split; [eexists; split; reflexivity|]).
    apply Forall_nil_2.
Qed.

Lemma confluence_topological : topological confluence ["a"; "b"; "c"]%string.
Proof.
  cbn. repeat split; by_evaluation.
Qed.

Lemma flux_accumulation_witness :
  well_formed confluence ∧ out_degree_le_1 confluence ∧
  Forall (fun x => x ≠ ""%string) (node_list confluence) ∧
  Forall (fun x => 0 < area_of confluence x) (node_list confluence) ∧
  @topological_sort test_backend (node_list confluence) (adj confluence) =
    (["a"; "b"; "c"]%string, true) ∧
  ["a"; "b"; "c"]%string ≡ₚ node_list confluence ∧
  topological confluence ["a"; "b"; "c"]%string ∧
  (∃ st, @mix_downstream test_backend confluence (fun _ => 7) None = Ok st ∧
         total_flux no_params no_vars (mixed_network st) "c" == 6 ∧
         total_tracer_flux no_params no_vars (mixed_network st) "c" == 42) ∧
  ∃ u, @_build_primary_terms test_backend (blank_unmixer confluence false None) =
         Ok u ∧
       total_flux (fun _ => 1) (fun _ => 7) (sample_network u) "c" == 3 ∧
       total_tracer_flux (fun _ => 1) (fun _ => 7) (sample_network u) "c" == 21.
Proof.
  assert (Hdeg : out_degree_le_1 confluence).
  { repeat (apply Forall_cons; split; [vm_compute; lia|]). apply Forall_nil_2. }
  assert (Hne : Forall (fun x => x ≠ ""%string) (node_list confluence)).
  { repeat (apply Forall_cons; split; [done|]). apply Forall_nil_2. }
  assert (Hpos : Forall (fun x => 0 < area_of confluence x) (node_list confluence)).
  { repeat (apply Forall_cons; split; [vm_compute; reflexivity|]).
    apply Forall_nil_2. }
  split; [apply confluence_well_formed|]. split; [exact Hdeg|].
  split; [exact Hne|]. split; [exact Hpos|].
  split; [reflexivity|]. split; [reflexivity|].
  split; [apply confluence_topological|].
  destruct (@flux_accumulation test_backend confluence ["a"; "b"; "c"]%string
              confluence_well_formed Hdeg Hne Hpos eq_refl (reflexivity _)
              confluence_topological) as [Hmix Hbuild].
  split.
  - destruct (Hmix (fun _ => 7) None) as (st & E & Hsum).
    { repeat (apply Forall_cons; split; [done|]). apply Forall_nil_2. }
    exists st. split; [exact E|].
    destruct (Hsum "c"%string) as [HF HT]; [by_evaluation|].
    rewrite HF, HT. split; vm_compute; reflexivity.
  - destruct (Hbuild (blank_unmixer confluence false None)
                (fun x => Var (TracerValue x))) as (u & E & Hsum).
    { reflexivity. }
    { repeat (apply Forall_cons; split; [reflexivity|]). apply Forall_nil_2. }
    exists u. split; [exact E|].
    destruct (Hsum (fun _ => 1) (fun _ => 7) "c"%string) as (_ & HF & HT);
      [by_evaluation|].
    rewrite HF, HT. split; vm_compute; reflexivity.
Defined.

(** C1 as stated fails for [_build_primary_terms]: on the network of one
    site of area 2, with export rate 1, the total flux the construction
    leaves at the site evaluates to the relative area 1, not to
    [area · exportRate = 2]. *)
Lemma primary_terms_flux_is_relative :
  ∃ u, @_build_primary_terms test_backend (blank_unmixer lone_site false None) = Ok u ∧
       ¬ (total_flux (fun _ => 1) (fun _ => 1) (sample_network u) "a" ==
          Qsum (map (fun x => area_of lone_site x * 1)
                  (upstream_closure lone_site "a"))).
Proof.
  eexists. split; [vm_compute; reflexivity|].
  vm_compute. intros E. discriminate E.
Qed.

(** ** The topology check during construction *)

Lemma for_each_inv {S X} (P : S → Prop) (body : S → X → result S)
    (l : list X) s s' :
  (∀ s x s', body s x = Ok s' → P s → P s') →
  P s → for_each body l s = Ok s' → P s'.
Proof.
  intros Hb. revert s. induction l as [|x l IH]; intros s HP E; cbn in E.
  - by simplify_eq.
  - destruct (body s x) as [s1|e] eqn:E1; [|done]. cbn in E.
    apply (IH s1); [|done]. by eapply Hb.
Qed.

Lemma same_shape_refl G : same_shape G G.
Proof. by repeat split. Qed.

Lemma same_shape_trans G1 G2 G3 :
  same_shape G1 G2 → same_shape G2 G3 → same_shape G1 G3.
Proof.
  intros (?&?&H12) (?&?&H23). split; [congruence|]. split; [congruence|].
  intros z. by rewrite H23.
Qed.

Lemma same_shape_set G x d :
  is_Some (node_data G !! x) → same_shape G (set_node_data G x d).
Proof.
  intros Hx. split; [done|]. split; [done|]. intros z. cbn.
  by apply is_Some_insert_same.
Qed.

Lemma update_nodes_shape (f : SampleNode → SampleNode) (l : list string) G G' :
  for_each
    (fun G x => let! d := getitem (node_data G) x in Ok (set_node_data G x (f d)))
    l G = Ok G' →
  same_shape G G'.
Proof.
  apply (for_each_inv (same_shape G)); [|apply same_shape_refl].
  intros s x s' E Hs. unfold getitem in E.
  destruct (node_data s !! x) as [d|] eqn:Ed; [|done]. cbn in E. simplify_eq.
  eapply same_shape_trans; [exact Hs|]. apply same_shape_set. by eexists.
Qed.

Lemma propagate_downstream_shape G x G' :
  propagate_downstream G x = Ok G' → same_shape G G'.
Proof.
  unfold propagate_downstream. intros E.
  destruct (nx_get_downstream G x) as [[ds|]|e]; cbn in E; [| |done].
  - destruct (str_truthy ds); [|simplify_eq; apply same_shape_refl].
    unfold getitem in E.
    destruct (node_data G !! x) as [d|]; [|done]. cbn in E.
    destruct (node_data G !! ds) as [dd|] eqn:Edd; [|done]. cbn in E. simplify_eq.
    apply same_shape_set. by eexists.
  - simplify_eq. apply same_shape_refl.
Qed.

Lemma build_primary_terms_body_shape u x u' :
  _build_primary_terms_body u x = Ok u' →
  same_shape (sample_network u) (sample_network u') ∧
  continuous u' = continuous u ∧ grid u' = grid u.
Proof.
  unfold _build_primary_terms_body, getitem. intros E.
  destruct (node_data (sample_network u) !! x) as [d|] eqn:Ed; [|done]. cbn in E.
  destruct (tracer_expression u x) as [t|e]; [|done]. cbn in E.
  destruct (propagate_downstream _ x) as [G'|e] eqn:Ep; [|done]. cbn in E.
  simplify_eq. split; [|done]. cbn.
  eapply same_shape_trans; [|by eapply propagate_downstream_shape].
  apply same_shape_set. by eexists.
Qed.

(** At a node with two or more downstream edges the body of the loop
    raises, whatever else it does. *)
Lemma build_primary_terms_body_raises u x :
  (2 ≤ length (successors (sample_network u) x))%nat →
  ∃ e, _build_primary_terms_body u x = Raise e.
Proof.
  intros Hlen. unfold _build_primary_terms_body, getitem.
  destruct (node_data (sample_network u) !! x) as [d|]; [|by eexists]. cbn [rbind].
  destruct (tracer_expression u x) as [t|e]; [|by eexists]. cbn [rbind].
  unfold propagate_downstream, nx_get_downstream.
  assert (∀ d', successors (set_node_data (sample_network u) x d') x =
                successors (sample_network u) x) as -> by done.
  destruct (successors (sample_network u) x) as [|a [|b l]]; cbn in Hlen; [lia|lia|].
  by eexists.
Qed.

Lemma build_primary_terms_loop_raises G (R : list string) u x :
  adj (sample_network u) = adj G → x ∈ R →
  (2 ≤ length (successors G x))%nat →
  ∃ e, for_each _build_primary_terms_body R u = Raise e.
Proof.
  revert u. induction R as [|y R IH]; intros u Ha Hx Hlen; [by inv Hx|].
  cbn [for_each].
  destruct (_build_primary_terms_body u y) as [u1|e] eqn:E1; [|by eexists].
  cbn [rbind]. apply elem_of_cons in Hx as [->|Hx].
  - destruct (build_primary_terms_body_raises u y) as [e He].
    + by rewrite (successors_same_adj G _ y Ha).
    + congruence.
  - apply IH; [|done|done].
    destruct (build_primary_terms_body_shape u y u1 E1) as ((_ & Ha1 & _) & _).
    congruence.
Qed.

Lemma calculate_normalised_areas_shape G G' :
  calculate_normalised_areas G = Ok G' → same_shape G G'.
Proof.
  unfold calculate_normalised_areas. intros E.
  destruct (mean_area G) as [m|e]; [|done]. cbn [rbind] in E.
  exact (update_nodes_shape (fun d => set_rltv_area (area d / m) d) _ _ _ E).
Qed.

Lemma build_primary_terms_raises `{Backend} G u0 order fin x :
  topological_sort (node_list G) (adj G) = (order, fin) →
  sample_network u0 = G → x ∈ order →
  (2 ≤ length (successors G x))%nat →
  ∃ e, _build_primary_terms u0 = Raise e.
Proof.
  intros Hsort HG Hx Hlen. unfold _build_primary_terms. rewrite HG.
  destruct (reset_totals G) as [G1|e] eqn:E1; [|by eexists]. cbn [rbind].
  destruct (calculate_normalised_areas G1) as [G2|e] eqn:E2; [|by eexists].
  cbn [rbind].
  destruct (update_nodes_shape _ _ _ _ E1) as (Hn1 & Ha1 & _).
  destruct (calculate_normalised_areas_shape _ _ E2) as (Hn2 & Ha2 & _).
  rewrite Hn2, Ha2, Hn1, Ha1, Hsort.
  destruct (build_primary_terms_loop_raises G order (with_network G2 u0) x)
    as [e ->]; [cbn; congruence|done|done|].
  by eexists.
Qed.

(** In discrete mode, on a graph all of whose nodes carry data, the body
    of the loop fails only by the topology check. *)
Lemma build_primary_terms_body_discrete G u y :
  same_shape G (sample_network u) → continuous u = false →
  is_Some (node_data G !! y) →
  Forall (fun z => is_Some (node_data G !! z)) (successors G y) →
  if decide (length (successors G y) ≤ 1)%nat
  then ∃ u', _build_primary_terms_body u y = Ok u'
  else _build_primary_terms_body u y =
       Raise (Exception "More than one downstream neighbour!").
Proof.
  intros (Hn & Ha & Hd) Hc Hy Hsucc.
  apply Hd in Hy as [d Hdy].
  unfold _build_primary_terms_body, getitem. rewrite Hdy. cbn [rbind].
  unfold tracer_expression. rewrite Hc. cbn [rbind].
  unfold propagate_downstream, nx_get_downstream.
  assert (∀ d', successors (set_node_data (sample_network u) y d') y =
                successors G y) as ->.
  { intros d'. unfold successors. cbn. by rewrite Ha. }
  destruct (successors G y) as [|ds [|b l]] eqn:Es; cbn [length].
  - rewrite decide_True by lia. cbn. by eexists.
  - rewrite decide_True by lia. cbn [rbind].
    destruct (str_truthy ds); [|by eexists].
    unfold getitem. cbn [node_data set_node_data]. rewrite lookup_insert_eq.
    cbn [rbind].
    apply Forall_cons in Hsucc as [Hds _]. apply Hd in Hds as [dd Hdd].
    destruct (decide (ds = y)) as [->|Hne].
    + rewrite lookup_insert_eq. cbn. by eexists.
    + rewrite lookup_insert_ne, Hdd by done. cbn. by eexists.
  - rewrite decide_False by lia. done.
Qed.

Lemma build_primary_terms_loop_discrete G (R : list string) u x :
  same_shape G (sample_network u) → continuous u = false →
  Forall (fun y => is_Some (node_data G !! y)) R →
  (∀ y z, y ∈ R → z ∈ successors G y → is_Some (node_data G !! z)) →
  x ∈ R → (2 ≤ length (successors G x))%nat →
  for_each _build_primary_terms_body R u =
  Raise (Exception "More than one downstream neighbour!").
Proof.
  revert u. induction R as [|y R IH]; intros u Hs Hc HR Hsucc Hx Hlen; [by inv Hx|].
  apply Forall_cons in HR as [Hy HR]. cbn [for_each].
  pose proof (build_primary_terms_body_discrete G u y Hs Hc Hy) as Hb.
  destruct (decide (length (successors G y) ≤ 1)%nat) as [Hle|Hgt].
  - destruct Hb as [u1 E1].
    { rewrite Forall_forall. intros z Hz. apply (Hsucc y z); [left|done]. }
    rewrite E1. cbn [rbind].
    destruct (build_primary_terms_body_shape u y u1 E1) as (Hs1 & Hc1 & _).
    apply IH; [by eapply same_shape_trans|congruence|done| | |done].
    + intros y' z Hy'. apply Hsucc. by right.
    + apply elem_of_cons in Hx as [->|Hx]; [lia|done].
  - rewrite Hb; [done|].
    rewrite Forall_forall. intros z Hz. apply (Hsucc y z); [left|done].
Qed.

(** C6. With [order] the nodes yielded by the topological sort:
    (a) when the construction of the unmixer returns, every node has at
    most one downstream edge; (b) when a yielded node has two or more
    downstream edges, the construction raises; (c) on a discrete problem
    over a graph whose nodes and edge targets all carry data, the exception
    is that of [nx_get_downstream]. *)
Theorem out_degree_enforced `{Backend} (G : DiGraph) (use_regularization : bool)
    (continuous_args : option (Z * Z * list (list Z)))
    (order : list string) (finished : bool) :
  topological_sort (node_list G) (adj G) = (order, finished) →
  (∀ u, SampleNetworkUnmixer_init G use_regularization continuous_args = Ok u →
        order ≡ₚ node_list G → out_degree_le_1 G) ∧
  (∀ x, x ∈ order → (2 ≤ length (successors G x))%nat →
        ∃ e, SampleNetworkUnmixer_init G use_regularization continuous_args =
             Raise e) ∧
  (∀ x, x ∈ order → (2 ≤ length (successors G x))%nat →
        continuous_args = None → well_formed G →
        (∀ y, y ∈ order → y ∈ node_list G) →
        (∀ y z, z ∈ successors G y → z ∈ node_list G) →
        SampleNetworkUnmixer_init G use_regularization continuous_args =
        Raise (Exception "More than one downstream neighbour!")).
Proof.
  intros Hsort.
  assert (Hb : ∀ x, x ∈ order → (2 ≤ length (successors G x))%nat →
            ∃ e, SampleNetworkUnmixer_init G use_regularization continuous_args =
                 Raise e).
  { intros x Hx Hlen. unfold SampleNetworkUnmixer_init.
    destruct (match continuous_args with Some _ => _ | None => _ end) as [g|e];
      [|by eexists]. cbn [rbind].
    destruct (build_primary_terms_raises G
                (blank_unmixer G (bool_decide (is_Some continuous_args)) g)
                order finished x Hsort eq_refl Hx Hlen) as [e ->].
    by eexists. }
  split; [|split; [exact Hb|]].
  - intros u E Hperm. unfold out_degree_le_1. rewrite Forall_forall.
    intros x Hx.
    destruct (decide (length (successors G x) ≤ 1)%nat) as [|Hgt]; [done|].
    destruct (Hb x) as [e He]; [by rewrite Hperm|lia|congruence].
  - intros x Hx Hlen -> Hwf Hord Hsucc.
    unfold SampleNetworkUnmixer_init. cbn [rbind].
    unfold _build_primary_terms. cbn [sample_network blank_unmixer].
    destruct (reset_totals_spec G Hwf) as (G1 & E1 & Hs1 & _).
    rewrite E1. cbn [rbind].
    destruct (calculate_normalised_areas_spec G1
                (well_formed_same_structure G G1 Hs1 Hwf))
      as (G2 & E2 & Hn2 & Ha2 & _).
    rewrite E2. cbn [rbind].
    destruct (update_nodes_shape _ _ _ _ E1) as (Hn1 & Ha1 & Hd1).
    destruct (calculate_normalised_areas_shape _ _ E2) as (_ & _ & Hd2).
    rewrite Hn2, Ha2, Hn1, Ha1, Hsort.
    assert (Hdata : ∀ y, y ∈ node_list G → is_Some (node_data G !! y)).
    { intros y Hy. destruct (well_formed_lookup G y Hwf Hy) as (d & -> & _).
      by eexists. }
    rewrite (build_primary_terms_loop_discrete G order _ x); [done| |done| | |done|done].
    + cbn. split; [congruence|]. split; [congruence|].
      intros z. by rewrite Hd2, Hd1.
    + rewrite Forall_forall. intros y Hy. by apply Hdata, Hord.
    + intros y z _ Hz. by eapply Hdata, Hsucc.
Qed.

Lemma braided_well_formed : well_formed braided.
Proof.
  split.
  - by_evaluation.
  - repeat (apply Forall_cons; split; [eexists; split; reflexivity|]).
    apply Forall_nil_2.
Qed.

Lemma out_degree_enforced_witness :
  @topological_sort test_backend (node_list braided) (adj braided) =
    (["a"; "b"; "c"]%string, true) ∧
  @SampleNetworkUnmixer_init test_backend braided true None =
    Raise (Exception "More than one downstream neighbour!").
Proof.
  split; [reflexivity|].
  destruct (@out_degree_enforced test_backend braided true None
              ["a"; "b"; "c"]%string true eq_refl) as (_ & _ & Hc).
  apply (Hc "a"%string).
  - by left.
  - vm_compute. lia.
  - reflexivity.
  - apply braided_well_formed.
  - by intros y Hy.
  - intros y z Hz.
    assert (y = "a"%string ∨ successors braided y = []) as [->|Hn].
    { unfold successors, braided. cbn [adj].
      destruct (decide (y = "a"%string)) as [->|Ha]; [by left|right].
      destruct (decide (y = "b"%string)) as [->|Hb]; [done|].
      destruct (decide (y = "c"%string)) as [->|Hc']; [done|].
      cbn. by rewrite !lookup_insert_ne, lookup_empty by done. }
    + assert (successors braided "a" = ["b"; "c"]%string) as Hs by reflexivity.
      rewrite Hs in Hz.
      apply elem_of_cons in Hz as [->|Hz]; [by_evaluation|].
      apply elem_of_cons in Hz as [->|Hz]; [by_evaluation|].
      by apply elem_of_nil in Hz.
    + rewrite Hn in Hz. by apply elem_of_nil in Hz.
Defined.

(** ** The upstream prediction map *)

Lemma slice_assign_pixel out y0 y1 x0 x1 v y x :
  pixel (slice_assign out y0 y1 x0 x1 v) y x =
  (fun c => if bool_decide ((y0 ≤ y < y1)%nat ∧ (x0 ≤ x < x1)%nat) then v else c)
  <$> pixel out y x.
Proof.
  unfold pixel, slice_assign. rewrite list_lookup_imap.
  destruct (out !! y) as [row|]; cbn; [|done].
  case_bool_decide as Hy.
  - rewrite list_lookup_imap. destruct (row !! x) as [c|]; cbn; [|done].
    f_equal. case_bool_decide as Hx.
    + by rewrite bool_decide_true.
    + rewrite bool_decide_false; [done|]. by intros [_ ?].
  - destruct (row !! x) as [c|]; cbn; [|done].
    rewrite bool_decide_false; [done|]. by intros [? _].
Qed.

Lemma np_zeros_pixel rows cols y x :
  (y < rows)%nat → (x < cols)%nat → pixel (np_zeros rows cols) y x = Some (Num 0).
Proof.
  intros Hy Hx. unfold pixel, np_zeros.
  rewrite lookup_replicate_2 by done. cbn. by rewrite lookup_replicate_2.
Qed.

Lemma blocks_disjoint m n k k' p :
  (block_start m n k ≤ p < block_start m n (S k))%nat →
  (block_start m n k' ≤ p < block_start m n (S k'))%nat →
  k = k'.
Proof.
  intros [H1 H2] [H3 H4].
  destruct (Nat.lt_trichotomy k k') as [Hlt|[->|Hgt]]; [|done|].
  - pose proof (block_start_mono m n (S k) k' ltac:(lia)). lia.
  - pose proof (block_start_mono m n (S k') k ltac:(lia)). lia.
Qed.

Lemma in_block_unique g ij ij' y x :
  in_block g ij y x → in_block g ij' y x → ij = ij'.
Proof.
  intros [Hy Hx] [Hy' Hx']. destruct ij as [i j], ij' as [i' j']. cbn in *.
  f_equal; eapply blocks_disjoint; eauto.
Qed.

Lemma elem_of_grid_indices nx ny i j :
  (i, j) ∈ grid_indices nx ny ↔ (i < nx)%nat ∧ (j < ny)%nat.
Proof.
  unfold grid_indices. rewrite list_elem_of_bind. split.
  - intros (i' & Hin & Hi'). apply list_elem_of_bind in Hin as (j' & Hin & Hj').
    apply list_elem_of_singleton in Hin. simplify_eq.
    apply elem_of_seq in Hi'. apply elem_of_seq in Hj'. lia.
  - intros [Hi Hj]. exists i. split; [|apply elem_of_seq; lia].
    apply list_elem_of_bind. exists j. split; [by left|apply elem_of_seq; lia].
Qed.

Lemma prediction_map_body_spec u g out ij out1 :
  prediction_map_body u g out ij = Ok out1 →
  ∀ y x, pixel out1 y x =
         (fun c => if bool_decide (in_block g ij y x) then cell_value u g ij else c)
         <$> pixel out y x.
Proof.
  unfold prediction_map_body, cell_value. intros E y x.
  destruct (node_arr g !! (ij.2, ij.1)) as [node|]; [|done].
  simplify_eq. rewrite slice_assign_pixel. done.
Qed.

Lemma prediction_map_loop u g (idx : list (nat * nat)) out0 out y x v c0 :
  for_each (prediction_map_body u g) idx out0 = Ok out →
  pixel out0 y x = Some c0 →
  (∀ ij, ij ∈ idx → in_block g ij y x → cell_value u g ij = v) →
  (∃ ij, ij ∈ idx ∧ in_block g ij y x) ∨ c0 = v →
  pixel out y x = Some v.
Proof.
  revert out0 c0. induction idx as [|ij idx IH]; intros out0 c0 E Hp Hv Hex.
  - cbn in E. simplify_eq. destruct Hex as [(ij & Hin & _)| ->]; [by inv Hin|done].
  - cbn [for_each] in E.
    destruct (prediction_map_body u g out0 ij) as [out1|e] eqn:E1; [|done].
    cbn [rbind] in E.
    pose proof (prediction_map_body_spec u g out0 ij out1 E1 y x) as Hp1.
    rewrite Hp in Hp1. cbn in Hp1.
    eapply IH; [exact E|exact Hp1| |].
    + intros ij' Hin. apply Hv. by right.
    + case_bool_decide as Hb.
      * right. apply Hv; [by left|done].
      * destruct Hex as [(ij' & Hin & Hblk)|Hc]; [|by right].
        left. exists ij'. split; [|done].
        apply elem_of_cons in Hin as [->|Hin]; [contradiction|done].
Qed.

Lemma prediction_map_inv u g out :
  continuous u = true → grid u = Some g →
  get_upstream_prediction_map u = Ok out →
  (0 < nx g)%nat ∧ (0 < ny g)%nat ∧
  for_each (prediction_map_body u g) (grid_indices (nx g) (ny g))
    (np_zeros (shape0 (area_labels g)) (shape1 (area_labels g))) = Ok out.
Proof.
  intros Hc Hg E. unfold get_upstream_prediction_map in E.
  rewrite Hc, Hg in E. cbn [negb] in E. cbv zeta in E.
  destruct (decide (nx g = 0%nat ∨ ny g = 0%nat)) as [|Hn]; [done|].
  split; [lia|]. split; [lia|done].
Qed.

(** In a returned map, every pixel of the raster in the block of a grid
    node holds what the node's variable holds, and [nan] when that is
    nothing. *)
Lemma prediction_map_pixels u g out i j y x :
  continuous u = true → grid u = Some g →
  get_upstream_prediction_map u = Ok out →
  (i < nx g)%nat → (j < ny g)%nat →
  (y < shape0 (area_labels g))%nat → (x < shape1 (area_labels g))%nat →
  in_block g (i, j) y x →
  pixel out y x = Some (cell_value u g (i, j)).
Proof.
  intros Hc Hg E Hi Hj Hy Hx Hblk.
  destruct (prediction_map_inv u g out Hc Hg E) as (_ & _ & E').
  eapply prediction_map_loop; [exact E'|by apply np_zeros_pixel| |].
  - intros ij' _ Hblk'. f_equal. by eapply in_block_unique.
  - left. exists (i, j). split; [by apply elem_of_grid_indices|done].
Qed.

(** A pixel of the raster that lies in no block keeps the [0.0] of
    [np.zeros]. *)
Lemma prediction_map_unwritten u g out y x :
  continuous u = true → grid u = Some g →
  get_upstream_prediction_map u = Ok out →
  (y < shape0 (area_labels g))%nat → (x < shape1 (area_labels g))%nat →
  (∀ i j, (i < nx g)%nat → (j < ny g)%nat → ¬ in_block g (i, j) y x) →
  pixel out y x = Some (Num 0).
Proof.
  intros Hc Hg E Hy Hx Hnone.
  destruct (prediction_map_inv u g out Hc Hg E) as (_ & _ & E').
  eapply prediction_map_loop; [exact E'|by apply np_zeros_pixel| |by right].
  intros [i j] Hin Hblk. apply elem_of_grid_indices in Hin as [Hi Hj].
  by destruct (Hnone i j Hi Hj).
Qed.


(** The map is returned whenever the grid has a column and a row and
    every grid position holds a node. *)
Lemma prediction_map_returns u g :
  continuous u = true → grid u = Some g →
  (0 < nx g)%nat → (0 < ny g)%nat →
  (∀ i j, (i < nx g)%nat → (j < ny g)%nat → is_Some (node_arr g !! (j, i))) →
  ∃ out, get_upstream_prediction_map u = Ok out.
Proof.
  intros Hc Hg Hnx Hny Hall. unfold get_upstream_prediction_map.
  rewrite Hc, Hg. cbn [negb]. cbv zeta. rewrite decide_False by lia.
  assert (∀ idx out0, (∀ ij, ij ∈ idx → ij ∈ grid_indices (nx g) (ny g)) →
            ∃ out, for_each (prediction_map_body u g) idx out0 = Ok out) as Hloop.
  { induction idx as [|[i j] idx IH]; intros out0 Hidx; [by eexists|].
    cbn [for_each]. unfold prediction_map_body at 1. cbn [fst snd].
    assert ((i, j) ∈ grid_indices (nx g) (ny g)) as Hij by (apply Hidx; left).
    apply elem_of_grid_indices in Hij as [Hi Hj].
    destruct (Hall i j Hi Hj) as [node ->].
    cbn [rbind]. apply IH. intros ij Hij. apply Hidx. by right. }
  by apply Hloop.
Qed.

(** ** What solve returns *)

Lemma mseq_inv {A B} (m : M A) (f : A → M B) u b u' :
  mseq m f u = (Ok b, u') → ∃ a u1, m u = (Ok a, u1) ∧ f a u1 = (Ok b, u').
Proof.
  unfold mseq. destruct (m u) as [[a|e] u1]; [|done]. by eauto.
Qed.

Lemma invoke_solver_mode `{Backend} options u r u' :
  invoke_solver options u = (r, u') →
  continuous u' = continuous u ∧ grid u' = grid u ∧
  sample_network u' = sample_network u.
Proof.
  unfold invoke_solver. intros E.
  destruct (_problem u) as [pb|]; [|by simplify_eq].
  destruct (cp_solve _ _ _) as [σ|e]; by simplify_eq.
Qed.

(** When [solve] returns, its second component is the prediction map of
    the solved problem scaled by the geometric mean of the observations in
    continuous mode, and the scaled per-site dictionary otherwise. *)
Lemma solve_returns `{Backend} u obs rates strength solver down up u' :
  solve obs rates strength solver u = (Ok (down, up), u') →
  continuous u' = continuous u ∧ grid u' = grid u ∧
  sample_network u' = sample_network u ∧
  if continuous u
  then ∃ m, get_upstream_prediction_map u' = Ok m ∧
            up = UpstreamMap (map (map (np_scale (geo_mean obs.*2))) m)
  else ∃ d d', get_upstream_prediction_dictionary u' = Ok d ∧
               scale_upstream (geo_mean obs.*2) d = Ok d' ∧
               up = UpstreamDict d'.
Proof.
  unfold solve. intros E.
  apply mseq_inv in E as ([] & u1 & E1 & E).
  pose proof (quiet_set_observation_parameters obs u) as S1. rewrite E1 in S1.
  apply mseq_inv in E as ([] & u2 & E2 & E).
  pose proof (quiet_set_export_rate_parameters rates u1) as S2. rewrite E2 in S2.
  apply mseq_inv in E as ([] & u3 & E3 & E).
  pose proof (quiet_set_total_flux_parameters u2) as S3. rewrite E3 in S3.
  apply mseq_inv in E as (? & u4 & [= -> ->] & E).
  apply mseq_inv in E as ([] & u5 & E5 & E).
  assert (u5 = u4) as ->.
  { destruct (negb _ && _) in E5; [done|]. unfold mret in E5. by simplify_eq. }
  apply mseq_inv in E as ([] & u6 & E6 & E).
  assert (continuous u6 = continuous u4 ∧ grid u6 = grid u4 ∧
          sample_network u6 = sample_network u4) as (Hc6 & Hg6 & Hn6).
  { destruct (CpParameter_set_value _ _) in E6; by simplify_eq. }
  apply mseq_inv in E as (options & u7 & E7 & E).
  assert (u7 = u6) as -> by (unfold lift in E7; by simplify_eq).
  apply mseq_inv in E as ([] & u8 & E8 & E).
  apply invoke_solver_mode in E8 as (Hc8 & Hg8 & Hn8).
  cbv zeta in E.
  apply mseq_inv in E as (? & u9 & [= -> ->] & E).
  apply mseq_inv in E as (dn & u10 & E10 & E).
  assert (u10 = u9) as -> by (unfold lift in E10; by simplify_eq).
  apply mseq_inv in E as (up' & u11 & E11 & E).
  unfold mret in E. simplify_eq.
  cbn in S1, S2, S3.
  assert (continuous u9 = continuous u) as Hc.
  { rewrite Hc8, Hc6. destruct S1, S2, S3. congruence. }
  assert (grid u9 = grid u) as Hg.
  { rewrite Hg8, Hg6. destruct S1, S2, S3. congruence. }
  assert (sample_network u9 = sample_network u) as Hn.
  { rewrite Hn8, Hn6. destruct S1, S2, S3. congruence. }
  rewrite <- Hc. destruct (continuous u9) eqn:Hc9.
  - apply mseq_inv in E11 as (m & u12 & E12 & E11).
    unfold lift in E12. unfold mret in E11. simplify_eq.
    repeat split; try done. by eexists.
  - apply mseq_inv in E11 as (d & u12 & E12 & E11).
    apply mseq_inv in E11 as (d' & u13 & E13 & E11).
    unfold lift in E12, E13. unfold mret in E11. simplify_eq.
    repeat split; try done. by eexists _, _.
Qed.


Lemma for_each_inv_in {S X} (P : S → Prop) (body : S → X → result S)
    (l : list X) s s' :
  (∀ s x s', x ∈ l → body s x = Ok s' → P s → P s') →
  P s → for_each body l s = Ok s' → P s'.
Proof.
  revert s. induction l as [|x l IH]; intros s Hb HP E; cbn in E.
  - by simplify_eq.
  - destruct (body s x) as [s1|e] eqn:E1; [|done]. cbn in E.
    apply (IH s1); [|by eapply Hb; [left|..]|done].
    intros t y t' Hy. apply Hb. by right.
Qed.

Lemma for_each_covers {S X} (Q : X → S → Prop) (body : S → X → result S)
    (l : list X) s s' :
  (∀ s x s', body s x = Ok s' → Q x s') →
  (∀ s x y s', body s x = Ok s' → Q y s → Q y s') →
  for_each body l s = Ok s' → ∀ x, x ∈ l → Q x s'.
Proof.
  intros Hnew Hkeep. revert s. induction l as [|y l IH]; intros s E x Hx;
    [by inv Hx|]. cbn in E.
  destruct (body s y) as [s1|e] eqn:E1; [|done]. cbn in E.
  apply elem_of_cons in Hx as [->|Hx]; [|by eapply IH].
  eapply (for_each_inv (Q y)); [|by eapply Hnew|exact E].
  intros t z t' Ez. by eapply Hkeep.
Qed.





(** On the continuous problem over [confluence] and [quadrants], with the
    observation 5 at every site, [solve] returns the raster in which the
    three catchment pixels hold the solved value times 5 and the unclaimed
    pixel holds [nan]. *)
Example solve_continuous_on_quadrants :
  ∃ u down, continuous_unmixer = Ok u ∧
    (@solve test_backend uniform_observations None (Some 1) "ecos" u).1 =
    Ok (down, UpstreamMap [[Num 5; Num 5]; [Num 5; NaN]]).
Proof.
  eexists _, _. split; [vm_compute; reflexivity|].
  vm_compute. reflexivity.
Qed.

(** ** The sites a problem knows are the nodes of its network *)

Lemma names_ok_set G x d :
  names_ok G → name d = x → names_ok (set_node_data G x d).
Proof.
  intros HG Hd z d' Hz. cbn in Hz.
  destruct (decide (z = x)) as [->|Hne].
  - rewrite lookup_insert_eq in Hz. by simplify_eq.
  - rewrite lookup_insert_ne in Hz by done. by apply HG.
Qed.

Lemma update_nodes_names (f : SampleNode → SampleNode) (l : list string) G G' :
  (∀ d, name (f d) = name d) → names_ok G →
  for_each
    (fun G x => let! d := getitem (node_data G) x in Ok (set_node_data G x (f d)))
    l G = Ok G' →
  names_ok G'.
Proof.
  intros Hf HG. apply (for_each_inv names_ok); [|done].
  intros s x s' E Hs. unfold getitem in E.
  destruct (node_data s !! x) as [d|] eqn:Ed; [|done]. cbn in E. simplify_eq.
  apply names_ok_set; [done|]. rewrite Hf. by apply Hs.
Qed.

Lemma propagate_downstream_names G x G' :
  names_ok G → propagate_downstream G x = Ok G' → names_ok G'.
Proof.
  unfold propagate_downstream. intros HG E.
  destruct (nx_get_downstream G x) as [[ds|]|e]; cbn in E; [| |done].
  - destruct (str_truthy ds); [|by simplify_eq].
    unfold getitem in E.
    destruct (node_data G !! x) as [d|]; [|done]. cbn in E.
    destruct (node_data G !! ds) as [dd|] eqn:Edd; [|done]. cbn in E. simplify_eq.
    apply names_ok_set; [done|]. cbn. by apply HG.
  - by simplify_eq.
Qed.

Lemma build_primary_terms_body_sites u x u' :
  names_ok (sample_network u) →
  _build_primary_terms_body u x = Ok u' →
  names_ok (sample_network u') ∧
  _site_to_observation u' =
    <[x := new_ReciprocalParameter Pos]> (_site_to_observation u) ∧
  _site_to_export_rate u' = <[x := new_CpParameter Pos]> (_site_to_export_rate u) ∧
  _site_to_total_flux u' =
    <[x := new_ReciprocalParameter Pos]> (_site_to_total_flux u).
Proof.
  unfold _build_primary_terms_body, getitem. intros HG E.
  destruct (node_data (sample_network u) !! x) as [d|] eqn:Ed; [|done]. cbn in E.
  destruct (tracer_expression u x) as [t|e]; [|done]. cbn in E.
  destruct (propagate_downstream _ x) as [G'|e] eqn:Ep; [|done]. cbn in E.
  simplify_eq. cbn. rewrite (HG x d Ed). split; [|done].
  eapply propagate_downstream_names; [|exact Ep].
  apply names_ok_set; [done|]. cbn. by apply HG.
Qed.

Lemma build_primary_terms_loop_sites (R : list string) u u' :
  names_ok (sample_network u) →
  for_each _build_primary_terms_body R u = Ok u' →
  ∀ k, (is_Some (_site_to_observation u' !! k) ↔
        k ∈ R ∨ is_Some (_site_to_observation u !! k)) ∧
       (is_Some (_site_to_export_rate u' !! k) ↔
        k ∈ R ∨ is_Some (_site_to_export_rate u !! k)).
Proof.
  revert u. induction R as [|x R IH]; intros u HG E k; cbn in E.
  - simplify_eq. split; split; try tauto; intros [?%elem_of_nil|?]; done.
  - destruct (_build_primary_terms_body u x) as [u1|e] eqn:E1; [|done]. cbn in E.
    destruct (build_primary_terms_body_sites u x u1 HG E1) as (HG1 & Ho & He & _).
    destruct (IH u1 HG1 E k) as [IHo IHe]. rewrite IHo, IHe, Ho, He.
    rewrite !elem_of_cons.
    destruct (decide (k = x)) as [->|Hne].
    + rewrite !lookup_insert_eq. split; split; try tauto; intros _; right; by eexists.
    + rewrite !lookup_insert_ne by done. split; split; tauto.
Qed.

(** The sites a constructed problem knows — the keys of its observation
    and export-rate parameters — are the nodes its topological sort
    yielded. *)
Lemma known_sites_are_nodes `{Backend} G use_regularization continuous_args u
    order finished :
  names_ok G →
  topological_sort (node_list G) (adj G) = (order, finished) →
  SampleNetworkUnmixer_init G use_regularization continuous_args = Ok u →
  ∀ k, (is_Some (_site_to_observation u !! k) ↔ k ∈ order) ∧
       (is_Some (_site_to_export_rate u !! k) ↔ k ∈ order).
Proof.
  intros HG Hsort E k. unfold SampleNetworkUnmixer_init in E.
  destruct (match continuous_args with Some _ => _ | None => _ end) as [g|e];
    [|done]. cbn [rbind] in E.
  destruct (_build_primary_terms _) as [u1|e] eqn:E1; [|done]. cbn [rbind] in E.
  assert ((is_Some (_site_to_observation u1 !! k) ↔ k ∈ order) ∧
          (is_Some (_site_to_export_rate u1 !! k) ↔ k ∈ order)) as H1.
  { unfold _build_primary_terms in E1. cbn [sample_network blank_unmixer] in E1.
    destruct (reset_totals G) as [G1|e] eqn:Er; [|done]. cbn [rbind] in E1.
    destruct (calculate_normalised_areas G1) as [G2|e] eqn:Ec; [|done].
    cbn [rbind] in E1.
    destruct (update_nodes_shape _ _ _ _ Er) as (Hn1 & Ha1 & _).
    destruct (calculate_normalised_areas_shape _ _ Ec) as (Hn2 & Ha2 & _).
    rewrite Hn2, Ha2, Hn1, Ha1, Hsort in E1.
    destruct (for_each _ order _) as [u2|e] eqn:El; [|done]. cbn [rbind] in E1.
    destruct finished; [|done]. simplify_eq.
    assert (names_ok G2) as HG2.
    { unfold calculate_normalised_areas in Ec.
      destruct (mean_area G1) as [m|e]; [|done]. cbn [rbind] in Ec.
      eapply (update_nodes_names (fun d => set_rltv_area (area d / m) d));
        [done| |exact Ec].
      unfold reset_totals in Er.
      eapply (update_nodes_names zero_totals); [done|exact HG|exact Er]. }
    destruct (build_primary_terms_loop_sites order
                (with_network G2
                   (blank_unmixer G (bool_decide (is_Some continuous_args)) g))
                u1 HG2 El k) as [Ho He].
    rewrite Ho, He. cbn. rewrite !lookup_empty.
    split; split; try tauto; intros [?|[? ?]]; done. }
  assert (_site_to_observation u = _site_to_observation u1 ∧
          _site_to_export_rate u = _site_to_export_rate u1) as [-> ->]; [|done].
  assert (∀ v v', _build_problem v = Ok v' →
            _site_to_observation v' = _site_to_observation v ∧
            _site_to_export_rate v' = _site_to_export_rate v) as Hp.
  { intros v v' Ev. unfold _build_problem in Ev.
    destruct (py_assert _) in Ev; [|done]. cbn in Ev.
    destruct (py_assert _) in Ev; [|done]. cbn in Ev. by simplify_eq. }
  destruct use_regularization.
  - destruct (continuous u1).
    + unfold _build_regularizer_terms_continuous in E.
      destruct (grid u1) as [g'|]; [|done].
      destruct (for_each _ _ _) as [terms|e] in E; [|done]. cbn [rbind] in E.
      by apply Hp in E.
    + unfold _build_regularizer_terms_discrete in E.
      destruct (for_each _ _ _) as [terms|e] in E; [|done]. cbn [rbind] in E.
      by apply Hp in E.
  - cbn [rbind] in E. by apply Hp in E.
Qed.

(** On the regularized problem over [confluence]: without export rates
    every site gets the rate 1, and a mapping that lists only site [a]
    makes [solve] fail on the closing assertion of the binding. *)
Example export_rates_on_confluence :
  ∃ u u', regularized_unmixer = Ok u ∧
    @_set_export_rate_parameters test_backend None u = (Ok tt, u') ∧
    map (fun k => pvalue <$> _site_to_export_rate u' !! k) ["a"; "b"; "c"]%string =
      [Some (Some 1); Some (Some 1); Some (Some 1)] ∧
    (@solve test_backend uniform_observations (Some [("a"%string, 1)])
       (Some 1) "ecos" u).1 = Raise AssertionError.
Proof.
  eexists _, _. split; [vm_compute; reflexivity|].
  split; [vm_compute; reflexivity|].
  split; vm_compute; reflexivity.
Qed.

(** The test [if ds := nx_get_downstream(...)] reads an empty name as "no
    downstream node": on [unnamed_outlet] the flux of [a] is not handed
    over, and the outlet is left with its own flux 3 instead of 4. *)
Example empty_name_is_not_propagated_to :
  ∃ st, @mix_downstream test_backend unnamed_outlet (fun _ => 7) None = Ok st ∧
        total_flux no_params no_vars (mixed_network st) "" == 3 ∧
        Qsum (map (fun u => area_of unnamed_outlet u * rate_of None u)
                (upstream_closure unnamed_outlet "")) == 4.
Proof.
  eexists. split; [vm_compute; reflexivity|].
  split; vm_compute; reflexivity.
Qed.

(** * Further properties of the code *)

(** ** get_sample_graphs *)

Lemma ensure_node_nodes G n x :
  x ∈ node_list (ensure_node G n) ↔ x ∈ node_list G ∨ x = n.
Proof.
  unfold ensure_node. case_bool_decide as Hn; cbn.
  - split; [by left|]. by intros [?| ->].
  - rewrite elem_of_app, list_elem_of_singleton. done.
Qed.

Lemma ensure_node_NoDup G n :
  NoDup (node_list G) → NoDup (node_list (ensure_node G n)).
Proof.
  intros Hnd. unfold ensure_node. case_bool_decide as Hn; cbn; [done|].
  apply NoDup_app. split; [done|]. split; [|apply NoDup_singleton].
  intros x Hx ->%list_elem_of_singleton. contradiction.
Qed.

Lemma ensure_node_data G n : node_data (ensure_node G n) = node_data G.
Proof. unfold ensure_node. by case_bool_decide. Qed.

Lemma ensure_node_successors G n x :
  (∀ k, is_Some (adj G !! k) → k ∈ node_list G) →
  successors (ensure_node G n) x = successors G x.
Proof.
  intros Hadj. unfold ensure_node. case_bool_decide as Hn; [done|].
  unfold successors. cbn. destruct (decide (x = n)) as [->|Hne].
  - rewrite lookup_insert_eq. destruct (adj G !! n) eqn:E; [|done].
    exfalso. apply Hn, Hadj. by eexists.
  - by rewrite lookup_insert_ne.
Qed.

Lemma ensure_node_adj G n k :
  (∀ k, is_Some (adj G !! k) → k ∈ node_list G) →
  is_Some (adj (ensure_node G n) !! k) → k ∈ node_list (ensure_node G n).
Proof.
  intros Hadj. rewrite ensure_node_nodes. unfold ensure_node.
  case_bool_decide as Hn; cbn; [by left; apply Hadj|].
  destruct (decide (k = n)) as [->|Hne]; [by right|].
  rewrite lookup_insert_ne by done. left. by apply Hadj.
Qed.

Lemma add_edge_successors G u v x :
  (∀ k, is_Some (adj G !! k) → k ∈ node_list G) →
  ∀ w, w ∈ successors (add_edge G u v) x ↔
       w ∈ successors G x ∨ (x = u ∧ w = v).
Proof.
  intros Hadj w. unfold add_edge. cbv zeta.
  set (G2 := ensure_node (ensure_node G u) v).
  assert (∀ y, successors G2 y = successors G y) as HS.
  { intros y. unfold G2. rewrite ensure_node_successors.
    - by apply ensure_node_successors.
    - intros k. by apply ensure_node_adj. }
  unfold successors at 1. cbn [adj].
  destruct (decide (x = u)) as [->|Hne].
  - rewrite lookup_insert_eq. cbn [default from_option id]. rewrite HS.
    case_bool_decide as Hv.
    + split; [by left|]. by intros [?|[_ ->]].
    + rewrite elem_of_app, list_elem_of_singleton. split.
      * intros [?| ->]; [by left|by right].
      * intros [?|[_ ->]]; [by left|by right].
  - rewrite lookup_insert_ne by done. fold (successors G2 x). rewrite HS.
    split; [by left|]. by intros [?|[? _]].
Qed.

Lemma add_edge_successors_NoDup G u v x :
  (∀ k, is_Some (adj G !! k) → k ∈ node_list G) →
  NoDup (successors G x) → NoDup (successors (add_edge G u v) x).
Proof.
  intros Hadj Hnd. unfold add_edge. cbv zeta.
  set (G2 := ensure_node (ensure_node G u) v).
  assert (∀ y, successors G2 y = successors G y) as HS.
  { intros y. unfold G2. rewrite ensure_node_successors.
    - by apply ensure_node_successors.
    - intros k. by apply ensure_node_adj. }
  unfold successors at 1. cbn [adj].
  destruct (decide (x = u)) as [->|Hne].
  - rewrite lookup_insert_eq. cbn [default from_option id]. rewrite HS.
    case_bool_decide as Hv; [done|].
    apply NoDup_app. split; [done|]. split; [|apply NoDup_singleton].
    intros y Hy ->%list_elem_of_singleton. contradiction.
  - rewrite lookup_insert_ne by done. fold (successors G2 x). by rewrite HS.
Qed.

Lemma built_from_empty root : built_from root [] [] empty_graph.
Proof.
  split; unfold names_ok, successors; cbn; try setoid_rewrite lookup_empty; cbn.
  - apply NoDup_nil_2.
  - by intros ?%elem_of_nil.
  - done.
  - intros n. split; [by intros [? ?]|]. by intros (x & ?%elem_of_nil & _).
  - done.
  - intros n v. split; [by intros ?%elem_of_nil|].
    by intros (x & ?%elem_of_nil & _).
  - intros n. apply NoDup_nil_2.
  - intros n. split; [by intros ?%elem_of_nil|].
    intros [[? ?]|[u Hu]]; [done|]. by apply elem_of_nil in Hu.
  - intros n. by intros [? ?].
Qed.

Lemma built_from_skip_node root Pd Pe G x :
  name x = root → built_from root Pd Pe G → built_from root (Pd ++ [x]) Pe G.
Proof.
  intros Hx [H1 H2 H3 H4 H5 H6 H7 H8 H9]. split; try done.
  - intros n. rewrite H4. split.
    + intros (y & Hy & ?). exists y. split; [|done]. apply elem_of_app. by left.
    + intros (y & Hy & Hn & Hr). apply elem_of_app in Hy as [Hy|Hy]; [by eauto|].
      apply list_elem_of_singleton in Hy. congruence.
  - intros n d Hd. apply elem_of_app. left. by eapply H5.
Qed.

Lemma built_from_skip_edge root Pd Pe G x :
  name x = root ∨ downstream_node x = root →
  built_from root Pd Pe G → built_from root Pd (Pe ++ [x]) G.
Proof.
  intros Hx [H1 H2 H3 H4 H5 H6 H7 H8 H9]. split; try done.
  intros n v. rewrite H6. split.
  - intros (y & Hy & ?). exists y. split; [|done]. apply elem_of_app. by left.
  - intros (y & Hy & Hn & Hr & Hd & Hv).
    apply elem_of_app in Hy as [Hy|Hy]; [by eauto 10|].
    apply list_elem_of_singleton in Hy. destruct Hx; congruence.
Qed.

Lemma built_from_add_node root Pd Pe G x :
  name x ≠ root → built_from root Pd Pe G →
  built_from root (Pd ++ [x]) Pe (add_node G (name x) x).
Proof.
  intros Hx [H1 H2 H3 H4 H5 H6 H7 H8 H9].
  assert (∀ y, successors (add_node G (name x) x) y = successors G y) as HS.
  { intros y. unfold add_node.
    rewrite <- (ensure_node_successors G (name x) y H9). done. }
  split.
  - by apply ensure_node_NoDup.
  - cbn. rewrite ensure_node_nodes. intros [?|?]; [done|congruence].
  - unfold add_node. apply names_ok_set; [|done].
    unfold names_ok. by rewrite ensure_node_data.
  - intros n. cbn. rewrite ensure_node_data.
    destruct (decide (n = name x)) as [->|Hne].
    + rewrite lookup_insert_eq. split; [|by eauto].
      intros _. exists x. split; [|done]. apply elem_of_app. right. by left.
    + rewrite lookup_insert_ne by done. rewrite H4. split.
      * intros (y & Hy & ?). exists y. split; [|done]. apply elem_of_app. by left.
      * intros (y & Hy & Hn & Hr). apply elem_of_app in Hy as [Hy|Hy]; [by eauto|].
        apply list_elem_of_singleton in Hy. congruence.
  - intros n d. cbn. rewrite ensure_node_data.
    destruct (decide (n = name x)) as [->|Hne].
    + rewrite lookup_insert_eq. intros [= <-]. apply elem_of_app. right. by left.
    + rewrite lookup_insert_ne by done. intros Hd. apply elem_of_app. left.
      by eapply H5.
  - intros n v. rewrite HS. apply H6.
  - intros n. rewrite HS. apply H7.
  - intros n. cbn [add_node set_node_data node_list node_data].
    rewrite ensure_node_nodes, ensure_node_data, H8.
    setoid_rewrite HS.
    destruct (decide (n = name x)) as [->|Hne].
    + rewrite lookup_insert_eq. split; [|by right]. intros _. left. by eexists.
    + rewrite lookup_insert_ne by done. split; [|by left].
      by intros [?|?].
  - intros n. cbn. by apply ensure_node_adj.
Qed.

Lemma built_from_add_edge root Pd Pe G x :
  name x ≠ root → downstream_node x ≠ root →
  name x ∈ node_list G → built_from root Pd Pe G →
  built_from root Pd (Pe ++ [x]) (add_edge G (name x) (downstream_node x)).
Proof.
  intros Hx Hdx Hin [H1 H2 H3 H4 H5 H6 H7 H8 H9].
  pose proof (add_edge_successors G (name x) (downstream_node x)) as HS.
  assert (∀ n, n ∈ node_list (add_edge G (name x) (downstream_node x)) ↔
               n ∈ node_list G ∨ n = downstream_node x) as HN.
  { intros n. cbn. rewrite !ensure_node_nodes. split.
    - intros [[?| ->]|?]; auto.
    - intros [?|?]; auto. }
  split.
  - cbn. by do 2 apply ensure_node_NoDup.
  - rewrite HN. intros [?|?]; [done|congruence].
  - unfold names_ok. cbn. by rewrite !ensure_node_data.
  - intros n. cbn. rewrite !ensure_node_data. apply H4.
  - intros n d. cbn. rewrite !ensure_node_data. apply H5.
  - intros n v. rewrite (HS n H9 v), H6. split.
    + intros [(y & Hy & ?)|[-> ->]].
      * exists y. split; [|done]. apply elem_of_app. by left.
      * exists x. split; [|done]. apply elem_of_app. right. by left.
    + intros (y & Hy & Hn & Hr & Hd & Hv).
      apply elem_of_app in Hy as [Hy|Hy]; [left; by eauto 10|].
      apply list_elem_of_singleton in Hy. subst y. by right.
  - intros n. by apply add_edge_successors_NoDup.
  - intros n. rewrite HN. cbn [add_edge node_data]. rewrite !ensure_node_data.
    rewrite H8. setoid_rewrite (fun u => HS u H9 n). split.
    + intros [[?|[u ?]]| ->]; [by left|right; exists u; by left|].
      right. exists (name x). by right.
    + intros [?|[u [?|[-> ->]]]]; [left; by left|left; right; by exists u|by right].
  - intros n Hn. rewrite HN. cbn in Hn.
    destruct (decide (n = name x)) as [->|Hne]; [by left|].
    rewrite lookup_insert_ne in Hn by done.
    apply ensure_node_adj in Hn.
    + apply ensure_node_nodes in Hn as [Hn|Hn]; [|by right].
      apply ensure_node_nodes in Hn as [Hn|Hn]; [by left|done].
    + intros k. by apply ensure_node_adj.
Qed.

Lemma get_sample_graphs_body_built root P G x :
  built_from root P P G →
  built_from root (P ++ [x]) (P ++ [x]) (get_sample_graphs_body root G x).
Proof.
  intros HB. unfold get_sample_graphs_body.
  case_bool_decide as Hx.
  { apply built_from_skip_edge; [by left|]. by apply built_from_skip_node. }
  cbv zeta. pose proof (built_from_add_node root P P G x Hx HB) as HB1.
  case_bool_decide as Hdx.
  - apply built_from_add_edge; try done.
    cbn. apply ensure_node_nodes. by right.
  - apply built_from_skip_edge; [|done]. right.
    by destruct (decide (downstream_node x = root)).
Qed.

Lemma get_sample_graphs_built root raw :
  built_from root raw raw (get_sample_graphs root raw).
Proof.
  unfold get_sample_graphs. induction raw as [|x raw IH] using rev_ind.
  - apply built_from_empty.
  - rewrite fold_left_app. cbn. by apply get_sample_graphs_body_built.
Qed.

Lemma NoDup_fmap_inj {A B} (f : A → B) (l : list A) x y :
  NoDup (f <$> l) → x ∈ l → y ∈ l → f x = f y → x = y.
Proof.
  induction l as [|a l IH]; [by intros _ ?%elem_of_nil|].
  rewrite fmap_cons, NoDup_cons. intros [Ha Hnd] Hx Hy Hf.
  apply elem_of_cons in Hx as [->|Hx]; apply elem_of_cons in Hy as [->|Hy].
  - done.
  - exfalso. apply Ha. rewrite Hf. by apply list_elem_of_fmap_2.
  - exfalso. apply Ha. rewrite <- Hf. by apply list_elem_of_fmap_2.
  - by apply IH.
Qed.

Lemma NoDup_all_equal {A} (l : list A) :
  NoDup l → (∀ x y, x ∈ l → y ∈ l → x = y) → (length l ≤ 1)%nat.
Proof.
  destruct l as [|a [|b l]]; cbn; [lia|lia|].
  intros Hnd Heq. exfalso. apply NoDup_cons in Hnd as [Ha _]. apply Ha.
  rewrite (Heq a b); [left|left|right; left].
Qed.

(** X1. The graph [get_sample_graphs] builds lists no node twice and never
    holds the root; a node carries data exactly when a raw node other than
    the root has its name, and that data is named as the node; its edges are
    exactly the pairs (name, downstream node) of the raw nodes in which
    neither end is the root; and every node carries data or is the
    downstream end of an edge. *)
Theorem get_sample_graphs_nodes (root : string) (raw : list SampleNode) :
  NoDup (node_list (get_sample_graphs root raw)) ∧
  (root ∉ node_list (get_sample_graphs root raw)) ∧
  names_ok (get_sample_graphs root raw) ∧
  (∀ n, is_Some (node_data (get_sample_graphs root raw) !! n) ↔
        ∃ x, x ∈ raw ∧ name x = n ∧ n ≠ root) ∧
  (∀ n v, edge (get_sample_graphs root raw) n v ↔
          ∃ x, x ∈ raw ∧ name x = n ∧ n ≠ root ∧
               downstream_node x = v ∧ v ≠ root) ∧
  (∀ n, n ∈ node_list (get_sample_graphs root raw) ↔
        is_Some (node_data (get_sample_graphs root raw) !! n) ∨
        ∃ u, edge (get_sample_graphs root raw) u n).
Proof.
  destruct (get_sample_graphs_built root raw) as [H1 H2 H3 H4 H5 H6 H7 H8 H9].
  unfold edge. repeat split; try done; try apply H4; try apply H6; apply H8.
Qed.

(** X2. When the raw nodes have distinct names, every node of the graph
    [get_sample_graphs] builds has at most one downstream edge: a raw node
    other than the root is stored under its name, with no successor when it
    drains into the root and its downstream node as only successor
    otherwise. *)
Theorem get_sample_graphs_out_degree (root : string) (raw : list SampleNode) :
  NoDup (name <$> raw) →
  out_degree_le_1 (get_sample_graphs root raw) ∧
  ∀ x, x ∈ raw → name x ≠ root →
       node_data (get_sample_graphs root raw) !! name x = Some x ∧
       successors (get_sample_graphs root raw) (name x) =
       if bool_decide (downstream_node x = root) then []
       else [downstream_node x].
Proof.
  intros Hnd.
  destruct (get_sample_graphs_built root raw) as [H1 H2 H3 H4 H5 H6 H7 H8 H9].
  set (G := get_sample_graphs root raw) in *.
  assert (∀ n, (length (successors G n) ≤ 1)%nat) as Hdeg.
  { intros n. apply NoDup_all_equal; [apply H7|].
    intros v v' (x & Hx & Hn & _ & Hv & _)%H6 (x' & Hx' & Hn' & _ & Hv' & _)%H6.
    assert (x = x') as -> by (eapply NoDup_fmap_inj; eauto; congruence).
    congruence. }
  split.
  { unfold out_degree_le_1. apply Forall_forall. intros n _. apply Hdeg. }
  intros x Hx Hr. split.
  - destruct (proj2 (H4 (name x))) as [d Hd]; [by eauto|].
    rewrite Hd. f_equal. eapply NoDup_fmap_inj; eauto.
  - case_bool_decide as Hd.
    + destruct (successors G (name x)) as [|v l] eqn:E; [done|].
      assert (v ∈ successors G (name x)) as Hv by (rewrite E; left).
      apply H6 in Hv as (x' & Hx' & Hn' & _ & Hv' & Hvr).
      assert (x' = x) as -> by (eapply NoDup_fmap_inj; eauto).
      congruence.
    + assert (downstream_node x ∈ successors G (name x)) as Hv.
      { apply H6. exists x. done. }
      specialize (Hdeg (name x)).
      destruct (successors G (name x)) as [|v [|v' l]]; cbn in Hdeg; [|  |lia].
      * by apply elem_of_nil in Hv.
      * apply list_elem_of_singleton in Hv. by subst.
Qed.

Lemma get_sample_graphs_out_degree_witness :
  NoDup (name <$> confluence_raw) ∧
  out_degree_le_1 (get_sample_graphs "root" confluence_raw) ∧
  successors (get_sample_graphs "root" confluence_raw) "a" = ["c"%string] ∧
  successors (get_sample_graphs "root" confluence_raw) "c" = [].
Proof.
  assert (NoDup (name <$> confluence_raw)) as Hnd.
  { by_evaluation. }
  destruct (get_sample_graphs_out_degree "root" confluence_raw Hnd) as [Hd Hs].
  split; [exact Hnd|]. split; [exact Hd|]. split.
  - apply (Hs (sample_node "a" 1 1 "c")); [right; left|done].
  - apply (Hs (sample_node "c" 3 3 "root")); [do 3 right; left|done].
Defined.

(** X3. The graph [get_sample_graphs] builds gives every node its data
    exactly when every raw node other than the root drains into the root or
    into a raw node. *)
Theorem get_sample_graphs_well_formed (root : string) (raw : list SampleNode) :
  well_formed (get_sample_graphs root raw) ↔
  ∀ x, x ∈ raw → name x ≠ root →
       downstream_node x = root ∨
       ∃ y, y ∈ raw ∧ name y = downstream_node x.
Proof.
  destruct (get_sample_graphs_built root raw) as [H1 H2 H3 H4 H5 H6 H7 H8 H9].
  set (G := get_sample_graphs root raw) in *. split.
  - intros [_ Hall] x Hx Hr.
    destruct (decide (downstream_node x = root)) as [|Hd]; [by left|]. right.
    assert (downstream_node x ∈ node_list G) as Hin.
    { apply H8. right. exists (name x). apply H6. by exists x. }
    rewrite Forall_forall in Hall. destruct (Hall _ Hin) as (d & Hd' & _).
    destruct (proj1 (H4 (downstream_node x))) as (y & Hy & Hn & _); [by eexists|].
    by exists y.
  - intros Hclosed. split; [done|]. apply Forall_forall. intros n Hn.
    assert (is_Some (node_data G !! n)) as [d Hd].
    { apply H8 in Hn as [Hn|[u Hu]]; [done|].
      apply H6 in Hu as (x & Hx & Hnx & Hr & Hdx & Hv).
      apply H4. rewrite <- Hnx in Hr.
      destruct (Hclosed x Hx Hr) as [?|(y & Hy & Hny)]; [congruence|].
      exists y. split; [done|]. split; congruence. }
    exists d. split; [done|]. by apply H3 in Hd.
Qed.

Lemma for_each_missing_data (f : SampleNode → SampleNode) (l : list string) G n :
  n ∈ l → node_data G !! n = None →
  for_each
    (fun G x => let! d := getitem (node_data G) x in Ok (set_node_data G x (f d)))
    l G = Raise KeyError.
Proof.
  revert G. induction l as [|x l IH]; intros G Hn Hd; [by apply elem_of_nil in Hn|].
  cbn [for_each]. unfold getitem at 1.
  destruct (node_data G !! x) as [d|] eqn:Ex; [|done]. cbn [rbind].
  apply elem_of_cons in Hn as [->|Hn]; [congruence|].
  apply IH; [done|]. cbn. rewrite lookup_insert_ne; [done|]. congruence.
Qed.

(** X4. A node of the graph that carries no data makes both traversals fail
    in their first loop: constructing a discrete unmixer and
    [mix_downstream] raise [KeyError]. *)
Theorem node_without_data_raises `{Backend} (G : DiGraph) (n : string)
    (use_regularization : bool) (tracer_mean : string → Q)
    (export_rates : option (gmap string Q)) :
  n ∈ node_list G → node_data G !! n = None →
  SampleNetworkUnmixer_init G use_regularization None = Raise KeyError ∧
  mix_downstream G tracer_mean export_rates = Raise KeyError.
Proof.
  intros Hn Hd.
  assert (reset_totals G = Raise KeyError) as Hreset.
  { unfold reset_totals. by apply for_each_missing_data with (n := n). }
  split.
  - unfold SampleNetworkUnmixer_init. cbn [rbind].
    unfold _build_primary_terms. cbn [sample_network blank_unmixer].
    by rewrite Hreset.
  - unfold mix_downstream. by rewrite Hreset.
Qed.

Lemma node_without_data_raises_witness :
  "z"%string ∈ node_list (get_sample_graphs "root" dangling_raw) ∧
  node_data (get_sample_graphs "root" dangling_raw) !! "z"%string = None ∧
  @SampleNetworkUnmixer_init test_backend
    (get_sample_graphs "root" dangling_raw) true None = Raise KeyError.
Proof.
  assert ("z"%string ∈ node_list (get_sample_graphs "root" dangling_raw)) as Hn.
  { by_evaluation. }
  assert (node_data (get_sample_graphs "root" dangling_raw) !! "z"%string = None)
    as Hd by (vm_compute; reflexivity).
  split; [exact Hn|]. split; [exact Hd|].
  apply (@node_without_data_raises test_backend _ "z" true (fun _ => 0) None Hn Hd).
Defined.

(** ** get_element_obs *)

Lemma keep_float_sound (l : list (string * cell)) (acc : gmap string npfloat) s v :
  fold_left keep_float l acc !! s = Some v →
  acc !! s = Some v ∨ (s, FloatCell v) ∈ l.
Proof.
  revert acc. induction l as [|[k c] l IH]; intros acc; cbn [fold_left]; [by left|].
  intros [Hacc|Hin]%IH; [|right; by right].
  unfold keep_float in Hacc. cbn in Hacc.
  destruct c as [w| |]; try by left.
  destruct (decide (s = k)) as [->|Hne].
  - rewrite lookup_insert_eq in Hacc. simplify_eq. right. left.
  - rewrite lookup_insert_ne in Hacc by done. by left.
Qed.

Lemma keep_float_frame (l : list (string * cell)) (acc : gmap string npfloat) s :
  s ∉ l.*1 → fold_left keep_float l acc !! s = acc !! s.
Proof.
  revert acc. induction l as [|[k c] l IH]; intros acc Hs; cbn [fold_left]; [done|].
  rewrite fmap_cons, not_elem_of_cons in Hs. destruct Hs as [Hne Hs].
  rewrite IH by done. unfold keep_float. cbn in *.
  destruct c; try done. by rewrite lookup_insert_ne.
Qed.

Lemma keep_float_covers (l : list (string * cell)) (acc : gmap string npfloat) s :
  is_Some (acc !! s) ∨ (∃ v, (s, FloatCell v) ∈ l) →
  is_Some (fold_left keep_float l acc !! s).
Proof.
  revert acc. induction l as [|[k c] l IH]; intros acc; cbn [fold_left].
  - intros [?|[v ?%elem_of_nil]]; done.
  - intros [Hacc|[v Hin]]; apply IH.
    + left. unfold keep_float. cbn. destruct c; try done.
      destruct (decide (s = k)) as [->|Hne].
      * rewrite lookup_insert_eq. by eexists.
      * by rewrite lookup_insert_ne.
    + apply elem_of_cons in Hin as [Heq|Hin]; [|right; by eexists].
      simplify_eq. left. unfold keep_float. cbn. rewrite lookup_insert_eq.
      by eexists.
Qed.

Lemma keep_float_last (l : list (string * cell)) (acc : gmap string npfloat) s v :
  NoDup l.*1 → (s, FloatCell v) ∈ l →
  fold_left keep_float l acc !! s = Some v.
Proof.
  revert acc. induction l as [|[k c] l IH]; intros acc Hnd Hin;
    [by apply elem_of_nil in Hin|].
  rewrite fmap_cons, NoDup_cons in Hnd. destruct Hnd as [Hk Hnd].
  cbn [fold_left]. apply elem_of_cons in Hin as [Heq|Hin]; [|by apply IH].
  simplify_eq. rewrite keep_float_frame by done.
  unfold keep_float. cbn. by rewrite lookup_insert_eq.
Qed.

Lemma NoDup_fst_zip {A B} (l : list A) (k : list B) :
  NoDup l → NoDup (zip l k).*1.
Proof.
  revert k. induction l as [|a l IH]; intros k Hnd; [apply NoDup_nil_2|].
  apply NoDup_cons in Hnd as [Ha Hnd].
  destruct k as [|b k]; [apply NoDup_nil_2|]. cbn. apply NoDup_cons.
  split; [|by apply IH].
  intros Hin. apply Ha. apply list_elem_of_fmap in Hin as ([a' b'] & -> & Hin).
  cbn. by apply elem_of_zip_l in Hin.
Qed.

(** X5. [get_element_obs] raises [KeyError] when the table lacks the
    sample-code column or the element's column.  Otherwise it returns a
    dictionary whose keys are the sample codes of the rows holding a float
    in that column, each with the float of such a row; a [nan] is a float
    and is kept, an integer is not; with distinct sample codes every float
    row is returned as it is. *)
Theorem get_element_obs_keeps_floats (element : string) (obs_data : DataFrame) :
  (sample_codes obs_data = None ∨ columns obs_data !! element = None →
   get_element_obs element obs_data = Raise KeyError) ∧
  ∀ codes cells,
    sample_codes obs_data = Some codes →
    columns obs_data !! element = Some cells →
    ∃ d, get_element_obs element obs_data = Ok d ∧
         (∀ s, is_Some (d !! s) ↔ ∃ v, (s, FloatCell v) ∈ zip codes cells) ∧
         (∀ s v, d !! s = Some v → (s, FloatCell v) ∈ zip codes cells) ∧
         (NoDup codes →
          ∀ s v, (s, FloatCell v) ∈ zip codes cells → d !! s = Some v).
Proof.
  unfold get_element_obs, getitem. split.
  - intros [-> | ->]; [done|]. by destruct (sample_codes obs_data).
  - intros codes cells -> ->. cbn [rbind]. eexists. split; [reflexivity|].
    split; [|split].
    + intros s. split.
      * intros [v Hv]. exists v.
        apply keep_float_sound in Hv as [Hv|Hv]; [|done].
        by rewrite lookup_empty in Hv.
      * intros Hv. apply keep_float_covers. by right.
    + intros s v Hv. apply keep_float_sound in Hv as [Hv|Hv]; [|done].
      by rewrite lookup_empty in Hv.
    + intros Hnd s v Hin. apply keep_float_last; [|done]. by apply NoDup_fst_zip.
Qed.

Lemma get_element_obs_keeps_floats_witness :
  ∃ d, get_element_obs "Mg" small_table = Ok d ∧
       d !! "a"%string = Some (Num 2) ∧ d !! "b"%string = Some NaN ∧
       d !! "c"%string = None.
Proof.
  destruct (proj2 (get_element_obs_keeps_floats "Mg" small_table)
              ["a"; "b"; "c"]%string
              [FloatCell (Num 2); FloatCell NaN; IntCell 3])
    as (d & E & Hkeys & Hsound & Hlast); [reflexivity|reflexivity|].
  exists d. split; [exact E|].
  assert (NoDup ["a"; "b"; "c"]%string) as Hnd.
  { by_evaluation. }
  split; [apply (Hlast Hnd); left|].
  split; [apply (Hlast Hnd); right; left|].
  destruct (d !! "c"%string) as [v|] eqn:Ec; [|done].
  apply Hsound in Ec. exfalso.
  repeat (apply elem_of_cons in Ec as [Ec|Ec]; [discriminate|]).
  by apply elem_of_nil in Ec.
Defined.

(** ** Masks and concentration maps *)

Lemma shape_rect {A} rows cols (a : list (list A)) :
  rect rows cols a →
  shape a = (rows, if decide (rows = 0)%nat then 0%nat else cols).
Proof.
  intros [Hl Hr]. unfold shape. rewrite Hl. f_equal.
  destruct a as [|r a]; cbn in *.
  - by subst.
  - subst rows. cbn. by apply Forall_cons in Hr as [-> _].
Qed.

Lemma rect_lookup {A} rows cols (a : list (list A)) y x :
  rect rows cols a → (y < rows)%nat → (x < cols)%nat → is_Some (at2 a y x).
Proof.
  intros [Hl Hr] Hy Hx. unfold at2.
  destruct (lookup_lt_is_Some_2 a y) as [r Hrow]; [lia|].
  rewrite Hrow. cbn. apply lookup_lt_is_Some_2.
  rewrite Forall_forall in Hr. rewrite (Hr r); [done|].
  by eapply list_elem_of_lookup_2.
Qed.

Lemma at2_lt {A} rows cols (a : list (list A)) y x c :
  rect rows cols a → at2 a y x = Some c → (y < rows)%nat ∧ (x < cols)%nat.
Proof.
  intros [Hl Hr] Hc. unfold at2 in Hc.
  destruct (a !! y) as [r|] eqn:Hrow; [|done]. cbn in Hc. split.
  - rewrite <- Hl. by eapply lookup_lt_Some.
  - rewrite Forall_forall in Hr. rewrite <- (Hr r).
    + by eapply lookup_lt_Some.
    + by eapply list_elem_of_lookup_2.
Qed.

Lemma rect_replicate {A} rows cols (c : A) :
  rect rows cols (replicate rows (replicate cols c)).
Proof.
  split; [apply length_replicate|]. apply Forall_forall.
  intros r Hr%elem_of_replicate. destruct Hr as [-> _]. apply length_replicate.
Qed.

Lemma at2_replicate {A} rows cols (c : A) y x :
  (y < rows)%nat → (x < cols)%nat →
  at2 (replicate rows (replicate cols c)) y x = Some c.
Proof.
  intros Hy Hx. unfold at2. rewrite lookup_replicate_2 by done. cbn.
  by rewrite lookup_replicate_2.
Qed.

Lemma at2_zip_with {A B C} (f : A → B → C) (a : list (list A))
    (b : list (list B)) y x :
  at2 (zip_with (zip_with f) a b) y x =
  ca ← at2 a y x; cb ← at2 b y x; Some (f ca cb).
Proof.
  unfold at2. rewrite lookup_zip_with.
  destruct (a !! y) as [ra|]; cbn; [|done].
  destruct (b !! y) as [rb|]; cbn.
  - rewrite lookup_zip_with. by destruct (ra !! x).
  - by destruct (ra !! x).
Qed.

Lemma rect_zip_with {A B C} (f : A → B → C) rows cols (a : list (list A))
    (b : list (list B)) :
  rect rows cols a → rect rows cols b →
  rect rows cols (zip_with (zip_with f) a b).
Proof.
  intros [Hla Hra] [Hlb Hrb]. split.
  - rewrite length_zip_with. lia.
  - apply Forall_forall. intros r Hr.
    apply elem_of_zip_with in Hr as (ra & rb & -> & Ha & Hb).
    rewrite Forall_forall in Hra. rewrite Forall_forall in Hrb.
    rewrite length_zip_with, (Hra ra Ha), (Hrb rb Hb). lia.
Qed.

Lemma masked_add_spec rows cols out mask v :
  rect rows cols out → rect rows cols mask →
  ∃ out', masked_add out mask v = Ok out' ∧ rect rows cols out' ∧
          ∀ y x, at2 out' y x =
                 c ← at2 out y x; b ← at2 mask y x;
                 Some (if b : bool then c + v else c).
Proof.
  intros Ho Hm. unfold masked_add.
  rewrite (shape_rect rows cols out Ho), (shape_rect rows cols mask Hm).
  rewrite bool_decide_true by done. eexists. split; [reflexivity|].
  split; [by apply rect_zip_with|]. intros y x. apply at2_zip_with.
Qed.

(** The loop of [get_upstream_concentration_map] over masks of one shape. *)
Lemma concentration_map_loop rows cols areas
    (preds : list (string * Q)) out0 :
  (∀ s m, areas !! s = Some m → rect rows cols m) →
  (∀ s, s ∈ preds.*1 → is_Some (areas !! s)) →
  rect rows cols out0 →
  ∃ out,
    for_each
      (fun out sv => let! mask := getitem areas sv.1 in masked_add out mask sv.2)
      preds out0 = Ok out ∧
    rect rows cols out ∧
    ∀ y x q0, at2 out0 y x = Some q0 →
      ∃ q, at2 out y x = Some q ∧
           q == q0 + Qsum (map (fun sv : string * Q =>
                                  if in_mask areas sv.1 y x then sv.2 else 0)
                             preds).
Proof.
  intros Hrect. revert out0. induction preds as [|[s v] preds IH];
    intros out0 Hkeys Hout0.
  - exists out0. split; [done|]. split; [done|]. intros y x q0 Hq.
    exists q0. split; [done|]. cbn [map]. rewrite Qsum_nil. ring.
  - cbn [for_each]. destruct (Hkeys s) as [m Hm]; [cbn; left|].
    unfold getitem at 1. cbn [fst snd]. rewrite Hm. cbn [rbind].
    destruct (masked_add_spec rows cols out0 m v Hout0 (Hrect s m Hm))
      as (out1 & E1 & Hout1 & Hpix).
    rewrite E1. cbn [rbind].
    destruct (IH out1) as (out & E & Hout & Hfin); [|done|].
    { intros s' Hs'. apply Hkeys. cbn. by right. }
    exists out. split; [done|]. split; [done|].
    intros y x q0 Hq0.
    destruct (at2_lt rows cols out0 y x q0 Hout0 Hq0) as [Hy Hx].
    destruct (rect_lookup rows cols m y x (Hrect s m Hm) Hy Hx) as [b Hb].
    pose proof (Hpix y x) as H1. rewrite Hq0, Hb in H1. cbn in H1.
    destruct (Hfin y x _ H1) as (q & Hq & Heq).
    exists q. split; [done|]. rewrite Heq. qsum. cbn [fst snd].
    unfold in_mask at 2. rewrite Hm. cbn. rewrite Hb. cbn.
    destruct b; ring.
Qed.

Lemma concentration_map_start rows cols
    (areas : gmap string (list (list bool))) :
  areas ≠ ∅ →
  (∀ s m, areas !! s = Some m → rect rows cols m) →
  ∃ first rest, (map_to_list areas).*2 = first :: rest ∧
    rect rows cols (replicate (shape first).1 (replicate (shape first).2 (0 : Q))) ∧
    ∀ y x, (y < rows)%nat → (x < cols)%nat →
      at2 (replicate (shape first).1 (replicate (shape first).2 (0 : Q))) y x
      = Some 0.
Proof.
  intros Hne Hrect.
  destruct (map_to_list areas) as [|[k first] rest] eqn:E.
  { by apply map_to_list_empty_iff in E. }
  exists first, (rest.*2). split; [done|].
  assert (areas !! k = Some first) as Hk.
  { apply elem_of_map_to_list. rewrite E. left. }
  rewrite (shape_rect rows cols first (Hrect k first Hk)). cbn [fst snd].
  destruct (decide (rows = 0)%nat) as [->|Hr].
  - split; [split; [done|apply Forall_nil_2]|]. intros; lia.
  - split; [apply rect_replicate|]. intros. by apply at2_replicate.
Qed.

Lemma concentration_map_pixels_of rows cols areas (preds : list (string * Q)) :
  areas ≠ ∅ →
  (∀ s m, areas !! s = Some m → rect rows cols m) →
  (∀ s, s ∈ preds.*1 → is_Some (areas !! s)) →
  ∃ out, get_upstream_concentration_map areas preds = Ok out ∧
         rect rows cols out ∧
         ∀ y x, (y < rows)%nat → (x < cols)%nat →
           ∃ q, at2 out y x = Some q ∧
                q == Qsum (map (fun sv : string * Q =>
                                  if in_mask areas sv.1 y x then sv.2 else 0)
                             preds).
Proof.
  intros Hne Hrect Hkeys. unfold get_upstream_concentration_map.
  destruct (concentration_map_start rows cols areas Hne Hrect)
    as (first & rest & -> & H0 & Hz).
  destruct (concentration_map_loop rows cols areas preds _ Hrect Hkeys H0)
    as (out & E & Hout & Hpix).
  exists out. split; [done|]. split; [done|]. intros y x Hy Hx.
  destruct (Hpix y x 0 (Hz y x Hy Hx)) as (q & Hq & Heq).
  exists q. split; [done|]. rewrite Heq. ring.
Qed.

(** X6. Over masks of one shape, with a mask for every site that has a
    prediction, [get_upstream_concentration_map] returns an array in which
    every pixel holds the sum of the predictions of the sites whose mask
    contains the pixel: zero outside every mask, the site's prediction in a
    mask that overlaps no other. *)
Theorem concentration_map_pixels (rows cols : nat)
    (areas : gmap string (list (list bool))) (preds : list (string * Q)) :
  areas ≠ ∅ →
  (∀ s m, areas !! s = Some m → rect rows cols m) →
  (∀ s, s ∈ preds.*1 → is_Some (areas !! s)) →
  ∃ out, get_upstream_concentration_map areas preds = Ok out ∧
         ∀ y x, (y < rows)%nat → (x < cols)%nat →
           ∃ q, at2 out y x = Some q ∧
                q == Qsum (map (fun sv : string * Q =>
                                  if in_mask areas sv.1 y x then sv.2 else 0)
                             preds).
Proof.
  intros Hne Hrect Hkeys.
  destruct (concentration_map_pixels_of rows cols areas preds Hne Hrect Hkeys)
    as (out & E & _ & Hpix).
  by exists out.
Qed.

Lemma concentration_map_loop_missing rows cols areas
    (preds : list (string * Q)) out0 s :
  (∀ s m, areas !! s = Some m → rect rows cols m) →
  rect rows cols out0 →
  s ∈ preds.*1 → areas !! s = None →
  for_each
    (fun out sv => let! mask := getitem areas sv.1 in masked_add out mask sv.2)
    preds out0 = Raise KeyError.
Proof.
  intros Hrect. revert out0. induction preds as [|[k v] preds IH];
    intros out0 Hout0 Hs Hnone; [by apply elem_of_nil in Hs|].
  cbn [for_each]. unfold getitem at 1. cbn [fst snd].
  destruct (areas !! k) as [m|] eqn:Hk; [|done]. cbn [rbind].
  destruct (masked_add_spec rows cols out0 m v Hout0 (Hrect k m Hk))
    as (out1 & -> & Hout1 & _).
  cbn [rbind]. apply IH; [done| |done].
  cbn in Hs. apply elem_of_cons in Hs as [->|Hs]; [congruence|done].
Qed.

(** X7. [get_upstream_concentration_map] raises [IndexError] when [areas]
    is empty, whatever the predictions, and, over masks of one shape,
    [KeyError] when a site with a prediction has no mask. *)
Theorem concentration_map_errors (rows cols : nat)
    (areas : gmap string (list (list bool))) (preds : list (string * Q)) :
  (areas = ∅ → get_upstream_concentration_map areas preds = Raise IndexError) ∧
  (areas ≠ ∅ →
   (∀ s m, areas !! s = Some m → rect rows cols m) →
   ∀ s, s ∈ preds.*1 → areas !! s = None →
        get_upstream_concentration_map areas preds = Raise KeyError).
Proof.
  split.
  - intros ->. unfold get_upstream_concentration_map.
    by rewrite map_to_list_empty.
  - intros Hne Hrect s Hs Hnone. unfold get_upstream_concentration_map.
    destruct (concentration_map_start rows cols areas Hne Hrect)
      as (first & rest & -> & H0 & _).
    by eapply concentration_map_loop_missing.
Qed.

Lemma rect_label_mask cols I l :
  Forall (fun r => length r = cols) I → rect (length I) cols (label_mask I l).
Proof.
  intros HI. unfold label_mask. split; [apply length_map|].
  apply Forall_forall. intros r Hr. apply list_elem_of_In, in_map_iff in Hr.
  destruct Hr as (r' & <- & Hr'). rewrite length_map.
  rewrite Forall_forall in HI. apply HI. by apply list_elem_of_In.
Qed.

Lemma at2_label_mask I l y x :
  at2 (label_mask I l) y x = (fun v => bool_decide (v = l)) <$> at2 I y x.
Proof.
  unfold at2, label_mask. change (map ?f ?a) with (f <$> a).
  rewrite list_lookup_fmap. destruct (I !! y) as [row|]; cbn; [|done].
  apply list_lookup_fmap.
Qed.

Lemma unique_upstream_areas_loop I G (l : list string)
    (acc : gmap string (list (list bool))) :
  (∀ s, s ∈ l → is_Some (node_data G !! s)) →
  ∃ areas,
    for_each
      (fun areas node =>
         let! d := getitem (node_data G) node in
         Ok (<[node := map (map (fun v => bool_decide (v = label d))) I]> areas))
      l acc = Ok areas ∧
    ∀ s, areas !! s =
         if bool_decide (s ∈ l)
         then (fun d => label_mask I (label d)) <$> node_data G !! s
         else acc !! s.
Proof.
  revert acc. induction l as [|x l IH]; intros acc Hl.
  - exists acc. split; [done|]. intros s.
    by rewrite bool_decide_false by (by intros ?%elem_of_nil).
  - destruct (Hl x ltac:(left)) as [d Hd].
    cbn [for_each]. unfold getitem at 1. rewrite Hd. cbn [rbind].
    destruct (IH (<[x := label_mask I (label d)]> acc)) as (areas & E & Hareas).
    { intros s Hs. apply Hl. by right. }
    exists areas. split; [exact E|]. intros s. rewrite Hareas.
    destruct (decide (s = x)) as [->|Hne].
    + rewrite (bool_decide_true (x ∈ x :: l)) by left.
      case_bool_decide; [done|]. by rewrite lookup_insert_eq, Hd.
    + rewrite lookup_insert_ne by done.
      rewrite (bool_decide_ext (s ∈ x :: l) (s ∈ l)); [done|].
      rewrite elem_of_cons. split; [by intros [?|?]|by right].
Qed.

Lemma unique_upstream_areas_data I G areas :
  get_unique_upstream_areas I G = Ok areas →
  ∀ s, s ∈ node_list G → is_Some (node_data G !! s).
Proof.
  unfold get_unique_upstream_areas. intros E s Hs.
  eapply (for_each_covers
            (fun s (_ : gmap string (list (list bool))) =>
               is_Some (node_data G !! s))); [| |exact E|exact Hs].
  - intros acc x acc' Eb. unfold getitem in Eb.
    by destruct (node_data G !! x).
  - done.
Qed.

Lemma unique_upstream_areas_spec I G areas :
  get_unique_upstream_areas I G = Ok areas →
  ∀ s, areas !! s =
       if bool_decide (s ∈ node_list G)
       then (fun d => label_mask I (label d)) <$> node_data G !! s
       else None.
Proof.
  intros E.
  destruct (unique_upstream_areas_loop I G (node_list G) ∅
              (unique_upstream_areas_data I G areas E)) as (areas' & E' & Hs).
  unfold get_unique_upstream_areas in E. rewrite E in E'. simplify_eq.
  intros s. rewrite Hs. by rewrite lookup_empty.
Qed.

Lemma in_mask_label I G areas s y x :
  get_unique_upstream_areas I G = Ok areas → s ∈ node_list G →
  in_mask areas s y x = true ↔
  ∃ l, at2 I y x = Some l ∧ label_of G s = Some l.
Proof.
  intros E Hs. unfold in_mask, label_of.
  rewrite (unique_upstream_areas_spec I G areas E s), bool_decide_true by done.
  destruct (node_data G !! s) as [d|]; cbn.
  - rewrite at2_label_mask. destruct (at2 I y x) as [v|]; cbn.
    + rewrite bool_decide_eq_true. split.
      * intros ->. by exists (label d).
      * intros (l & [= ->] & [= ->]). done.
    + split; [done|]. by intros (l & ? & _).
  - split; [done|]. by intros (l & _ & ?).
Qed.

(** X8. [get_unique_upstream_areas] returns, when every node carries data,
    one mask for every node and none for any other name; a pixel lies in the
    mask of a node exactly when the label image holds the node's label
    there, so that the masks of two nodes share a pixel only when the nodes
    have the same label.  A node without data makes it raise [KeyError]. *)
Theorem unique_upstream_areas_masks (I : list (list Z)) (G : DiGraph) :
  ((∀ s, s ∈ node_list G → is_Some (node_data G !! s)) →
   ∃ areas, get_unique_upstream_areas I G = Ok areas ∧
     (∀ s, is_Some (areas !! s) ↔ s ∈ node_list G) ∧
     (∀ s y x, s ∈ node_list G →
        in_mask areas s y x = true ↔
        ∃ l, at2 I y x = Some l ∧ label_of G s = Some l) ∧
     (∀ s s' y x, s ∈ node_list G → s' ∈ node_list G →
        in_mask areas s y x = true → in_mask areas s' y x = true →
        label_of G s = label_of G s')) ∧
  (∀ s, s ∈ node_list G → node_data G !! s = None →
        get_unique_upstream_areas I G = Raise KeyError).
Proof.
  split.
  - intros Hdata.
    destruct (unique_upstream_areas_loop I G (node_list G) ∅ Hdata)
      as (areas & E & Hs).
    exists areas. split; [exact E|]. split; [|split].
    + intros s. rewrite Hs. case_bool_decide as Hin.
      * split; [done|]. intros _. destruct (Hdata s Hin) as [d ->]. by eexists.
      * rewrite lookup_empty. split; [by intros [? ?]|done].
    + intros s y x Hin. by apply in_mask_label.
    + intros s s' y x Hin Hin' H1 H2.
      apply (in_mask_label I G areas s y x E Hin) in H1 as (l & Hl & ->).
      apply (in_mask_label I G areas s' y x E Hin') in H2 as (l' & Hl' & ->).
      congruence.
  - intros s Hs Hnone. unfold get_unique_upstream_areas.
    generalize (∅ : gmap string (list (list bool))).
    induction (node_list G) as [|x l IH]; intros acc; [by apply elem_of_nil in Hs|].
    cbn [for_each]. unfold getitem at 1.
    destruct (node_data G !! x) as [d|] eqn:Hx; [|done]. cbn [rbind].
    apply IH. apply elem_of_cons in Hs as [->|Hs]; [congruence|done].
Qed.

(** ** The predictions of mix_downstream *)

Lemma mix_body_records tm rates st x st' (L : list string) :
  mix_downstream_body tm rates st x = Ok st' →
  const_totals L (mixed_network st) → x ∈ L →
  (∀ y, y ∈ successors (mixed_network st) x → y ∈ L) →
  x ∉ successors (mixed_network st) x →
  const_totals L (mixed_network st') ∧
  mixed_upstream_pred st' = <[x := tm x]> (mixed_upstream_pred st) ∧
  ∃ f t, mixed_downstream_pred st' =
           <[x := np_divide (Const t) (Const f)]> (mixed_downstream_pred st) ∧
         total_flux no_params no_vars (mixed_network st') x = f ∧
         total_tracer_flux no_params no_vars (mixed_network st') x = t.
Proof.
  unfold mix_downstream_body, getitem. intros E Hc Hx Hsucc Hself.
  destruct (node_data (mixed_network st) !! x) as [d|] eqn:Hd; [|done].
  cbn [rbind] in E.
  destruct (export_rate_or_default rates x) as [r|]; [|done]. cbn [rbind] in E.
  destruct (Hc x d Hx Hd) as (f0 & t0 & Hf0 & Ht0).
  set (d' := own_contribution (area d) (Const r) (Const (tm x)) d) in E.
  assert (my_total_flux d' = Const (f0 + area d * r)) as Hf'.
  { unfold d', own_contribution. cbn [my_total_flux]. by rewrite Hf0. }
  assert (my_total_tracer_flux d' = Const (t0 + area d * r * tm x)) as Ht'.
  { unfold d', own_contribution. cbn [my_total_tracer_flux]. by rewrite Ht0. }
  clearbody d'. rewrite Hf', Ht' in E.
  set (G := mixed_network st) in *.
  assert (const_totals L (set_node_data G x d')) as Hc1.
  { intros z dz Hz. cbn. destruct (decide (z = x)) as [->|Hne].
    - rewrite lookup_insert_eq. intros [= <-]. by eauto.
    - rewrite lookup_insert_ne by done. by apply Hc. }
  unfold propagate_downstream, nx_get_downstream in E.
  change (successors (set_node_data G x d') x) with (successors G x) in E.
  destruct (successors G x) as [|ds [|ds' l]] eqn:Es; [| |done]; cbn [rbind] in E.
  - simplify_eq. cbn. split; [done|]. split; [done|].
    eexists _, _. split; [reflexivity|].
    unfold total_flux, total_tracer_flux. cbn. rewrite lookup_insert_eq. cbn.
    by rewrite Hf', Ht'.
  - assert (ds ≠ x) as Hne by (intros ->; apply Hself; left).
    destruct (str_truthy ds).
    + unfold getitem in E. cbn [node_data set_node_data] in E.
      rewrite lookup_insert_eq, lookup_insert_ne in E by done. cbn [rbind] in E.
      destruct (node_data G !! ds) as [dd|] eqn:Hdd; [|done]. cbn [rbind] in E.
      simplify_eq. cbn [mixed_network mixed_upstream_pred mixed_downstream_pred].
      split; [|split; [done|]].
      * intros z dz Hz. cbn. destruct (decide (z = ds)) as [->|Hnz].
        -- rewrite lookup_insert_eq. intros [= <-].
           destruct (Hc ds dd) as (f1 & t1 & Hf1 & Ht1); [apply Hsucc; left|done|].
           cbn. rewrite Hf', Ht', Hf1, Ht1. by eauto.
        -- rewrite lookup_insert_ne by done. by apply Hc1.
      * eexists _, _. split; [reflexivity|].
        unfold total_flux, total_tracer_flux. cbn.
        rewrite lookup_insert_ne, lookup_insert_eq by done. cbn.
        by rewrite Hf', Ht'.
    + cbn [rbind] in E. simplify_eq. cbn. split; [done|]. split; [done|].
      eexists _, _. split; [reflexivity|].
      unfold total_flux, total_tracer_flux. cbn. rewrite lookup_insert_eq. cbn.
      by rewrite Hf', Ht'.
Qed.

Lemma mix_body_keys tm rates st x st' :
  mix_downstream_body tm rates st x = Ok st' →
  (∃ v, mixed_downstream_pred st' = <[x := v]> (mixed_downstream_pred st)) ∧
  mixed_upstream_pred st' = <[x := tm x]> (mixed_upstream_pred st).
Proof.
  unfold mix_downstream_body. intros E.
  destruct (getitem _ x) as [d|]; [|done]. cbn [rbind] in E.
  destruct (export_rate_or_default rates x) as [r|]; [|done]. cbn [rbind] in E.
  destruct (propagate_downstream _ x) as [G'|]; [|done]. cbn [rbind] in E.
  simplify_eq. cbn. split; [by eexists|done].
Qed.

Lemma mix_loop_pred_frame tm rates (R : list string) st st' n :
  for_each (mix_downstream_body tm rates) R st = Ok st' → n ∉ R →
  mixed_downstream_pred st' !! n = mixed_downstream_pred st !! n ∧
  mixed_upstream_pred st' !! n = mixed_upstream_pred st !! n.
Proof.
  intros E Hn.
  eapply (for_each_inv_in
            (fun s => mixed_downstream_pred s !! n = mixed_downstream_pred st !! n ∧
                      mixed_upstream_pred s !! n = mixed_upstream_pred st !! n));
    [|done|exact E].
  intros s x s' Hx Eb [H1 H2].
  apply mix_body_keys in Eb as [[v ->] ->].
  assert (n ≠ x) by (intros ->; contradiction).
  by rewrite !lookup_insert_ne.
Qed.

Section mix_predictions.
Variable G1 : DiGraph.
Variable tm : string → Q.
Variable rates : option (gmap string Q).

Lemma mix_loop_frame (R : list string) st :
  mix_keeps G1 st → topological G1 R → Forall (mix_usable G1 rates) R →
  Forall (fun x => (length (successors G1 x) ≤ 1)%nat) R →
  ∃ st', for_each (mix_downstream_body tm rates) R st = Ok st' ∧
         ∀ n, n ∉ R → (∀ u, u ∈ R → n ∉ successors G1 u) →
           total_flux no_params no_vars (mixed_network st') n ==
             total_flux no_params no_vars (mixed_network st) n ∧
           total_tracer_flux no_params no_vars (mixed_network st') n ==
             total_tracer_flux no_params no_vars (mixed_network st) n.
Proof.
  intros Hk HT HD Hdeg.
  destruct (accumulate_spec G1 (mix_downstream_body tm rates)
              (fun st n => total_flux no_params no_vars (mixed_network st) n)
              (fun u => area_of G1 u * rate_of rates u)
              (mix_keeps G1) (mix_usable G1 rates))
    with (R := R) (N := length R) (s := st)
    as (st1 & E1 & _ & _ & HB1); try done.
  { intros s x Hs Hx Hl Hsu Hse.
    destruct (mix_downstream_body_spec G1 tm rates s x Hs Hx Hl Hsu Hse)
      as (s' & ? & ? & Hv).
    exists s'. split; [done|]. split; [done|]. intros n. apply Hv. }
  destruct (accumulate_spec G1 (mix_downstream_body tm rates)
              (fun st n => total_tracer_flux no_params no_vars (mixed_network st) n)
              (fun u => area_of G1 u * rate_of rates u * tm u)
              (mix_keeps G1) (mix_usable G1 rates))
    with (R := R) (N := length R) (s := st)
    as (st2 & E2 & _ & _ & HB2); try done.
  { intros s x Hs Hx Hl Hsu Hse.
    destruct (mix_downstream_body_spec G1 tm rates s x Hs Hx Hl Hsu Hse)
      as (s' & ? & ? & Hv).
    exists s'. split; [done|]. split; [done|]. intros n. apply Hv. }
  rewrite E1 in E2. simplify_eq.
  exists st2. split; [done|]. intros n Hn Hs. split; auto.
Qed.

(** After the loop every processed node has, as its downstream
    prediction, the quotient of the two totals it holds. *)
Lemma mix_loop_predictions (L R : list string) st :
  mix_keeps G1 st → topological G1 R → Forall (mix_usable G1 rates) R →
  Forall (fun x => (length (successors G1 x) ≤ 1)%nat) R →
  const_totals L (mixed_network st) → (∀ x, x ∈ R → x ∈ L) →
  ∃ st', for_each (mix_downstream_body tm rates) R st = Ok st' ∧
         ∀ n, n ∈ R →
           mixed_upstream_pred st' !! n = Some (tm n) ∧
           ∃ f t, mixed_downstream_pred st' !! n =
                    Some (np_divide (Const t) (Const f)) ∧
                  f == total_flux no_params no_vars (mixed_network st') n ∧
                  t == total_tracer_flux no_params no_vars (mixed_network st') n.
Proof.
  revert st. induction R as [|x R IH]; intros st Hk HT HD Hdeg Hc HL.
  { exists st. split; [done|]. by intros n ?%elem_of_nil. }
  destruct HT as (Hx & Hsucc & HT).
  apply Forall_cons in HD as [HDx HD]. apply Forall_cons in Hdeg as [Hdx Hdeg].
  assert (x ∉ successors G1 x) as Hself.
  { intros Hin. apply Hx. rewrite Forall_forall in Hsucc. by apply Hsucc. }
  destruct (mix_downstream_body_spec G1 tm rates st x Hk HDx Hdx)
    as (st1 & E1 & Hk1 & _); [|done|].
  { rewrite Forall_forall in Hsucc, HD |- *. intros y Hy. apply HD, Hsucc, Hy. }
  pose proof (same_structure_successors _ _ x Hk) as Hsx.
  destruct (mix_body_records tm rates st x st1 L E1 Hc) as (Hc1 & Hup & f & t & Hdn & Hf & Ht).
  { apply HL. left. }
  { rewrite Hsx. intros y Hy. apply HL. right.
    rewrite Forall_forall in Hsucc. by apply Hsucc. }
  { by rewrite Hsx. }
  destruct (IH st1 Hk1 HT HD Hdeg Hc1) as (st' & E' & Hrest).
  { intros y Hy. apply HL. by right. }
  destruct (mix_loop_frame R st1 Hk1 HT HD Hdeg) as (st'' & E'' & Hframe).
  rewrite E' in E''. simplify_eq.
  exists st''. split; [cbn; by rewrite E1|].
  intros n Hn. apply elem_of_cons in Hn as [->|Hn]; [|by apply Hrest].
  destruct (mix_loop_pred_frame tm rates R st1 st'' x E' Hx) as [-> ->].
  rewrite Hup, Hdn, !lookup_insert_eq. split; [done|].
  exists (total_flux no_params no_vars (mixed_network st1) x),
         (total_tracer_flux no_params no_vars (mixed_network st1) x).
  split; [done|].
  destruct (Hframe x Hx) as [HF HT'].
  { intros u Hu Hin. apply Hx. eapply topological_successor; eauto. }
  split; symmetry; done.
Qed.
End mix_predictions.

(** What [mix_downstream] returns on a well-formed network: at every node
    the tracer mean as upstream prediction and the quotient of the two
    totals of the node as downstream prediction. *)
Lemma mix_downstream_returns `{Backend} (G : DiGraph) (order : list string)
    (tracer_mean : string → Q) (export_rates : option (gmap string Q)) :
  well_formed G → out_degree_le_1 G →
  Forall (fun x => x ≠ ""%string) (node_list G) →
  topological_sort (node_list G) (adj G) = (order, true) →
  order ≡ₚ node_list G → topological G order →
  Forall (fun x => is_ok (export_rate_or_default export_rates x) = true)
    (node_list G) →
  ∃ st, mix_downstream G tracer_mean export_rates = Ok st ∧
        ∀ n, n ∈ node_list G →
          mixed_upstream_pred st !! n = Some (tracer_mean n) ∧
          ∃ f t, mixed_downstream_pred st !! n =
                   Some (np_divide (Const t) (Const f)) ∧
                 f == Qsum (map (fun u => area_of G u * rate_of export_rates u)
                              (upstream_closure G n)) ∧
                 t == Qsum (map (fun u => area_of G u * rate_of export_rates u *
                                          tracer_mean u)
                              (upstream_closure G n)).
Proof.
  intros Hwf Hdeg Hne Hsort Hperm Htopo Hrates.
  destruct (mix_downstream_sums G order tracer_mean export_rates
              Hwf Hdeg Hne Hsort Hperm Htopo Hrates) as (st & Est & Hsums).
  exists st. split; [exact Est|].
  unfold out_degree_le_1 in Hdeg.
  destruct (reset_totals_spec G Hwf) as (G1 & E1 & Hs1 & Hz1 & _).
  pose proof Hs1 as (Hn1 & Ha1 & _).
  unfold mix_downstream in Est. rewrite E1 in Est. cbn [rbind] in Est.
  rewrite Hn1, Ha1, Hsort in Est.
  set (st0 := {| mixed_network := G1; mixed_downstream_pred := ∅;
                 mixed_upstream_pred := ∅ |}) in Est.
  destruct (mix_loop_predictions G1 tracer_mean export_rates (node_list G) order st0)
    as (st' & E & Hpred).
  - apply same_structure_refl.
  - by apply (topological_same_adj G).
  - rewrite Forall_forall in Hne, Hrates |- *. intros x Hx.
    assert (x ∈ node_list G) as Hx' by (by rewrite <- Hperm).
    destruct (well_formed_lookup G x Hwf Hx') as (d & Hd & _).
    destruct (same_structure_lookup G G1 x d Hs1 Hd) as (d1 & Hd1 & _).
    split; [by eexists|]. split; [apply str_truthy_nonempty; auto|auto].
  - rewrite Forall_forall in Hdeg |- *. intros x Hx.
    rewrite (successors_same_adj G G1 x Ha1). apply Hdeg. by rewrite <- Hperm.
  - intros z d Hz Hd. cbn in Hd. rewrite (Hz1 z Hz) in Hd.
    destruct (node_data G !! z) as [d0|]; [|done]. cbn in Hd. simplify_eq.
    by eexists _, _.
  - intros x Hx. by rewrite <- Hperm.
  - rewrite E in Est. cbn [rbind] in Est. simplify_eq.
    intros n Hn. destruct (Hpred n) as (Hup & f & t & Hdn & Hf & Ht);
      [by rewrite Hperm|].
    split; [done|]. exists f, t. split; [done|].
    destruct (Hsums n Hn) as [HF HT]. rewrite Hf, Ht. by split.
Qed.

Lemma Qsum_weighted_bounds {A} (w t : A → Q) (lo hi : Q) (l : list A) :
  (∀ u, u ∈ l → 0 < w u) → (∀ u, u ∈ l → lo <= t u ∧ t u <= hi) →
  lo * Qsum (map w l) <= Qsum (map (fun u => w u * t u) l) ∧
  Qsum (map (fun u => w u * t u) l) <= hi * Qsum (map w l) ∧
  (l ≠ [] → 0 < Qsum (map w l)) ∧ 0 <= Qsum (map w l).
Proof.
  induction l as [|a l IH]; intros Hw Ht.
  { cbn [map]. rewrite !Qsum_nil. repeat split; try lra. done. }
  destruct IH as (H1 & H2 & _ & H3).
  { intros u Hu. apply Hw. by right. }
  { intros u Hu. apply Ht. by right. }
  pose proof (Hw a ltac:(left)) as Hwa.
  destruct (Ht a ltac:(left)) as [Hlo Hhi].
  cbn [map]. rewrite !Qsum_cons.
  split; [nra|]. split; [nra|]. split; [intros _; lra|lra].
Qed.

Lemma upstream_closure_self G n : n ∈ node_list G → n ∈ upstream_closure G n.
Proof.
  intros Hn. unfold upstream_closure. apply list_elem_of_In, filter_In.
  split; [by apply list_elem_of_In|].
  destruct (length (node_list G)); cbn; by rewrite bool_decide_true.
Qed.

Lemma upstream_closure_nodes G n u :
  u ∈ upstream_closure G n → u ∈ node_list G.
Proof.
  unfold upstream_closure. intros Hu%list_elem_of_In%filter_In.
  apply list_elem_of_In, Hu.
Qed.

Lemma confluence_out_degree : out_degree_le_1 confluence.
Proof.
  repeat (apply Forall_cons; split; [vm_compute; lia|]). apply Forall_nil_2.
Qed.

Lemma confluence_names :
  Forall (fun x => x ≠ ""%string) (node_list confluence).
Proof. repeat (apply Forall_cons; split; [done|]). apply Forall_nil_2. Qed.

Lemma confluence_default_rates :
  Forall (fun x => is_ok (export_rate_or_default None x) = true)
    (node_list confluence).
Proof. repeat (apply Forall_cons; split; [done|]). apply Forall_nil_2. Qed.

(** X9. On a well-formed network traversed in a topological order of all
    its nodes, [mix_downstream] returns for every node the tracer mean of
    its sub-basin as upstream prediction and, as downstream prediction, the
    total tracer flux over the total flux of the node's upstream closure,
    [Σ area·rate·tracer / Σ area·rate]; when the total flux is zero the
    prediction is no number (the [inf] or [nan] of a numpy division by
    zero, both [NaN] in the model). *)
Theorem mix_downstream_predictions `{Backend} (G : DiGraph) (order : list string)
    (tracer_mean : string → Q) (export_rates : option (gmap string Q)) :
  well_formed G → out_degree_le_1 G →
  Forall (fun x => x ≠ ""%string) (node_list G) →
  topological_sort (node_list G) (adj G) = (order, true) →
  order ≡ₚ node_list G → topological G order →
  Forall (fun x => is_ok (export_rate_or_default export_rates x) = true)
    (node_list G) →
  ∃ st, mix_downstream G tracer_mean export_rates = Ok st ∧
        ∀ n, n ∈ node_list G →
          mixed_upstream_pred st !! n = Some (tracer_mean n) ∧
          (¬ Qsum (map (fun u => area_of G u * rate_of export_rates u)
                     (upstream_closure G n)) == 0 →
           ∃ q, mixed_downstream_pred st !! n = Some (Num q) ∧
                q == Qsum (map (fun u => area_of G u * rate_of export_rates u *
                                         tracer_mean u)
                             (upstream_closure G n)) /
                     Qsum (map (fun u => area_of G u * rate_of export_rates u)
                             (upstream_closure G n))) ∧
          (Qsum (map (fun u => area_of G u * rate_of export_rates u)
                   (upstream_closure G n)) == 0 →
           mixed_downstream_pred st !! n = Some NaN).
Proof.
  intros Hwf Hdeg Hne Hsort Hperm Htopo Hrates.
  destruct (mix_downstream_returns G order tracer_mean export_rates
              Hwf Hdeg Hne Hsort Hperm Htopo Hrates) as (st & E & Hpred).
  exists st. split; [exact E|]. intros n Hn.
  destruct (Hpred n Hn) as (Hup & f & t & Hdn & Hf & Ht).
  split; [exact Hup|]. rewrite Hdn. unfold np_divide.
  destruct (Qeq_bool f 0) eqn:Ez.
  - apply Qeq_bool_iff in Ez. split; [|done].
    intros Hnz. exfalso. apply Hnz. by rewrite <- Hf.
  - apply Qeq_bool_neq in Ez. split.
    + intros _. eexists. split; [reflexivity|]. by rewrite Hf, Ht.
    + intros Hz. exfalso. apply Ez. by rewrite Hf.
Qed.

Lemma mix_downstream_predictions_witness :
  ∃ st, @mix_downstream test_backend confluence
          (fun s => if bool_decide (s = "a"%string) then 10 else 4) None = Ok st ∧
        mixed_upstream_pred st !! "a"%string = Some 10 ∧
        ∃ q, mixed_downstream_pred st !! "c"%string = Some (Num q) ∧ q == 5.
Proof.
  destruct (@mix_downstream_predictions test_backend confluence
              ["a"; "b"; "c"]%string
              (fun s => if bool_decide (s = "a"%string) then 10 else 4) None
              confluence_well_formed confluence_out_degree confluence_names
              eq_refl (reflexivity _) confluence_topological
              confluence_default_rates) as (st & E & Hpred).
  exists st. split; [exact E|]. split.
  - destruct (Hpred "a"%string) as [Hup _]; [by_evaluation|]. exact Hup.
  - destruct (Hpred "c"%string) as (_ & Hdn & _); [by_evaluation|].
    destruct Hdn as (q & Hq & Heq).
    + vm_compute. intros Hz. discriminate Hz.
    + exists q. split; [exact Hq|]. rewrite Heq. vm_compute. reflexivity.
Defined.

(** X10. When every sub-basin contributes a positive flux (area times
    export rate), the downstream prediction [mix_downstream] returns for a
    node is a number between the least and the greatest tracer mean of the
    node's upstream closure: mixing never leaves the range of what is
    mixed. *)
Theorem mix_downstream_within_range `{Backend} (G : DiGraph) (order : list string)
    (tracer_mean : string → Q) (export_rates : option (gmap string Q)) :
  well_formed G → out_degree_le_1 G →
  Forall (fun x => x ≠ ""%string) (node_list G) →
  topological_sort (node_list G) (adj G) = (order, true) →
  order ≡ₚ node_list G → topological G order →
  Forall (fun x => is_ok (export_rate_or_default export_rates x) = true)
    (node_list G) →
  (∀ u, u ∈ node_list G → 0 < area_of G u * rate_of export_rates u) →
  ∃ st, mix_downstream G tracer_mean export_rates = Ok st ∧
        ∀ n lo hi, n ∈ node_list G →
          (∀ u, u ∈ upstream_closure G n →
                lo <= tracer_mean u ∧ tracer_mean u <= hi) →
          ∃ q, mixed_downstream_pred st !! n = Some (Num q) ∧
               lo <= q ∧ q <= hi.
Proof.
  intros Hwf Hdeg Hne Hsort Hperm Htopo Hrates Hpos.
  destruct (mix_downstream_returns G order tracer_mean export_rates
              Hwf Hdeg Hne Hsort Hperm Htopo Hrates) as (st & E & Hpred).
  exists st. split; [exact E|]. intros n lo hi Hn Hrange.
  destruct (Hpred n Hn) as (_ & f & t & Hdn & Hf & Ht).
  destruct (Qsum_weighted_bounds
              (fun u => area_of G u * rate_of export_rates u) tracer_mean lo hi
              (upstream_closure G n)) as (Hlo & Hhi & Hpos' & _).
  { intros u Hu. apply Hpos. by eapply upstream_closure_nodes. }
  { exact Hrange. }
  assert (0 < f) as Hfpos.
  { rewrite Hf. apply Hpos'. intros Hnil.
    pose proof (upstream_closure_self G n Hn) as Hself. rewrite Hnil in Hself.
    by apply elem_of_nil in Hself. }
  rewrite Hdn. unfold np_divide.
  destruct (Qeq_bool f 0) eqn:Ez.
  { apply Qeq_bool_iff in Ez. rewrite Ez in Hfpos. by apply Qlt_irrefl in Hfpos. }
  eexists. split; [reflexivity|]. split.
  - apply Qle_shift_div_l; [done|]. by rewrite Hf, Ht.
  - apply Qle_shift_div_r; [done|]. by rewrite Hf, Ht.
Qed.

Lemma mix_downstream_within_range_witness :
  ∃ st, @mix_downstream test_backend confluence
          (fun s => if bool_decide (s = "a"%string) then 10 else 4) None = Ok st ∧
        ∃ q, mixed_downstream_pred st !! "c"%string = Some (Num q) ∧
             4 <= q ∧ q <= 10.
Proof.
  destruct (@mix_downstream_within_range test_backend confluence
              ["a"; "b"; "c"]%string
              (fun s => if bool_decide (s = "a"%string) then 10 else 4) None
              confluence_well_formed confluence_out_degree confluence_names
              eq_refl (reflexivity _) confluence_topological
              confluence_default_rates) as (st & E & Hpred).
  { intros u Hu.
    repeat (apply elem_of_cons in Hu as [->|Hu]; [vm_compute; reflexivity|]).
    by apply elem_of_nil in Hu. }
  exists st. split; [exact E|].
  apply (Hpred "c"%string 4 10); [by_evaluation|].
  intros u _. case_bool_decide; split; vm_compute; intros Hd; discriminate Hd.
Defined.

(** ** mix_downstream without an export rate for a site *)

Lemma update_nodes_raises (f : SampleNode → SampleNode) (l : list string) G e :
  for_each
    (fun G x => let! d := getitem (node_data G) x in Ok (set_node_data G x (f d)))
    l G = Raise e →
  e = KeyError.
Proof.
  revert G. induction l as [|x l IH]; intros G; cbn [for_each]; [done|].
  unfold getitem at 1. destruct (node_data G !! x) as [d|]; cbn [rbind].
  - apply IH.
  - by intros [= <-].
Qed.

Lemma mix_body_raises tm rates st x e :
  (length (successors (mixed_network st) x) ≤ 1)%nat →
  mix_downstream_body tm rates st x = Raise e → e = KeyError.
Proof.
  unfold mix_downstream_body, getitem. intros Hdeg E.
  destruct (node_data (mixed_network st) !! x) as [d|];
    [|cbn [rbind] in E; by simplify_eq].
  cbn [rbind] in E.
  assert (∀ e', export_rate_or_default rates x = Raise e' → e' = KeyError) as Hr.
  { unfold export_rate_or_default, getitem. intros e'.
    destruct rates as [m|]; [|done]. case_decide; [done|].
    destruct (m !! x); [done|]. by intros [= <-]. }
  destruct (export_rate_or_default rates x) as [r|e'] eqn:Er;
    [|cbn in E; simplify_eq; by apply Hr].
  cbn [rbind] in E.
  unfold propagate_downstream, nx_get_downstream in E.
  match type of E with
  | context [successors ?G' x] =>
      change (successors G' x) with (successors (mixed_network st) x) in E
  end.
  destruct (successors (mixed_network st) x) as [|ds [|ds' l]];
    cbn in Hdeg; [| |lia]; cbn [rbind] in E; [done|].
  destruct (str_truthy ds); [|done].
  unfold getitem in E.
  repeat match type of E with
  | context [match ?m !! ?k with _ => _ end] =>
      destruct (m !! k); cbn [rbind] in E
  end; by simplify_eq.
Qed.

Lemma mix_body_adj tm rates st x st' :
  mix_downstream_body tm rates st x = Ok st' →
  adj (mixed_network st') = adj (mixed_network st).
Proof.
  unfold mix_downstream_body. intros E.
  destruct (getitem _ x) as [d|]; [|done]. cbn [rbind] in E.
  destruct (export_rate_or_default rates x) as [r|]; [|done]. cbn [rbind] in E.
  destruct (propagate_downstream _ x) as [G'|] eqn:EG; [|done]. cbn [rbind] in E.
  simplify_eq. cbn. apply propagate_downstream_shape in EG as (_ & Ha & _).
  by rewrite Ha.
Qed.

Lemma mix_body_needs_rate tm rates st x st' :
  mix_downstream_body tm rates st x = Ok st' →
  is_ok (export_rate_or_default rates x) = true.
Proof.
  unfold mix_downstream_body. intros E.
  destruct (getitem _ x) as [d|]; [|done]. cbn [rbind] in E.
  by destruct (export_rate_or_default rates x).
Qed.

Lemma mix_loop_missing_rate tm rates G (R : list string) st x :
  (∀ y, y ∈ R → (length (successors G y) ≤ 1)%nat) →
  adj (mixed_network st) = adj G →
  x ∈ R → is_ok (export_rate_or_default rates x) = false →
  for_each (mix_downstream_body tm rates) R st = Raise KeyError.
Proof.
  revert st. induction R as [|y R IH]; intros st Hdeg Ha Hx Hr;
    [by apply elem_of_nil in Hx|].
  cbn [for_each].
  destruct (mix_downstream_body tm rates st y) as [st1|e] eqn:E; cbn [rbind].
  - apply IH.
    + intros z Hz. apply Hdeg. by right.
    + by rewrite (mix_body_adj _ _ _ _ _ E).
    + apply elem_of_cons in Hx as [->|Hx]; [|done].
      apply mix_body_needs_rate in E. congruence.
    + done.
  - f_equal. eapply mix_body_raises; [|exact E].
    rewrite (successors_same_adj G _ y Ha). apply Hdeg. left.
Qed.

(** X11. Given a non-empty mapping of export rates that lacks a site the
    traversal yields, [mix_downstream] raises [KeyError] (on a network with
    at most one downstream edge per node): the default rate 1 is used only
    for an absent or empty mapping. *)
Theorem mix_downstream_missing_rate `{Backend} (G : DiGraph)
    (order : list string) (finished : bool) (tracer_mean : string → Q)
    (m : gmap string Q) (x : string) :
  topological_sort (node_list G) (adj G) = (order, finished) →
  (∀ y, y ∈ order → (length (successors G y) ≤ 1)%nat) →
  x ∈ order → m ≠ ∅ → m !! x = None →
  mix_downstream G tracer_mean (Some m) = Raise KeyError.
Proof.
  intros Hsort Hdeg Hx Hne Hnone. unfold mix_downstream.
  destruct (reset_totals G) as [G1|e] eqn:E1; cbn [rbind].
  2:{ f_equal. by eapply update_nodes_raises. }
  apply update_nodes_shape in E1 as (Hn1 & Ha1 & _).
  rewrite Hn1, Ha1, Hsort.
  rewrite (mix_loop_missing_rate tracer_mean (Some m) G order _ x); try done.
  unfold export_rate_or_default, getitem. rewrite decide_False by done.
  by rewrite Hnone.
Qed.

Lemma mix_downstream_missing_rate_witness :
  @mix_downstream test_backend confluence (fun _ => 7)
    (Some {["a"%string := 1]}) = Raise KeyError.
Proof.
  apply (@mix_downstream_missing_rate test_backend confluence
           ["a"; "b"; "c"]%string true (fun _ => 7) {["a"%string := 1]} "b").
  - reflexivity.
  - intros y Hy.
    repeat (apply elem_of_cons in Hy as [->|Hy]; [vm_compute; lia|]).
    by apply elem_of_nil in Hy.
  - by_evaluation.
  - apply insert_non_empty.
  - reflexivity.
Defined.

(** ** A concentration map painted from per-basin values *)

Lemma elem_of_select (a : list (list Q)) (m : list (list bool)) q :
  q ∈ select a m ↔ ∃ y x, at2 a y x = Some q ∧ at2 m y x = Some true.
Proof.
  unfold select, at2. rewrite list_elem_of_bind. split.
  - intros ([ra rm] & Hq & Hrow). cbn [fst snd] in Hq.
    apply elem_of_lookup_zip_with in Hrow as (y & ra' & rm' & [= -> ->] & Ha & Hm).
    apply list_elem_of_bind in Hq as ([c b] & Hq & Hcb). cbn [fst snd] in Hq.
    apply elem_of_lookup_zip_with in Hcb as (x & c' & b' & [= -> ->] & Hc & Hb).
    destruct b'; [|by apply elem_of_nil in Hq].
    apply list_elem_of_singleton in Hq as ->.
    exists y, x. rewrite Ha, Hm. cbn. done.
  - intros (y & x & Ha & Hm).
    destruct (a !! y) as [ra|] eqn:Hra; [|done].
    destruct (m !! y) as [rm|] eqn:Hrm; [|done]. cbn in Ha, Hm.
    exists (ra, rm). split.
    + cbn [fst snd]. apply list_elem_of_bind. exists (q, true). split; [by left|].
      apply elem_of_lookup_zip_with. by exists x, q, true.
    + apply elem_of_lookup_zip_with. by exists y, ra, rm.
Qed.

Lemma Qsum_const (l : list Q) (v : Q) :
  Forall (fun q => q == v) l →
  Qsum l == v * inject_Z (Z.of_nat (length l)).
Proof.
  induction l as [|a l IH]; intros Hl.
  - rewrite Qsum_nil. cbn. ring.
  - apply Forall_cons in Hl as [Ha Hl]. rewrite Qsum_cons, IH, Ha by done.
    cbn [length]. rewrite Nat2Z.inj_succ, <- Z.add_1_r, inject_Z_plus. ring.
Qed.

Lemma np_mean_const (l : list Q) (v : Q) :
  l ≠ [] → Forall (fun q => q == v) l → np_mean l == v.
Proof.
  intros Hne Hl. unfold np_mean. rewrite (Qsum_const l v Hl).
  field. destruct l as [|a l]; [done|]. cbn [length].
  intros Hz. unfold Qeq in Hz. cbn in Hz. lia.
Qed.

Lemma Qsum_single_key (b : string → bool) (preds : list (string * Q)) s v :
  NoDup preds.*1 → (s, v) ∈ preds → b s = true →
  (∀ k, k ∈ preds.*1 → b k = true → k = s) →
  Qsum (map (fun sv : string * Q => if b sv.1 then sv.2 else 0) preds) == v.
Proof.
  induction preds as [|[k w] preds IH]; intros Hnd Hin Hb Huniq;
    [by apply elem_of_nil in Hin|].
  rewrite fmap_cons, NoDup_cons in Hnd. destruct Hnd as [Hk Hnd].
  cbn [map]. rewrite Qsum_cons. cbn [fst snd].
  apply elem_of_cons in Hin as [Heq|Hin].
  - simplify_eq. rewrite Hb. rewrite Qsum_map_zero; [ring|].
    intros [k' w'] Hin'. cbn.
    destruct (b k') eqn:Ek'; [|reflexivity].
    exfalso. apply Hk. rewrite <- (Huniq k').
    + by apply (list_elem_of_fmap_2 fst _ (k', w')).
    + cbn. right. by apply (list_elem_of_fmap_2 fst _ (k', w')).
    + done.
  - assert (k ≠ s) as Hne.
    { intros ->. apply Hk. by apply (list_elem_of_fmap_2 fst _ (s, v)). }
    destruct (b k) eqn:Ek.
    { exfalso. apply Hne. apply Huniq; [cbn; left|done]. }
    rewrite IH; [ring|done|done|done|].
    intros k' Hk'. apply Huniq. cbn. by right.
Qed.

Lemma mix_upstream_entries `{Backend} G tm rates st order fin s :
  mix_downstream G tm rates = Ok st →
  topological_sort (node_list G) (adj G) = (order, fin) →
  s ∈ order → mixed_upstream_pred st !! s = Some (tm s).
Proof.
  unfold mix_downstream. intros E Hsort Hs.
  destruct (reset_totals G) as [G1|] eqn:E1; [|done]. cbn [rbind] in E.
  apply update_nodes_shape in E1 as (Hn1 & Ha1 & _).
  rewrite Hn1, Ha1, Hsort in E.
  destruct (for_each _ order _) as [st1|] eqn:Eloop; [|done]. cbn [rbind] in E.
  destruct fin; [|done]. simplify_eq.
  eapply (for_each_covers
            (fun s st => mixed_upstream_pred st !! s = Some (tm s)));
    [| |exact Eloop|exact Hs].
  - intros s0 x s1 Eb. apply mix_body_keys in Eb as [_ ->].
    by rewrite lookup_insert_eq.
  - intros s0 x y s1 Eb Hy. apply mix_body_keys in Eb as [_ ->].
    destruct (decide (y = x)) as [->|Hne].
    + by rewrite lookup_insert_eq.
    + by rewrite lookup_insert_ne.
Qed.

(** X12. The forward half of the synthetic round trip.  With distinct
    catchment labels, the map [get_upstream_concentration_map] paints from
    one concentration per site, over the masks of
    [get_unique_upstream_areas], is averaged by [mix_downstream] back to
    the concentration of each site whose label occurs in the image: the
    upstream prediction returned for the site is the concentration that was
    painted. *)
Theorem painted_map_round_trip `{Backend} (cols : nat) (I : list (list Z))
    (G : DiGraph) (areas : gmap string (list (list bool)))
    (preds : list (string * Q)) :
  Forall (fun r => length r = cols) I →
  (∀ s s', s ∈ node_list G → s' ∈ node_list G →
           label_of G s = label_of G s' → s = s') →
  node_list G ≠ [] →
  get_unique_upstream_areas I G = Ok areas →
  NoDup preds.*1 → (∀ s, s ∈ preds.*1 → s ∈ node_list G) →
  ∃ cmap, get_upstream_concentration_map areas preds = Ok cmap ∧
    (∀ s v l y x, (s, v) ∈ preds → label_of G s = Some l →
       at2 I y x = Some l → tracer_mean_of areas cmap s == v) ∧
    ∀ rates st order fin s v l y x,
      mix_downstream G (tracer_mean_of areas cmap) rates = Ok st →
      topological_sort (node_list G) (adj G) = (order, fin) → s ∈ order →
      (s, v) ∈ preds → label_of G s = Some l → at2 I y x = Some l →
      ∃ q, mixed_upstream_pred st !! s = Some q ∧ q == v.
Proof.
  intros HI Hinj Hnodes Hareas Hnd Hkeys.
  pose proof (unique_upstream_areas_spec I G areas Hareas) as Hspec.
  pose proof (unique_upstream_areas_data I G areas Hareas) as Hdata.
  assert (Hrect : ∀ s m, areas !! s = Some m → rect (length I) cols m).
  { intros s m. rewrite Hspec. case_bool_decide; [|done].
    destruct (node_data G !! s) as [d|]; [|done]. cbn. intros [= <-].
    by apply rect_label_mask. }
  assert (Hne : areas ≠ ∅).
  { destruct (node_list G) as [|s0 l0] eqn:El; [done|]. intros Hempty.
    pose proof (Hspec s0) as H0. rewrite Hempty, lookup_empty in H0.
    rewrite bool_decide_true in H0 by left.
    destruct (Hdata s0) as [d Hd]; [left|]. by rewrite Hd in H0. }
  destruct (concentration_map_pixels_of (length I) cols areas preds Hne Hrect)
    as (cmap & E & Hcrect & Hpix).
  { intros s Hs. rewrite Hspec, bool_decide_true by (by apply Hkeys).
    destruct (Hdata s (Hkeys s Hs)) as [d ->]. by eexists. }
  exists cmap. split; [exact E|].
  assert (Hmean : ∀ s v l y x, (s, v) ∈ preds → label_of G s = Some l →
            at2 I y x = Some l → tracer_mean_of areas cmap s == v).
  { intros s v l y x Hin Hl Hyx.
    assert (s ∈ node_list G) as Hs.
    { apply Hkeys. by apply (list_elem_of_fmap_2 fst _ (s, v)). }
    unfold tracer_mean_of.
    destruct (areas !! s) as [m|] eqn:Hm.
    2:{ rewrite Hspec, bool_decide_true in Hm by done.
        destruct (Hdata s Hs) as [d Hd]. by rewrite Hd in Hm. }
    cbn [default from_option id].
    assert (Hmask : ∀ y' x', at2 m y' x' = Some true ↔ at2 I y' x' = Some l).
    { intros y' x'.
      pose proof (in_mask_label I G areas s y' x' Hareas Hs) as Hlab.
      unfold in_mask in Hlab. rewrite Hm in Hlab. cbn in Hlab.
      rewrite Hl in Hlab. split.
      - intros Ht. rewrite Ht in Hlab. cbn in Hlab.
        destruct (proj1 Hlab eq_refl) as (l' & Hl' & [= <-]). done.
      - intros Hi.
        assert (is_Some (at2 m y' x')) as [b Hb].
        { destruct (at2_lt (length I) cols I y' x' l (conj eq_refl HI) Hi).
          by apply (rect_lookup (length I) cols m y' x' (Hrect s m Hm)). }
        rewrite Hb in Hlab |- *. cbn in Hlab. f_equal. apply Hlab. by exists l. }
    apply np_mean_const.
    - destruct (at2_lt (length I) cols I y x l (conj eq_refl HI) Hyx) as [Hy Hx].
      destruct (Hpix y x Hy Hx) as (q & Hq & _).
      assert (q ∈ select cmap m) as Hsel.
      { apply elem_of_select. exists y, x. split; [done|]. by apply Hmask. }
      intros Hnil. rewrite Hnil in Hsel. by apply elem_of_nil in Hsel.
    - apply Forall_forall. intros q (y' & x' & Hq & Hb)%elem_of_select.
      apply Hmask in Hb.
      destruct (at2_lt (length I) cols I y' x' l (conj eq_refl HI) Hb) as [Hy Hx].
      destruct (Hpix y' x' Hy Hx) as (q' & Hq' & Heq).
      rewrite Hq in Hq'. simplify_eq. rewrite Heq.
      apply (Qsum_single_key (fun k => in_mask areas k y' x') preds s v);
        [done|done| |].
      + apply (in_mask_label I G areas s y' x' Hareas Hs). by exists l.
      + intros k Hk Hkm. apply Hinj; [by apply Hkeys|done|].
        apply (in_mask_label I G areas k y' x' Hareas (Hkeys k Hk)) in Hkm
          as (l' & Hl' & ->).
        congruence. }
  split; [exact Hmean|].
  intros rates st order fin s v l y x Emix Hsort Hs Hin Hl Hyx.
  exists (tracer_mean_of areas cmap s). split.
  - by eapply mix_upstream_entries.
  - by eapply Hmean.
Qed.

(** ** The inversion grid *)

Lemma InverseGrid_body_cell labels g ij :
  InverseGrid_body labels g ij =
  let! node := cell_of labels (area_labels g) (nx g) (ny g) ij in
  Ok {| nx := nx g; ny := ny g; area_labels := area_labels g;
        node_arr := <[(ij.2, ij.1) := node]> (node_arr g);
        sites_to_nodes :=
          <[sample_name node :=
              default [] (sites_to_nodes g !! sample_name node) ++ [node]]>
            (sites_to_nodes g) |}.
Proof.
  destruct ij as [i j]. unfold InverseGrid_body, cell_of. cbn [fst snd].
  destruct (raster_get _ _ _) as [l|]; [|done]. cbn [rbind].
  destruct (decide (l ≠ 0%Z)); [|done].
  by destruct (labels !! l).
Qed.

Lemma grid_filled_step labels a nx0 ny0 g ij g' :
  InverseGrid_body labels g ij = Ok g' →
  grid_filled labels a nx0 ny0 g → grid_filled labels a nx0 ny0 g'.
Proof.
  rewrite InverseGrid_body_cell. intros E [Hnx Hny Hlab Hcells Hsites].
  rewrite Hnx, Hny, Hlab in E.
  destruct (cell_of labels a nx0 ny0 ij) as [node|] eqn:Ec; [|done].
  cbn [rbind] in E. simplify_eq. split; cbn; try done.
  - intros j i node' Hl. destruct (decide ((j, i) = (ij.2, ij.1))) as [Heq|Hne].
    + rewrite Heq, lookup_insert_eq in Hl. simplify_eq. by destruct ij.
    + rewrite lookup_insert_ne in Hl by done. by apply Hcells.
  - assert (∀ node', (∃ ji, node_arr g !! ji = Some node') →
                     ∃ ji, <[(ij.2, ij.1) := node]> (node_arr g) !! ji = Some node')
      as Hkeep.
    { intros node' [[j i] Hji].
      destruct (decide ((j, i) = (ij.2, ij.1))) as [Heq|Hne].
      - exists (ij.2, ij.1). rewrite lookup_insert_eq. f_equal.
        apply Hcells in Hji. simplify_eq. destruct ij. cbn in *. congruence.
      - exists (j, i). by rewrite lookup_insert_ne. }
    intros s l Hl. destruct (decide (s = sample_name node)) as [->|Hne].
    + rewrite lookup_insert_eq in Hl. simplify_eq. split.
      * intros Hnil. by apply app_eq_nil in Hnil as [_ ?].
      * intros node' Hin. apply elem_of_app in Hin as [Hin|Hin].
        -- destruct (sites_to_nodes g !! sample_name node) as [l0|] eqn:El0;
             [|by apply elem_of_nil in Hin].
           destruct (Hsites _ l0 El0) as [_ Hall].
           destruct (Hall node' Hin) as [Hname Hex]. split; [done|]. by apply Hkeep.
        -- apply list_elem_of_singleton in Hin as ->. split; [done|].
           exists (ij.2, ij.1). by rewrite lookup_insert_eq.
    + rewrite lookup_insert_ne in Hl by done.
      destruct (Hsites s l Hl) as [Hnil Hall]. split; [done|].
      intros node' Hin. destruct (Hall node' Hin) as [Hname Hex].
      split; [done|]. by apply Hkeep.
Qed.

Lemma grid_cells_covered labels (idx : list (nat * nat)) g g' :
  for_each (InverseGrid_body labels) idx g = Ok g' →
  ∀ ij, ij ∈ idx →
    ∃ node, node_arr g' !! (ij.2, ij.1) = Some node ∧
            node ∈ default [] (sites_to_nodes g' !! sample_name node).
Proof.
  intros E.
  eapply (for_each_covers
            (fun (ij : nat * nat) g =>
               ∃ node, node_arr g !! (ij.2, ij.1) = Some node ∧
                       node ∈ default [] (sites_to_nodes g !! sample_name node)));
    [| |exact E].
  - intros s x s' Eb. rewrite InverseGrid_body_cell in Eb.
    destruct (cell_of _ _ _ _ x) as [node|]; [|done]. cbn [rbind] in Eb.
    simplify_eq. cbn. exists node. rewrite !lookup_insert_eq. split; [done|].
    cbn. apply elem_of_app. right. left.
  - intros s x y s' Eb (node & Hn & Hin). rewrite InverseGrid_body_cell in Eb.
    destruct (cell_of _ _ _ _ x) as [nodex|]; [|done]. cbn [rbind] in Eb.
    simplify_eq. cbn.
    destruct (decide ((y.2, y.1) = (x.2, x.1))) as [Heq|Hne].
    + exists nodex. rewrite Heq, !lookup_insert_eq. split; [done|].
      cbn. apply elem_of_app. right. left.
    + exists node. rewrite lookup_insert_ne by done. split; [done|].
      destruct (decide (sample_name node = sample_name nodex)) as [Hs|Hs].
      * rewrite Hs, lookup_insert_eq. cbn. apply elem_of_app. left.
        by rewrite <- Hs.
      * by rewrite lookup_insert_ne.
Qed.

Lemma grid_cells_in_range labels (idx : list (nat * nat)) g g' :
  for_each (InverseGrid_body labels) idx g = Ok g' →
  ∀ j i, is_Some (node_arr g' !! (j, i)) →
         (i, j) ∈ idx ∨ is_Some (node_arr g !! (j, i)).
Proof.
  intros E.
  eapply (for_each_inv_in
            (fun g1 => ∀ j i, is_Some (node_arr g1 !! (j, i)) →
                              (i, j) ∈ idx ∨ is_Some (node_arr g !! (j, i))));
    [| |exact E].
  - intros s x s' Hx Eb Hs j i Hji. rewrite InverseGrid_body_cell in Eb.
    destruct (cell_of _ _ _ _ x) as [nodex|]; [|done]. cbn [rbind] in Eb.
    simplify_eq. cbn in Hji.
    destruct (decide ((j, i) = (x.2, x.1))) as [Heq|Hne].
    + left. simplify_eq. by destruct x.
    + rewrite lookup_insert_ne in Hji by done. by apply Hs.
  - intros j i ?. by right.
Qed.

Lemma grid_filled_loop labels a nx0 ny0 (idx : list (nat * nat)) g g' :
  grid_filled labels a nx0 ny0 g →
  for_each (InverseGrid_body labels) idx g = Ok g' →
  grid_filled labels a nx0 ny0 g'.
Proof.
  intros Hg E.
  eapply (for_each_inv (grid_filled labels a nx0 ny0)); [|exact Hg|exact E].
  intros s x s' Eb Hs. by eapply grid_filled_step.
Qed.

Lemma grid_filled_start labels a nx0 ny0 :
  grid_filled labels a nx0 ny0
    {| nx := nx0; ny := ny0; area_labels := a; node_arr := ∅;
       sites_to_nodes := ∅ |}.
Proof. split; cbn; try done; intros *; by rewrite lookup_empty. Qed.

(** The dictionary from labels to sample names names nodes of the network
    by their own label. *)
Lemma area_labels_sound G labels l s :
  area_label_to_sample_name G = Ok labels → labels !! l = Some s →
  s ∈ node_list G ∧ label_of G s = Some l.
Proof.
  unfold area_label_to_sample_name. intros E. revert l s.
  eapply (for_each_inv_in
            (fun m : gmap Z string =>
               ∀ l s, m !! l = Some s → s ∈ node_list G ∧ label_of G s = Some l));
    [| |exact E].
  - intros m x m' Hx Eb Hm l s Hl. unfold getitem in Eb.
    destruct (node_data G !! x) as [d|] eqn:Hd; [|done]. cbn [rbind] in Eb.
    simplify_eq. destruct (decide (l = label d)) as [->|Hne].
    + rewrite lookup_insert_eq in Hl. simplify_eq. split; [done|].
      unfold label_of. by rewrite Hd.
    + rewrite lookup_insert_ne in Hl by done. by apply Hm.
  - intros l s. by rewrite lookup_empty.
Qed.

(** What a returned grid is made of. *)
Lemma InverseGrid_init_inv nx ny a G g :
  InverseGrid_init nx ny a G = Ok g →
  ∃ labels,
    area_label_to_sample_name G = Ok labels ∧
    (0 < nx ≤ Z.of_nat (shape1 a))%Z ∧ (0 < ny ≤ Z.of_nat (shape0 a))%Z ∧
    grid_filled labels a (Z.to_nat nx) (Z.to_nat ny) g ∧
    (∀ i j, (i < Z.to_nat nx)%nat → (j < Z.to_nat ny)%nat →
       ∃ node, node_arr g !! (j, i) = Some node ∧
               node ∈ default [] (sites_to_nodes g !! sample_name node)) ∧
    (∀ j i, is_Some (node_arr g !! (j, i)) →
            (i < Z.to_nat nx)%nat ∧ (j < Z.to_nat ny)%nat).
Proof.
  unfold InverseGrid_init. intros E.
  case_decide as H1; [done|]. cbv zeta in E. case_decide as H2; [done|].
  destruct (area_label_to_sample_name G) as [labels|] eqn:El; [|done].
  cbn [rbind] in E.
  destruct (for_each _ _ _) as [g1|] eqn:Eloop; [|done]. cbn [rbind] in E.
  case_decide; [done|]. simplify_eq.
  exists labels. split; [done|]. split; [lia|]. split; [lia|]. split; [|split].
  - eapply grid_filled_loop; [apply grid_filled_start|exact Eloop].
  - intros i j Hi Hj.
    apply (grid_cells_covered _ _ _ _ Eloop (i, j)).
    by apply elem_of_grid_indices.
  - intros j i Hji.
    destruct (grid_cells_in_range _ _ _ _ Eloop j i Hji) as [Hin|Hin].
    + by apply elem_of_grid_indices in Hin.
    + cbn in Hin. rewrite lookup_empty in Hin. by destruct Hin.
Qed.

Lemma InverseGrid_init_links (nx0 ny0 : Z) (a : list (list Z)) (G : DiGraph)
    (g : InverseGrid) :
  InverseGrid_init nx0 ny0 a G = Ok g →
  (∀ j i, is_Some (node_arr g !! (j, i)) ↔ (i < nx g)%nat ∧ (j < ny g)%nat) ∧
  ∀ j i node, node_arr g !! (j, i) = Some node →
    concentration node = Some (Concentration j i) ∧
    left_neighbour node = (if decide (0 < i)%nat then Some (j, pred i) else None) ∧
    top_neighbour node = (if decide (0 < j)%nat then Some (pred j, i) else None).
Proof.
  intros E.
  destruct (InverseGrid_init_inv nx0 ny0 a G g E)
    as (labels & El & Hnx & Hny & [Hgx Hgy Hga Hcells Hsites] & Hcov & Hrange).
  rewrite Hgx, Hgy. split.
  - intros j i. split; [apply Hrange|]. intros [Hi Hj].
    destruct (Hcov i j Hi Hj) as (node & -> & _). by eexists.
  - intros j i node Hnode. apply Hcells in Hnode. unfold cell_of in Hnode.
    cbn [fst snd] in Hnode.
    destruct (raster_get _ _ _) as [l|] eqn:Er; [|done]. cbn [rbind] in Hnode.
    destruct (decide (l ≠ 0%Z)) as [Hl|Hl].
    + destruct (labels !! l) as [s|] eqn:Es; [|done]. cbn [rbind] in Hnode.
      simplify_eq. cbn. by repeat split.
    + cbn [rbind] in Hnode. simplify_eq. cbn. by repeat split.
Qed.

(** X13. A grid [InverseGrid.__init__] returns has the requested numbers
    of columns and rows, positive and no greater than those of the raster,
    and holds a node exactly at the positions [(j, i)] with [i < nx] and
    [j < ny].  The node at [(j, i)] owns the variable of that position, has
    the node to its left ([(j, i-1)], none in column 0) and the node above
    it ([(j-1, i)], none in row 0) as neighbours, and is named after the
    label of the raster at the centre pixel of its cell, the centre being
    the entry of [np.linspace] as numpy computes it in doubles, truncated
    by [int]: ["NaN"] for label 0, and otherwise a node of the network that
    carries this label. *)
Theorem InverseGrid_init_nodes (nx0 ny0 : Z) (a : list (list Z)) (G : DiGraph)
    (g : InverseGrid) :
  InverseGrid_init nx0 ny0 a G = Ok g →
  nx g = Z.to_nat nx0 ∧ ny g = Z.to_nat ny0 ∧ area_labels g = a ∧
  (0 < nx g ≤ shape1 a)%nat ∧ (0 < ny g ≤ shape0 a)%nat ∧
  (∀ j i, is_Some (node_arr g !! (j, i)) ↔ (i < nx g)%nat ∧ (j < ny g)%nat) ∧
  ∀ j i node, node_arr g !! (j, i) = Some node →
    concentration node = Some (Concentration j i) ∧
    left_neighbour node = (if decide (0 < i)%nat then Some (j, pred i) else None) ∧
    top_neighbour node = (if decide (0 < j)%nat then Some (pred j, i) else None) ∧
    ∃ l, raster_get a (centre_pixel (shape0 a) (ny g) j)
           (centre_pixel (shape1 a) (nx g) i) = Ok l ∧
         if decide (l = 0%Z) then sample_name node = "NaN"%string
         else sample_name node ∈ node_list G ∧
              label_of G (sample_name node) = Some l.
Proof.
  intros E.
  destruct (InverseGrid_init_inv nx0 ny0 a G g E)
    as (labels & El & Hnx & Hny & [Hgx Hgy Hga Hcells Hsites] & Hcov & Hrange).
  rewrite Hgx, Hgy. split; [done|]. split; [done|]. split; [done|].
  split; [lia|]. split; [lia|]. split.
  - intros j i. split; [apply Hrange|]. intros [Hi Hj].
    destruct (Hcov i j Hi Hj) as (node & -> & _). by eexists.
  - intros j i node Hnode. apply Hcells in Hnode. unfold cell_of in Hnode.
    cbn [fst snd] in Hnode.
    destruct (raster_get _ _ _) as [l|] eqn:Er; [|done]. cbn [rbind] in Hnode.
    destruct (decide (l ≠ 0%Z)) as [Hl|Hl].
    + destruct (labels !! l) as [s|] eqn:Es; [|done]. cbn [rbind] in Hnode.
      simplify_eq. cbn. repeat split; try done.
      exists l. split; [done|]. rewrite decide_False by done.
      by eapply area_labels_sound.
    + cbn [rbind] in Hnode. simplify_eq. cbn. repeat split; try done.
      exists l. split; [done|]. rewrite decide_True; [done|].
      by destruct (decide (l = 0%Z)).
Qed.

(** X14. In a grid [InverseGrid.__init__] returns, [sites_to_nodes] files
    every node of the grid under its own sample name, and holds nothing
    else: each of its lists is non-empty and made of nodes of the grid that
    bear the key as sample name. *)
Theorem InverseGrid_sites_to_nodes (nx0 ny0 : Z) (a : list (list Z))
    (G : DiGraph) (g : InverseGrid) :
  InverseGrid_init nx0 ny0 a G = Ok g →
  (∀ j i node, node_arr g !! (j, i) = Some node →
     node ∈ default [] (sites_to_nodes g !! sample_name node)) ∧
  (∀ s l, sites_to_nodes g !! s = Some l →
     l ≠ [] ∧
     ∀ node, node ∈ l →
       sample_name node = s ∧ ∃ j i, node_arr g !! (j, i) = Some node).
Proof.
  intros E.
  destruct (InverseGrid_init_inv nx0 ny0 a G g E)
    as (labels & El & Hnx & Hny & [Hgx Hgy Hga Hcells Hsites] & Hcov & Hrange).
  split.
  - intros j i node Hnode.
    destruct (Hrange j i) as [Hi Hj]; [by eexists|].
    destruct (Hcov i j Hi Hj) as (node' & Hn' & Hin). by simplify_eq.
  - intros s l Hl. destruct (Hsites s l Hl) as [Hne Hall]. split; [done|].
    intros node Hin. destruct (Hall node Hin) as [Hname [[j i] Hji]].
    split; [done|]. by exists j, i.
Qed.

Lemma raster_get_in_range (a : list (list Z)) y x :
  rectangular a → (y < shape0 a)%nat → (x < shape1 a)%nat →
  ∃ l, raster_get a y x = Ok l.
Proof.
  unfold rectangular, shape0, raster_get. intros Hrect Hy Hx.
  destruct (lookup_lt_is_Some_2 a y Hy) as [row Hrow]. rewrite Hrow.
  rewrite Forall_forall in Hrect.
  assert (length row = shape1 a) as Hlen.
  { apply Hrect. by eapply list_elem_of_lookup_2. }
  destruct (lookup_lt_is_Some_2 row x) as [l ->]; [lia|]. by eexists.
Qed.

Lemma area_labels_returns G :
  (∀ s, s ∈ node_list G → is_Some (node_data G !! s)) →
  ∃ labels, area_label_to_sample_name G = Ok labels.
Proof.
  unfold area_label_to_sample_name. generalize (∅ : gmap Z string).
  induction (node_list G) as [|x l IH]; intros acc Hdata; [by eexists|].
  cbn [for_each]. destruct (Hdata x ltac:(left)) as [d Hd].
  unfold getitem at 1. rewrite Hd. cbn [rbind]. apply IH.
  intros s Hs. apply Hdata. by right.
Qed.

Lemma grid_loop_unknown_label labels a nx0 ny0 (idx : list (nat * nat)) g ij :
  rectangular a → (ny0 ≤ shape0 a)%nat → (nx0 ≤ shape1 a)%nat →
  (Z.of_nat (shape0 a) < 2 ^ 40)%Z → (Z.of_nat (shape1 a) < 2 ^ 40)%Z →
  nx g = nx0 → ny g = ny0 → area_labels g = a →
  (∀ ij', ij' ∈ idx → (ij'.1 < nx0)%nat ∧ (ij'.2 < ny0)%nat) →
  ij ∈ idx → cell_of labels a nx0 ny0 ij = Raise KeyError →
  for_each (InverseGrid_body labels) idx g = Raise KeyError.
Proof.
  intros Hrect Hrows Hcols Hbr Hbc. revert g.
  induction idx as [|x idx IH]; intros g Hnx Hny Ha Hidx Hin Hbad;
    [by apply elem_of_nil in Hin|].
  cbn [for_each]. rewrite InverseGrid_body_cell, Hnx, Hny, Ha.
  destruct (cell_of labels a nx0 ny0 x) as [node|e] eqn:Ec; cbn [rbind].
  - apply IH; try done.
    + intros ij' Hij'. apply Hidx. by right.
    + apply elem_of_cons in Hin as [->|Hin]; [congruence|done].
  - f_equal. unfold cell_of in Ec.
    destruct (Hidx x ltac:(left)) as [Hx1 Hx2].
    destruct (raster_get_in_range a (centre_pixel (shape0 a) ny0 x.2)
                (centre_pixel (shape1 a) nx0 x.1) Hrect) as [l El].
    { by apply centre_pixel_lt. }
    { by apply centre_pixel_lt. }
    rewrite El in Ec. cbn [rbind] in Ec.
    destruct (decide (l ≠ 0%Z)); [|done].
    destruct (labels !! l); [done|]. cbn in Ec. by simplify_eq.
Qed.

(** X15. With a valid resolution over a rectangular raster of fewer than
    [2^40] rows and columns and a network whose nodes all carry data,
    [InverseGrid.__init__] raises [KeyError] when the pixel at which it
    reads the label of some cell (the centre of the cell as [np.linspace]
    computes it in doubles, truncated) holds a non-zero label that no node
    of the network carries. *)
Theorem InverseGrid_init_unknown_label (nx0 ny0 : Z) (a : list (list Z))
    (G : DiGraph) (i j : nat) (l : Z) :
  (0 < nx0 ≤ Z.of_nat (shape1 a))%Z → (0 < ny0 ≤ Z.of_nat (shape0 a))%Z →
  rectangular a →
  (Z.of_nat (shape0 a) < 2 ^ 40)%Z → (Z.of_nat (shape1 a) < 2 ^ 40)%Z →
  (∀ s, s ∈ node_list G → is_Some (node_data G !! s)) →
  (i < Z.to_nat nx0)%nat → (j < Z.to_nat ny0)%nat →
  raster_get a (centre_pixel (shape0 a) (Z.to_nat ny0) j)
    (centre_pixel (shape1 a) (Z.to_nat nx0) i) = Ok l →
  l ≠ 0%Z → (∀ s, s ∈ node_list G → label_of G s ≠ Some l) →
  InverseGrid_init nx0 ny0 a G = Raise KeyError.
Proof.
  intros Hnx Hny Hrect Hbr Hbc Hdata Hi Hj Hl Hl0 Hnone.
  unfold InverseGrid_init.
  rewrite decide_False by lia. cbv zeta. rewrite decide_False by lia.
  destruct (area_labels_returns G Hdata) as [labels El]. rewrite El. cbn [rbind].
  rewrite (grid_loop_unknown_label labels a (Z.to_nat nx0) (Z.to_nat ny0) _ _ (i, j));
    try done; try lia.
  - intros [i' j'] Hin. by apply elem_of_grid_indices in Hin.
  - by apply elem_of_grid_indices.
  - unfold cell_of. cbn [fst snd]. rewrite Hl. cbn [rbind].
    rewrite decide_True by done.
    destruct (labels !! l) as [s|] eqn:Es; [|done].
    destruct (area_labels_sound G labels l s El Es) as [Hs Hlab].
    by apply Hnone in Hs.
Qed.

Lemma InverseGrid_init_unknown_label_witness :
  InverseGrid_init 2 2 [[1; 2]; [3; 7]]%Z confluence = Raise KeyError.
Proof.
  apply (InverseGrid_init_unknown_label 2 2 [[1; 2]; [3; 7]]%Z confluence
           1 1 7%Z).
  - vm_compute. split; [reflexivity|]. intros Hd; discriminate Hd.
  - vm_compute. split; [reflexivity|]. intros Hd; discriminate Hd.
  - repeat (apply Forall_cons; split; [reflexivity|]). apply Forall_nil_2.
  - reflexivity.
  - reflexivity.
  - intros s Hs.
    repeat (apply elem_of_cons in Hs as [->|Hs]; [by eexists|]).
    by apply elem_of_nil in Hs.
  - vm_compute. lia.
  - vm_compute. lia.
  - reflexivity.
  - done.
  - intros s Hs.
    repeat (apply elem_of_cons in Hs as [->|Hs]; [vm_compute; discriminate|]).
    by apply elem_of_nil in Hs.
Defined.

(** ** The blocks of the prediction map *)

(** When the number of cells divides the extent, the blocks cover it. *)
Lemma blocks_cover m n p :
  (n | m)%nat → (Z.of_nat m < 2 ^ 53)%Z → (p < m)%nat →
  ∃ k, (k < n)%nat ∧ (block_start m n k ≤ p < block_start m n (S k))%nat.
Proof.
  intros Hd Hm Hp.
  assert (∀ k, (k ≤ n)%nat → (p < block_start m n k)%nat →
               ∃ k', (k' < k)%nat ∧
                     (block_start m n k' ≤ p < block_start m n (S k'))%nat) as Hind.
  { induction k as [|k IH]; intros Hk Hlt.
    - rewrite block_start_exact in Hlt by (done || lia). lia.
    - destruct (decide (p < block_start m n k)%nat) as [Hlt'|Hge].
      + destruct (IH ltac:(lia) Hlt') as (k' & ? & ?). exists k'. split; [lia|done].
      + exists k. split; [lia|]. lia. }
  apply (Hind n); [lia|].
  rewrite block_start_exact by (done || lia).
  destruct Hd as [s ->]. destruct (decide (n = 0%nat)) as [->|Hn]; [lia|].
  rewrite Nat.div_mul by done. lia.
Qed.

(** X16. When the numbers of columns and of rows of the grid divide those
    of the raster (of fewer than [2^52] rows and columns, so that the
    doubles involved are exact), the pixel at which [InverseGrid.__init__]
    reads the label of a cell lies in the block of pixels that
    [get_upstream_prediction_map] fills with the value of that cell. *)
Theorem label_pixel_in_own_block (nx0 ny0 : Z) (a : list (list Z)) (G : DiGraph)
    (g : InverseGrid) (i j : nat) :
  InverseGrid_init nx0 ny0 a G = Ok g →
  (nx g | shape1 a)%nat → (ny g | shape0 a)%nat →
  (Z.of_nat (shape0 a) < 2 ^ 52)%Z → (Z.of_nat (shape1 a) < 2 ^ 52)%Z →
  (i < nx g)%nat → (j < ny g)%nat →
  in_block g (i, j) (centre_pixel (shape0 a) (ny g) j)
    (centre_pixel (shape1 a) (nx g) i).
Proof.
  intros E Hdx Hdy Hbr Hbc Hi Hj.
  destruct (InverseGrid_init_inv nx0 ny0 a G g E)
    as (labels & El & Hnx & Hny & [Hgx Hgy Hga Hcells Hsites] & Hcov & Hrange).
  unfold in_block. rewrite Hga. cbn [fst snd]. split.
  - apply centre_pixel_in_own_block; [lia|done|done|done].
  - apply centre_pixel_in_own_block; [lia|done|done|done].
Qed.

Lemma label_pixel_in_own_block_witness :
  ∃ g, InverseGrid_init 2 2 quadrants confluence = Ok g ∧
       in_block g (1, 0)%nat 0 1.
Proof.
  destruct (InverseGrid_init 2 2 quadrants confluence) as [g|] eqn:E;
    [|vm_compute in E; discriminate E].
  exists g. split; [reflexivity|].
  assert (nx g = 2%nat ∧ ny g = 2%nat) as [Hx Hy].
  { vm_compute in E. injection E as <-. split; reflexivity. }
  pose proof (label_pixel_in_own_block 2 2 quadrants confluence g 1 0 E) as Hb.
  rewrite Hx, Hy in Hb. apply Hb.
  - exists 1%nat. reflexivity.
  - exists 1%nat. reflexivity.
  - reflexivity.
  - reflexivity.
  - lia.
  - lia.
Defined.

(** Without divisibility the label can be read outside the block: with 5
    pixels and 4 cells, cell 2 is labelled by pixel 3 and fills pixel 2. *)
Example label_pixel_outside_block :
  centre_pixel 5 4 2 = 3%nat ∧ block_start 5 4 2 = 2%nat ∧
  block_start 5 4 3 = 3%nat.
Proof. by vm_compute. Qed.

(** ** The stages of the construction *)

Lemma build_problem_inv `{Backend} v v' :
  _build_problem v = Ok v' →
  _primary_terms v ≠ [] ∧
  v' = with_problem
         (Some {| objective_primary := _primary_terms v;
                  objective_regularizer := _regularizer_terms v;
                  problem_constraints := _constraints v |}) v.
Proof.
  unfold _build_problem. intros E.
  destruct (bool_decide (_primary_terms v = [])) eqn:Eb; [done|].
  apply bool_decide_eq_false in Eb. cbn in E.
  destruct (is_dcp _); [|done]. cbn in E. by simplify_eq.
Qed.

(** A constructed unmixer went through the grid (when continuous), the
    primary terms over the nodes the topological sort yields, the
    regularizer terms (when asked for) and the assembly of the problem. *)
Lemma init_stages `{Backend} G reg cargs u :
  SampleNetworkUnmixer_init G reg cargs = Ok u →
  ∃ g G1 G2 order u1 u2,
    match cargs with
    | Some (nx0, ny0, a) =>
        ∃ g', InverseGrid_init nx0 ny0 a G = Ok g' ∧ g = Some g'
    | None => g = None
    end ∧
    reset_totals G = Ok G1 ∧ calculate_normalised_areas G1 = Ok G2 ∧
    topological_sort (node_list G) (adj G) = (order, true) ∧
    for_each _build_primary_terms_body order
      (with_network G2 (blank_unmixer G (bool_decide (is_Some cargs)) g)) = Ok u1 ∧
    continuous u1 = bool_decide (is_Some cargs) ∧ grid u1 = g ∧
    (if reg
     then if continuous u1
          then _build_regularizer_terms_continuous u1 = Ok u2
          else _build_regularizer_terms_discrete u1 = Ok u2
     else u2 = u1) ∧
    _build_problem u2 = Ok u.
Proof.
  unfold SampleNetworkUnmixer_init. intros E.
  destruct (match cargs with Some _ => _ | None => _ end) as [g|e] eqn:Eg;
    [|done]. cbn [rbind] in E.
  destruct (_build_primary_terms _) as [u1|e] eqn:E1; [|done]. cbn [rbind] in E.
  unfold _build_primary_terms in E1. cbn [sample_network blank_unmixer] in E1.
  destruct (reset_totals G) as [G1|e] eqn:Er; [|done]. cbn [rbind] in E1.
  destruct (calculate_normalised_areas G1) as [G2|e] eqn:Ec; [|done].
  cbn [rbind] in E1.
  destruct (update_nodes_shape _ _ _ _ Er) as (Hn1 & Ha1 & _).
  destruct (calculate_normalised_areas_shape _ _ Ec) as (Hn2 & Ha2 & _).
  rewrite Hn2, Ha2, Hn1, Ha1 in E1.
  destruct (topological_sort (node_list G) (adj G)) as [order fin] eqn:Hsort.
  destruct (for_each _ order _) as [u1'|e] eqn:El; [|done]. cbn [rbind] in E1.
  destruct fin; [|done]. simplify_eq.
  destruct (match reg with true => _ | false => _ end) as [u2|e] eqn:E2;
    [|done]. cbn [rbind] in E.
  exists g, G1, G2, order, u1, u2.
  assert (continuous u1 = bool_decide (is_Some cargs) ∧ grid u1 = g) as [Hc Hg].
  { refine (for_each_inv
              (fun v => continuous v = bool_decide (is_Some cargs) ∧ grid v = g)
              _ _ _ _ _ _ El); [|split; reflexivity].
    intros s x s' Eb [Hc Hg].
    apply build_primary_terms_body_shape in Eb as (_ & -> & ->). done. }
  split.
  { destruct cargs as [[[nx0 ny0] a]|].
    - destruct (InverseGrid_init nx0 ny0 a G) as [g'|]; [|done].
      cbn in Eg. simplify_eq. by exists g'.
    - by simplify_eq. }
  repeat split; try done.
  destruct reg; [|by simplify_eq]. by destruct (continuous u1).
Qed.

Lemma regularizer_continuous_keeps u1 u2 :
  _build_regularizer_terms_continuous u1 = Ok u2 →
  grid u2 = grid u1 ∧ continuous u2 = continuous u1.
Proof.
  unfold _build_regularizer_terms_continuous. intros E.
  destruct (grid u1) as [g|] eqn:Eg; [|done].
  destruct (for_each _ _ _) as [terms|]; [|done]. cbn [rbind] in E.
  simplify_eq. cbn. by rewrite Eg.
Qed.

Lemma init_continuous `{Backend} G reg nx0 ny0 a u :
  SampleNetworkUnmixer_init G reg (Some (nx0, ny0, a)) = Ok u →
  ∃ g u1, InverseGrid_init nx0 ny0 a G = Ok g ∧ grid u = Some g ∧
          continuous u = true ∧ grid u1 = Some g ∧
          _regularizer_terms u1 = [] ∧
          (if reg then ∃ u2, _build_regularizer_terms_continuous u1 = Ok u2 ∧
                             _regularizer_terms u = _regularizer_terms u2
           else _regularizer_terms u = []).
Proof.
  intros E.
  destruct (init_stages G reg _ u E)
    as (g & G1 & G2 & order & u1 & u2 & (g' & Eg & ->) & Er & Ec & Hsort & El
        & Hc1 & Hg1 & E2 & Ep).
  apply build_problem_inv in Ep as [_ ->].
  assert (_regularizer_terms u1 = []) as Hreg1.
  { refine (for_each_inv (fun v => _regularizer_terms v = []) _ _ _ _ _ _ El);
      [|reflexivity].
    intros s x s' Eb Hs. unfold _build_primary_terms_body in Eb.
    destruct (getitem _ x) as [d|]; [|done]. cbn [rbind] in Eb.
    destruct (tracer_expression s x) as [tr|]; [|done]. cbn [rbind] in Eb.
    destruct (propagate_downstream _ x) as [G'|]; [|done]. cbn [rbind] in Eb.
    simplify_eq. done. }
  exists g', u1. split; [done|]. cbn.
  destruct reg.
  - rewrite Hc1 in E2. cbn in E2.
    destruct (regularizer_continuous_keeps u1 u2 E2) as [Hg2 Hc2].
    rewrite Hg2, Hc2, Hg1, Hc1. repeat split; try done. by exists u2.
  - subst u2. by rewrite Hg1, Hc1.
Qed.

(** X17. For an unmixer constructed in continuous mode,
    [get_upstream_prediction_map] always returns.  In the raster it
    returns, a pixel in the block of a grid node holds the value of that
    node and lies in no other block, and a pixel that lies in no block
    holds the [0.0] the array was created with.  When the numbers of
    columns and of rows of the grid divide those of the raster (of fewer
    than [2^52] rows and columns), every pixel lies in a block; otherwise
    the truncated products [int(k * step)] can leave pixels out, as the
    last of 15 columns under 11 cells. *)
Theorem continuous_prediction_map_coverage `{Backend} (G : DiGraph) (reg : bool)
    (nx0 ny0 : Z) (a : list (list Z)) (u : SampleNetworkUnmixer) :
  SampleNetworkUnmixer_init G reg (Some (nx0, ny0, a)) = Ok u →
  ∃ g out, grid u = Some g ∧ get_upstream_prediction_map u = Ok out ∧
    ∀ y x, (y < shape0 a)%nat → (x < shape1 a)%nat →
      (∀ i j, (i < nx g)%nat → (j < ny g)%nat → in_block g (i, j) y x →
         pixel out y x = Some (cell_value u g (i, j)) ∧
         ∀ i' j', in_block g (i', j') y x → (i', j') = (i, j)) ∧
      ((∀ i j, (i < nx g)%nat → (j < ny g)%nat → ¬ in_block g (i, j) y x) →
       pixel out y x = Some (Num 0)) ∧
      ((nx g | shape1 a)%nat → (ny g | shape0 a)%nat →
       (Z.of_nat (shape0 a) < 2 ^ 52)%Z → (Z.of_nat (shape1 a) < 2 ^ 52)%Z →
       ∃ i j, (i < nx g)%nat ∧ (j < ny g)%nat ∧ in_block g (i, j) y x).
Proof.
  intros E.
  destruct (init_continuous G reg nx0 ny0 a u E)
    as (g & u1 & Eg & Hg & Hc & _).
  destruct (InverseGrid_init_inv nx0 ny0 a G g Eg)
    as (labels & El & Hnx & Hny & [Hgx Hgy Hga Hcells Hsites] & Hcov & Hrange).
  destruct (prediction_map_returns u g Hc Hg) as [out Eout]; [lia|lia|..].
  { intros i j Hi Hj. rewrite Hgx in Hi. rewrite Hgy in Hj.
    destruct (Hcov i j Hi Hj) as (node & -> & _). by eexists. }
  exists g, out. split; [done|]. split; [done|]. intros y x Hy Hx.
  split; [|split].
  - intros i j Hi Hj Hblk. split.
    + eapply prediction_map_pixels; rewrite ?Hga; done.
    + intros i' j' Hblk'. by eapply in_block_unique.
  - intros Hnone. eapply prediction_map_unwritten; rewrite ?Hga; done.
  - intros Hdx Hdy Hbr Hbc.
    destruct (blocks_cover (shape1 a) (nx g) x) as (i & Hi & Hbx);
      [done|lia|done|].
    destruct (blocks_cover (shape0 a) (ny g) y) as (j & Hj & Hby);
      [done|lia|done|].
    exists i, j. split; [done|]. split; [done|].
    unfold in_block. rewrite Hga. cbn [fst snd]. split; lia.
Qed.

Lemma continuous_prediction_map_coverage_witness :
  ∃ u out,
    @SampleNetworkUnmixer_init test_backend lone_site false
      (Some (11, 1, fifteen_columns)%Z) = Ok u ∧
    get_upstream_prediction_map u = Ok out ∧
    pixel out 0 14 = Some (Num 0).
Proof.
  destruct (@SampleNetworkUnmixer_init test_backend lone_site false
              (Some (11, 1, fifteen_columns)%Z)) as [u|] eqn:E;
    [|vm_compute in E; discriminate E].
  destruct (@continuous_prediction_map_coverage test_backend lone_site false
              11 1 fifteen_columns u E) as (g & out & Hg & Eout & Hpix).
  exists u, out. split; [reflexivity|]. split; [exact Eout|].
  destruct (Hpix 0%nat 14%nat) as (_ & Hzero & _);
    [vm_compute; lia|vm_compute; lia|].
  apply Hzero. intros i j Hi Hj [_ [_ Hx]]. cbn [fst snd] in Hx.
  assert (area_labels g = fifteen_columns ∧ nx g = 11%nat) as [Ha Hn].
  { vm_compute in E. injection E as <-. vm_compute in Hg. injection Hg as <-.
    split; reflexivity. }
  rewrite Ha, Hn in Hx. rewrite Hn in Hi.
  pose proof (block_start_mono (shape1 fifteen_columns) 11 (S i) 11 ltac:(lia))
    as Hle.
  assert (block_start (shape1 fifteen_columns) 11 11 = 14%nat) as Hlast
    by (vm_compute; reflexivity).
  lia.
Defined.

(** ** The regularizer terms of a continuous problem *)

Lemma elem_of_flatten_indices ny nx j i :
  (j, i) ∈ flatten_indices ny nx ↔ (j < ny)%nat ∧ (i < nx)%nat.
Proof.
  unfold flatten_indices. rewrite list_elem_of_bind. split.
  - intros (j' & Hin & Hj'). apply list_elem_of_bind in Hin as (i' & Hin & Hi').
    apply list_elem_of_singleton in Hin. simplify_eq.
    apply elem_of_seq in Hi'. apply elem_of_seq in Hj'. lia.
  - intros [Hj Hi]. exists j. split; [|apply elem_of_seq; lia].
    apply list_elem_of_bind. exists i. split; [by left|apply elem_of_seq; lia].
Qed.

Lemma continuous_regularizer_body_spec g terms ji terms' :
  continuous_regularizer_body g terms ji = Ok terms' →
  ∃ node, node_arr g !! ji = Some node ∧ terms' = terms ++ cell_terms g node.
Proof.
  unfold continuous_regularizer_body, cell_terms, difference_to. intros E.
  destruct (node_arr g !! ji) as [node|]; [|done]. exists node. split; [done|].
  destruct (decide (sample_name node = "NaN"%string)).
  { simplify_eq. by rewrite app_nil_r. }
  destruct (inside_neighbour g (left_neighbour node)) as [l|].
  - destruct (concentration_difference node l) as [tl|]; [|done]. cbn [rbind] in E.
    destruct (inside_neighbour g (top_neighbour node)) as [t|].
    + destruct (concentration_difference node t) as [tt|]; [|done].
      cbn [rbind] in E. simplify_eq. by rewrite <- app_assoc.
    + simplify_eq. by rewrite app_nil_r.
  - cbn [rbind] in E.
    destruct (inside_neighbour g (top_neighbour node)) as [t|].
    + destruct (concentration_difference node t) as [tt|]; [|done].
      cbn [rbind] in E. by simplify_eq.
    + simplify_eq. by rewrite app_nil_r.
Qed.

Lemma continuous_regularizer_loop g (idx : list (nat * nat)) terms0 terms :
  for_each (continuous_regularizer_body g) idx terms0 = Ok terms →
  ∀ t, t ∈ terms ↔
       t ∈ terms0 ∨
       ∃ ji node, ji ∈ idx ∧ node_arr g !! ji = Some node ∧ t ∈ cell_terms g node.
Proof.
  revert terms0. induction idx as [|ji idx IH]; intros terms0 E t;
    cbn [for_each] in E.
  - simplify_eq. split; [by left|]. intros [?|(ji & node & ?%elem_of_nil & _)]; done.
  - destruct (continuous_regularizer_body g terms0 ji) as [terms1|] eqn:E1; [|done].
    cbn [rbind] in E.
    apply continuous_regularizer_body_spec in E1 as (node & Hnode & ->).
    rewrite (IH _ E t), elem_of_app. split.
    + intros [[?|?]|(ji' & node' & Hin & Hn' & Ht)].
      * by left.
      * right. exists ji, node. split; [left|done].
      * right. exists ji', node'. split; [by right|done].
    + intros [?|(ji' & node' & Hin & Hn' & Ht)]; [by left; left|].
      apply elem_of_cons in Hin as [->|Hin].
      * simplify_eq. left. by right.
      * right. by exists ji', node'.
Qed.

Lemma elem_of_difference_to g node ref t :
  t ∈ difference_to g node ref ↔
  ∃ r n x y, ref = Some r ∧ node_arr g !! r = Some n ∧
             sample_name n ≠ "NaN"%string ∧
             concentration node = Some x ∧ concentration n = Some y ∧
             t = Sub (Var x) (Var y).
Proof.
  unfold difference_to, inside_neighbour, concentration_difference. split.
  - destruct ref as [r|]; cbn; [|by intros ?%elem_of_nil].
    destruct (node_arr g !! r) as [n|] eqn:En; cbn; [|by intros ?%elem_of_nil].
    destruct (decide (sample_name n ≠ "NaN"%string)); [|by intros ?%elem_of_nil].
    destruct (concentration node) as [x|] eqn:Ex; [|by intros ?%elem_of_nil].
    destruct (concentration n) as [y|] eqn:Ey; [|by intros ?%elem_of_nil].
    intros ->%list_elem_of_singleton. by exists r, n, x, y.
  - intros (r & n & x & y & -> & Hn & Hs & Hx & Hy & ->). cbn.
    rewrite Hn. cbn. rewrite decide_True by done. rewrite Hx, Hy. left.
Qed.

(** X18. The regularizer terms of an unmixer constructed in continuous
    mode with regularization are exactly the differences between the
    variable of a grid node and the variable of its left or its top
    neighbour, for the pairs in which neither node is ["NaN"]: cells
    outside every catchment take no part in the smoothing. *)
Theorem continuous_regularizer_terms `{Backend} (G : DiGraph) (nx0 ny0 : Z)
    (a : list (list Z)) (u : SampleNetworkUnmixer) :
  SampleNetworkUnmixer_init G true (Some (nx0, ny0, a)) = Ok u →
  ∃ g, grid u = Some g ∧
    ∀ t, t ∈ _regularizer_terms u ↔
      ∃ j i j' i' na nb,
        node_arr g !! (j, i) = Some na ∧ node_arr g !! (j', i') = Some nb ∧
        ((0 < i)%nat ∧ (j', i') = (j, pred i) ∨
         (0 < j)%nat ∧ (j', i') = (pred j, i)) ∧
        sample_name na ≠ "NaN"%string ∧ sample_name nb ≠ "NaN"%string ∧
        t = Sub (Var (Concentration j i)) (Var (Concentration j' i')).
Proof.
  intros E.
  destruct (init_continuous G true nx0 ny0 a u E)
    as (g & u1 & Eg & Hg & Hc & Hg1 & Hreg1 & u2 & E2 & ->).
  exists g. split; [done|].
  pose proof (InverseGrid_init_links nx0 ny0 a G g Eg) as (Hkeys & Hnode).
  unfold _build_regularizer_terms_continuous in E2. rewrite Hg1, Hreg1 in E2.
  destruct (for_each _ _ _) as [terms|] eqn:Eloop; [|done]. cbn [rbind] in E2.
  simplify_eq. cbn [_regularizer_terms with_terms].
  intros t.
  rewrite (continuous_regularizer_loop g _ [] terms Eloop t). split.
  - intros [?%elem_of_nil|([j i] & na & Hin & Hna & Ht)]; [done|].
    destruct (Hnode j i na Hna) as (Hca & Hla & Hta).
    unfold cell_terms in Ht.
    destruct (decide (sample_name na = "NaN"%string)) as [|Hsa];
      [by apply elem_of_nil in Ht|].
    apply elem_of_app in Ht as [Ht|Ht];
      apply elem_of_difference_to in Ht
        as ([j' i'] & nb & x & y & Hr & Hnb & Hsb & Hx & Hy & ->);
      destruct (Hnode j' i' nb Hnb) as (Hcb & _);
      rewrite Hca in Hx; rewrite Hcb in Hy; simplify_eq;
      exists j, i, j', i', na, nb; repeat split; try done.
    + rewrite Hla in Hr. clear Hla Hta.
      destruct (decide (0 < i)%nat); [|done]. left. by simplify_eq.
    + rewrite Hta in Hr. clear Hla Hta.
      destruct (decide (0 < j)%nat); [|done]. right. by simplify_eq.
  - intros (j & i & j' & i' & na & nb & Hna & Hnb & Hadj & Hsa & Hsb & ->).
    right. exists (j, i), na. split; [|split; [done|]].
    { apply elem_of_flatten_indices. apply and_comm, Hkeys. by eexists. }
    destruct (Hnode j i na Hna) as (Hca & Hla & Hta).
    destruct (Hnode j' i' nb Hnb) as (Hcb & _).
    unfold cell_terms. rewrite decide_False by done. apply elem_of_app.
    destruct Hadj as [[Hi Heq]|[Hj Heq]]; [left|right];
      apply elem_of_difference_to; exists (j', i'), nb, (Concentration j i),
        (Concentration j' i'); repeat split; try done.
    + rewrite Hla, decide_True by done. by rewrite Heq.
    + rewrite Hta, decide_True by done. by rewrite Heq.
Qed.

Lemma continuous_regularizer_terms_witness :
  ∃ u, continuous_unmixer = Ok u ∧
       Sub (Var (Concentration 0 1)) (Var (Concentration 0 0))
         ∈ _regularizer_terms u ∧
       Sub (Var (Concentration 1 1)) (Var (Concentration 1 0))
         ∉ _regularizer_terms u.
Proof.
  destruct continuous_unmixer as [u|] eqn:E; [|vm_compute in E; discriminate E].
  destruct (@continuous_regularizer_terms test_backend confluence 2 2 quadrants
              u E) as (g & Hg & Hterms).
  exists u. split; [reflexivity|].
  assert (Some g = grid u) as Hg' by done.
  vm_compute in E. injection E as <-. cbn in Hg'. injection Hg' as ->.
  split.
  - apply Hterms. eexists 0%nat, 1%nat, 0%nat, 0%nat, _, _.
    split; [vm_compute; reflexivity|]. split; [vm_compute; reflexivity|].
    split; [left; split; [lia|reflexivity]|]. by repeat split.
  - intros Hin. apply Hterms in Hin
      as (j & i & j' & i' & na & nb & Hna & Hnb & _ & Hsa & _ & Heq).
    injection Heq as <- <- <- <-. vm_compute in Hna. injection Hna as <-.
    by apply Hsa.
Defined.

(** ** The terms of the assembled problem *)

Lemma propagate_downstream_tracer G x G' z d :
  propagate_downstream G x = Ok G' → node_data G !! z = Some d →
  ∃ d', node_data G' !! z = Some d' ∧ my_tracer_value d' = my_tracer_value d.
Proof.
  unfold propagate_downstream. intros E Hz.
  destruct (nx_get_downstream G x) as [[ds|]|]; cbn [rbind] in E;
    [|simplify_eq; by eauto|done].
  destruct (str_truthy ds); [|simplify_eq; by eauto].
  destruct (getitem (node_data G) x) as [dx|]; [|done]. cbn [rbind] in E.
  unfold getitem in E.
  destruct (node_data G !! ds) as [dd|] eqn:Hdd; [|done]. cbn [rbind] in E.
  simplify_eq. cbn. destruct (decide (z = ds)) as [->|Hne].
  - rewrite lookup_insert_eq. simplify_eq. by eexists.
  - rewrite lookup_insert_ne by done. by eauto.
Qed.

Lemma build_primary_terms_body_terms u x u' :
  names_ok (sample_network u) →
  _build_primary_terms_body u x = Ok u' →
  _primary_terms u' = _primary_terms u ++ [misfit_term x] ∧
  _regularizer_terms u' = _regularizer_terms u ∧
  length (_constraints u') = (length (_constraints u) + 2)%nat ∧
  (continuous u = false →
   ∀ y, y = x ∨
        (∃ d, node_data (sample_network u) !! y = Some d ∧
              my_tracer_value d = Var (TracerValue y)) →
        ∃ d, node_data (sample_network u') !! y = Some d ∧
             my_tracer_value d = Var (TracerValue y)).
Proof.
  intros Hnames E. unfold _build_primary_terms_body in E.
  unfold getitem in E.
  destruct (node_data (sample_network u) !! x) as [d|] eqn:Hd; [|done].
  cbn [rbind] in E.
  destruct (tracer_expression u x) as [tr|] eqn:Etr; [|done]. cbn [rbind] in E.
  destruct (propagate_downstream _ x) as [G'|] eqn:EG; [|done]. cbn [rbind] in E.
  simplify_eq. cbn. rewrite (Hnames x d Hd).
  split; [done|]. split; [done|]. split; [by rewrite length_app|].
  intros Hc y Hy. unfold tracer_expression in Etr. rewrite Hc in Etr.
  simplify_eq.
  destruct (decide (y = x)) as [->|Hne].
  - eapply propagate_downstream_tracer in EG as (d' & Hd' & Ht);
      [|cbn; apply lookup_insert_eq].
    exists d'. split; [done|]. by rewrite Ht.
  - destruct Hy as [?|(dy & Hdy & Hty)]; [done|].
    eapply propagate_downstream_tracer in EG as (d' & Hd' & Ht);
      [|cbn; by rewrite lookup_insert_ne].
    exists d'. split; [done|]. by rewrite Ht.
Qed.

Lemma build_primary_terms_loop_terms (R : list string) u u' :
  names_ok (sample_network u) →
  for_each _build_primary_terms_body R u = Ok u' →
  names_ok (sample_network u') ∧
  _primary_terms u' = _primary_terms u ++ map misfit_term R ∧
  _regularizer_terms u' = _regularizer_terms u ∧
  length (_constraints u') = (length (_constraints u) + 2 * length R)%nat ∧
  (continuous u = false →
   ∀ y, y ∈ R →
        ∃ d, node_data (sample_network u') !! y = Some d ∧
             my_tracer_value d = Var (TracerValue y)).
Proof.
  revert u. induction R as [|x R IH]; intros u Hnames E; cbn [for_each] in E.
  { simplify_eq. cbn [map length]. rewrite app_nil_r.
    split; [done|]. split; [done|]. split; [done|]. split; [lia|].
    by intros _ y ?%elem_of_nil. }
  destruct (_build_primary_terms_body u x) as [u1|] eqn:E1; [|done].
  cbn [rbind] in E.
  destruct (build_primary_terms_body_sites u x u1 Hnames E1) as (Hnames1 & _).
  destruct (build_primary_terms_body_shape u x u1 E1) as (_ & Hc1 & _).
  destruct (build_primary_terms_body_terms u x u1 Hnames E1)
    as (Hp1 & Hr1 & Hl1 & Ht1).
  destruct (IH u1 Hnames1 E) as (Hnames' & Hp & Hr & Hl & Ht).
  split; [done|]. rewrite Hp, Hp1, Hr, Hr1, Hl, Hl1.
  split; [by rewrite <- app_assoc|]. split; [done|]. split; [cbn; lia|].
  intros Hc y Hy.
  assert (∀ y, (∃ d, node_data (sample_network u1) !! y = Some d ∧
                     my_tracer_value d = Var (TracerValue y)) →
               ∃ d, node_data (sample_network u') !! y = Some d ∧
                    my_tracer_value d = Var (TracerValue y)) as Hkeep.
  { clear y Hy. intros y Hy.
    assert (continuous u' = false ∧ names_ok (sample_network u') ∧
            ∃ d, node_data (sample_network u') !! y = Some d ∧
                 my_tracer_value d = Var (TracerValue y)) as (_ & _ & Hgoal);
      [|exact Hgoal].
    refine (for_each_inv
              (fun v => continuous v = false ∧ names_ok (sample_network v) ∧
                 ∃ d, node_data (sample_network v) !! y = Some d ∧
                      my_tracer_value d = Var (TracerValue y))
              _ _ _ _ _ _ E).
    - intros s z s' Ez (Hcs & Hns & Hs).
      destruct (build_primary_terms_body_shape s z s' Ez) as (_ & Hcs' & _).
      destruct (build_primary_terms_body_sites s z s' Hns Ez) as (Hns' & _).
      destruct (build_primary_terms_body_terms s z s' Hns Ez) as (_ & _ & _ & Hts).
      split; [congruence|]. split; [done|].
      apply (Hts Hcs). by right.
    - split; [congruence|]. split; [done|done]. }
  apply elem_of_cons in Hy as [->|Hy].
  - apply Hkeep. apply (Ht1 Hc). by left.
  - apply Ht; [congruence|done].
Qed.

Lemma discrete_regularizer_loop G (l : list string) terms0 terms :
  (∀ y, y ∈ l → ∃ d, node_data G !! y = Some d ∧
                     my_tracer_value d = Var (TracerValue y)) →
  for_each
    (fun terms x =>
       let! d := getitem (node_data G) x in
       let concen := my_tracer_value d in
       Ok (terms ++ [Maximum concen (InvPos concen)]))
    l terms0 = Ok terms →
  terms = terms0 ++ map discrete_regularizer_term l.
Proof.
  revert terms0. induction l as [|x l IH]; intros terms0 Hl E; cbn [for_each] in E.
  { simplify_eq. by rewrite app_nil_r. }
  destruct (Hl x ltac:(left)) as (d & Hd & Ht).
  unfold getitem at 1 in E. rewrite Hd in E. cbn [rbind] in E.
  rewrite Ht in E. apply IH in E; [|intros y Hy; apply Hl; by right].
  rewrite E, <- app_assoc. done.
Qed.

Lemma regularizer_continuous_terms_keep u1 u2 :
  _build_regularizer_terms_continuous u1 = Ok u2 →
  _primary_terms u2 = _primary_terms u1 ∧ _constraints u2 = _constraints u1.
Proof.
  unfold _build_regularizer_terms_continuous. intros E.
  destruct (grid u1) as [g|]; [|done].
  destruct (for_each _ _ _) as [terms|]; [|done]. cbn [rbind] in E.
  by simplify_eq.
Qed.

Lemma regularizer_discrete_terms_keep u1 u2 :
  _build_regularizer_terms_discrete u1 = Ok u2 →
  _primary_terms u2 = _primary_terms u1 ∧ _constraints u2 = _constraints u1.
Proof.
  unfold _build_regularizer_terms_discrete. intros E.
  destruct (for_each _ _ _) as [terms|]; [|done]. cbn [rbind] in E.
  by simplify_eq.
Qed.

(** X19. A constructed unmixer holds one misfit term for every node the
    topological sort yields, in that order, each comparing the normalised
    concentration of the node with the node's own observation, and two
    constraints per node; there is at least one node; the problem handed to
    the solver is made of exactly these terms.  Without regularization
    there is no regularizer term; a discrete regularized problem in which
    every node was yielded has one regularizer term for every node of the
    network, over the node's own tracer variable. *)
Theorem problem_terms `{Backend} (G : DiGraph) (reg : bool)
    (cargs : option (Z * Z * list (list Z))) (order : list string)
    (finished : bool) (u : SampleNetworkUnmixer) :
  names_ok G →
  topological_sort (node_list G) (adj G) = (order, finished) →
  SampleNetworkUnmixer_init G reg cargs = Ok u →
  order ≠ [] ∧
  _primary_terms u = map misfit_term order ∧
  length (_constraints u) = (2 * length order)%nat ∧
  _problem u = Some {| objective_primary := _primary_terms u;
                       objective_regularizer := _regularizer_terms u;
                       problem_constraints := _constraints u |} ∧
  (reg = false → _regularizer_terms u = []) ∧
  (reg = true → cargs = None → (∀ x, x ∈ node_list G → x ∈ order) →
   _regularizer_terms u = map discrete_regularizer_term (node_list G)).
Proof.
  intros Hnames Hsort E.
  destruct (init_stages G reg cargs u E)
    as (g & G1 & G2 & order' & u1 & u2 & Hg & Er & Ec & Hsort' & El
        & Hc1 & Hg1 & E2 & Ep).
  rewrite Hsort in Hsort'. simplify_eq.
  assert (names_ok G2) as HG2.
  { unfold calculate_normalised_areas in Ec.
    destruct (mean_area G1) as [m|e]; [|done]. cbn [rbind] in Ec.
    eapply (update_nodes_names (fun d => set_rltv_area (area d / m) d));
      [done| |exact Ec].
    unfold reset_totals in Er.
    eapply (update_nodes_names zero_totals); [done|exact Hnames|exact Er]. }
  assert (node_list (sample_network u1) = node_list G) as Hnl.
  { destruct (update_nodes_shape _ _ _ _ Er) as (Hn1 & _).
    destruct (calculate_normalised_areas_shape _ _ Ec) as (Hn2 & _).
    enough (node_list (sample_network u1) = node_list G2) by congruence.
    refine (for_each_inv (fun v => node_list (sample_network v) = node_list G2)
              _ _ _ _ _ _ El); [|done].
    intros s x s' Eb Hs.
    apply build_primary_terms_body_shape in Eb as ((-> & _) & _). done. }
  pose proof El as El'.
  apply build_primary_terms_loop_terms in El'
    as (Hnames1 & Hp1 & Hr1 & Hl1 & Ht1); [|exact HG2].
  cbn in Hp1, Hr1, Hl1.
  apply build_problem_inv in Ep as [Hne ->]. cbn.
  assert (_primary_terms u2 = _primary_terms u1 ∧
          length (_constraints u2) = length (_constraints u1)) as [Hp2 Hl2].
  { destruct reg; [|by subst].
    destruct (continuous u1).
    - by apply regularizer_continuous_terms_keep in E2 as [-> ->].
    - by apply regularizer_discrete_terms_keep in E2 as [-> ->]. }
  rewrite Hp2, Hl2, Hp1, Hl1. rewrite Hp2, Hp1 in Hne.
  split; [by intros ->|]. split; [done|]. split; [lia|]. split; [done|]. split.
  - intros ->. subst u2. done.
  - intros -> -> Hall. cbn in Hc1. rewrite Hc1 in E2.
    unfold _build_regularizer_terms_discrete in E2. rewrite Hnl, Hr1 in E2.
    destruct (for_each _ (node_list G) []) as [terms|] eqn:Et; [|done].
    cbn [rbind] in E2. simplify_eq. cbn.
    apply discrete_regularizer_loop in Et; [done|].
    intros y Hy. apply Ht1; [done|]. by apply Hall.
Qed.

Lemma confluence_names_ok : names_ok confluence.
Proof.
  intros z d Hz. apply elem_of_list_to_map_2 in Hz.
  repeat (apply elem_of_cons in Hz as [Hz|Hz]; [by simplify_eq|]).
  by apply elem_of_nil in Hz.
Qed.

Lemma problem_terms_witness :
  ∃ u, regularized_unmixer = Ok u ∧
       _primary_terms u = map misfit_term ["a"; "b"; "c"]%string ∧
       length (_constraints u) = 6%nat ∧
       _regularizer_terms u =
         map discrete_regularizer_term ["a"; "b"; "c"]%string.
Proof.
  destruct regularized_unmixer as [u|] eqn:E; [|vm_compute in E; discriminate E].
  destruct (@problem_terms test_backend confluence true None
              ["a"; "b"; "c"]%string true u) as (_ & Hp & Hl & _ & _ & Hr).
  - exact confluence_names_ok.
  - reflexivity.
  - exact E.
  - exists u. split; [reflexivity|]. split; [exact Hp|]. split; [exact Hl|].
    apply Hr; [reflexivity|reflexivity|]. by intros x Hx.
Defined.

(** ** A network without sites *)

Lemma update_nodes_returns (f : SampleNode → SampleNode) (l : list string) G :
  (∀ x, x ∈ l → is_Some (node_data G !! x)) →
  ∃ G', for_each
          (fun G x =>
             let! d := getitem (node_data G) x in Ok (set_node_data G x (f d)))
          l G = Ok G'.
Proof.
  revert G. induction l as [|x l IH]; intros G Hl; [by eexists|].
  cbn [for_each]. destruct (Hl x ltac:(left)) as [d Hd].
  unfold getitem at 1. rewrite Hd. cbn [rbind]. apply IH.
  intros y Hy. cbn. destruct (decide (y = x)) as [->|Hne].
  - rewrite lookup_insert_eq. by eexists.
  - rewrite lookup_insert_ne by done. apply Hl. by right.
Qed.

Lemma mean_area_returns G :
  (∀ x, x ∈ node_list G → is_Some (node_data G !! x)) →
  ∃ m, mean_area G = Ok m.
Proof.
  unfold mean_area. intros Hl.
  assert (∀ (l : list string) acc, (∀ x, x ∈ l → is_Some (node_data G !! x)) →
            ∃ areas,
              for_each
                (fun acc x => let! d := getitem (node_data G) x in Ok (acc ++ [area d]))
                l acc = Ok areas) as Hloop.
  { induction l as [|x l IH]; intros acc Hx; [by eexists|].
    cbn [for_each]. destruct (Hx x ltac:(left)) as [d Hd].
    unfold getitem at 1. rewrite Hd. cbn [rbind]. apply IH.
    intros y Hy. apply Hx. by right. }
  destruct (Hloop (node_list G) [] Hl) as [areas ->]. by eexists.
Qed.

(** X20. A network whose traversal yields no node cannot be unmixed:
    constructing a discrete unmixer on it raises [AssertionError], with or
    without regularization. *)
Theorem empty_network_is_rejected `{Backend} (G : DiGraph) (reg : bool) :
  (∀ x, x ∈ node_list G → is_Some (node_data G !! x)) →
  topological_sort (node_list G) (adj G) = ([], true) →
  SampleNetworkUnmixer_init G reg None = Raise AssertionError.
Proof.
  intros Hdata Hsort. unfold SampleNetworkUnmixer_init. cbn [rbind].
  unfold _build_primary_terms. cbn [sample_network blank_unmixer].
  destruct (update_nodes_returns zero_totals (node_list G) G Hdata) as [G1 Er].
  unfold reset_totals. rewrite Er. cbn [rbind].
  destruct (update_nodes_shape _ _ _ _ Er) as (Hn1 & Ha1 & Hd1).
  assert (∀ x, x ∈ node_list G1 → is_Some (node_data G1 !! x)) as Hdata1.
  { intros x Hx. apply Hd1, Hdata. by rewrite <- Hn1. }
  destruct (mean_area_returns G1 Hdata1) as [m Em].
  unfold calculate_normalised_areas. rewrite Em. cbn [rbind].
  destruct (update_nodes_returns (fun d => set_rltv_area (area d / m) d)
              (node_list G1) G1 Hdata1) as [G2 Ec].
  rewrite Ec. cbn [rbind].
  destruct (update_nodes_shape _ _ _ _ Ec) as (Hn2 & Ha2 & Hd2).
  rewrite Hn2, Ha2, Hn1, Ha1, Hsort. cbn [for_each rbind].
  destruct reg; [|done].
  cbn [continuous with_network blank_unmixer].
  rewrite bool_decide_false by (by intros [? ?]).
  unfold _build_regularizer_terms_discrete.
  cbn [sample_network with_network blank_unmixer _regularizer_terms].
  assert (∀ (l : list string) acc, (∀ x, x ∈ l → is_Some (node_data G2 !! x)) →
            ∃ terms,
              for_each
                (fun terms x =>
                   let! d := getitem (node_data G2) x in
                   Ok (terms ++ [Maximum (my_tracer_value d)
                                   (InvPos (my_tracer_value d))]))
                l acc = Ok terms) as Hloop.
  { induction l as [|x l IH]; intros acc Hx; [by eexists|].
    cbn [for_each]. destruct (Hx x ltac:(left)) as [d Hd].
    unfold getitem at 1. rewrite Hd. cbn [rbind]. apply IH.
    intros y Hy. apply Hx. by right. }
  destruct (Hloop (node_list G2) []) as [terms ->]; [|done].
  intros x Hx. apply Hd2, Hdata1. by rewrite <- Hn2.
Qed.

Lemma empty_network_is_rejected_witness :
  @SampleNetworkUnmixer_init test_backend no_sites true None =
  Raise AssertionError.
Proof.
  apply (@empty_network_is_rejected test_backend no_sites true).
  - by intros x ?%elem_of_nil.
  - reflexivity.
Defined.

(** ** The solver calls of solve *)

Lemma calls_within_quiet {A} (m : M A) : quiet m → calls_within 0 m.
Proof. intros Hq u. destruct (Hq u) as [Hc]. lia. Qed.

Lemma calls_within_mseq {A B} k1 k2 (m : M A) (f : A → M B) :
  calls_within k1 m → (∀ a, calls_within k2 (f a)) →
  calls_within (k1 + k2) (mseq m f).
Proof.
  intros Hm Hf u. unfold mseq. specialize (Hm u).
  destruct (m u) as [[a|e] u1]; cbn in *; [|lia].
  specialize (Hf a u1). lia.
Qed.

Lemma quiet_strength_setter `{Backend} strength :
  quiet (solve_strength_setter strength).
Proof.
  intros u. unfold solve_strength_setter.
  destruct (CpParameter_set_value _ _); cbn; [|apply stable_refl]. by split.
Qed.

Lemma calls_within_invoke_solver `{Backend} options :
  calls_within 1 (invoke_solver options).
Proof.
  intros u. unfold invoke_solver.
  destruct (_problem u); cbn; [|lia].
  destruct (cp_solve _ _ _); cbn; lia.
Qed.

Lemma invoke_solver_ok `{Backend} options u u' :
  invoke_solver options u = (Ok tt, u') →
  solver_calls u' = S (solver_calls u).
Proof.
  unfold invoke_solver. destruct (_problem u); [|done].
  destruct (cp_solve _ _ _); intros E; by simplify_eq.
Qed.

Lemma quiet_results `{Backend} (obs : list (string * Q)) :
  quiet (let obs_mean := geo_mean obs.*2 in
         let* u := mget in
         let* downstream_preds := lift (get_downstream_prediction_dictionary u) in
         let downstream_preds := np_scale obs_mean <$> downstream_preds in
         let* upstream_preds :=
           if continuous u then
             let* m := lift (get_upstream_prediction_map u) in
             mret (UpstreamMap (map (map (np_scale obs_mean)) m))
           else
             let* d := lift (get_upstream_prediction_dictionary u) in
             let* d := lift (scale_upstream obs_mean d) in
             mret (UpstreamDict d) in
         mret (downstream_preds, upstream_preds)).
Proof.
  cbv zeta.
  apply quiet_mseq; [apply quiet_mget|]. intros u.
  apply quiet_mseq; [apply quiet_lift|]. intros d.
  apply quiet_mseq; [|intros ?; apply quiet_mret].
  destruct (continuous u);
    repeat first [apply quiet_mseq; [|intros ?] | apply quiet_lift | apply quiet_mret].
Qed.

(** When [solve] returns, the solver has run once and the first component
    is the dictionary of downstream predictions of the solved problem,
    scaled by the geometric mean of the observations. *)
Lemma solve_ok_inv `{Backend} u obs rates strength solver down up u' :
  solve obs rates strength solver u = (Ok (down, up), u') →
  solver_calls u' = S (solver_calls u) ∧
  ∃ d, get_downstream_prediction_dictionary u' = Ok d ∧
       down = np_scale (geo_mean obs.*2) <$> d.
Proof.
  intros E. unfold solve in E.
  apply mseq_inv in E as ([] & u1 & E1 & E).
  pose proof (quiet_set_observation_parameters obs u) as S1. rewrite E1 in S1.
  apply mseq_inv in E as ([] & u2 & E2 & E).
  pose proof (quiet_set_export_rate_parameters rates u1) as S2. rewrite E2 in S2.
  apply mseq_inv in E as ([] & u3 & E3 & E).
  pose proof (quiet_set_total_flux_parameters u2) as S3. rewrite E3 in S3.
  apply mseq_inv in E as (? & u4 & [= -> ->] & E).
  apply mseq_inv in E as ([] & u5 & E5 & E).
  assert (u5 = u4) as ->.
  { destruct (negb _ && _) in E5; [done|]. unfold mret in E5. by simplify_eq. }
  apply mseq_inv in E as ([] & u6 & E6 & E).
  pose proof (quiet_strength_setter strength u4) as S6.
  unfold solve_strength_setter in S6. rewrite E6 in S6.
  apply mseq_inv in E as (options & u7 & E7 & E).
  assert (u7 = u6) as -> by (unfold lift in E7; by simplify_eq).
  apply mseq_inv in E as ([] & u8 & E8 & E).
  apply invoke_solver_ok in E8.
  pose proof (quiet_results obs u8) as S9. cbv zeta in S9, E. rewrite E in S9.
  cbn in S1, S2, S3, S6, S9.
  split; [destruct S1, S2, S3, S6, S9; congruence|].
  apply mseq_inv in E as (? & u9 & [= -> ->] & E).
  apply mseq_inv in E as (dn & u10 & E10 & E).
  assert (u10 = u9) as -> by (unfold lift in E10; by simplify_eq).
  apply mseq_inv in E as (up' & u11 & E11 & E).
  unfold mret in E. simplify_eq.
  assert (u' = u9) as ->.
  { destruct (continuous u9).
    - apply mseq_inv in E11 as (m & u12 & E12 & E11).
      unfold lift in E12. unfold mret in E11. by simplify_eq.
    - apply mseq_inv in E11 as (d & u12 & E12 & E11).
      apply mseq_inv in E11 as (d' & u13 & E13 & E11).
      unfold lift in E12, E13. unfold mret in E11. by simplify_eq. }
  exists dn. split; [|done]. unfold lift in E10. by simplify_eq.
Qed.

(** X21. [solve] invokes the external solver at most once, and exactly
    once when it returns. *)
Theorem solve_invokes_solver_once `{Backend} (u : SampleNetworkUnmixer)
    (obs : list (string * Q)) (rates : option (list (string * Q)))
    (strength : option Q) (solver : string) :
  (solver_calls u ≤ solver_calls (solve obs rates strength solver u).2
     ≤ S (solver_calls u))%nat ∧
  (is_ok (solve obs rates strength solver u).1 = true →
   solver_calls (solve obs rates strength solver u).2 = S (solver_calls u)).
Proof.
  split.
  - assert (calls_within 1 (solve obs rates strength solver)) as Hc.
    { unfold solve.
      apply (calls_within_mseq 0 1);
        [apply calls_within_quiet, quiet_set_observation_parameters|intros _].
      apply (calls_within_mseq 0 1);
        [apply calls_within_quiet, quiet_set_export_rate_parameters|intros _].
      apply (calls_within_mseq 0 1);
        [apply calls_within_quiet, quiet_set_total_flux_parameters|intros _].
      apply (calls_within_mseq 0 1); [apply calls_within_quiet, quiet_mget|intros u0].
      apply (calls_within_mseq 0 1).
      { apply calls_within_quiet.
        destruct (_ && _); [apply quiet_mraise|apply quiet_mret]. }
      intros _.
      apply (calls_within_mseq 0 1);
        [apply calls_within_quiet, (quiet_strength_setter strength)|intros _].
      apply (calls_within_mseq 0 1); [apply calls_within_quiet, quiet_lift|intros o].
      apply (calls_within_mseq 1 0); [apply calls_within_invoke_solver|intros _].
      apply calls_within_quiet, quiet_results. }
    specialize (Hc u). lia.
  - destruct (solve obs rates strength solver u) as [[[down up]|e] u'] eqn:E;
      [intros _|done]. cbn [snd].
    by apply solve_ok_inv in E as [-> _].
Qed.

Lemma solve_invokes_solver_once_witness :
  ∃ u, regularized_unmixer = Ok u ∧
       solver_calls
         (@solve test_backend uniform_observations None (Some 1) "ecos" u).2 = 1%nat.
Proof.
  destruct regularized_unmixer as [u|] eqn:E; [|vm_compute in E; discriminate E].
  exists u. split; [reflexivity|].
  destruct (@solve_invokes_solver_once test_backend u uniform_observations None
              (Some 1) "ecos") as [_ Hok].
  rewrite Hok.
  - vm_compute in E. injection E as <-. reflexivity.
  - vm_compute in E. injection E as <-. vm_compute. reflexivity.
Defined.

(** X22. A solver name other than the four for which [solve] holds an
    option bundle makes [solve] raise before the solver is invoked. *)
Theorem solve_unknown_solver_aborts `{Backend} (u : SampleNetworkUnmixer)
    (obs : list (string * Q)) (rates : option (list (string * Q)))
    (strength : option Q) (solver : string) :
  solver ∉ ["scip"; "ecos"; "scs"; "gurobi"]%string →
  aborts (solve obs rates strength solver) u.
Proof.
  intros Hs. unfold solve.
  apply aborts_mseq_r; [apply quiet_set_observation_parameters|].
  intros [] u1 _ Hs1.
  apply aborts_mseq_r; [apply quiet_set_export_rate_parameters|].
  intros [] u2 _ Hs2.
  apply aborts_mseq_r; [apply quiet_set_total_flux_parameters|].
  intros [] u3 _ Hs3.
  apply aborts_mseq_r; [apply quiet_mget|]. intros ? u4 [= -> ->] _.
  apply aborts_mseq_r.
  { destruct (_ && _); [apply quiet_mraise|apply quiet_mret]. }
  intros [] u5 _ Hs5.
  apply aborts_mseq_r; [apply (quiet_strength_setter strength)|].
  intros [] u6 _ Hs6.
  apply aborts_mseq_l. eapply raise_quiet_aborts; [apply quiet_lift|].
  unfold lift, solver_options. by rewrite bool_decide_false.
Qed.

Lemma solve_unknown_solver_aborts_witness :
  ∃ u, regularized_unmixer = Ok u ∧
       aborts (@solve test_backend uniform_observations None (Some 1) "cplex") u.
Proof.
  destruct regularized_unmixer as [u|] eqn:E; [|vm_compute in E; discriminate E].
  exists u. split; [reflexivity|].
  apply (@solve_unknown_solver_aborts test_backend).
  intros Hin.
  repeat (apply elem_of_cons in Hin as [Hin|Hin]; [discriminate Hin|]).
  by apply elem_of_nil in Hin.
Defined.

(** X23. With regularizer terms in the problem, [solve] without a
    regularization strength raises before the solver is invoked. *)
Theorem solve_without_strength_aborts `{Backend} (u : SampleNetworkUnmixer)
    (obs : list (string * Q)) (rates : option (list (string * Q)))
    (solver : string) :
  _regularizer_terms u ≠ [] →
  aborts (solve obs rates None solver) u.
Proof. intros Hreg. by apply solve_needs_truthy_strength. Qed.

Lemma solve_without_strength_aborts_witness :
  ∃ u, regularized_unmixer = Ok u ∧
       aborts (@solve test_backend uniform_observations None None "ecos") u.
Proof.
  destruct regularized_unmixer as [u|] eqn:E; [|vm_compute in E; discriminate E].
  exists u. split; [reflexivity|].
  apply (@solve_without_strength_aborts test_backend).
  vm_compute in E. injection E as <-. discriminate.
Defined.

(** ** The observations solve has bound *)

Lemma keeps_observations_quiet_trans {A B} (m : M A) (f : A → M B) :
  keeps_observations m → (∀ a, keeps_observations (f a)) →
  keeps_observations (mseq m f).
Proof.
  intros Hm Hf u. unfold mseq. specialize (Hm u).
  destruct (m u) as [[a|e] u1]; cbn in *; [|done].
  by rewrite (Hf a u1).
Qed.

Lemma keeps_observations_pure {A} (m : M A) :
  (∀ u, (m u).2 = u) → keeps_observations m.
Proof. intros Hm u. by rewrite Hm. Qed.

Lemma keeps_observations_for_eachM {X} (body : X → M unit) (xs : list X) :
  (∀ x, keeps_observations (body x)) → keeps_observations (for_eachM body xs).
Proof.
  intros Hb. induction xs as [|x xs IH]; [by apply keeps_observations_pure|].
  cbn. apply keeps_observations_quiet_trans; [apply Hb|]. intros _. exact IH.
Qed.

Section observations_kept.
Context `{Backend}.

Lemma keeps_observations_set_export_rate k val :
  keeps_observations (set_export_rate k val).
Proof.
  intros u. unfold set_export_rate.
  destruct (_site_to_export_rate u !! k); [|done].
  by destruct (CpParameter_set_value _ _).
Qed.

Lemma keeps_observations_set_total_flux k val :
  keeps_observations (set_total_flux k val).
Proof.
  intros u. unfold set_total_flux.
  destruct (_site_to_total_flux u !! k); [|done].
  by destruct (ReciprocalParameter_set_value _ _).
Qed.

Lemma keeps_observations_export_rates rates :
  keeps_observations (_set_export_rate_parameters rates).
Proof.
  unfold _set_export_rate_parameters.
  repeat first
    [ apply keeps_observations_quiet_trans; [|intros ?]
    | apply keeps_observations_for_eachM; intros ?
    | apply keeps_observations_set_export_rate
    | by apply keeps_observations_pure
    | destruct (dict_truthy rates) | unfold bind_export_rate ].
Qed.

Lemma keeps_observations_total_flux :
  keeps_observations _set_total_flux_parameters.
Proof.
  unfold _set_total_flux_parameters.
  repeat first
    [ apply keeps_observations_quiet_trans; [|intros ?]
    | apply keeps_observations_for_eachM; intros ?
    | apply keeps_observations_set_total_flux
    | by apply keeps_observations_pure ].
Qed.

Lemma keeps_observations_after_binding (obs : list (string * Q)) rates
    strength solver :
  keeps_observations
    (let* _ := _set_export_rate_parameters rates in
     let* _ := _set_total_flux_parameters in
     let* u := mget in
     let* _ :=
       if negb (bool_decide (_regularizer_terms u = []))
          && not_strength strength
       then mraise (Exception "WARNING: Regularizer terms present but no strength assigned.")
       else mret tt in
     let* _ := solve_strength_setter strength in
     let* options := lift (solver_options solver) in
     let* _ := invoke_solver options in
     let obs_mean := geo_mean obs.*2 in
     let* u := mget in
     let* downstream_preds := lift (get_downstream_prediction_dictionary u) in
     let downstream_preds := np_scale obs_mean <$> downstream_preds in
     let* upstream_preds :=
       if continuous u then
         let* m := lift (get_upstream_prediction_map u) in
         mret (UpstreamMap (map (map (np_scale obs_mean)) m))
       else
         let* d := lift (get_upstream_prediction_dictionary u) in
         let* d := lift (scale_upstream obs_mean d) in
         mret (UpstreamDict d) in
     mret (downstream_preds, upstream_preds)).
Proof.
  apply keeps_observations_quiet_trans; [apply keeps_observations_export_rates|].
  intros _.
  apply keeps_observations_quiet_trans; [apply keeps_observations_total_flux|].
  intros _.
  apply keeps_observations_quiet_trans; [by apply keeps_observations_pure|].
  intros u0.
  apply keeps_observations_quiet_trans.
  { destruct (_ && _); by apply keeps_observations_pure. }
  intros _.
  apply keeps_observations_quiet_trans.
  { intros u. unfold solve_strength_setter.
    by destruct (CpParameter_set_value _ _). }
  intros _.
  apply keeps_observations_quiet_trans; [by apply keeps_observations_pure|].
  intros o.
  apply keeps_observations_quiet_trans.
  { intros u. unfold invoke_solver. destruct (_problem u); [|done].
    by destruct (cp_solve _ _ _). }
  intros _. cbv zeta.
  apply keeps_observations_quiet_trans; [by apply keeps_observations_pure|].
  intros u1.
  apply keeps_observations_quiet_trans; [by apply keeps_observations_pure|].
  intros d.
  apply keeps_observations_quiet_trans; [|intros ?; by apply keeps_observations_pure].
  destruct (continuous u1);
    repeat first
      [ apply keeps_observations_quiet_trans; [|intros ?]
      | by apply keeps_observations_pure ].
Qed.

Lemma ReciprocalParameter_set_ok x v x' :
  ReciprocalParameter_set_value x (Some v) = (Ok tt, x') →
  pvalue (p x') = Some v ∧ pvalue (rp x') = Some (1 / v).
Proof.
  unfold ReciprocalParameter_set_value, CpParameter_set_value, reciprocal.
  destruct (accepts (attributes (p x)) v); [|done].
  destruct (Qeq_bool v 0); [done|].
  destruct (accepts (attributes (rp x)) (1 / v)); [|done].
  intros E. by simplify_eq.
Qed.

Lemma bind_observation_ok m sv u u' :
  bind_observation m sv u = (Ok tt, u') →
  observation_bound sv.1 (sv.2 / m) u'.
Proof.
  unfold bind_observation. intros E.
  apply mseq_inv in E as (? & u1 & [= -> ->] & E).
  apply mseq_inv in E as ([] & u2 & E2 & E).
  assert (u2 = u1) as -> by (unfold lift in E2; by simplify_eq).
  unfold set_observation in E.
  destruct (_site_to_observation u1 !! sv.1) as [x|]; [|done].
  destruct (ReciprocalParameter_set_value x (Some (sv.2 / m))) as [r x'] eqn:Ex.
  simplify_eq. apply ReciprocalParameter_set_ok in Ex as [Hp Hrp].
  exists x'. cbn. by rewrite lookup_insert_eq.
Qed.

Lemma observation_loop_binds m (obs : list (string * Q)) u u' :
  NoDup obs.*1 →
  for_eachM (bind_observation m) obs u = (Ok tt, u') →
  ∀ s v, (s, v) ∈ obs → observation_bound s (v / m) u'.
Proof.
  revert u. induction obs as [|[k w] obs IH]; intros u Hnd E s v Hin;
    [by apply elem_of_nil in Hin|].
  rewrite fmap_cons, NoDup_cons in Hnd. destruct Hnd as [Hk Hnd].
  cbn [for_eachM] in E. apply mseq_inv in E as ([] & u1 & E1 & E).
  apply elem_of_cons in Hin as [Heq|Hin]; [|by eapply IH].
  simplify_eq. apply bind_observation_ok in E1. cbn [fst snd] in E1.
  eapply (for_eachM_inv (observation_bound k (w / m))); [|exact E1|exact E].
  intros [k' w'] u2 Hin' (x & Hx & Hp & Hrp). exists x.
  rewrite bind_observation_frame; [done|]. cbn. intros ->. apply Hk.
  by apply (list_elem_of_fmap_2 fst _ (k', w')).
Qed.
End observations_kept.

(** X24. When [solve] returns, every observed site holds, in its
    observation parameter, the observation divided by the geometric mean of
    all observations, and in the paired reciprocal parameter the reciprocal
    of that quotient. *)
Theorem solve_binds_normalised_observations `{Backend}
    (u : SampleNetworkUnmixer) (obs : list (string * Q))
    (rates : option (list (string * Q))) (strength : option Q)
    (solver : string) :
  NoDup obs.*1 →
  is_ok (solve obs rates strength solver u).1 = true →
  ∀ s v, (s, v) ∈ obs →
    ∃ x, _site_to_observation (solve obs rates strength solver u).2 !! s = Some x ∧
         pvalue (p x) = Some (v / geo_mean obs.*2) ∧
         pvalue (rp x) = Some (1 / (v / geo_mean obs.*2)).
Proof.
  intros Hnd Hok s v Hin.
  destruct (solve obs rates strength solver u) as [[r|e] u'] eqn:E; [|done].
  cbn [snd]. unfold solve in E.
  apply mseq_inv in E as ([] & u1 & E1 & E).
  pose proof (keeps_observations_after_binding obs rates strength solver u1) as Hk.
  cbv zeta in Hk, E. unfold solve_strength_setter in Hk.
  rewrite E in Hk. cbn [snd] in Hk. rewrite Hk.
  unfold _set_observation_parameters in E1. cbv zeta in E1.
  apply mseq_inv in E1 as (? & u2 & [= -> ->] & E1).
  apply mseq_inv in E1 as ([] & u3 & E3 & E1).
  apply mseq_inv in E1 as ([] & u4 & E4 & E1).
  apply mseq_inv in E1 as (? & u5 & [= -> ->] & E1).
  assert (u1 = u5) as -> by (unfold lift in E1; by simplify_eq).
  by apply (observation_loop_binds _ obs u3 u5 Hnd E4 s v Hin).
Qed.

Lemma solve_binds_normalised_observations_witness :
  ∃ u x, regularized_unmixer = Ok u ∧
    _site_to_observation
      (@solve test_backend uniform_observations None (Some 1) "ecos" u).2
      !! "b"%string = Some x ∧
    pvalue (p x) = Some (5 / 5) ∧ pvalue (rp x) = Some (1 / (5 / 5)).
Proof.
  destruct regularized_unmixer as [u|] eqn:E; [|vm_compute in E; discriminate E].
  destruct (@solve_binds_normalised_observations test_backend u
              uniform_observations None (Some 1) "ecos") with (s := "b"%string)
              (v := 5) as (x & Hx & Hp & Hrp).
  - by_evaluation.
  - vm_compute in E. injection E as <-. vm_compute. reflexivity.
  - right. left.
  - exists u, x. split; [reflexivity|]. split; [exact Hx|]. split; [exact Hp|exact Hrp].
Defined.

(** ** solve_montecarlo *)

Lemma append_all_lengths {V} (src : gmap string V) (ks : list string)
    (acc d : gmap string (list V)) :
  append_all src ks acc = Ok d → NoDup ks →
  ∀ s, length (default [] (d !! s)) =
       (length (default [] (acc !! s)) +
        if bool_decide (s ∈ ks) then 1 else 0)%nat.
Proof.
  unfold append_all. revert acc.
  induction ks as [|k ks IH]; intros acc E Hnd s; cbn [for_each] in E.
  { simplify_eq. rewrite bool_decide_false by (by intros ?%elem_of_nil). lia. }
  apply NoDup_cons in Hnd as [Hk Hnd].
  destruct (getitem src k) as [v|]; [|done]. cbn [rbind] in E.
  rewrite (IH _ E Hnd s). unfold append_to.
  destruct (decide (s = k)) as [->|Hne].
  - rewrite lookup_insert_eq. cbn [default from_option id].
    rewrite length_app. cbn [length].
    rewrite (bool_decide_false (k ∈ ks)) by done.
    rewrite (bool_decide_true (k ∈ k :: ks)) by left. lia.
  - rewrite lookup_insert_ne by done.
    rewrite (bool_decide_ext (s ∈ k :: ks) (s ∈ ks)); [done|].
    rewrite elem_of_cons. split; [by intros [?|?]|by right].
Qed.

Lemma downstream_dictionary_keys u d :
  get_downstream_prediction_dictionary u = Ok d →
  ∀ s, is_Some (d !! s) ↔ s ∈ node_list (sample_network u).
Proof.
  unfold get_downstream_prediction_dictionary. intros E s.
  assert (∀ (l : list string) (acc d : gmap string npfloat),
            for_each
              (fun predictions x =>
                 let! data := getitem (node_data (sample_network u)) x in
                 let! v :=
                   value_divide
                     (value (parameter_value u) (variable_values u)
                        (my_total_tracer_flux data))
                     (value (parameter_value u) (variable_values u)
                        (my_total_flux data)) in
                 Ok (<[x := v]> predictions))
              l acc = Ok d →
            is_Some (d !! s) ↔ s ∈ l ∨ is_Some (acc !! s)) as Hloop.
  { induction l as [|x l IH]; intros acc d' E'; cbn [for_each] in E'.
    - simplify_eq. split; [by right|]. by intros [?%elem_of_nil|?].
    - destruct (getitem _ x) as [data|]; [|done]. cbn [rbind] in E'.
      destruct (value_divide _ _) as [v|]; [|done]. cbn [rbind] in E'.
      rewrite (IH _ _ E'), elem_of_cons.
      destruct (decide (s = x)) as [->|Hne].
      + rewrite lookup_insert_eq. split; [by left; left|]. intros _. right. by eexists.
      + rewrite lookup_insert_ne by done. split.
        * intros [?|?]; [left; by right|by right].
        * intros [[?|?]|?]; [done|by left|by right]. }
  rewrite (Hloop _ _ _ E), lookup_empty. split; [|by left].
  intros [?|[? ?]]; done.
Qed.

Lemma NoDup_keys {V} (m : gmap string V) : NoDup (keys m).
Proof. apply NoDup_fst_map_to_list. Qed.

Section montecarlo.
Context `{Backend}.
Variable u0 : SampleNetworkUnmixer.
Variable noise : nat → nat → Q.
Variable observation_data : list (string * Q).
Variable regularization_strength : option Q.
Variable solver : string.

Lemma montecarlo_step k acc r v acc' v' :
  montecarlo_after u0 k acc v →
  (let* res :=
     solve (resample (noise r) observation_data) None
       regularization_strength solver in
   let* u := mget in
   lift (montecarlo_record (continuous u) acc res.1 res.2)) v = (Ok acc', v') →
  montecarlo_after u0 (S k) acc' v'.
Proof.
  intros (Hcalls & Hnet & Hcont & Hdowns & Hups) E.
  apply mseq_inv in E as ([down up] & v1 & Esolve & E).
  apply mseq_inv in E as (? & v2 & [= <- <-] & E).
  unfold lift in E. cbn [fst snd] in E.
  assert (v' = v1) as -> by (by simplify_eq).
  assert (montecarlo_record (continuous v1) acc down up = Ok acc') as Erec
    by (by simplify_eq).
  clear E.
  destruct (solve_ok_inv _ _ _ _ _ _ _ _ Esolve) as (Hc1 & d & Ed & Hdown).
  destruct (solve_returns _ _ _ _ _ _ _ _ Esolve) as (Hcont1 & _ & Hnet1 & Hup).
  assert (∀ s, s ∈ keys down ↔ s ∈ node_list (sample_network u0)) as Hkeys.
  { intros s. rewrite elem_of_keys, Hdown, lookup_fmap, <- Hnet, <- Hnet1.
    rewrite <- (downstream_dictionary_keys v1 d Ed s).
    by rewrite fmap_is_Some. }
  unfold montecarlo_record in Erec.
  destruct (append_all down (keys down) acc.1) as [downs|] eqn:Edowns; [|done].
  cbn [rbind] in Erec.
  pose proof (append_all_lengths _ _ _ _ Edowns (NoDup_keys down)) as Hlen.
  assert (∀ s, length (default [] (downs !! s)) =
               if bool_decide (s ∈ node_list (sample_network u0)) then S k
               else 0%nat) as Hdowns'.
  { intros s. rewrite Hlen, Hdowns.
    rewrite (bool_decide_ext _ _ (Hkeys s)). case_bool_decide; lia. }
  rewrite Hcont1, Hcont in Erec.
  split; [lia|]. split; [congruence|]. split; [congruence|].
  destruct (continuous u0) eqn:Hc0.
  - destruct Hups as (l & Hl & Hlen_l). rewrite Hl in Erec. cbn [rbind] in Erec.
    simplify_eq. cbn [fst snd]. split; [done|].
    eexists. split; [reflexivity|]. rewrite length_app. cbn. lia.
  - destruct Hups as (d0 & Hd0 & Hlen_d). rewrite Hd0 in Erec.
    rewrite Hcont in Hup.
    destruct Hup as (e0 & e & _ & _ & ->).
    destruct (keys down) as [|k0 ks] eqn:Eks.
    + cbn [rbind] in Erec. simplify_eq. cbn [fst snd]. split; [done|].
      exists d0. split; [done|]. intros s. rewrite Hlen_d.
      case_bool_decide as Hs; [|done].
      apply Hkeys in Hs. by apply elem_of_nil in Hs.
    + destruct (append_all e (k0 :: ks) d0) as [d1|] eqn:Eups; [|done].
      cbn [rbind] in Erec. simplify_eq. cbn [fst snd]. split; [done|].
      exists d1. split; [done|]. intros s.
      rewrite (append_all_lengths _ _ _ _ Eups); [|rewrite <- Eks; apply NoDup_keys].
      rewrite Hlen_d, (bool_decide_ext _ _ (Hkeys s)). case_bool_decide; lia.
Qed.

Lemma montecarlo_loop (len a k : nat) acc v acc' v' :
  montecarlo_after u0 k acc v →
  foldM
    (fun acc r =>
       let* res :=
         solve (resample (noise r) observation_data) None
           regularization_strength solver in
       let* u := mget in
       lift (montecarlo_record (continuous u) acc res.1 res.2))
    (seq a len) acc v = (Ok acc', v') →
  montecarlo_after u0 (k + len) acc' v'.
Proof.
  revert a k acc v. induction len as [|len IH]; intros a k acc v Hinv E.
  - cbn in E. unfold mret in E. simplify_eq. by rewrite Nat.add_0_r.
  - cbn [seq foldM] in E. apply mseq_inv in E as (acc1 & v1 & E1 & E).
    apply (montecarlo_step k acc a v acc1 v1 Hinv) in E1.
    replace (k + S len)%nat with (S k + len)%nat by lia.
    by eapply IH.
Qed.
End montecarlo.

(** X25. When [solve_montecarlo] returns after [num_repeats] repeats, the
    solver has been invoked once per repeat, the downstream result holds
    for every node of the network a list with one prediction per repeat and
    nothing for any other name; the upstream result is, when solving
    continuously, a list with one map per repeat, and otherwise a
    dictionary with, for every node, one value per repeat. *)
Theorem solve_montecarlo_counts `{Backend} (u : SampleNetworkUnmixer)
    (noise : nat → nat → Q) (obs : list (string * Q)) (num_repeats : Z)
    (strength : option Q) (solver : string)
    (downs : gmap string (list npfloat)) (ups : UpstreamMC)
    (u' : SampleNetworkUnmixer) :
  solve_montecarlo noise obs num_repeats strength solver u =
    (Ok (downs, ups), u') →
  solver_calls u' = (solver_calls u + Z.to_nat num_repeats)%nat ∧
  (∀ s, length (default [] (downs !! s)) =
        if bool_decide (s ∈ node_list (sample_network u))
        then Z.to_nat num_repeats else 0%nat) ∧
  if continuous u
  then ∃ l, ups = UpstreamSeries l ∧ length l = Z.to_nat num_repeats
  else ∃ d, ups = UpstreamPerSite d ∧
            ∀ s, length (default [] (d !! s)) =
                 if bool_decide (s ∈ node_list (sample_network u))
                 then Z.to_nat num_repeats else 0%nat.
Proof.
  unfold solve_montecarlo. intros E.
  apply mseq_inv in E as (? & u1 & [= -> ->] & E). cbv zeta in E.
  apply (montecarlo_loop u1 noise obs strength solver _ 0 0) in E.
  - destruct E as (Hc & _ & _ & Hd & Hu). cbn [fst snd] in *.
    split; [exact Hc|]. split; [exact Hd|exact Hu].
  - split; [lia|]. split; [done|]. split; [done|]. cbn [fst snd]. split.
    + intros s. rewrite lookup_empty. by case_bool_decide.
    + destruct (continuous u1).
      * by exists [].
      * exists ∅. split; [done|]. intros s. rewrite lookup_empty.
        by case_bool_decide.
Qed.

Lemma solve_montecarlo_counts_witness :
  ∃ u downs ups u',
    regularized_unmixer = Ok u ∧
    @solve_montecarlo test_backend (fun _ _ => 1) uniform_observations 2
      (Some 1) "ecos" u = (Ok (downs, ups), u') ∧
    solver_calls u' = (solver_calls u + 2)%nat ∧
    length (default [] (downs !! "c"%string)) = 2%nat.
Proof.
  destruct regularized_unmixer as [u|] eqn:E; [|vm_compute in E; discriminate E].
  destruct (@solve_montecarlo test_backend (fun _ _ => 1) uniform_observations 2
              (Some 1) "ecos" u) as [[[downs ups]|e] u'] eqn:Emc.
  2:{ vm_compute in E. injection E as <-. vm_compute in Emc. discriminate Emc. }
  destruct (@solve_montecarlo_counts test_backend u (fun _ _ => 1)
              uniform_observations 2 (Some 1) "ecos" downs ups u' Emc)
    as (Hc & Hd & _).
  exists u, downs, ups, u'. split; [reflexivity|]. split; [exact Emc|].
  split; [exact Hc|].
  rewrite Hd. vm_compute in E. injection E as <-. reflexivity.
Defined.

(** ** calculate_normalised_areas *)

Lemma Qsum_map_scale {A} (f : A → Q) (c : Q) (l : list A) :
  Qsum (map (fun a => f a * c) l) == Qsum (map f l) * c.
Proof.
  induction l as [|a l IH]; cbn [map]; rewrite ?Qsum_nil, ?Qsum_cons; [ring|].
  rewrite IH. ring.
Qed.

(** X26. On a network with a non-zero mean area,
    [calculate_normalised_areas] gives every node its area divided by the
    mean area, so that the relative areas have mean 1: they sum to the
    number of nodes. *)
Theorem relative_areas_have_mean_one (G : DiGraph) :
  well_formed G → ¬ mean_area_of G == 0 →
  ∃ G2, calculate_normalised_areas G = Ok G2 ∧
        (∀ x, x ∈ node_list G →
              rltv_area_of G2 x = area_of G x / mean_area_of G) ∧
        Qsum (map (rltv_area_of G2) (node_list G)) ==
        inject_Z (Z.of_nat (length (node_list G))).
Proof.
  intros Hwf Hm.
  destruct (calculate_normalised_areas_spec G Hwf) as (G2 & E & _ & _ & Hd).
  exists G2. split; [exact E|].
  assert (∀ x, x ∈ node_list G →
               rltv_area_of G2 x = area_of G x / mean_area_of G) as Hr.
  { intros x Hx. unfold rltv_area_of, area_of.
    rewrite Hd, bool_decide_true by done.
    destruct (well_formed_lookup G x Hwf Hx) as (d & -> & _). done. }
  split; [exact Hr|].
  rewrite (Qsum_map_ext _ (fun x => area_of G x * / mean_area_of G));
    [|intros x Hx; rewrite (Hr x Hx); reflexivity].
  rewrite Qsum_map_scale.
  assert (¬ inject_Z (Z.of_nat (length (node_list G))) == 0) as Hn.
  { intros Hz. apply Hm. unfold mean_area_of. rewrite Hz.
    unfold Qdiv. change (/ 0) with 0. ring. }
  unfold mean_area_of in *.
  set (S := Qsum (map (area_of G) (node_list G))) in *.
  set (n := inject_Z (Z.of_nat (length (node_list G)))) in *.
  field. split; [exact Hn|].
  intros HS. apply Hm. rewrite HS. field. exact Hn.
Qed.

Lemma relative_areas_have_mean_one_witness :
  ∃ G2, calculate_normalised_areas confluence = Ok G2 ∧
        rltv_area_of G2 "c" = 3 / mean_area_of confluence ∧
        Qsum (map (rltv_area_of G2) (node_list confluence)) == 3.
Proof.
  destruct (relative_areas_have_mean_one confluence confluence_well_formed)
    as (G2 & E & Hr & Hs).
  { vm_compute. intros Hd. discriminate Hd. }
  exists G2. split; [exact E|]. split.
  - rewrite (Hr "c"%string); [reflexivity|]. by_evaluation.
  - rewrite Hs. reflexivity.
Defined.

(** ** Witnesses on the confluence network *)

Lemma concentration_map_pixels_witness :
  ∃ out, get_upstream_concentration_map
           {["a"%string := [[true; false]]]} [("a"%string, 5)] = Ok out ∧
         ∃ q, at2 out 0 0 = Some q ∧ q == 5.
Proof.
  destruct (concentration_map_pixels 1 2 {["a"%string := [[true; false]]]}
              [("a"%string, 5)]) as (out & E & Hpix).
  - apply insert_non_empty.
  - intros s m [_ <-]%lookup_singleton_Some. split; [reflexivity|].
    repeat (apply Forall_cons; split; [reflexivity|]). apply Forall_nil_2.
  - intros s Hs. apply list_elem_of_singleton in Hs as ->.
    rewrite lookup_singleton_eq. by eexists.
  - exists out. split; [exact E|].
    destruct (Hpix 0%nat 0%nat) as (q & Hq & Heq); [lia|lia|].
    exists q. split; [exact Hq|]. rewrite Heq. vm_compute. reflexivity.
Defined.

Lemma InverseGrid_init_nodes_witness :
  ∃ g node, InverseGrid_init 2 2 quadrants confluence = Ok g ∧
            node_arr g !! (1, 0)%nat = Some node ∧
            concentration node = Some (Concentration 1 0) ∧
            top_neighbour node = Some (0, 0)%nat.
Proof.
  destruct (InverseGrid_init 2 2 quadrants confluence) as [g|] eqn:E;
    [|vm_compute in E; discriminate E].
  destruct (InverseGrid_init_nodes 2 2 quadrants confluence g E)
    as (Hx & Hy & _ & _ & _ & Hkeys & Hnode).
  destruct (proj2 (Hkeys 1%nat 0%nat)) as [node Hn]; [rewrite Hx, Hy; vm_compute; lia|].
  destruct (Hnode 1%nat 0%nat node Hn) as (Hc & _ & Ht & _).
  exists g, node. split; [reflexivity|]. split; [exact Hn|]. split; [exact Hc|].
  exact Ht.
Defined.

Lemma InverseGrid_sites_to_nodes_witness :
  ∃ g l, InverseGrid_init 2 2 quadrants confluence = Ok g ∧
         sites_to_nodes g !! "a"%string = Some l ∧ l ≠ [] ∧
         ∀ node, node ∈ l → sample_name node = "a"%string.
Proof.
  destruct (InverseGrid_init 2 2 quadrants confluence) as [g|] eqn:E;
    [|vm_compute in E; discriminate E].
  destruct (InverseGrid_sites_to_nodes 2 2 quadrants confluence g E)
    as (_ & Hsites).
  destruct (sites_to_nodes g !! "a"%string) as [l|] eqn:El.
  2:{ vm_compute in E. injection E as <-. vm_compute in El. discriminate El. }
  destruct (Hsites "a"%string l El) as [Hne Hall].
  exists g, l. split; [reflexivity|]. split; [exact El|]. split; [exact Hne|].
  intros node Hin. by destruct (Hall node Hin).
Defined.

Lemma painted_map_round_trip_witness :
  ∃ cmap, get_upstream_concentration_map confluence_areas
            confluence_concentrations = Ok cmap ∧
          tracer_mean_of confluence_areas cmap "b" == 20.
Proof.
  destruct (@painted_map_round_trip test_backend 3 confluence_labels confluence
              confluence_areas confluence_concentrations)
    as (cmap & E & Hmean & _).
  - repeat (apply Forall_cons; split; [reflexivity|]). apply Forall_nil_2.
  - intros s s' Hs Hs' Hl.
    repeat (apply elem_of_cons in Hs as [->|Hs]);
      try (by apply elem_of_nil in Hs);
      repeat (apply elem_of_cons in Hs' as [->|Hs']);
      try (by apply elem_of_nil in Hs');
      first [reflexivity | vm_compute in Hl; discriminate Hl].
  - discriminate.
  - unfold confluence_areas.
    destruct (get_unique_upstream_areas confluence_labels confluence) eqn:Ea;
      [reflexivity|vm_compute in Ea; discriminate Ea].
  - by_evaluation.
  - intros s Hs.
    repeat (apply elem_of_cons in Hs as [->|Hs]; [by_evaluation|]).
    by apply elem_of_nil in Hs.
  - exists cmap. split; [exact E|].
    apply (Hmean "b"%string 20 2%Z 0%nat 2%nat); [right; left|reflexivity|reflexivity].
Defined.

Lemma concentration_map_errors_witness :
  get_upstream_concentration_map ∅ [("a"%string, 5)] = Raise IndexError ∧
  get_upstream_concentration_map {["a"%string := [[true; false]]]}
    [("b"%string, 5)] = Raise KeyError.
Proof.
  split.
  - by apply (proj1 (concentration_map_errors 1 2 ∅ [("a"%string, 5)])).
  - apply (proj2 (concentration_map_errors 1 2
                    {["a"%string := [[true; false]]]} [("b"%string, 5)]))
      with (s := "b"%string).
    + apply insert_non_empty.
    + intros s m [_ <-]%lookup_singleton_Some. split; [reflexivity|].
      repeat (apply Forall_cons; split; [reflexivity|]). apply Forall_nil_2.
    + left.
    + reflexivity.
Defined.

Lemma unique_upstream_areas_masks_witness :
  ∃ areas, get_unique_upstream_areas confluence_labels confluence = Ok areas ∧
           in_mask areas "b" 0 2 = true ∧ in_mask areas "a" 0 2 = false.
Proof.
  destruct (proj1 (unique_upstream_areas_masks confluence_labels confluence))
    as (areas & E & _ & Hmask & _).
  { intros s Hs.
    repeat (apply elem_of_cons in Hs as [->|Hs]; [by eexists|]).
    by apply elem_of_nil in Hs. }
  exists areas. split; [exact E|]. split.
  - apply Hmask; [by_evaluation|]. by exists 2%Z.
  - destruct (in_mask areas "a" 0 2) eqn:Em; [|reflexivity].
    apply Hmask in Em as (l & Hl & Hlab); [|by_evaluation].
    vm_compute in Hl, Hlab. congruence.
Defined.
